(** * clone-site.mjs: the site mirroring pipeline

    A shallow embedding of the scraper module (fetch the entry page,
    collect and inline CSS, discover assets, download them, rewrite
    references) together with the properties its specification states.

    Conventions of the embedding:
    - a JavaScript string is a [string]; each [ascii] is one code unit, so
      the texts covered are those whose code units are below 256;
    - [undefined] is [None]; an exception is [Throw];
    - what the module takes from Node, axios, cheerio, mime-types and the
      network is gathered in one record [Env], over which every function
      of the module is parameterised. *)

From Stdlib Require Import String Ascii List ZArith NArith Lia Bool Arith PeanoNat.
From Stdlib Require Import DecimalString.
From Stdlib Require QArith Qround DecimalZ Finite.
Import ListNotations.
Open Scope list_scope.
Open Scope string_scope.
#[local] Set Warnings "-register-all".

(* ================================================================== *)
(** * JavaScript values and string primitives *)
(* ================================================================== *)

Module JS.

(** A completion: a value or a thrown exception with its message. *)
Inductive result (A : Type) : Type :=
| Ok (a : A)
| Throw (message : string).
Arguments Ok {A} a.
Arguments Throw {A} message.

Definition bind {A B} (r : result A) (k : A -> result B) : result B :=
  match r with
  | Ok a => k a
  | Throw m => Throw m
  end.

Definition is_ok {A} (r : result A) : bool :=
  match r with Ok _ => true | Throw _ => false end.

(** The double quote, the newline. *)
Definition dquote : ascii := "034"%char.
Definition nl : string := String "010"%char "".

(** [\s] of a regular expression, and what [trim] strips: TAB, LF, VT, FF,
    CR, SPACE and NBSP are the white space code units below 256. *)
Definition is_space (c : ascii) : bool :=
  let n := nat_of_ascii c in
  (((9 <=? n) && (n <=? 13)) || (n =? 32) || (n =? 160))%nat.

Fixpoint trim_start (s : string) : string :=
  match s with
  | String c s' => if is_space c then trim_start s' else s
  | EmptyString => EmptyString
  end.

Fixpoint trim_end (s : string) : string :=
  match s with
  | String c s' =>
      let t := trim_end s' in
      if is_space c && (t =? "") then "" else String c t
  | EmptyString => EmptyString
  end.

(** [s.trim()] *)
Definition trim (s : string) : string := trim_end (trim_start s).

(** Case mapping of one code unit. *)
Definition to_upper (c : ascii) : ascii :=
  let n := nat_of_ascii c in
  if (((97 <=? n) && (n <=? 122)) ||
      ((224 <=? n) && (n <=? 254) && negb (n =? 247)))%nat
  then ascii_of_nat (n - 32) else c.

Definition to_lower (c : ascii) : ascii :=
  let n := nat_of_ascii c in
  if (((65 <=? n) && (n <=? 90)) ||
      ((192 <=? n) && (n <=? 222) && negb (n =? 215)))%nat
  then ascii_of_nat (n + 32) else c.

(** [s.toLowerCase()] *)
Fixpoint toLowerCase (s : string) : string :=
  match s with
  | String c s' => String (to_lower c) (toLowerCase s')
  | EmptyString => EmptyString
  end.

(** Equality of two code units, under the [i] flag when [ci] is set. *)
Definition chr_eq (ci : bool) (c d : ascii) : bool :=
  if ci then Ascii.eqb (to_upper c) (to_upper d) else Ascii.eqb c d.

(** [strip_prefix ci p s]: the rest of [s] after its prefix [p]. *)
Fixpoint strip_prefix (ci : bool) (p s : string) : option string :=
  match p, s with
  | EmptyString, _ => Some s
  | String c p', String d s' =>
      if chr_eq ci c d then strip_prefix ci p' s' else None
  | String _ _, EmptyString => None
  end.

Definition starts_with (ci : bool) (p s : string) : bool :=
  match strip_prefix ci p s with Some _ => true | None => false end.

(** [s.slice(0, n)] and [s.slice(n)] for [0 <= n]. *)
Fixpoint take (n : nat) (s : string) : string :=
  match n, s with
  | S n', String c s' => String c (take n' s')
  | _, _ => EmptyString
  end.

Fixpoint drop (n : nat) (s : string) : string :=
  match n, s with
  | S n', String _ s' => drop n' s'
  | _, _ => s
  end.

(** [find_sub ci pat s]: the text before and after the first occurrence of
    [pat] in [s] ([s.indexOf(pat)] when [ci] is off). *)
Fixpoint find_sub (ci : bool) (pat s : string) : option (string * string) :=
  match strip_prefix ci pat s with
  | Some rest => Some (EmptyString, rest)
  | None =>
      match s with
      | EmptyString => None
      | String c s' =>
          match find_sub ci pat s' with
          | Some (b, a) => Some (String c b, a)
          | None => None
          end
      end
  end.

(** [/pat/.test(s)] for a pattern without metacharacters ([/pat/i] when
    [ci] is set). *)
Definition includes (ci : bool) (pat s : string) : bool :=
  match find_sub ci pat s with Some _ => true | None => false end.

(** [s.endsWith(p)] *)
Definition endsWith (p s : string) : bool :=
  (String.length p <=? String.length s)%nat &&
  (drop (String.length s - String.length p) s =? p).

(** [GetSubstitution] of ECMAScript for a string pattern (no capture): the
    [$] patterns [$$], [$&], [$`] and [$'] of a replacement text. *)
Fixpoint get_substitution (matched before after rep : string) : string :=
  match rep with
  | EmptyString => EmptyString
  | String "$" (String "$" r) =>
      String "$" (get_substitution matched before after r)
  | String "$" (String "&" r) =>
      matched ++ get_substitution matched before after r
  | String "$" (String "`" r) =>
      before ++ get_substitution matched before after r
  | String "$" (String "'" r) =>
      after ++ get_substitution matched before after r
  | String c r => String c (get_substitution matched before after r)
  end.

(** [s.replace(pat, rep)] with a string pattern: the first occurrence. *)
Definition replace_first (pat rep s : string) : string :=
  match find_sub false pat s with
  | Some (before, after) =>
      before ++ get_substitution pat before after rep ++ after
  | None => s
  end.

(** [s.split(pat).join(rep)]: every occurrence of [pat], left to right,
    nothing interpreted in [rep]; an empty [pat] splits between any two
    code units. *)
Fixpoint replace_all_from (pat rep : string) (s : string) (skip : nat) : string :=
  match s with
  | EmptyString => EmptyString
  | String c s' =>
      match skip with
      | S k => replace_all_from pat rep s' k
      | O =>
          if starts_with false pat s
          then rep ++ replace_all_from pat rep s' (String.length pat - 1)
          else String c (replace_all_from pat rep s' 0)
      end
  end.

Fixpoint interleave (rep s : string) : string :=
  match s with
  | String c (String _ _ as s') => String c (rep ++ interleave rep s')
  | _ => s
  end.

Definition split_join (pat rep s : string) : string :=
  match pat with
  | EmptyString => interleave rep s
  | _ => replace_all_from pat rep s 0
  end.

(** [s.split(c)] for a one-character separator. *)
Fixpoint split_on (c : ascii) (s : string) : list string :=
  match s with
  | EmptyString => [EmptyString]
  | String d s' =>
      if Ascii.eqb d c then EmptyString :: split_on c s'
      else match split_on c s' with
           | h :: t => String d h :: t
           | [] => [String d EmptyString]
           end
  end.

(** [parts.join(sep)] *)
Fixpoint join (sep : string) (parts : list string) : string :=
  match parts with
  | [] => EmptyString
  | [p] => p
  | p :: rest => p ++ sep ++ join sep rest
  end.

(** The text up to the first white space: [t.split(/\s+/)[0]] when [t] has
    no leading white space. *)
Fixpoint first_word (t : string) : string :=
  match t with
  | String c t' => if is_space c then EmptyString else String c (first_word t')
  | EmptyString => EmptyString
  end.

Fixpoint after_word (t : string) : string :=
  match t with
  | String c t' => if is_space c then t else after_word t'
  | EmptyString => EmptyString
  end.

(** [t.split(/\s+/, 2)] for a trimmed [t]: the first word, and the second
    when there is one. *)
Definition split_ws2 (t : string) : string * option string :=
  let u := first_word t in
  let rest := trim_start (after_word t) in
  (u, match rest with EmptyString => None | _ => Some (first_word rest) end).

(** Truthiness of a string-or-undefined, [a || b], and [String(v)]. *)
Definition truthy (v : option string) : bool :=
  match v with
  | Some (String _ _) => true
  | _ => false
  end.

Definition or_else (a b : option string) : option string :=
  if truthy a then a else b.

Definition to_string (v : option string) : string :=
  match v with Some s => s | None => "undefined" end.

(** [array.push(x)] *)
Definition push {A : Type} (l : list A) (x : A) : list A := (l ++ [x])%list.

(** A JavaScript [Set] of strings: insertion order, no repetition. *)
Definition set_has (x : string) (s : list string) : bool :=
  existsb (String.eqb x) s.

Definition set_add (x : string) (s : list string) : list string :=
  if set_has x s then s else push s x.

(** A JavaScript [Map] from strings to strings: [set] keeps the position of
    a key that is already there. *)
Fixpoint map_get (k : string) (m : list (string * string)) : option string :=
  match m with
  | [] => None
  | (k', v) :: m' => if String.eqb k k' then Some v else map_get k m'
  end.

Fixpoint map_set (k v : string) (m : list (string * string)) : list (string * string) :=
  match m with
  | [] => [(k, v)]
  | (k', v') :: m' =>
      if String.eqb k k' then (k, v) :: m' else (k', v') :: map_set k v m'
  end.

(** [`${n}`] for an integer. *)
Definition string_of_Z (z : Z) : string := NilZero.string_of_int (Z.to_int z).

End JS.

(* ================================================================== *)
(** * SHA-1 (node:crypto)

    [sha1Short] keeps eight hexadecimal digits of the SHA-1 digest of a
    URL; the digest is computed here as FIPS 180-4 defines it. *)
(* ================================================================== *)

Module Sha1.
Local Open Scope N_scope.

Definition mask32 : N := 4294967295.
Definition add32 (x y : N) : N := N.land (x + y) mask32.
Definition rotl (n x : N) : N :=
  N.land (N.lor (N.shiftl x n) (N.shiftr x (32 - n))) mask32.
Definition not32 (x : N) : N := N.lxor x mask32.

(** The UTF-8 bytes of a text whose code units are below 256. *)
Fixpoint utf8 (s : string) : list N :=
  match s with
  | EmptyString => []
  | String c s' =>
      let n := N_of_ascii c in
      if n <? 128 then n :: utf8 s'
      else N.lor 192 (N.shiftr n 6) :: N.lor 128 (N.land n 63) :: utf8 s'
  end.

Definition be_bytes (count : nat) (x : N) : list N :=
  map (fun i => N.land (N.shiftr x (8 * N.of_nat i)) 255) (rev (seq 0 count)).

(** The message, the byte 128, zeros up to 56 modulo 64, the bit length. *)
Definition pad (msg : list N) : list N :=
  let len := length msg in
  let zeros := ((64 + 55 - Nat.modulo len 64) mod 64)%nat in
  (msg ++ 128 :: repeat 0 zeros ++ be_bytes 8 (8 * N.of_nat len))%list.

Fixpoint be_words (fuel : nat) (bytes : list N) : list N :=
  match fuel, bytes with
  | S fuel', b0 :: b1 :: b2 :: b3 :: rest =>
      (N.shiftl b0 24 + N.shiftl b1 16 + N.shiftl b2 8 + b3) :: be_words fuel' rest
  | _, _ => []
  end.

(** The message schedule, latest word first. *)
Fixpoint expand (k : nat) (rw : list N) : list N :=
  match k with
  | O => rw
  | S k' =>
      let w := rotl 1 (N.lxor (N.lxor (nth 2 rw 0) (nth 7 rw 0))
                              (N.lxor (nth 13 rw 0) (nth 15 rw 0))) in
      expand k' (w :: rw)
  end.

Definition state : Type := N * N * N * N * N.

Definition round (st : state) (iw : nat * N) : state :=
  let '(a, b, c, d, e) := st in
  let '(i, w) := iw in
  let '(f, k) :=
    if (i <? 20)%nat then (N.lor (N.land b c) (N.land (not32 b) d), 1518500249)
    else if (i <? 40)%nat then (N.lxor (N.lxor b c) d, 1859775393)
    else if (i <? 60)%nat
      then (N.lor (N.lor (N.land b c) (N.land b d)) (N.land c d), 2400959708)
    else (N.lxor (N.lxor b c) d, 3395469782) in
  (add32 (add32 (add32 (add32 (rotl 5 a) f) e) k) w, a, rotl 30 b, c, d).

Definition compress (h : state) (block : list N) : state :=
  let w := rev (expand 64 (rev (be_words 16 block))) in
  let '(a, b, c, d, e) := fold_left round (combine (seq 0 80) w) h in
  let '(h0, h1, h2, h3, h4) := h in
  (add32 h0 a, add32 h1 b, add32 h2 c, add32 h3 d, add32 h4 e).

Fixpoint blocks (fuel : nat) (h : state) (bytes : list N) : state :=
  match fuel, bytes with
  | S fuel', _ :: _ => blocks fuel' (compress h (firstn 64 bytes)) (skipn 64 bytes)
  | _, _ => h
  end.

Definition hex_digit (n : N) : ascii :=
  ascii_of_N (if n <? 10 then 48 + n else 87 + n).

Definition hex_word (x : N) : string :=
  fold_right (fun i s => String (hex_digit (N.land (N.shiftr x (4 * N.of_nat i)) 15)) s)
    EmptyString (rev (seq 0 8)).

(** [crypto.createHash('sha1').update(s).digest('hex')] *)
Definition hex (s : string) : string :=
  let bytes := pad (utf8 s) in
  let '(h0, h1, h2, h3, h4) :=
    blocks (length bytes) (1732584193, 4023233417, 2562383102, 271733878, 3285377520)
      bytes in
  hex_word h0 ++ hex_word h1 ++ hex_word h2 ++ hex_word h3 ++ hex_word h4.

End Sha1.

(* ================================================================== *)
(** * Regular expressions

    The two global patterns of the module, [CSS_URL_RE] and [IMPORT_RE],
    are written in the syntax below and run by a backtracking matcher
    that tries alternatives in ECMAScript's order: a quantifier is greedy
    and gives characters back one at a time, [r?] tries [r] first. *)
(* ================================================================== *)

Module RegExp.
Import JS.

Inductive re : Type :=
| Str (s : string)             (* the characters of [s] *)
| Cls (p : ascii -> bool)      (* one character of a class *)
| Many (p : ascii -> bool)     (* [class*] *)
| Seq (r1 r2 : re)
| Opt (r : re)                 (* [r?] *)
| Grp (n : nat) (r : re)       (* capturing group number [n] *)
| Ref (n : nat).               (* back-reference [\n] *)

Definition captures := list (nat * string).

Fixpoint capture (n : nat) (cs : captures) : option string :=
  match cs with
  | [] => None
  | (k, v) :: cs' => if Nat.eqb n k then Some v else capture n cs'
  end.

Section Matcher.
Context {R : Type}.

(** [many p s k]: the longest run of [p] first, then shorter ones. *)
Fixpoint many (p : ascii -> bool) (s : string) (k : string -> option R) : option R :=
  match s with
  | String c s' =>
      if p c
      then match many p s' k with
           | Some x => Some x
           | None => k s
           end
      else k s
  | EmptyString => k s
  end.

(** [run ci r s cs k]: match [r] at the start of [s], then [k] on the rest. *)
Fixpoint run (ci : bool) (r : re) (s : string) (cs : captures)
    (k : string -> captures -> option R) : option R :=
  match r with
  | Str p =>
      match strip_prefix ci p s with
      | Some s' => k s' cs
      | None => None
      end
  | Cls p =>
      match s with
      | String c s' => if p c then k s' cs else None
      | EmptyString => None
      end
  | Many p => many p s (fun s' => k s' cs)
  | Seq r1 r2 => run ci r1 s cs (fun s1 cs1 => run ci r2 s1 cs1 k)
  | Opt r1 =>
      match run ci r1 s cs k with
      | Some x => Some x
      | None => k s cs
      end
  | Grp n r1 =>
      run ci r1 s cs
        (fun s1 cs1 => k s1 ((n, take (String.length s - String.length s1) s) :: cs1))
  | Ref n =>
      match capture n cs with
      | Some t =>
          match strip_prefix ci t s with
          | Some s' => k s' cs
          | None => None
          end
      | None => k s cs
      end
  end.

End Matcher.

(** One match at the start of [s]: the text left after it, and the groups. *)
Definition exec_at (ci : bool) (r : re) (s : string) : option (string * captures) :=
  run ci r s [] (fun s' cs => Some (s', cs)).

(** A text cut by the successive matches of a global pattern: the code
    units no match covers, and the matches with their groups. *)
Inductive segment : Type :=
| Chr (c : ascii)
| Tok (m : string) (cs : captures).

Definition raw (g : segment) : string :=
  match g with
  | Chr c => String c EmptyString
  | Tok m _ => m
  end.

(** The matches of [r.exec] called until it answers [null] (equally, those
    [s.replace(r, f)] visits), from left to right: after a match the search
    goes on at its end, one code unit further when the match is empty.
    [skip] counts the code units of the last match still to pass. *)
Fixpoint scan_from (ci : bool) (r : re) (s : string) (skip : nat) : list segment :=
  match s with
  | EmptyString =>
      match skip, exec_at ci r s with
      | O, Some (_, cs) => [Tok EmptyString cs]
      | _, _ => []
      end
  | String c s' =>
      match skip with
      | S k => scan_from ci r s' k
      | O =>
          match exec_at ci r s with
          | Some (rest, cs) =>
              match String.length s - String.length rest with
              | O => Tok EmptyString cs :: Chr c :: scan_from ci r s' 0
              | S k as n => Tok (take n s) cs :: scan_from ci r s' k
              end
          | None => Chr c :: scan_from ci r s' 0
          end
      end
  end.

Definition scan (ci : bool) (r : re) (s : string) : list segment :=
  scan_from ci r s 0.

(** [s.replace(r, f)] for a global [r] and a callback [f] that may update a
    state (the sets the callbacks of the module add to). *)
Fixpoint replace_segments {S : Type} (f : string -> captures -> S -> string * S)
    (gs : list segment) (st : S) : string * S :=
  match gs with
  | [] => (EmptyString, st)
  | Chr c :: gs' =>
      let '(out, st') := replace_segments f gs' st in (String c out, st')
  | Tok m cs :: gs' =>
      let '(rep, st1) := f m cs st in
      let '(out, st2) := replace_segments f gs' st1 in
      (rep ++ out, st2)
  end.

Definition replace {S : Type} (ci : bool) (r : re)
    (f : string -> captures -> S -> string * S) (s : string) (st : S) : string * S :=
  replace_segments f (scan ci r s) st.

Definition is_quote (c : ascii) : bool :=
  Ascii.eqb c "'" || Ascii.eqb c dquote.

(** The class of [CSS_URL_RE] and [IMPORT_RE]: any code unit but the two
    quotes and the closing parenthesis. *)
Definition not_quote_paren (c : ascii) : bool :=
  negb (is_quote c || Ascii.eqb c ")").

(** [[^;]] *)
Definition not_semicolon (c : ascii) : bool := negb (Ascii.eqb c ";").

Definition chain (rs : list re) : re := fold_right Seq (Str EmptyString) rs.

End RegExp.

(* ================================================================== *)
(** * The module's constants *)
(* ================================================================== *)

Import JS RegExp.

(** [/url\(\s*(['D]?)([^'D)]+)\1\s*\)/gi], writing D for the double quote. *)
Definition CSS_URL_RE : re :=
  chain [ Str "url("; Many is_space;
        Grp 1 (Opt (Cls is_quote));
        Grp 2 (Seq (Cls not_quote_paren) (Many not_quote_paren));
        Ref 1; Many is_space; Str ")" ].

(** [/@import\s+(?:url\()?[D']?([^D')]+)[D']?\)?[^;]*;/gi], writing D for the
    double quote. *)
Definition IMPORT_RE : re :=
  chain [ Str "@import"; Cls is_space; Many is_space;
        Opt (Str "url("); Opt (Cls is_quote);
        Grp 1 (Seq (Cls not_quote_paren) (Many not_quote_paren));
        Opt (Cls is_quote); Opt (Str ")");
        Many not_semicolon; Str ";" ].

(** Group [n] of a match, [''] when it took no part ([p || '']). *)
Definition group (n : nat) (cs : captures) : string :=
  match capture n cs with Some v => v | None => EmptyString end.

(* ================================================================== *)
(** * The parsed document (cheerio) *)
(* ================================================================== *)

Module Dom.
Import JS.

(** A parsed node. With parse5's script flag on, which is cheerio's
    default, the content of a [noscript] element is one [Text]. *)
Inductive node : Type :=
| Element (tag : string) (attrs : list (string * string)) (children : list node)
| Text (content : string).

Record element : Type := mkElement {
  el_tag : string;
  el_attrs : list (string * string);
  el_children : list node
}.

(** [$(el).attr(name)] and [$(el).attr(name, value)] *)
Definition attr (name : string) (e : element) : option string :=
  map_get name (el_attrs e).

Definition set_attr (name value : string) (e : element) : element :=
  mkElement (el_tag e) (map_set name value (el_attrs e)) (el_children e).

(** The attribute tests the selectors of the module use. *)
Inductive attr_test : Type :=
| Has (name : string)                (* [[name]] *)
| Equals (name value : string)       (* [[name=value]] *)
| Word (name value : string)         (* [[name~=value]] *)
| Contains (name value : string).    (* [[name*=value]] *)

(** A compound selector: an optional tag and attribute tests. *)
Record compound : Type := mkCompound {
  sel_tag : option string;
  sel_tests : list attr_test
}.

(** A selector list [c1, c2, ...]. *)
Definition selector : Type := list compound.

(** In an HTML document the values of some attributes are compared without
    regard to case; of the attributes the module selects on, [rel] is one. *)
Definition ignores_case (name : string) : bool := name =? "rel".

Definition str_eq (ci : bool) (a b : string) : bool :=
  match strip_prefix ci a b with
  | Some EmptyString => true
  | _ => false
  end.

(** The white-space separated words of an attribute value. *)
Fixpoint words_from (fuel : nat) (s : string) : list string :=
  match fuel with
  | O => []
  | S fuel' =>
      match trim_start s with
      | EmptyString => []
      | t => first_word t :: words_from fuel' (after_word t)
      end
  end.

Definition words (s : string) : list string := words_from (String.length s) s.

Definition test_holds (t : attr_test) (e : element) : bool :=
  match t with
  | Has n => match attr n e with Some _ => true | None => false end
  | Equals n v =>
      match attr n e with
      | Some a => str_eq (ignores_case n) v a
      | None => false
      end
  | Word n v =>
      match attr n e with
      | Some a => existsb (str_eq (ignores_case n) v) (words a)
      | None => false
      end
  | Contains n v =>
      match attr n e with
      | Some a => includes (ignores_case n) v a
      | None => false
      end
  end.

Definition compound_matches (c : compound) (e : element) : bool :=
  match sel_tag c with
  | Some t => el_tag e =? t
  | None => true
  end && forallb (fun t => test_holds t e) (sel_tests c).

Definition matches (sel : selector) (e : element) : bool :=
  existsb (fun c => compound_matches c e) sel.

(** The elements that satisfy [P], in document order. *)
Fixpoint pick_node (P : element -> bool) (n : node) : list element :=
  match n with
  | Element t a k =>
      (if P (mkElement t a k) then [mkElement t a k] else [])
      ++ flat_map (pick_node P) k
  | Text _ => []
  end.

Definition pick (P : element -> bool) (doc : list node) : list element :=
  flat_map (pick_node P) doc.

(** [$(sel)] *)
Definition select (sel : selector) (doc : list node) : list element :=
  pick (matches sel) doc.

(** An element that satisfies [P] is replaced by [f] of it: what a
    callback that only sets attributes of its element does. *)
Fixpoint alter_node (P : element -> bool) (f : element -> element) (n : node) : node :=
  match n with
  | Element t a k =>
      let e := mkElement t a k in
      let e' := if P e then f e else e in
      Element (el_tag e') (el_attrs e') (map (alter_node P f) k)
  | Text _ => n
  end.

(** [$(sel).each((_, el) => f(el))] *)
Definition update (sel : selector) (f : element -> element) (doc : list node) : list node :=
  map (alter_node (matches sel) f) doc.

(** The document without the elements that satisfy [P]. *)
Fixpoint drop_node (P : element -> bool) (n : node) : list node :=
  match n with
  | Element t a k =>
      if P (mkElement t a k) then []
      else [Element t a (flat_map (drop_node P) k)]
  | Text _ => [n]
  end.

(** [$(sel).remove()] *)
Definition remove (sel : selector) (doc : list node) : list node :=
  flat_map (drop_node (matches sel)) doc.

(** [$(tag).append(nodes)] and [$(tag).prepend(nodes)] *)
Fixpoint insert_node (at_end : bool) (t0 : string) (new : list node) (n : node) : node :=
  match n with
  | Element t a k =>
      let k' := map (insert_node at_end t0 new) k in
      Element t a
        (if t =? t0 then (if at_end then k' ++ new else new ++ k')%list else k')
  | Text _ => n
  end.

Definition append (t0 : string) (new : list node) (doc : list node) : list node :=
  map (insert_node true t0 new) doc.

Definition prepend (t0 : string) (new : list node) (doc : list node) : list node :=
  map (insert_node false t0 new) doc.

Definition by_tag (t : string) : compound := mkCompound (Some t) [].
Definition tag_with (t : string) (tests : list attr_test) : compound :=
  mkCompound (Some t) tests.
Definition any_with (tests : list attr_test) : compound :=
  mkCompound None tests.

End Dom.

(* ================================================================== *)
(** * The environment of the module *)
(* ================================================================== *)

Import Dom.

(** What [new URL(...)] gives: the properties the module reads. *)
Record URL : Type := mkURL {
  href : string;          (* [u.toString()] *)
  hostname : string;
  pathname : string
}.

(** An axios response (the client never rejects on a status:
    [validateStatus: () => true]). *)
Record Response : Type := mkResponse {
  status : Z;
  data : string;
  responseUrl : option string;       (* [res.request?.res?.responseUrl] *)
  content_type : option string       (* [res.headers['content-type']] *)
}.

Inductive HttpResult : Type :=
| NetworkError (message : string)    (* [client.get] rejects *)
| Responded (r : Response).

Record Env : Type := mkEnv {
  (** [new URL(input)] and [new URL(input, base)]; [None]: it throws. *)
  newURL : string -> option string -> option URL;
  (** [client.get(url, { headers: { Accept: accept } })] *)
  http_get : string -> string -> HttpResult;
  (** [mime.lookup] and [mime.extension]; [None]: they answer [false]. *)
  mime_lookup : string -> option string;
  mime_extension : string -> option string;
  (** [path.extname], [path.basename], [path.dirname] and [path.join] of
      two paths *)
  path_extname : string -> string;
  path_basename : string -> string;
  path_dirname : string -> string;
  path_join : string -> string -> string;
  (** [fs.mkdir(path, { recursive: true })] and [fs.writeFile(path, data)]
      as the run meets them, after it has written [n] files: [None] when
      the promise resolves, the message of the error when it rejects. *)
  fs_mkdir : nat -> string -> option string;
  fs_writeFile : nat -> string -> string -> option string;
  (** cheerio: [load(html)], the parse of a markup fragment handed to
      [prepend] or [append], [$(el).html()] and [$.html()]. *)
  cheerio_load : string -> list node;
  parse_fragment : string -> list node;
  inner_html : element -> option string;
  document_html : list node -> string
}.

(* ================================================================== *)
(** * The module, function by function *)
(* ================================================================== *)

Section Program.
Variable E : Env.

(** [new URL(input).toString()] and [new URL(input, base).toString()] *)
Definition absolute (input : string) (base : string) : option string :=
  option_map href (newURL E input (Some base)).

Definition parsed (input : string) : result URL :=
  match newURL E input None with
  | Some u => Ok u
  | None => Throw "Invalid URL"
  end.

(** ** Naming *)

(** [sha1(s).digest('hex').slice(0, 8)] *)
Definition sha1Short (s : string) : string := take 8 (Sha1.hex s).

Definition safe_char (c : ascii) : bool :=
  let n := nat_of_ascii c in
  (((97 <=? n) && (n <=? 122)) || ((65 <=? n) && (n <=? 90)) ||
   ((48 <=? n) && (n <=? 57)) || (n =? 46) || (n =? 95) || (n =? 45))%nat.

Fixpoint replace_unsafe (s : string) : string :=
  match s with
  | String c s' => String (if safe_char c then c else "_"%char) (replace_unsafe s')
  | EmptyString => EmptyString
  end.

Definition or_file (s : string) : string :=
  match s with EmptyString => "file" | _ => s end.

Definition sanitize (s : string) : string :=
  or_file (take 80 (replace_unsafe (or_file s))).

Definition has_dot (s : string) : bool := includes false "." s.

(** [s.replace(/\.[^.]+$/, '')] *)
Fixpoint strip_extension (s : string) : string :=
  match s with
  | String c s' =>
      if Ascii.eqb c "." && negb (s' =? "") && negb (has_dot s')
      then EmptyString
      else String c (strip_extension s')
  | EmptyString => EmptyString
  end.

Definition member (x : string) (l : list string) : bool :=
  existsb (String.eqb x) l.

Definition classifyByExtOrMime (urlStr contentType : string) : result string :=
  bind (parsed urlStr) (fun u =>
  let ext := toLowerCase (path_extname E (pathname u)) in
  let type :=
    to_string (or_else (or_else (Some contentType) (mime_lookup E ext)) (Some "")) in
  let isJS := (ext =? ".js") || includes false "javascript" type
              || includes false "ecmascript" type in
  let isFont := member ext [".woff"; ".woff2"; ".ttf"; ".otf"; ".eot"]
                || includes false "font" type || includes false "opentype" type
                || includes false "woff" type in
  let isImg := member ext [".png"; ".jpg"; ".jpeg"; ".gif"; ".webp"; ".svg";
                           ".ico"; ".bmp"; ".avif"]
               || includes false "image/" type in
  Ok (if isJS then "js" else if isFont then "fonts" else if isImg then "img"
      else "other")).

Definition ensureExt (urlStr contentType : string) : result string :=
  bind (parsed urlStr) (fun u =>
  let ext := path_extname E (pathname u) in
  Ok (if negb (ext =? "") then ext
      else match mime_extension E contentType with
           | Some (String _ _ as m) => "." ++ m
           | _ =>
               if includes false "image/" contentType then ".img"
               else if includes false "javascript" contentType then ".js"
               else if includes false "font" contentType
                       || includes false "woff" contentType
                       || includes false "opentype" contentType then ".woff"
               else ".bin"
           end)).

(** [path.posix.join('assets', folder, name)]: the folder is one of four
    words and the name holds no separator, so nothing is normalised. *)
Definition localPathForAsset (remoteUrl contentType : string) : result string :=
  bind (parsed remoteUrl) (fun u =>
  bind (classifyByExtOrMime remoteUrl contentType) (fun folder =>
  let base := or_file (sanitize (strip_extension (path_basename E (pathname u)))) in
  bind (ensureExt remoteUrl contentType) (fun ext =>
  let name := base ++ "-" ++ sha1Short remoteUrl ++ ext in
  Ok ("assets/" ++ folder ++ "/" ++ name)))).

(** ** Fetching *)

Definition ACCEPT_HTML : string :=
  "text/html,application/xhtml+xml,application/xml;q=0.9,*/*;q=0.8".
Definition ACCEPT_ANY : string := "*/*".

Definition not_2xx (r : Response) : bool :=
  (status r <? 200)%Z || (status r >=? 300)%Z.

(** [res.request?.res?.responseUrl || url] *)
Definition final_url (r : Response) (url : string) : string :=
  to_string (or_else (responseUrl r) (Some url)).

(** [res.headers['content-type'] || ''] *)
Definition header_content_type (r : Response) : string :=
  to_string (or_else (content_type r) (Some "")).

Record Page : Type := mkPage {
  page_html : string;
  page_finalUrl : string;
  page_contentType : string
}.

Definition fetchHTML (url : string) : result Page :=
  match http_get E ACCEPT_HTML url with
  | NetworkError m => Throw m
  | Responded res =>
      if not_2xx res
      then Throw ("Non-OK HTTP status " ++ string_of_Z (status res) ++ " for " ++ url)
      else
        let finalUrl := final_url res url in
        let html := data res in
        if html =? "" then Throw ("Empty HTML from " ++ finalUrl)
        else Ok (mkPage html finalUrl (header_content_type res))
  end.

Record Fetched : Type := mkFetched {
  body : string;
  finalUrl : string;
  contentType : string
}.

(** [fetchText] and [fetchBinary] differ in the response type asked of
    axios, which the embedding does not tell apart. *)
Definition fetchText (url : string) : result Fetched :=
  match http_get E ACCEPT_ANY url with
  | NetworkError m => Throw m
  | Responded res =>
      if not_2xx res
      then Throw ("Non-OK HTTP " ++ string_of_Z (status res) ++ " for " ++ url)
      else Ok (mkFetched (data res) (final_url res url) (header_content_type res))
  end.

Definition fetchBinary (url : string) : result Fetched := fetchText url.

(** ** CSS *)

(** [/^(data:|#|blob:)/i.test(val)] *)
Definition not_fetchable (val : string) : bool :=
  starts_with true "data:" val || starts_with true "#" val
  || starts_with true "blob:" val.

(** The callback of [rewriteCssUrlsToAbs]; [collect] is the asset set. *)
Definition css_url_to_abs (cssFileUrl : string) (m : string) (cs : captures)
    (collect : list string) : string * list string :=
  let val := trim (group 2 cs) in
  if not_fetchable val then ("url(" ++ val ++ ")", collect)
  else match absolute val cssFileUrl with
       | Some abs => ("url(" ++ abs ++ ")", set_add abs collect)
       | None => (m, collect)
       end.

Definition rewriteCssUrlsToAbs (css cssFileUrl : string) (collect : list string)
    : string * list string :=
  replace true CSS_URL_RE (css_url_to_abs cssFileUrl) css collect.

(** The sets [inlineCssImports] shares with its callers, and the list of
    the URLs it has asked [fetchText] for, in the order of the requests. *)
Record CssState : Type := mkCssState {
  visited : list string;
  cssAssets : list string;
  import_requests : list string
}.

(** What the loop over the matches of [IMPORT_RE] leaves: the imports to
    fetch, each with its rule and its absolute URL, and the replacements
    already known. *)
Record Scan : Type := mkScan {
  tasks : list (string * string);
  fallbacks : list (string * string)
}.

Definition scan_import (cssUrl : string) (acc : Scan * CssState) (g : segment)
    : Scan * CssState :=
  let '(sc, st) := acc in
  match g with
  | Chr _ => acc
  | Tok raw cs =>
      let href := group 1 cs in
      match absolute href cssUrl with
      | Some abs =>
          if set_has abs (visited st)
          then (mkScan (tasks sc)
                  (push (fallbacks sc)
                     (raw, "/* @import skipped (visited): " ++ abs ++ " */")),
                st)
          else (mkScan (push (tasks sc) (raw, abs)) (fallbacks sc),
                mkCssState (set_add abs (visited st)) (cssAssets st)
                  (push (import_requests st) abs))
      | None =>
          (mkScan (tasks sc)
             (push (fallbacks sc)
                (raw, "/* @import skipped (bad URL): " ++ href ++ " */")),
           st)
      end
  end.

Definition scan_imports (css cssUrl : string) (st : CssState) : Scan * CssState :=
  fold_left (scan_import cssUrl) (scan true IMPORT_RE css) (mkScan [] [], st).

Definition apply_replacements (results : list (string * string)) (css : string) : string :=
  fold_left (fun out r => replace_first (fst r) (snd r) out) results css.

(** The task started for an import that is to be fetched (the [async]
    function called on the spot), from the answer of [fetchText] on;
    [inline] is [inlineCssImports] at the depth below. *)
Definition import_task (inline : string -> string -> CssState -> string * CssState)
    (acc : list (string * string) * CssState) (t : string * string)
    : list (string * string) * CssState :=
  let '(done, s) := acc in
  let '(raw, abs) := t in
  match fetchText abs with
  | Ok f =>
      let '(rewritten, assets) :=
        rewriteCssUrlsToAbs (body f) (finalUrl f) (cssAssets s) in
      let '(inlined, s') :=
        inline rewritten (finalUrl f)
          (mkCssState (visited s) assets (import_requests s)) in
      (push done (raw, "/* @import inlined from " ++ finalUrl f ++ " */" ++ nl
                       ++ inlined ++ nl ++ "/* end import */"),
       s')
  | Throw message =>
      (push done (raw, "/* @import failed: " ++ abs ++ " (" ++ message ++ ") */"), s)
  end.

(** [inlineCssImports]. The tasks of one call are awaited together; they
    are run here in the order of their rules, each to its end, which is one
    of the orders in which the answers can come ([inlines] below has them
    all). *)
Fixpoint inlineCssImports (depth : nat) (css cssUrl : string) (st : CssState)
    : string * CssState :=
  match depth with
  | O => (css, st)
  | S depth' =>
      let '(sc, st1) := scan_imports css cssUrl st in
      let '(done, st2) :=
        fold_left (import_task (inlineCssImports depth')) (tasks sc) ([], st1) in
      (apply_replacements (done ++ fallbacks sc)%list css, st2)
  end.

(** *** The imports of a call, settling in any order

    A call starts the fetch of every import it is to inline before it
    awaits any of them ([Promise.all]), so the answers come in an order the
    module does not choose, and the tasks of one call resume between those
    of another. A task is awaiting its fetch, or has resumed and awaits the
    call one level down (whose text, tasks and known replacements it keeps),
    or has returned its replacement. *)
Inductive task : Type :=
| Pending (raw abs : string)
| Inlining (raw finalUrl css : string) (subtasks : list task)
    (fallbacks : list (string * string))
| Settled (raw rep : string).

(** A call up to its [await]: at depth 0 it returns at once; otherwise the
    loop over the rules has run, and every task has asked for its URL. *)
Definition pending (t : string * string) : task := Pending (fst t) (snd t).

Definition start_imports (depth : nat) (css cssUrl : string) (st : CssState)
    : list task * list (string * string) * CssState :=
  match depth with
  | O => ([], [], st)
  | S _ =>
      let '(sc, st1) := scan_imports css cssUrl st in
      (map pending (tasks sc), fallbacks sc, st1)
  end.

(** A task from the answer of [fetchText] to its next [await]; [depth] is
    the depth of the call it makes. *)
Definition resume (depth : nat) (raw abs : string) (st : CssState) : task * CssState :=
  match fetchText abs with
  | Ok f =>
      let '(rewritten, assets) :=
        rewriteCssUrlsToAbs (body f) (finalUrl f) (cssAssets st) in
      let '(ts, fb, st') :=
        start_imports depth rewritten (finalUrl f)
          (mkCssState (visited st) assets (import_requests st)) in
      (Inlining raw (finalUrl f) rewritten ts fb, st')
  | Throw message =>
      (Settled raw ("/* @import failed: " ++ abs ++ " (" ++ message ++ ") */"), st)
  end.

(** One fetch is answered, that of any task that awaits one, among the
    tasks of a call or of the calls below it. *)
Inductive settle : nat -> list task -> CssState -> list task -> CssState -> Prop :=
| settle_here depth before raw abs after st :
    settle depth (before ++ Pending raw abs :: after)%list st
      (before ++ fst (resume depth raw abs st) :: after)%list
      (snd (resume depth raw abs st))
| settle_below depth before raw url css ts fb after st ts' st' :
    settle (pred depth) ts st ts' st' ->
    settle depth (before ++ Inlining raw url css ts fb :: after)%list st
      (before ++ Inlining raw url css ts' fb :: after)%list st'.

Inductive settles (depth : nat) : nat -> list task -> CssState -> list task -> CssState -> Prop :=
| settles_refl ts st : settles depth 0 ts st ts st
| settles_next n ts st ts1 st1 ts2 st2 :
    settle depth ts st ts1 st1 -> settles depth n ts1 st1 ts2 st2 ->
    settles depth (S n) ts st ts2 st2.

(** What a task returns once no fetch is awaited below it, and the array
    [Promise.all] resolves to. *)
Fixpoint replacement (t : task) : option (string * string) :=
  match t with
  | Pending _ _ => None
  | Settled raw rep => Some (raw, rep)
  | Inlining raw finalUrl css ts fb =>
      match (fix all (l : list task) : option (list (string * string)) :=
               match l with
               | [] => Some []
               | t' :: l' =>
                   match replacement t', all l' with
                   | Some r, Some rs => Some (r :: rs)
                   | _, _ => None
                   end
               end) ts with
      | Some done =>
          Some (raw, "/* @import inlined from " ++ finalUrl ++ " */" ++ nl
                     ++ apply_replacements (done ++ fb)%list css ++ nl
                     ++ "/* end import */")
      | None => None
      end
  end.

Fixpoint replacements (ts : list task) : option (list (string * string)) :=
  match ts with
  | [] => Some []
  | t :: ts' =>
      match replacement t, replacements ts' with
      | Some r, Some rs => Some (r :: rs)
      | _, _ => None
      end
  end.

(** [inlineCssImports], whatever the order of the answers: the text it
    returns and the sets it leaves. *)
Inductive inlines (depth : nat) (css cssUrl : string) (st : CssState)
    : string -> CssState -> Prop :=
| inlines_run ts fb st1 n ts' st' done :
    start_imports depth css cssUrl st = (ts, fb, st1) ->
    settles (pred depth) n ts st1 ts' st' ->
    replacements ts' = Some done ->
    inlines depth css cssUrl st (apply_replacements (done ++ fb)%list css) st'.

(** [collectCssAndAssets]: one stylesheet after the other, then the inline
    blocks, all on the same two sets. *)
Definition is_css (f : Fetched) : bool :=
  includes true "text/css" (contentType f)
  || includes true ";charset=" (contentType f)
  || includes true "; charset=" (contentType f)
  || endsWith ".css" (finalUrl f).

Definition collect_stylesheet (acc : list string * CssState) (cssUrl : string)
    : list string * CssState :=
  let '(parts, st) := acc in
  match fetchText cssUrl with
  | Ok f =>
      if negb (is_css f)
      then (push parts ("/* Skipped non-CSS " ++ finalUrl f ++ " */"), st)
      else
        let '(css, assets) := rewriteCssUrlsToAbs (body f) (finalUrl f) (cssAssets st) in
        let '(css', st') :=
          inlineCssImports 2 css (finalUrl f)
            (mkCssState (visited st) assets (import_requests st)) in
        (push parts ("/* ===== CSS from " ++ finalUrl f ++ " ===== */" ++ nl ++ css' ++ nl),
         st')
  | Throw message =>
      (push parts ("/* Failed CSS " ++ cssUrl ++ ": " ++ message ++ " */"), st)
  end.

Definition collect_inline (acc : list string * CssState) (block : string * string)
    : list string * CssState :=
  let '(parts, st) := acc in
  let '(css, baseUrl) := block in
  let '(rew, assets) := rewriteCssUrlsToAbs css baseUrl (cssAssets st) in
  let '(rew', st') :=
    inlineCssImports 1 rew baseUrl
      (mkCssState (visited st) assets (import_requests st)) in
  (push parts ("/* ===== Inline <style> from " ++ baseUrl ++ " ===== */" ++ nl ++ rew' ++ nl),
   st').

Definition collect_css (stylesheetUrls : list string) (inlineBlocks : list (string * string))
    : list string * CssState :=
  fold_left collect_inline inlineBlocks
    (fold_left collect_stylesheet stylesheetUrls ([], mkCssState [] [] [])).

(** The same loops, with the imports settling in any order. *)
Inductive collects_stylesheet : list string * CssState -> string ->
    list string * CssState -> Prop :=
| stylesheet_failed parts st cssUrl message :
    fetchText cssUrl = Throw message ->
    collects_stylesheet (parts, st) cssUrl
      (push parts ("/* Failed CSS " ++ cssUrl ++ ": " ++ message ++ " */"), st)
| stylesheet_skipped parts st cssUrl f :
    fetchText cssUrl = Ok f -> is_css f = false ->
    collects_stylesheet (parts, st) cssUrl
      (push parts ("/* Skipped non-CSS " ++ finalUrl f ++ " */"), st)
| stylesheet_inlined parts st cssUrl f css' st' :
    fetchText cssUrl = Ok f -> is_css f = true ->
    inlines 2 (fst (rewriteCssUrlsToAbs (body f) (finalUrl f) (cssAssets st))) (finalUrl f)
      (mkCssState (visited st)
         (snd (rewriteCssUrlsToAbs (body f) (finalUrl f) (cssAssets st)))
         (import_requests st))
      css' st' ->
    collects_stylesheet (parts, st) cssUrl
      (push parts ("/* ===== CSS from " ++ finalUrl f ++ " ===== */" ++ nl ++ css' ++ nl),
       st').

Inductive collects_inline : list string * CssState -> string * string ->
    list string * CssState -> Prop :=
| inline_inlined parts st css baseUrl rew' st' :
    inlines 1 (fst (rewriteCssUrlsToAbs css baseUrl (cssAssets st))) baseUrl
      (mkCssState (visited st)
         (snd (rewriteCssUrlsToAbs css baseUrl (cssAssets st)))
         (import_requests st))
      rew' st' ->
    collects_inline (parts, st) (css, baseUrl)
      (push parts ("/* ===== Inline <style> from " ++ baseUrl ++ " ===== */" ++ nl
                   ++ rew' ++ nl),
       st').

(** A loop whose turns are related by [turn]. *)
Inductive each {A B : Type} (turn : B -> A -> B -> Prop) : list A -> B -> B -> Prop :=
| each_nil acc : each turn [] acc acc
| each_cons x l acc acc1 acc2 :
    turn acc x acc1 -> each turn l acc1 acc2 -> each turn (x :: l) acc acc2.

Inductive collects (stylesheetUrls : list string) (inlineBlocks : list (string * string))
    : list string * CssState -> Prop :=
| collects_all acc1 acc2 :
    each collects_stylesheet stylesheetUrls ([], mkCssState [] [] []) acc1 ->
    each collects_inline inlineBlocks acc1 acc2 ->
    collects stylesheetUrls inlineBlocks acc2.

Definition collectCssAndAssets (stylesheetUrls : list string)
    (inlineBlocks : list (string * string)) : string * list string :=
  let '(parts, st) := collect_css stylesheetUrls inlineBlocks in
  (join nl parts, cssAssets st).

(** ** Scraping the HTML *)

(** [link[rel~=stylesheet][href], link[rel=preload][as=style][href]] *)
Definition SEL_STYLE_LINKS : selector :=
  [ tag_with "link" [Word "rel" "stylesheet"; Has "href"];
    tag_with "link" [Equals "rel" "preload"; Equals "as" "style"; Has "href"] ].

Definition SEL_STYLE : selector := [by_tag "style"].

Definition extractStyles (html baseUrl : string) : list string * list string :=
  let doc := cheerio_load E html in
  let links :=
    fold_left
      (fun links el =>
         match attr "href" el with
         | Some (String _ _ as raw) =>
             match absolute raw baseUrl with
             | Some abs => set_add abs links
             | None => links
             end
         | _ => links
         end)
      (select SEL_STYLE_LINKS doc) [] in
  let inline :=
    fold_left
      (fun inline el =>
         let css := to_string (or_else (inner_html E el) (Some "")) in
         if negb (trim css =? "") then push inline css else inline)
      (select SEL_STYLE doc) [] in
  (links, inline).

(** [addAbs]: a URL that does not resolve is left out. *)
Definition addAbs (baseUrl : string) (u : option string) (assets : list string)
    : list string :=
  match absolute (to_string u) baseUrl with
  | Some abs => set_add abs assets
  | None => assets
  end.

(** The candidates of a [srcset] value: the first word of each item. *)
Definition add_srcset (baseUrl : string) (s : string) (assets : list string)
    : list string :=
  fold_left
    (fun assets item =>
       match first_word (trim item) with
       | String _ _ as u => addAbs baseUrl (Some u) assets
       | EmptyString => assets
       end)
    (split_on "," s) assets.

Definition SEL_NOSCRIPT : selector := [by_tag "noscript"].
Definition SEL_NOSCRIPT_SRC : selector :=
  [tag_with "img" [Has "src"]; tag_with "source" [Has "src"]].

(** Evaluating a name that no scope of the module binds: in an ES module
    (strict code) it throws a [ReferenceError]. *)
Definition unbound {A : Type} (name : string) : result A :=
  Throw (name ++ " is not defined").

(** The callback [parseNoscriptAssets] runs on each [noscript]. The second
    query is written [_$$('[srcset]')], and [_$$] is bound nowhere, so the
    statement throws before any [srcset] is read; no handler stands between
    it and the caller of [collectHtmlAssetUrls]. *)
Definition noscript_assets (baseUrl : string) (acc : result (list string)) (el : element)
    : result (list string) :=
  bind acc (fun assets =>
  match inner_html E el with
  | Some (String _ _ as html) =>
      let frag := cheerio_load E html in
      let assets :=
        fold_left
          (fun assets n =>
             match attr "src" n with
             | Some (String _ _ as u) =>
                 match absolute u baseUrl with
                 | Some abs => addAbs baseUrl (Some abs) assets
                 | None => assets
                 end
             | _ => assets
             end)
          (select SEL_NOSCRIPT_SRC frag) assets in
      bind (unbound "_$$") (fun with_srcset : list element =>
      Ok (fold_left
            (fun assets n =>
               match attr "srcset" n with
               | Some (String _ _ as s) =>
                   fold_left
                     (fun assets item =>
                        match first_word (trim item) with
                        | String _ _ as u =>
                            match absolute u baseUrl with
                            | Some abs => addAbs baseUrl (Some abs) assets
                            | None => assets
                            end
                        | EmptyString => assets
                        end)
                     (split_on "," s) assets
               | _ => assets
               end)
            with_srcset assets))
  | _ => Ok assets
  end).

Definition parseNoscriptAssets (doc : list node) (baseUrl : string) (assets : list string)
    : result (list string) :=
  fold_left (noscript_assets baseUrl) (select SEL_NOSCRIPT doc) (Ok assets).

Definition SEL_MEDIA : selector :=
  [ tag_with "img" [Has "src"]; tag_with "video" [Has "src"];
    tag_with "audio" [Has "src"]; tag_with "source" [Has "src"] ].
Definition SEL_SCRIPT : selector := [tag_with "script" [Has "src"]].
Definition SEL_LINK_ASSETS : selector :=
  [ tag_with "link" [Contains "rel" "icon"; Has "href"];
    tag_with "link" [Equals "rel" "apple-touch-icon"; Has "href"];
    tag_with "link" [Equals "as" "image"; Has "href"];
    tag_with "link" [Equals "rel" "manifest"; Has "href"] ].
Definition SEL_SRCSET : selector := [any_with [Has "srcset"]].
Definition SEL_DATA_SRCSET : selector := [any_with [Has "data-srcset"]].
Definition SEL_LAZY : selector :=
  [any_with [Has "data-src"]; any_with [Has "data-original"]; any_with [Has "data-lazy"]].
Definition SEL_STYLED : selector := [any_with [Has "style"]].

(** [data-src || data-original || data-lazy] *)
Definition lazy_source (el : element) : option string :=
  or_else (or_else (attr "data-src" el) (attr "data-original" el)) (attr "data-lazy" el).

Definition style_urls (baseUrl : string) (style : string) (assets : list string)
    : list string :=
  snd (replace true CSS_URL_RE
         (fun m cs assets =>
            let v := trim (group 2 cs) in
            if not_fetchable v then (m, assets)
            else (m, addAbs baseUrl (Some v) assets))
         style assets).

Definition collectHtmlAssetUrls (html baseUrl : string)
    : result (list node * list string) :=
  let doc := cheerio_load E html in
  let assets := [] in
  (* standard attributes *)
  let assets :=
    fold_left
      (fun assets el => addAbs baseUrl (or_else (attr "src" el) (attr "href" el)) assets)
      (select (SEL_MEDIA ++ SEL_SCRIPT ++ SEL_LINK_ASSETS)%list doc) assets in
  (* srcset *)
  let assets :=
    fold_left
      (fun assets el =>
         match attr "srcset" el with
         | Some (String _ _ as s) => add_srcset baseUrl s assets
         | _ => assets
         end)
      (select SEL_SRCSET doc) assets in
  (* data-src, data-original, data-lazy, data-srcset *)
  let assets :=
    fold_left
      (fun assets el =>
         let ds := lazy_source el in
         let assets := if truthy ds then addAbs baseUrl ds assets else assets in
         match attr "data-srcset" el with
         | Some (String _ _ as dss) => add_srcset baseUrl dss assets
         | _ => assets
         end)
      (select (SEL_LAZY ++ SEL_DATA_SRCSET)%list doc) assets in
  (* inline styles *)
  let assets :=
    fold_left
      (fun assets el =>
         style_urls baseUrl (to_string (or_else (attr "style" el) (Some ""))) assets)
      (select SEL_STYLED doc) assets in
  (* noscript *)
  bind (parseNoscriptAssets doc baseUrl assets) (fun assets =>
  Ok (doc, assets)).

(** ** Rewriting the HTML *)

Definition local_of (baseUrl : string) (urlToLocalRel : list (string * string))
    (v : string) : option string :=
  match absolute v baseUrl with
  | Some abs =>
      match map_get abs urlToLocalRel with
      | Some (String _ _ as loc) => Some loc
      | _ => None
      end
  | None => None
  end.

Definition setLocal (baseUrl : string) (urlToLocalRel : list (string * string))
    (name : string) (el : element) : element :=
  match attr name el with
  | Some (String _ _ as v) =>
      match local_of baseUrl urlToLocalRel v with
      | Some loc => set_attr name loc el
      | None => el
      end
  | _ => el
  end.

Definition adopt_lazy (baseUrl : string) (urlToLocalRel : list (string * string))
    (el : element) : element :=
  match local_of baseUrl urlToLocalRel (to_string (lazy_source el)) with
  | Some loc => if truthy (attr "src" el) then el else set_attr "src" loc el
  | None => el
  end.

Definition rewrite_srcset_item (baseUrl : string) (urlToLocalRel : list (string * string))
    (item : string) : string :=
  let '(u, d) := split_ws2 (trim item) in
  let out := match local_of baseUrl urlToLocalRel u with
             | Some loc => loc
             | None => u
             end in
  match d with
  | Some (String _ _ as d') => out ++ " " ++ d'
  | _ => out
  end.

Definition rewriteSrcset (baseUrl : string) (urlToLocalRel : list (string * string))
    (name : string) (el : element) : element :=
  match attr name el with
  | Some (String _ _ as old) =>
      set_attr name
        (join ", " (map (rewrite_srcset_item baseUrl urlToLocalRel) (split_on "," old))) el
  | _ => el
  end.

Definition rewrite_style (baseUrl : string) (urlToLocalRel : list (string * string))
    (el : element) : element :=
  let style := to_string (or_else (attr "style" el) (Some "")) in
  let rew :=
    fst (replace true CSS_URL_RE
           (fun m cs (_ : unit) =>
              let v := trim (group 2 cs) in
              if not_fetchable v then (m, tt)
              else match local_of baseUrl urlToLocalRel v with
                   | Some loc => ("url(" ++ loc ++ ")", tt)
                   | None => (m, tt)
                   end)
           style tt) in
  set_attr "style" rew el.

(** [link[rel~=stylesheet]] *)
Definition SEL_STYLESHEET : selector := [tag_with "link" [Word "rel" "stylesheet"]].

Definition quoted (s : string) : string := String dquote (s ++ String dquote "").
Definition HEAD_MARKUP : string := "<head></head>".
Definition STYLE_LINK_MARKUP : string :=
  "<link rel=" ++ quoted "stylesheet" ++ " href=" ++ quoted "style.css" ++ ">".

(** The element [STYLE_LINK_MARKUP] is the markup of. *)
Definition STYLE_LINK : node :=
  Element "link" [("rel", "stylesheet"); ("href", "style.css")] [].

Definition SEL_HEAD : selector := [by_tag "head"].

(** The document [rewriteHtmlReferencesToLocal] leaves in [$]. *)
Definition rewrite_document (doc : list node) (baseUrl : string)
    (urlToLocalRel : list (string * string)) : list node :=
  let doc := update SEL_MEDIA (setLocal baseUrl urlToLocalRel "src") doc in
  let doc := update SEL_SCRIPT (setLocal baseUrl urlToLocalRel "src") doc in
  let doc := update SEL_LINK_ASSETS (setLocal baseUrl urlToLocalRel "href") doc in
  let doc := update SEL_LAZY (adopt_lazy baseUrl urlToLocalRel) doc in
  let doc := update SEL_SRCSET (rewriteSrcset baseUrl urlToLocalRel "srcset") doc in
  let doc := update SEL_DATA_SRCSET (rewriteSrcset baseUrl urlToLocalRel "data-srcset") doc in
  let doc := update SEL_STYLED (rewrite_style baseUrl urlToLocalRel) doc in
  let doc := remove SEL_STYLESHEET doc in
  let doc := remove SEL_STYLE doc in
  let doc := match select SEL_HEAD doc with
             | [] => prepend "html" (parse_fragment E HEAD_MARKUP) doc
             | _ => doc
             end in
  append "head" (parse_fragment E STYLE_LINK_MARKUP) doc.

Definition rewriteHtmlReferencesToLocal (doc : list node) (baseUrl : string)
    (urlToLocalRel : list (string * string)) : string :=
  document_html E (rewrite_document doc baseUrl urlToLocalRel).

(** ** Downloading *)

Inductive Outcome : Type :=
| Downloaded (url finalUrl contentType buf : string)   (* [{ ok: true, ... }] *)
| Failed (url error : string).                         (* [{ ok: false, ... }] *)

(** One turn of the worker's loop body after it has taken [url]. *)
Definition download (url : string) : Outcome :=
  match fetchBinary url with
  | Ok f => Downloaded url (finalUrl f) (contentType f) (body f)
  | Throw message => Failed url message
  end.

(** The state [downloadWithConcurrency] shares between its workers: the
    counter [i], the array [out] (a hole is [None]), and for each worker
    the index whose download it awaits, [None] once it has returned. *)
Record Pool : Type := mkPool {
  next : nat;
  out : list (option Outcome);
  workers : list (option nat)
}.

Fixpoint write_at {A : Type} (i : nat) (x : A) (l : list A) : list A :=
  match l, i with
  | [], _ => []
  | _ :: l', O => x :: l'
  | y :: l', S i' => y :: write_at i' x l'
  end.

(** The head of the loop, [while (i < urls.length) { const idx = i++; ...]:
    the worker numbered [w] takes the next index or returns. *)
Definition enter (len : nat) (w : nat) (p : Pool) : Pool :=
  if (next p <? len)%nat
  then mkPool (S (next p)) (out p) (write_at w (Some (next p)) (workers p))
  else mkPool (next p) (out p) (write_at w None (workers p)).

(** [Math.min(limit, urls.length || 1)] workers, for an integer [limit]. *)
Definition worker_count (limit : Z) (len : nat) : nat :=
  Z.to_nat (Z.min limit (Z.of_nat (match len with O => 1 | _ => len end))).

(** [Array.from({ length }, worker)]: each worker runs up to its first
    [await] before the next one is started. *)
Definition start_workers (len k : nat) : Pool :=
  fold_left (fun p w => enter len w p) (seq 0 k)
    (mkPool 0 (repeat None len) (repeat None k)).

Definition start (urls : list string) (limit : Z) : Pool :=
  start_workers (length urls) (worker_count limit (length urls)).

(** One download settles, that of any worker that awaits one: the worker
    writes [out[idx]] and reaches the head of its loop again. *)
Inductive step (urls : list string) : Pool -> Pool -> Prop :=
| step_settle (p : Pool) (w idx : nat) :
    nth_error (workers p) w = Some (Some idx) ->
    step urls p
      (enter (length urls) w
         (mkPool (next p)
            (write_at idx (Some (download (nth idx urls ""))) (out p))
            (workers p))).

(** [await Promise.all(...)] resumes when every worker has returned. *)
Definition settled (p : Pool) : Prop :=
  Forall (fun w => w = None) (workers p).

Inductive steps (urls : list string) : nat -> Pool -> Pool -> Prop :=
| steps_refl (p : Pool) : steps urls 0 p p
| steps_next (n : nat) (p q r : Pool) :
    step urls p q -> steps urls n q r -> steps urls (S n) p r.

(** The array every run ends with when there is a worker. *)
Definition download_all (urls : list string) : list (option Outcome) :=
  map (fun url => Some (download url)) urls.

(** ** The main function *)

(** [/^https?:\/\//.test(u)] and, with the [i] flag, the test of
    [normalizeUrl]. *)
Definition is_http (ci : bool) (u : string) : bool :=
  starts_with ci "http://" u || starts_with ci "https://" u.

Definition normalizeUrl (input : string) : result string :=
  match newURL E (if is_http true input then input else "https://" ++ input) None with
  | Some u => Ok (href u)
  | None => Throw ("Invalid URL: " ++ input)
  end.

(** [Array.from(new Set(list))] *)
Definition dedupe (l : list string) : list string :=
  fold_left (fun s x => set_add x s) l [].

Definition all_asset_urls (htmlAssetUrls cssAssetUrls : list string) : list string :=
  dedupe (filter (is_http false) (htmlAssetUrls ++ cssAssetUrls)%list).

(** An awaited call of [fs]: it rejects with the message, or resolves. *)
Definition fs_call (answer : option string) : result unit :=
  match answer with
  | Some message => Throw message
  | None => Ok tt
  end.

(** What the loop over the results builds: the map, the files written
    (path below the output folder, content), and the two counters; [ok] is
    also the number of files the run has written so far. *)
Record Saved : Type := mkSaved {
  urlToLocalRel : list (string * string);
  files : list (string * string);
  ok_count : nat;
  fail_count : nat
}.

(** [r.finalUrl || r.url] *)
Definition saved_under (url finalUrl : string) : string :=
  to_string (or_else (Some finalUrl) (Some url)).

(** One turn of the loop over the results, for the output folder
    [folder]: the path, the two keys, the directory, the file. *)
Definition save_result (folder : string) (acc : result Saved) (r : option Outcome)
    : result Saved :=
  bind acc (fun sv =>
  match r with
  | Some (Downloaded url finalUrl contentType buf) =>
      let key := saved_under url finalUrl in
      bind (localPathForAsset key contentType) (fun localRel =>
      let map := map_set url localRel (map_set key localRel (urlToLocalRel sv)) in
      let abs := path_join E folder localRel in
      bind (fs_call (fs_mkdir E (ok_count sv) (path_dirname E abs))) (fun _ =>
      bind (fs_call (fs_writeFile E (ok_count sv) abs buf)) (fun _ =>
      Ok (mkSaved map (push (files sv) (localRel, buf))
            (S (ok_count sv)) (fail_count sv)))))
  | _ => Ok (mkSaved (urlToLocalRel sv) (files sv) (ok_count sv) (S (fail_count sv)))
  end).

Definition save_results (folder : string) (results : list (option Outcome))
    : result Saved :=
  fold_left (save_result folder) results (Ok (mkSaved [] [] 0 0)).

Definition localize_css (urlToLocalRel : list (string * string)) (cssText : string)
    : string :=
  fold_left (fun css e => split_join (fst e) (snd e) css) urlToLocalRel cssText.

(** What a run leaves in the output folder: [index.html], [style.css]
    and the files of the assets (path below the folder, content). *)
Record Site : Type := mkSite {
  index_html : string;
  style_css : string;
  asset_files : list (string * string)
}.

(** Steps 2 to 9 of [main], from the fetched page on, for the output
    folder [folder]; the log lines are left out. The pool is given at
    least one worker by [parseArgs], so [results] is [download_all]. *)
Definition clone_page (folder : string) (page : Page) : result Site :=
  let '(stylesheetUrls, inlineCssBlocks) :=
    extractStyles (page_html page) (page_finalUrl page) in
  let inlineTagged := map (fun css => (css, page_finalUrl page)) inlineCssBlocks in
  bind (collectHtmlAssetUrls (page_html page) (page_finalUrl page))
    (fun '(doc, htmlAssetUrls) =>
  let '(cssText, cssAssetUrls) := collectCssAndAssets stylesheetUrls inlineTagged in
  let allAssetUrls := all_asset_urls htmlAssetUrls cssAssetUrls in
  bind (fs_call (fs_mkdir E 0 folder)) (fun _ =>
  let results := download_all allAssetUrls in
  bind (save_results folder results) (fun sv =>
  let localCss := localize_css (urlToLocalRel sv) cssText in
  let finalHtml := rewriteHtmlReferencesToLocal doc (page_finalUrl page) (urlToLocalRel sv) in
  bind (fs_call (fs_writeFile E (ok_count sv) (path_join E folder "index.html") finalHtml))
    (fun _ =>
  bind (fs_call (fs_writeFile E (S (ok_count sv)) (path_join E folder "style.css") localCss))
    (fun _ =>
  Ok (mkSite finalHtml localCss (files sv))))))).

(** [main] from the URL on, for the folder [uniqueFolderName] has
    returned ([setup] below has the steps before). *)
Definition main (folder : string) (rawUrl : string) : result Site :=
  bind (normalizeUrl rawUrl) (fun url =>
  bind (fetchHTML url) (clone_page folder)).

End Program.

(* ================================================================== *)
(** * Numbers

    A JavaScript number as far as the command line needs one: [NaN], the
    two infinities, or a finite value (a rational stands for the double
    with that value; the two zeros are one). *)
(* ================================================================== *)

Module Num.

Inductive number : Type :=
| NaN
| Infinity (negative : bool)
| Finite (q : QArith_base.Q).

Definition of_Z (z : Z) : number := Finite (QArith_base.inject_Z z).

(** Truthiness: every number but [NaN] and zero. *)
Definition truthy (x : number) : bool :=
  match x with
  | NaN => false
  | Infinity _ => true
  | Finite q => negb (QArith_base.Qeq_bool q (QArith_base.inject_Z 0))
  end.

(** [a || b] *)
Definition or_else (a b : number) : number := if truthy a then a else b.

(** [a <= b], false when either is [NaN]. *)
Definition leb (a b : number) : bool :=
  match a, b with
  | NaN, _ | _, NaN => false
  | Infinity true, _ => true
  | _, Infinity false => true
  | Infinity false, _ => false
  | _, Infinity true => false
  | Finite p, Finite q => QArith_base.Qle_bool p q
  end.

(** [Math.max(a, b)] and [Math.min(a, b)] *)
Definition max (a b : number) : number :=
  match a, b with
  | NaN, _ | _, NaN => NaN
  | _, _ => if leb a b then b else a
  end.

Definition min (a b : number) : number :=
  match a, b with
  | NaN, _ | _, NaN => NaN
  | _, _ => if leb a b then a else b
  end.

(** [ToLength]: the integer part, kept between 0 and 2^53 - 1. *)
Definition to_length (x : number) : Z :=
  match x with
  | NaN => 0
  | Infinity true => 0
  | Infinity false => 9007199254740991
  | Finite q => Z.max 0 (Z.min (Qround.Qfloor q) 9007199254740991)
  end.

End Num.

(* ================================================================== *)
(** * The module: output folder, command line, HTTP client *)
(* ================================================================== *)

(** A call that may end the process: [process.exit(code)] after the
    message, if any, has been printed. *)
Inductive exit_or (A : Type) : Type :=
| Returned (a : A)
| Exited (code : Z) (error : option string).
Arguments Returned {A} a.
Arguments Exited {A} code error.

Section Surroundings.
Variable E : Env.

(** [Number(s)] for a text [s], and [new URL(s).origin] ([None]: it
    throws). *)
Variable to_number : string -> Num.number.
Variable url_origin : string -> option string.

(** ** The output folder *)

Definition folderNameFromUrl (urlStr : string) : result string :=
  bind (parsed E urlStr) (fun u =>
  let host := to_string (or_else (Some (hostname u)) (Some "site")) in
  let root := match strip_prefix true "www." host with
              | Some rest => rest
              | None => host
              end in
  Ok (to_string (or_else (Some (hd EmptyString (split_on "." root))) (Some "site")))).

(** The loop of [uniqueFolderName] from a name on; [fs] lists the names
    [fs.access] resolves for, [i] is the next suffix. [None]: the loop has
    not returned within [fuel] turns. *)
Fixpoint probe (fuel : nat) (fs : list string) (base name : string) (i : nat)
    : option string :=
  match fuel with
  | O => None
  | S fuel' =>
      if set_has name fs
      then probe fuel' fs base (base ++ "-" ++ string_of_Z (Z.of_nat i)) (S i)
      else Some name
  end.

Definition uniqueFolderName (fuel : nat) (fs : list string) (base : string)
    : option string :=
  probe fuel fs base base 1.

(** ** The command line *)

Record Flags : Type := mkFlags {
  flag_url : option string;
  flag_outdir : option string;
  flag_ua : option string;
  flag_timeout : option Num.number;     (* [null] at first *)
  flag_concurrency : Num.number;
  flag_verbose : bool
}.

Definition DEFAULT_FLAGS : Flags := mkFlags None None None None (Num.of_Z 8) false.

(** [printHelpAndExit(msg)] *)
Definition printHelpAndExit {A : Type} (msg : option string) : exit_or A :=
  Exited (if truthy msg then 1 else 0) msg.

(** [Number(args[++i])], the argument being [undefined] past the end. *)
Definition Number (v : option string) : Num.number :=
  match v with
  | Some s => to_number s
  | None => Num.NaN
  end.

(** The loop of [parseArgs] from the argument [a] on; a flag that takes a
    value reads the next argument, [undefined] when there is none. *)
Fixpoint parse_from (args : list string) (flags : Flags) : exit_or Flags :=
  match args with
  | [] => Returned flags
  | a :: rest =>
      if negb (starts_with false "--" a) && negb (truthy (flag_url flags))
      then parse_from rest
             (mkFlags (Some a) (flag_outdir flags) (flag_ua flags) (flag_timeout flags)
                (flag_concurrency flags) (flag_verbose flags))
      else if a =? "--outdir"
      then (fun flags' =>
              match rest with
              | _ :: rest' => parse_from rest' flags'
              | [] => Returned flags'
              end)
             (mkFlags (flag_url flags) (hd_error rest) (flag_ua flags) (flag_timeout flags)
                (flag_concurrency flags) (flag_verbose flags))
      else if a =? "--ua"
      then (fun flags' =>
              match rest with
              | _ :: rest' => parse_from rest' flags'
              | [] => Returned flags'
              end)
             (mkFlags (flag_url flags) (flag_outdir flags) (hd_error rest)
                (flag_timeout flags) (flag_concurrency flags) (flag_verbose flags))
      else if a =? "--timeout"
      then (fun flags' =>
              match rest with
              | _ :: rest' => parse_from rest' flags'
              | [] => Returned flags'
              end)
             (mkFlags (flag_url flags) (flag_outdir flags) (flag_ua flags)
                (Some (Number (hd_error rest))) (flag_concurrency flags)
                (flag_verbose flags))
      else if a =? "--concurrency"
      then (fun flags' =>
              match rest with
              | _ :: rest' => parse_from rest' flags'
              | [] => Returned flags'
              end)
             (mkFlags (flag_url flags) (flag_outdir flags) (flag_ua flags)
                (flag_timeout flags)
                (Num.max (Num.of_Z 1) (Num.or_else (Number (hd_error rest)) (Num.of_Z 8)))
                (flag_verbose flags))
      else if (a =? "--verbose") || (a =? "-v")
      then parse_from rest
             (mkFlags (flag_url flags) (flag_outdir flags) (flag_ua flags)
                (flag_timeout flags) (flag_concurrency flags) true)
      else if (a =? "--help") || (a =? "-h")
      then printHelpAndExit None
      else parse_from rest flags
  end.

(** [parseArgs(argv)]: the arguments after the first two. *)
Definition parseArgs (argv : list string) : exit_or Flags :=
  match parse_from (skipn 2 argv) DEFAULT_FLAGS with
  | Returned flags =>
      if truthy (flag_url flags) then Returned flags
      else printHelpAndExit (Some "Missing URL")
  | Exited code error => Exited code error
  end.

(** ** The HTTP client *)

Definition DEFAULT_UA : string :=
  "Mozilla/5.0 (Windows NT 10.0; Win64; x64) AppleWebKit/537.36 (KHTML, like Gecko) Chrome/120 Safari/537.36".

(** The configuration [axiosClient] hands to [axios.create]. *)
Record Client : Type := mkClient {
  headers : list (string * string);
  timeout : Num.number;
  maxRedirects : Z;
  decompress : bool
}.

Definition axiosClient (ua : option string) (timeoutMs : option Num.number)
    (referer : option string) : result Client :=
  bind (match referer with
        | Some (String _ _ as r) =>
            match url_origin r with
            | Some o => Ok [("Referer", r); ("Origin", o)]
            | None => Throw "Invalid URL"
            end
        | _ => Ok []
        end) (fun from_referer =>
  Ok (mkClient
        ([ ("User-Agent", to_string (or_else ua (Some DEFAULT_UA)));
           ("Accept-Language", "en-US,en;q=0.9");
           ("Accept-Encoding", "gzip, deflate, br") ] ++ from_referer)%list
        (Num.or_else (match timeoutMs with Some t => t | None => Num.NaN end)
           (Num.of_Z 20000))
        5 true)).

(** ** The workers of the pool, for the limit the command line gives *)

(** [Math.min(limit, urls.length || 1)] as the length of the array of
    workers. *)
Definition pool_size (limit : Num.number) (len : nat) : nat :=
  Z.to_nat
    (Num.to_length
       (Num.min limit (Num.of_Z (Z.of_nat (match len with O => 1 | _ => len end))))).

Definition start_pool (urls : list string) (limit : Num.number) : Pool :=
  start_workers (length urls) (pool_size limit (length urls)).

(** The first steps of [main]: the arguments, the URL, the folder, the
    client. *)
Record Setup : Type := mkSetup {
  setup_url : string;
  setup_folder : option string;
  setup_client : Client;
  setup_concurrency : Num.number;
  setup_verbose : bool
}.

Definition setup (fuel : nat) (fs : list string) (argv : list string)
    : exit_or (result Setup) :=
  match parseArgs argv with
  | Exited code error => Exited code error
  | Returned flags =>
      match normalizeUrl E (to_string (flag_url flags)) with
      | Throw message => Exited 1 (Some ("Invalid URL: " ++ message))
      | Ok url =>
          Returned
            (bind (match flag_outdir flags with
                   | Some (String _ _ as o) => Ok o
                   | _ => folderNameFromUrl url
                   end) (fun base =>
             bind (axiosClient (flag_ua flags) (flag_timeout flags) (Some url))
               (fun client =>
             Ok (mkSetup url (uniqueFolderName fuel fs base) client
                   (flag_concurrency flags) (flag_verbose flags)))))
      end
  end.

End Surroundings.

(* ================================================================== *)
(** * A small environment to run the module in

    Enough of Node and of a network to evaluate the functions above on
    plain inputs.

    - URLs follow the URL Standard for the schemes [http], [https], [ws],
      [wss] and [ftp] with a host that is an ASCII name or a dotted
      address of four decimal numbers, and for URLs with an opaque path
      ([data:], [mailto:], ...): scheme and host in lower case, default
      port dropped, dot segments removed, back slashes read as slashes,
      percent-encoding of path, query and fragment, references resolved
      against a base. Outside it ([file:] URLs, bracketed addresses, hosts
      that are numbers of another form, hosts with a percent sign or a
      code unit above 126) it answers [None].
    - [path] is [node:path] on a POSIX system.
    - [mime-types] is an excerpt of its tables.
    - [Number] yields the exact value of a numeric text; a value whose
      magnitude a double cannot hold is an infinity or zero.
    - The network and the parser are given by tables: what each URL
      answers, and the document [load] builds from each markup text (a
      text outside the table is read as the empty text). The serialiser
      writes an element as parse5 does.
    - The file system accepts every call. *)
(* ================================================================== *)

Module Sample.

Definition code (c : ascii) : nat := nat_of_ascii c.

Definition is_digit (c : ascii) : bool := ((48 <=? code c) && (code c <=? 57))%nat.

Definition is_alpha (c : ascii) : bool :=
  (((65 <=? code c) && (code c <=? 90)) || ((97 <=? code c) && (code c <=? 122)))%nat.

Fixpoint any (p : ascii -> bool) (s : string) : bool :=
  match s with
  | String c s' => p c || any p s'
  | EmptyString => false
  end.

(** [c] is one of the code units of [set]. *)
Definition one_of (set : string) (c : ascii) : bool := any (Ascii.eqb c) set.

(** The text before the first code unit that satisfies [p], and the text
    from that code unit on. *)
Fixpoint break (p : ascii -> bool) (s : string) : string * string :=
  match s with
  | EmptyString => (EmptyString, EmptyString)
  | String c s' =>
      if p c then (EmptyString, s)
      else let '(a, b) := break p s' in (String c a, b)
  end.

Fixpoint drop_while (p : ascii -> bool) (s : string) : string :=
  match s with
  | String c s' => if p c then drop_while p s' else s
  | EmptyString => EmptyString
  end.

(** The text without its trailing code units that satisfy [p]. *)
Fixpoint drop_end (p : ascii -> bool) (s : string) : string :=
  match s with
  | String c s' =>
      let t := drop_end p s' in
      if p c && (t =? "") then "" else String c t
  | EmptyString => EmptyString
  end.

Fixpoint without (p : ascii -> bool) (s : string) : string :=
  match s with
  | String c s' => if p c then without p s' else String c (without p s')
  | EmptyString => EmptyString
  end.

(** The texts between the code units that satisfy [p]. *)
Fixpoint split_by (p : ascii -> bool) (s : string) : list string :=
  match s with
  | EmptyString => [EmptyString]
  | String c s' =>
      if p c then EmptyString :: split_by p s'
      else match split_by p s' with
           | h :: t => String c h :: t
           | [] => [String c EmptyString]
           end
  end.

(** The text before the first [c] and the text after it. *)
Definition cut (c : ascii) (s : string) : string * option string :=
  match break (Ascii.eqb c) s with
  | (a, String _ b) => (a, Some b)
  | (a, EmptyString) => (a, None)
  end.

(** The text before the last [c] and the text after it. *)
Fixpoint cut_last (c : ascii) (s : string) : option (string * string) :=
  match s with
  | EmptyString => None
  | String d s' =>
      match cut_last c s' with
      | Some (a, b) => Some (String d a, b)
      | None => if Ascii.eqb d c then Some (EmptyString, s') else None
      end
  end.

Fixpoint lookup {A : Type} (k : string) (table : list (string * A)) : option A :=
  match table with
  | [] => None
  | (k', v) :: rest => if k =? k' then Some v else lookup k rest
  end.

(** The value of a text of digits in a base up to 16. *)
Definition digit_value (c : ascii) : option Z :=
  let n := Z.of_nat (code c) in
  if is_digit c then Some (n - 48)%Z
  else if ((97 <=? n) && (n <=? 102))%Z then Some (n - 87)%Z
  else if ((65 <=? n) && (n <=? 70))%Z then Some (n - 55)%Z
  else None.

Fixpoint number_in (base : Z) (s : string) (acc : Z) : option Z :=
  match s with
  | EmptyString => Some acc
  | String c s' =>
      match digit_value c with
      | Some d => if (d <? base)%Z then number_in base s' (base * acc + d)%Z else None
      | None => None
      end
  end.

Definition digits (s : string) (acc : Z) : option Z := number_in 10 s acc.

(** ** URLs *)

(** The parts of a URL record: the authority is the credentials (with
    their [@]), the host and the port (with its colon). *)
Record Parsed : Type := mkParsed {
  scheme : string;
  authority : option (string * string * string);
  path : string;
  opaque : bool;
  query : option string;
  fragment : option string
}.

Definition default_port (sch : string) : option Z :=
  lookup sch [("http", 80); ("https", 443); ("ws", 80); ("wss", 443); ("ftp", 21)]%Z.

Definition is_special (sch : string) : bool :=
  match default_port sch with Some _ => true | None => false end.

(** The percent-encode sets. *)
Definition in_c0_set (c : ascii) : bool := ((code c <? 32) || (126 <? code c))%nat.
Definition in_fragment_set (c : ascii) : bool :=
  in_c0_set c || one_of (String " " (String dquote "<>`")) c.
Definition in_query_set (c : ascii) : bool :=
  in_c0_set c || one_of (String " " (String dquote "#<>")) c.
Definition in_special_query_set (c : ascii) : bool :=
  in_query_set c || Ascii.eqb c "'".
Definition in_path_set (c : ascii) : bool := in_query_set c || one_of "?^`{}" c.
Definition in_userinfo_set (c : ascii) : bool := in_path_set c || one_of "/:;=@[\]|" c.

Definition hex_upper (n : nat) : ascii :=
  match get n "0123456789ABCDEF" with Some c => c | None => "0"%char end.

Definition percent_byte (n : nat) : string :=
  String "%" (String (hex_upper (n / 16)) (String (hex_upper (n mod 16)) "")).

(** A code unit as the bytes of its UTF-8 form, percent-encoded. *)
Definition percent (c : ascii) : string :=
  if (code c <? 128)%nat then percent_byte (code c)
  else percent_byte (192 + code c / 64) ++ percent_byte (128 + code c mod 64).

Fixpoint encode (set : ascii -> bool) (s : string) : string :=
  match s with
  | String c s' => (if set c then percent c else String c "") ++ encode set s'
  | EmptyString => EmptyString
  end.

(** The scheme of a text that starts with one, in lower case, and the
    text after its colon. *)
Definition scheme_of (s : string) : option (string * string) :=
  match s with
  | String c _ =>
      if is_alpha c
      then match break (fun c => negb (is_alpha c || is_digit c || one_of "+-." c)) s with
           | (name, String ":" rest) => Some (toLowerCase name, rest)
           | _ => None
           end
      else None
  | EmptyString => None
  end.

Definition is_separator (special : bool) (c : ascii) : bool :=
  Ascii.eqb c "/" || (special && Ascii.eqb c "\").

Definition is_single_dot (seg : string) : bool :=
  member (toLowerCase seg) ["."; "%2e"].

Definition is_double_dot (seg : string) : bool :=
  member (toLowerCase seg) [".."; ".%2e"; "%2e."; "%2e%2e"].

(** The path state: the segments of a path text added to a path (held
    last segment first); the last segment of the text is ended by the
    end of the path, the others by a separator. *)
Fixpoint walk (rev_path : list string) (segs : list string) : list string :=
  match segs with
  | [] => rev_path
  | seg :: rest =>
      match rest with
      | [] =>
          if is_double_dot seg then EmptyString :: tl rev_path
          else if is_single_dot seg then EmptyString :: rev_path
          else encode in_path_set seg :: rev_path
      | _ :: _ =>
          if is_double_dot seg then walk (tl rev_path) rest
          else if is_single_dot seg then walk rev_path rest
          else walk (encode in_path_set seg :: rev_path) rest
      end
  end.

Definition serialize_path (rev_path : list string) : string :=
  String.concat "" (map (fun seg => "/" ++ seg) (rev rev_path)).

(** A path text, empty or led by a separator, from the root. *)
Definition absolute_path (special : bool) (text : string) : string :=
  match text with
  | EmptyString => if special then "/" else ""
  | String _ rest => serialize_path (walk [] (split_by (is_separator special) rest))
  end.

(** A path text from the path of the base without its last segment. *)
Definition relative_path (special : bool) (base_path text : string) : string :=
  serialize_path
    (walk (tl (rev (tl (split_by (Ascii.eqb "/") base_path))))
       (split_by (is_separator special) text)).

(** The path text, the query and the fragment of what follows the
    authority. *)
Definition split_tail (t : string) : string * option string * option string :=
  let '(before, frag) := cut "#" t in
  let '(p, q) := cut "?" before in
  (p, q, frag).

Definition encode_query (special : bool) (q : option string) : option string :=
  option_map (encode (if special then in_special_query_set else in_query_set)) q.

Definition encode_fragment (f : option string) : option string :=
  option_map (encode in_fragment_set) f.

(** A host of four decimal numbers below 256, written plainly. *)
Definition is_plain_number (label : string) : bool :=
  match digits label 0 with
  | Some n =>
      negb (label =? "") && (n <? 256)%Z && (string_of_Z n =? label)
  | None => false
  end.

Definition ends_in_number (host : string) : bool :=
  match rev (split_by (Ascii.eqb ".") host) with
  | last :: _ =>
      negb (last =? "")
      && (negb (any (fun c => negb (is_digit c)) last)
          || match last with
             | String "0" (String x hex) =>
                 (Ascii.eqb x "x" || Ascii.eqb x "X")
                 && match number_in 16 hex 0 with Some _ => true | None => false end
             | _ => false
             end)
  | [] => false
  end.

Definition parse_host (special : bool) (text : string) : option string :=
  if special then
    if (text =? "")
       || any (fun c => (code c <=? 32)%nat || (127 <=? code c)%nat
                        || one_of "#/:<>?@[\]^|%" c) text
    then None
    else if ends_in_number text
    then if ((length (split_by (Ascii.eqb ".") text) =? 4)%nat
             && forallb is_plain_number (split_by (Ascii.eqb ".") text))
         then Some text else None
    else Some (toLowerCase text)
  else
    if any (fun c => (code c <=? 32)%nat || one_of "#/:<>?@[\]^|" c) text then None
    else Some (encode in_c0_set text).

Definition parse_port (sch text : string) : option string :=
  if text =? "" then Some ""
  else match digits text 0 with
       | Some n =>
           if (65535 <? n)%Z then None
           else match default_port sch with
                | Some d => if (d =? n)%Z then Some "" else Some (":" ++ string_of_Z n)
                | None => Some (":" ++ string_of_Z n)
                end
       | None => None
       end.

Definition credentials (text : string) : string :=
  let '(user, password) := cut ":" text in
  let user := encode in_userinfo_set user in
  match password with
  | Some (String _ _ as p) => user ++ ":" ++ encode in_userinfo_set p ++ "@"
  | _ => if user =? "" then "" else user ++ "@"
  end.

Definition parse_authority (sch : string) (special : bool) (text : string)
    : option (string * string * string) :=
  let '(cred, hostport) :=
    match cut_last "@" text with
    | Some (c, h) => (credentials c, h)
    | None => (EmptyString, text)
    end in
  let '(host, port) :=
    match cut_last ":" hostport with
    | Some (h, p) => (h, parse_port sch p)
    | None => (hostport, Some EmptyString)
    end in
  match parse_host special host, port with
  | Some h, Some p =>
      if (h =? "") && negb ((cred =? "") && (p =? "")) then None
      else Some (cred, h, p)
  | _, _ => None
  end.

(** A text that starts with its authority, for the scheme [sch]. *)
Definition from_authority (sch : string) (text : string) : option Parsed :=
  let special := is_special sch in
  let '(auth, tail) :=
    break (fun c => is_separator special c || one_of "?#" c) text in
  let '(p, q, f) := split_tail tail in
  match parse_authority sch special auth with
  | Some a =>
      Some (mkParsed sch (Some a) (absolute_path special p) false
              (encode_query special q) (encode_fragment f))
  | None => None
  end.

(** A text without a scheme, against the base [b]. *)
Definition from_base (b : Parsed) (text : string) : option Parsed :=
  let special := is_special (scheme b) in
  if opaque b then
    match text with
    | String "#" f =>
        Some (mkParsed (scheme b) (authority b) (path b) true (query b)
                (encode_fragment (Some f)))
    | _ => None
    end
  else
    match text with
    | EmptyString =>
        Some (mkParsed (scheme b) (authority b) (path b) false (query b) None)
    | String c rest =>
        if is_separator special c
        then match rest with
             | String c' rest' =>
                 if is_separator special c'
                 then from_authority (scheme b)
                        (if special then drop_while (is_separator true) rest' else rest')
                 else let '(p, q, f) := split_tail text in
                      Some (mkParsed (scheme b) (authority b) (absolute_path special p)
                              false (encode_query special q) (encode_fragment f))
             | EmptyString =>
                 Some (mkParsed (scheme b) (authority b) (absolute_path special text)
                         false None None)
             end
        else
          let '(p, q, f) := split_tail text in
          match p, q with
          | EmptyString, None =>
              Some (mkParsed (scheme b) (authority b) (path b) false (query b)
                      (encode_fragment f))
          | EmptyString, Some _ =>
              Some (mkParsed (scheme b) (authority b) (path b) false
                      (encode_query special q) (encode_fragment f))
          | _, _ =>
              Some (mkParsed (scheme b) (authority b)
                      (relative_path special (path b) p) false
                      (encode_query special q) (encode_fragment f))
          end
    end.

(** The basic URL parser on a text, with or without a base. *)
Definition parse (base : option Parsed) (input : string) : option Parsed :=
  let text :=
    without (fun c => one_of (String "009" (String "010" (String "013" ""))) c)
      (drop_end (fun c => (code c <=? 32)%nat)
         (drop_while (fun c => (code c <=? 32)%nat) input)) in
  match scheme_of text with
  | Some (sch, rest) =>
      if sch =? "file" then None
      else if is_special sch then
        match base with
        | Some b =>
            if (scheme b =? sch)
            then from_base b rest
            else from_authority sch (drop_while (is_separator true) rest)
        | None => from_authority sch (drop_while (is_separator true) rest)
        end
      else
        match rest with
        | String "/" (String "/" after) => from_authority sch after
        | String "/" _ =>
            let '(p, q, f) := split_tail rest in
            Some (mkParsed sch None (absolute_path false p) false
                    (encode_query false q) (encode_fragment f))
        | _ =>
            let '(p, q, f) := split_tail rest in
            Some (mkParsed sch None (encode in_c0_set p) true
                    (encode_query false q) (encode_fragment f))
        end
  | None =>
      match base with
      | Some b => from_base b text
      | None => None
      end
  end.

Definition host_of (p : Parsed) : string :=
  match authority p with Some (_, h, _) => h | None => EmptyString end.

(** [scheme://host:port] *)
Definition origin_of (p : Parsed) : string :=
  match authority p with
  | Some (_, h, port) => scheme p ++ "://" ++ h ++ port
  | None => "null"
  end.

Definition serialize (p : Parsed) : string :=
  scheme p ++ ":"
  ++ match authority p with
     | Some (cred, h, port) => "//" ++ cred ++ h ++ port
     | None => EmptyString
     end
  ++ path p
  ++ match query p with Some q => "?" ++ q | None => EmptyString end
  ++ match fragment p with Some f => "#" ++ f | None => EmptyString end.

Definition parse_against (input : string) (base : option string) : option Parsed :=
  match base with
  | None => parse None input
  | Some b =>
      match parse None b with
      | Some bp => parse (Some bp) input
      | None => None
      end
  end.

(** [new URL(input)] and [new URL(input, base)] *)
Definition resolve (input : string) (base : option string) : option URL :=
  option_map (fun p => mkURL (serialize p) (host_of p) (path p))
    (parse_against input base).

(** [new URL(s).origin] *)
Definition url_origin (s : string) : option string :=
  option_map origin_of (parse None s).

(** ** [node:path] *)

Definition is_slash (c : ascii) : bool := Ascii.eqb c "/".

Definition last_segment (p : string) : string :=
  match cut_last "/" p with
  | Some (_, after) => after
  | None => p
  end.

Definition basename (p : string) : string := last_segment (drop_end is_slash p).

Fixpoint from_last_dot (s : string) : string :=
  match s with
  | String c rest =>
      if Ascii.eqb c "." && negb (includes false "." rest) then s
      else from_last_dot rest
  | EmptyString => EmptyString
  end.

(** From the last dot of the base name on, unless that dot leads the
    name or the name is [..]. *)
Definition extname (p : string) : string :=
  match basename p with
  | String _ rest as name => if name =? ".." then "" else from_last_dot rest
  | EmptyString => EmptyString
  end.

Definition dirname (p : string) : string :=
  match p with
  | EmptyString => "."
  | String c rest =>
      match cut_last "/" (drop_end is_slash rest) with
      | Some (before, _) =>
          if is_slash c && (before =? "") then "//" else String c before
      | None => if is_slash c then "/" else "."
      end
  end.

(** The segments of a path without its empty and single-dot segments,
    each double-dot segment taking away the segment before it (held last
    segment first). *)
Fixpoint normal (above : bool) (rev_acc : list string) (segs : list string) : list string :=
  match segs with
  | [] => rev_acc
  | seg :: rest =>
      if (seg =? "") || (seg =? ".") then normal above rev_acc rest
      else if seg =? ".."
      then match rev_acc with
           | last :: more =>
               if last =? ".." then normal above (seg :: rev_acc) rest
               else normal above more rest
           | [] => normal above (if above then [seg] else []) rest
           end
      else normal above (seg :: rev_acc) rest
  end.

(** [path.normalize] *)
Definition normalize (p : string) : string :=
  match p with
  | EmptyString => "."
  | String c _ =>
      let rooted := is_slash c in
      let trailing := negb (drop_end is_slash p =? p) in
      let body := join "/" (rev (normal (negb rooted) [] (split_by is_slash p))) in
      if body =? ""
      then if rooted then "/" else if trailing then "./" else "."
      else (if rooted then "/" else "") ++ body ++ (if trailing then "/" else "")
  end.

(** [path.join] of two paths *)
Definition join_paths (a b : string) : string :=
  if a =? "" then normalize b
  else if b =? "" then normalize a
  else normalize (a ++ "/" ++ b).

(** ** [mime-types] *)

Definition MIME_TYPES : list (string * string) :=
  [ ("png", "image/png"); ("jpg", "image/jpeg"); ("jpeg", "image/jpeg");
    ("gif", "image/gif"); ("webp", "image/webp"); ("svg", "image/svg+xml");
    ("css", "text/css"); ("json", "application/json");
    ("woff", "font/woff"); ("woff2", "font/woff2"); ("ttf", "font/ttf");
    ("html", "text/html"); ("txt", "text/plain") ].

Definition MIME_EXTENSIONS : list (string * string) :=
  [ ("image/png", "png"); ("image/jpeg", "jpeg"); ("image/gif", "gif");
    ("image/webp", "webp"); ("image/svg+xml", "svg"); ("text/css", "css");
    ("application/javascript", "js");
    ("application/json", "json"); ("font/woff", "woff"); ("font/woff2", "woff2");
    ("font/ttf", "ttf"); ("text/html", "html"); ("text/plain", "txt");
    ("application/octet-stream", "bin") ].

(** [mime.lookup(path)]: by the extension of [x.path], in lower case. *)
Definition type_of_path (p : string) : option string :=
  match toLowerCase (extname ("x." ++ p)) with
  | String _ ext => lookup ext MIME_TYPES
  | EmptyString => None
  end.

(** [mime.extension(type)]: by the type without its parameters, in lower
    case. *)
Definition extension_of_type (type : string) : option string :=
  lookup
    (toLowerCase (fst (break (fun c => is_space c || Ascii.eqb c ";") (trim_start type))))
    MIME_EXTENSIONS.

(** ** cheerio *)

Definition VOID_ELEMENTS : list string :=
  [ "area"; "base"; "basefont"; "bgsound"; "br"; "col"; "embed"; "frame"; "hr"; "img";
    "input"; "keygen"; "link"; "meta"; "param"; "source"; "track"; "wbr" ].

Definition RAW_TEXT_ELEMENTS : list string :=
  [ "style"; "script"; "xmp"; "iframe"; "noembed"; "noframes"; "plaintext"; "noscript" ].

Definition NBSP : ascii := "160"%char.

Fixpoint escape (in_attribute : bool) (s : string) : string :=
  match s with
  | EmptyString => EmptyString
  | String c s' =>
      (if Ascii.eqb c "&" then "&amp;"
       else if Ascii.eqb c NBSP then "&nbsp;"
       else if in_attribute && Ascii.eqb c dquote then "&quot;"
       else if negb in_attribute && Ascii.eqb c "<" then "&lt;"
       else if negb in_attribute && Ascii.eqb c ">" then "&gt;"
       else String c "")
      ++ escape in_attribute s'
  end.

(** The serialiser of parse5: a void element has no end tag, the text of
    a raw text element is written as it is. *)
Fixpoint outer_html (n : node) : string :=
  match n with
  | Text t => escape false t
  | Element tag attrs kids =>
      "<" ++ tag
      ++ String.concat ""
           (map (fun a => " " ++ fst a ++ "=" ++ quoted (escape true (snd a))) attrs)
      ++ ">"
      ++ (if member tag VOID_ELEMENTS then ""
          else String.concat ""
                 (map (fun k => match k with
                                | Text t =>
                                    if member tag RAW_TEXT_ELEMENTS then t
                                    else escape false t
                                | Element _ _ _ => outer_html k
                                end) kids)
               ++ "</" ++ tag ++ ">")
  end.

Definition children_html (tag : string) (kids : list node) : string :=
  String.concat ""
    (map (fun k => match k with
                   | Text t => if member tag RAW_TEXT_ELEMENTS then t else escape false t
                   | Element _ _ _ => outer_html k
                   end) kids).

Definition EMPTY_DOCUMENT : list node :=
  [Element "html" [] [Element "head" [] []; Element "body" [] []]].

(** ** The environment *)

(** The environment over a network [net] (what each URL answers) and the
    parser's answers [pages] (the document of each markup text). A markup
    handed to [append] or [prepend] is parsed as a fragment: the link of
    [STYLE_LINK_MARKUP] is an element, the tags of [HEAD_MARKUP] are
    ignored there. *)
Definition env (net : list (string * Response)) (pages : list (string * list node)) : Env :=
  {| newURL := resolve;
     http_get := fun _ url =>
       match lookup url net with
       | Some r => Responded r
       | None => NetworkError "getaddrinfo ENOTFOUND"
       end;
     mime_lookup := type_of_path;
     mime_extension := extension_of_type;
     path_extname := extname;
     path_basename := basename;
     path_dirname := dirname;
     path_join := join_paths;
     fs_mkdir := fun _ _ => None;
     fs_writeFile := fun _ _ _ => None;
     cheerio_load := fun html =>
       match lookup html pages with
       | Some doc => doc
       | None => EMPTY_DOCUMENT
       end;
     parse_fragment := fun markup =>
       if markup =? STYLE_LINK_MARKUP then [STYLE_LINK] else [];
     inner_html := fun el => Some (children_html (el_tag el) (el_children el));
     document_html := fun doc => String.concat "" (map outer_html doc) |}.

(** The same environment on a file system that cannot be written to. *)
Definition read_only (E : Env) : Env :=
  {| newURL := newURL E;
     http_get := http_get E;
     mime_lookup := mime_lookup E;
     mime_extension := mime_extension E;
     path_extname := path_extname E;
     path_basename := path_basename E;
     path_dirname := path_dirname E;
     path_join := path_join E;
     fs_mkdir := fun _ _ => Some "EROFS: read-only file system";
     fs_writeFile := fun _ _ _ => Some "EROFS: read-only file system";
     cheerio_load := cheerio_load E;
     parse_fragment := parse_fragment E;
     inner_html := inner_html E;
     document_html := document_html E |}.

Definition ok_response (body type : string) : Response :=
  mkResponse 200 body None (Some type).

(** ** [Number] *)

Definition power_of_ten (k : Z) : QArith_base.Q :=
  if (0 <=? k)%Z then QArith_base.inject_Z (10 ^ k)
  else QArith_base.Qmake 1 (Z.to_pos (10 ^ (- k))).

(** What does not fit a double is an infinity or zero. *)
Definition as_double (negative : bool) (q : QArith_base.Q) : Num.number :=
  if QArith_base.Qle_bool (QArith_base.inject_Z (2 ^ 1024)) q then Num.Infinity negative
  else if QArith_base.Qle_bool q (QArith_base.Qmake 1 (Z.to_pos (2 ^ 1075)))
  then Num.of_Z 0
  else Num.Finite (if negative then QArith_base.Qopp q else q).

(** A decimal literal: digits, a fraction, an exponent. *)
Definition decimal (negative : bool) (s : string) : Num.number :=
  let '(mantissa, exponent) :=
    match break (fun c => one_of "eE" c) s with
    | (m, String _ e) => (m, Some e)
    | (m, EmptyString) => (m, None)
    end in
  let '(whole, part) := cut "." mantissa in
  let part := match part with Some p => p | None => EmptyString end in
  let power :=
    match exponent with
    | None => Some 0%Z
    | Some e =>
        match e with
        | String "-" (String _ _ as e') => option_map Z.opp (digits e' 0)
        | String "+" (String _ _ as e') => digits e' 0
        | String _ _ => digits e 0
        | EmptyString => None
        end
    end in
  match digits (whole ++ part) 0, power with
  | Some n, Some k =>
      if (whole ++ part) =? "" then Num.NaN
      else as_double negative
             (QArith_base.Qmult (QArith_base.inject_Z n)
                (power_of_ten (k - Z.of_nat (String.length part))))
  | _, _ => Num.NaN
  end.

Definition in_base (base : Z) (s : string) : Num.number :=
  match s, number_in base s 0 with
  | String _ _, Some n => as_double false (QArith_base.inject_Z n)
  | _, _ => Num.NaN
  end.

(** [Number(s)] *)
Definition to_number (s : string) : Num.number :=
  match trim s with
  | EmptyString => Num.of_Z 0
  | String "0" (String x rest) as t =>
      if one_of "xX" x then in_base 16 rest
      else if one_of "oO" x then in_base 8 rest
      else if one_of "bB" x then in_base 2 rest
      else decimal false t
  | String "-" rest => if rest =? "Infinity" then Num.Infinity true else decimal true rest
  | String "+" rest => if rest =? "Infinity" then Num.Infinity false else decimal false rest
  | t => if t =? "Infinity" then Num.Infinity false else decimal false t
  end.

End Sample.

(* ================================================================== *)
(** * Vocabulary of the statements *)
(* ================================================================== *)

(** Texts put end to end. *)
Definition glue (parts : list string) : string :=
  fold_right String.append EmptyString parts.

(** The text a list of segments stands for. *)
Definition text_of (gs : list segment) : string := glue (map raw gs).

(** The [url(...)] tokens of a CSS text are the matches of [CSS_URL_RE];
    the reference of a token is its second group, trimmed. *)
Definition css_tokens (css : string) : list segment := scan true CSS_URL_RE css.

Definition reference (cs : captures) : string := trim (group 2 cs).

Section CssImages.
Variable E : Env.
Variable baseUrl : string.

(** What [rewriteCssUrlsToAbs] puts in the place of a segment, and the URL
    it records for it. *)
Definition css_image (g : segment) : string :=
  match g with
  | Chr c => String c EmptyString
  | Tok m cs =>
      if not_fetchable (reference cs) then "url(" ++ reference cs ++ ")"
      else match absolute E (reference cs) baseUrl with
           | Some abs => "url(" ++ abs ++ ")"
           | None => m
           end
  end.

Definition css_recorded (g : segment) : list string :=
  match g with
  | Chr _ => []
  | Tok _ cs =>
      if not_fetchable (reference cs) then []
      else match absolute E (reference cs) baseUrl with
           | Some abs => [abs]
           | None => []
           end
  end.

End CssImages.

Definition add_all (xs : list string) (s : list string) : list string :=
  fold_left (fun s x => set_add x s) xs s.

(** ** Names of files and folders *)

(** Every code unit of a text satisfies [p]. *)
Fixpoint every (p : ascii -> bool) (s : string) : bool :=
  match s with
  | EmptyString => true
  | String c s' => p c && every p s'
  end.

(** A digit or one of the letters [a] to [f]. *)
Definition is_hex (c : ascii) : bool :=
  let n := nat_of_ascii c in
  (((48 <=? n) && (n <=? 57)) || ((97 <=? n) && (n <=? 102)))%nat.

Definition is_dot (c : ascii) : bool := Ascii.eqb c ".".

(** The name [uniqueFolderName] tries at its turn [k]: the base, then the
    base with the suffixes 1, 2, ... *)
Definition candidate (base : string) (k : nat) : string :=
  match k with
  | O => base
  | S _ => base ++ "-" ++ string_of_Z (Z.of_nat k)
  end.

Definition no_dot (c : ascii) : bool := negb (is_dot c).

(** ** The command line and the workers *)

(** A limit that starts a worker: [1 <= x]. *)
Definition at_least_one (x : Num.number) : Prop := Num.leb (Num.of_Z 1) x = true.

(** ** The entry page (C9) *)

(** [fetchHTML] fails exactly on a status outside [lo, hi) or an empty
    body. *)
Definition fails_exactly_outside (lo hi : Z) (E : Env) (url : string)
    (res : Response) : Prop :=
  is_ok (fetchHTML E url) = false
  <-> (~ (lo <= status res < hi)%Z \/ data res = "").

(** ** The URL-to-local-path map (C1) *)

(** The results that [main] saves: the successful downloads. *)
Definition is_downloaded (r : option Outcome) : bool :=
  match r with Some (Downloaded _ _ _ _) => true | _ => false end.

(** A result sets the key [k] of the map. *)
Definition sets_key (k : string) (r : option Outcome) : Prop :=
  match r with
  | Some (Downloaded u f _ _) => k = u \/ k = saved_under u f
  | _ => False
  end.

(** What C1 says of one result: the same path under both keys. *)
Definition both_keys_agree (m : list (string * string)) (r : option Outcome) : Prop :=
  match r with
  | Some (Downloaded u f _ _) =>
      exists p, map_get u m = Some p /\ map_get (saved_under u f) m = Some p
  | _ => True
  end.

(** The file of the result [r] is saved as the file number [n] of the
    run: the URL it is saved under gives a path, the directory of the file
    is made and the file is written. A result that is no successful
    download has no file. *)
Definition file_is_saved (E : Env) (folder : string) (n : nat) (r : option Outcome)
    : Prop :=
  match r with
  | Some (Downloaded u f ct b) =>
      exists p,
        localPathForAsset E (saved_under u f) ct = Ok p
        /\ fs_mkdir E n (path_dirname E (path_join E folder p)) = None
        /\ fs_writeFile E n (path_join E folder p) b = None
  | _ => True
  end.

(** The file system accepts every call of the run. *)
Definition fs_accepts (E : Env) : Prop :=
  (forall n path, fs_mkdir E n path = None)
  /\ (forall n path content, fs_writeFile E n path content = None).

(** ** Discovery of assets (C2) *)

Section NoscriptContent.
Variable E : Env.

(** The [noscript] elements the loop does not skip: [_$n.html()] is
    truthy. *)
Definition has_content (el : element) : bool := truthy (inner_html E el).

End NoscriptContent.

(** ** The worker pool (C6) *)

(** The workers that await a download. *)
Definition waiting (ws : list (option nat)) : nat :=
  length (filter (fun w => match w with Some _ => true | None => false end) ws).

Section PoolInvariant.
Variable E : Env.
Variable urls : list string.

(** The outcome of the download at index [i] is in its slot. *)
Definition done_at (p : Pool) (i : nat) : Prop :=
  nth_error (out p) i = Some (Some (download E (nth i urls ""))).

(** What holds of the pool whenever a worker is about to re-enter its
    loop ([w] is that worker) and, with [w] out of range, between steps. *)
Record pool_inv (w : nat) (p : Pool) : Prop := {
  inv_out : length (out p) = length urls;
  inv_next : next p <= length urls;
  inv_taken : forall w' idx, nth_error (workers p) w' = Some (Some idx) -> idx < next p;
  inv_done : forall i, i < next p ->
               done_at p i
               \/ exists w', w' <> w /\ nth_error (workers p) w' = Some (Some i)
}.

(** While URLs are left, some worker awaits a download. *)
Definition some_worker_waits (p : Pool) : Prop :=
  next p < length urls -> exists w idx, nth_error (workers p) w = Some (Some idx).

(** The steps that are left: URLs not taken, and downloads awaited. *)
Definition measure (p : Pool) : nat := (length urls - next p) + waiting (workers p).

(** Between two steps: no worker is at the head of its loop. *)
Definition pool_ok (p : Pool) : Prop :=
  pool_inv (length (workers p)) p /\ some_worker_waits p.

End PoolInvariant.

(** The indices whose downloads are awaited. *)
Definition awaited (ws : list (option nat)) : list nat :=
  flat_map (fun w => match w with Some i => [i] | None => [] end) ws.

(** What every state of the pool has: its [k] workers, each awaiting an
    index of its own below the counter. *)
Definition in_flight_ok (urls : list string) (k : nat) (p : Pool) : Prop :=
  length (workers p) = k
  /\ NoDup (awaited (workers p))
  /\ (forall i, In i (awaited (workers p)) -> i < next p)
  /\ next p <= length urls.

(** ** Imports (C4, C5) *)

(** No URL was requested twice, and what was requested is marked. *)
Definition requests_ok (st : CssState) : Prop :=
  NoDup (import_requests st) /\ incl (import_requests st) (visited st).

(** From [st] to [st']: the requests made in between are of URLs that were
    not marked in [st], and no mark is lost. *)
Definition extends (st st' : CssState) : Prop :=
  incl (visited st) (visited st')
  /\ exists new,
       import_requests st' = (import_requests st ++ new)%list
       /\ forall u, In u new -> ~ In u (visited st).

(** The URLs [fetchText] is called on in a run of [collectCssAndAssets]:
    each linked stylesheet, by the first loop, and each import that a call
    of [inlineCssImports] sets out to inline. *)
Definition fetched (stylesheetUrls : list string) (st : CssState) : list string :=
  (stylesheetUrls ++ import_requests st)%list.

Section ImportWeights.
Variable E : Env.

(** The absolute targets of the rules of a text, marked or not. *)
Definition target_of (cssUrl : string) (g : segment) : list string :=
  match g with
  | Tok _ cs =>
      match absolute E (group 1 cs) cssUrl with
      | Some abs => [abs]
      | None => []
      end
  | Chr _ => []
  end.

Definition import_targets (css cssUrl : string) : list string :=
  flat_map (target_of cssUrl) (scan true IMPORT_RE css).

(** A bound on the answers still to come because of a task that awaits
    the text at [abs]: its own, and those of the imports of that text when
    the call it makes has a depth above 0. *)
Fixpoint weight (depth : nat) (abs : string) : nat :=
  S (match depth with
     | O => 0
     | S depth' =>
         match fetchText E abs with
         | Ok f =>
             list_sum
               (map (weight depth')
                  (import_targets
                     (fst (rewriteCssUrlsToAbs E (body f) (finalUrl f) []))
                     (finalUrl f)))
         | Throw _ => 0
         end
     end).

Fixpoint pending_weight (depth : nat) (t : task) : nat :=
  match t with
  | Pending _ abs => weight depth abs
  | Inlining _ _ _ ts _ =>
      (fix total (l : list task) : nat :=
         match l with
         | [] => 0
         | t' :: l' => pending_weight (pred depth) t' + total l'
         end) ts
  | Settled _ _ => 0
  end.

Definition total_weight (depth : nat) (ts : list task) : nat :=
  list_sum (map (pending_weight depth) ts).

End ImportWeights.

Section ImportDepth.
Variable E : Env.

(** The text of a fetched sheet as [inlineCssImports] is given it: with
    its [url(...)] references made absolute. *)
Definition sheet_text (f : Fetched) : string :=
  fst (rewriteCssUrlsToAbs E (body f) (finalUrl f) []).

(** [u] is the target of an import at most [depth] levels below the text
    [css] of [cssUrl]: of a rule of the text, or, one level less, of the
    text fetched for the target of one of its rules. *)
Inductive within : nat -> string -> string -> string -> Prop :=
| within_here depth css cssUrl u :
    In u (import_targets E css cssUrl) -> within (S depth) css cssUrl u
| within_below depth css cssUrl v f u :
    In v (import_targets E css cssUrl) ->
    fetchText E v = Ok f ->
    within depth (sheet_text f) (finalUrl f) u ->
    within (S depth) css cssUrl u.

(** Whatever a task may still request is in [Good]; [depth] is the depth
    of the call the task makes. *)
Inductive bounded (Good : string -> Prop) : nat -> task -> Prop :=
| bounded_pending depth raw abs :
    (forall f u, fetchText E abs = Ok f ->
                 within depth (sheet_text f) (finalUrl f) u -> Good u) ->
    bounded Good depth (Pending raw abs)
| bounded_inlining depth raw url css ts fb :
    Forall (bounded Good (pred depth)) ts ->
    bounded Good depth (Inlining raw url css ts fb)
| bounded_settled depth raw rep : bounded Good depth (Settled raw rep).

(** The rules of a text that [IMPORT_RE] matches, with their captures. *)
Definition import_rules (css : string) : list (string * captures) :=
  flat_map (fun g => match g with Tok raw cs => [(raw, cs)] | Chr _ => [] end)
    (scan true IMPORT_RE css).

(** The text [css] of [cssUrl] has one import rule, [raw], and its
    target is [abs]. *)
Definition imports_only (css cssUrl raw abs : string) : Prop :=
  exists cs, import_rules css = [(raw, cs)] /\ absolute E (group 1 cs) cssUrl = Some abs.

(** [u] is imported within two levels below the linked stylesheet
    [cssUrl], and within one level below a style block. *)
Definition below_sheet (cssUrl u : string) : Prop :=
  exists f, fetchText E cssUrl = Ok f /\ within 2 (sheet_text f) (finalUrl f) u.

Definition below_block (block : string * string) (u : string) : Prop :=
  within 1 (fst (rewriteCssUrlsToAbs E (fst block) (snd block) [])) (snd block) u.

End ImportDepth.

(** Induction on a task, with the hypothesis for every task below it. *)
Fixpoint task_induction (P : task -> Prop)
    (HP : forall raw abs, P (Pending raw abs))
    (HI : forall raw url css ts fb, Forall P ts -> P (Inlining raw url css ts fb))
    (HS : forall raw rep, P (Settled raw rep)) (t : task) : P t :=
  match t with
  | Pending raw abs => HP raw abs
  | Inlining raw url css ts fb =>
      HI raw url css ts fb
        ((fix all (l : list task) : Forall P l :=
            match l with
            | [] => Forall_nil P
            | x :: l' => Forall_cons x (task_induction P HP HI HS x) (all l')
            end) ts)
  | Settled raw rep => HS raw rep
  end.

(** A segment that is no token. *)
Definition is_chr (g : segment) : bool :=
  match g with Chr _ => true | Tok _ _ => false end.

(** ** The consolidated CSS and the style sources *)

Section CssParts.
Variable E : Env.

(** The part of the consolidated CSS a linked stylesheet contributes. *)
Definition sheet_part (cssUrl part : string) : Prop :=
  match fetchText E cssUrl with
  | Throw message => part = "/* Failed CSS " ++ cssUrl ++ ": " ++ message ++ " */"
  | Ok f =>
      if is_css f
      then exists css,
             part = "/* ===== CSS from " ++ finalUrl f ++ " ===== */" ++ nl ++ css ++ nl
      else part = "/* Skipped non-CSS " ++ finalUrl f ++ " */"
  end.

(** What [Promise.all] holds for the import [t] (rule, URL) of a call. *)
Definition import_result (t r : string * string) : Prop :=
  fst r = fst t
  /\ match fetchText E (snd t) with
     | Throw message =>
         snd r = "/* @import failed: " ++ snd t ++ " (" ++ message ++ ") */"
     | Ok f =>
         exists inner,
           snd r = "/* @import inlined from " ++ finalUrl f ++ " */" ++ nl
                   ++ inner ++ nl ++ "/* end import */"
     end.

(** The task of the import [t], at any moment of a run. *)
Definition task_of (t : string * string) (k : task) : Prop :=
  match k with
  | Pending raw abs => raw = fst t /\ abs = snd t
  | Settled raw rep =>
      raw = fst t
      /\ exists message,
           fetchText E (snd t) = Throw message
           /\ rep = "/* @import failed: " ++ snd t ++ " (" ++ message ++ ") */"
  | Inlining raw url _ _ _ =>
      raw = fst t /\ exists f, fetchText E (snd t) = Ok f /\ url = finalUrl f
  end.

(** The text of a [style] element, [$(el).html() || '']. *)
Definition style_text (el : element) : string :=
  to_string (or_else (inner_html E el) (Some "")).

End CssParts.

(** The part a style block (text, base URL) contributes. *)
Definition block_part (block : string * string) (part : string) : Prop :=
  exists css,
    part = "/* ===== Inline <style> from " ++ snd block ++ " ===== */" ++ nl ++ css ++ nl.

Definition not_blank (css : string) : bool := negb (trim css =? "").

(** The key of the entry [e] is a text that occurs nowhere in [css]. *)
Definition absent_from (css : string) (e : string * string) : bool :=
  negb (fst e =? "") && negb (includes false (fst e) css).

(** ** The assets found in the HTML *)

(** From the set [a] to the set [b], URLs resolved against the base have
    been added, each once. *)
Definition grows (E : Env) (baseUrl : string) (a b : list string) : Prop :=
  incl a b
  /\ (NoDup a -> NoDup b)
  /\ forall u, In u b -> In u a \/ exists raw, absolute E raw baseUrl = Some u.

(** ** The rewritten document (C8) *)

Definition is_text (n : node) : bool :=
  match n with Text _ => true | Element _ _ _ => false end.

(** No element that satisfies [Q] has an element for child. *)
Fixpoint childless (Q : element -> bool) (n : node) : bool :=
  match n with
  | Text _ => true
  | Element t a k =>
      (if Q (mkElement t a k) then forallb is_text k else true)
      && forallb (childless Q) k
  end.

Definition link_or_style (e : element) : bool :=
  (el_tag e =? "link") || (el_tag e =? "style").

(** [link[rel=preload][as=style]] *)
Definition SEL_PRELOAD_STYLE : selector :=
  [tag_with "link" [Equals "rel" "preload"; Equals "as" "style"]].

(** A preload-as-style link that is no stylesheet link. *)
Definition preload_only (e : element) : bool :=
  matches SEL_PRELOAD_STYLE e && negb (matches SEL_STYLESHEET e).

Definition STYLE_LINK_ELEMENT : element :=
  mkElement "link" [("rel", "stylesheet"); ("href", "style.css")] [].

(** [P] looks at the tag and at the attributes [rel] and [as] only. *)
Definition respects (P : element -> bool) : Prop :=
  forall e e',
    el_tag e' = el_tag e -> attr "rel" e' = attr "rel" e -> attr "as" e' = attr "as" e ->
    P e' = P e.

(** [f] leaves the tag and the attributes [rel] and [as] as they are. *)
Definition gentle (f : element -> element) : Prop :=
  forall e,
    el_tag (f e) = el_tag e /\ attr "rel" (f e) = attr "rel" e
    /\ attr "as" (f e) = attr "as" e.

(** Induction on a node, with the hypothesis for every child. *)
Fixpoint node_induction (P : node -> Prop)
    (HT : forall s, P (Text s))
    (HE : forall t a k, Forall P k -> P (Element t a k)) (n : node) : P n :=
  match n with
  | Text s => HT s
  | Element t a k =>
      HE t a k
        ((fix all (l : list node) : Forall P l :=
            match l with
            | [] => Forall_nil P
            | x :: l' => Forall_cons x (node_induction P HT HE x) (all l')
            end) k)
  end.

Section Tags.
Variable t0 : string.

(** The elements with the tag [t0]. *)
Definition has_tag (e : element) : bool := el_tag e =? t0.

End Tags.

(** ** The sources of the rewritten document *)

(** The tag and the attributes of an element, and the element with them
    and no child. *)
Definition shallow (e : element) : string * list (string * string) :=
  (el_tag e, el_attrs e).

Definition bare (v : string * list (string * string)) : element :=
  mkElement (fst v) (snd v) [].

(** What a pass of [update] does to one element, on its tag and
    attributes. *)
Definition pass (Q : element -> bool) (f : element -> element)
    (v : string * list (string * string)) : string * list (string * string) :=
  shallow (if Q (bare v) then f (bare v) else bare v).

(** [Q] and [f] look at the tag and the attributes only. *)
Definition looks_at_attributes (Q : element -> bool) (f : element -> element) : Prop :=
  forall e, shallow (if Q e then f e else e) = pass Q f (shallow e).

Definition is_some (v : option string) : bool :=
  match v with Some _ => true | None => false end.

Definition MEDIA_TAGS : list string := ["img"; "video"; "audio"; "source"].

(** [f] sets the attribute [n] of its element, or leaves the element. *)
Definition sets_only (n : string) (f : element -> element) : Prop :=
  forall e, f e = e \/ exists x, f e = set_attr n x e.

Definition SOURCE_TAGS : list string := ["img"; "video"; "audio"; "source"; "script"].

Section SavedSources.
Variable E : Env.
Variable baseUrl : string.
Variable urlToLocalRel : list (string * string).

(** The local path of a reference that has one, the reference otherwise. *)
Definition localized (v : option string) : option string :=
  match v with
  | Some (String _ _ as raw) =>
      match local_of E baseUrl urlToLocalRel raw with
      | Some loc => Some loc
      | None => v
      end
  | _ => v
  end.

(** The [src] the rewritten page gives an element with one of the
    [SOURCE_TAGS]. *)
Definition saved_src (e : element) : option string :=
  if matches SEL_LAZY e && negb (truthy (attr "src" e))
  then match local_of E baseUrl urlToLocalRel (to_string (lazy_source e)) with
       | Some loc => Some loc
       | None => attr "src" e
       end
  else localized (attr "src" e).

(** The seven passes of [rewrite_document] that set attributes. *)
Definition passes (v : string * list (string * string)) : string * list (string * string) :=
  let v := pass (matches SEL_MEDIA) (setLocal E baseUrl urlToLocalRel "src") v in
  let v := pass (matches SEL_SCRIPT) (setLocal E baseUrl urlToLocalRel "src") v in
  let v := pass (matches SEL_LINK_ASSETS) (setLocal E baseUrl urlToLocalRel "href") v in
  let v := pass (matches SEL_LAZY) (adopt_lazy E baseUrl urlToLocalRel) v in
  let v := pass (matches SEL_SRCSET) (rewriteSrcset E baseUrl urlToLocalRel "srcset") v in
  let v := pass (matches SEL_DATA_SRCSET)
             (rewriteSrcset E baseUrl urlToLocalRel "data-srcset") v in
  pass (matches SEL_STYLED) (rewrite_style E baseUrl urlToLocalRel) v.

End SavedSources.

(* ================================================================== *)
(** * Sample inputs *)
(* ================================================================== *)

(** A page answered with 299. *)
Definition STATUS_299 : Response :=
  mkResponse 299 "<html></html>" None (Some "text/html").

Definition PNG : string := "image/png".

(** A page that has moved: the request for [https://x.test/] is answered
    from [https://www.x.test/home/], with an image beside the page. *)
Definition MOVED_MARKUP : string := "<img src=a.png>".

Definition MOVED : Response :=
  mkResponse 200 MOVED_MARKUP (Some "https://www.x.test/home/") (Some "text/html").

Definition MOVED_DOCUMENT : list node :=
  [Element "html" []
     [ Element "head" [] [];
       Element "body" [] [Element "img" [("src", "a.png")] []] ]].

Definition NET_MOVED : list (string * Response) :=
  [ ("https://x.test/", MOVED);
    ("https://www.x.test/home/a.png", mkResponse 200 "png" None (Some PNG)) ].

(** The output folder of a run on [https://x.test/]. *)
Definition FOLDER : string := "x".

(** Three results: a redirected download, a failure, a plain download. *)
Definition RESULTS_ONE : list (option Outcome) :=
  [ Some (Downloaded "https://x.test/a" "https://cdn.test/b.png" PNG "b");
    Some (Failed "https://x.test/gone.png" "Non-OK HTTP 404 for https://x.test/gone.png");
    Some (Downloaded "https://x.test/d.png" "https://x.test/d.png" PNG "d") ].

Definition SAVED_ONE : Saved :=
  Eval vm_compute in
    match save_results (Sample.env [] []) FOLDER RESULTS_ONE with
    | Ok sv => sv
    | Throw _ => mkSaved [] [] 0 0
    end.

(** Two results: the second download asks for the URL the first one was
    redirected to, and is itself redirected. *)
Definition RESULTS_TWO : list (option Outcome) :=
  [ Some (Downloaded "https://x.test/a" "https://cdn.test/b.png" PNG "b");
    Some (Downloaded "https://cdn.test/b.png" "https://cdn.test/c.png" PNG "c") ].

(** A network that answers so: the first URL is redirected to the second,
    and the second, asked for by itself, to a third. *)
Definition NET_REDIRECTS : list (string * Response) :=
  [ ("https://x.test/a",
     mkResponse 200 "b" (Some "https://cdn.test/b.png") (Some PNG));
    ("https://cdn.test/b.png",
     mkResponse 200 "c" (Some "https://cdn.test/c.png") (Some PNG)) ].

(** A second run, in which the same file is reached without a redirect. *)
Definition RESULTS_THREE : list (option Outcome) :=
  [ None;
    Some (Downloaded "https://cdn.test/b.png" "https://cdn.test/b.png" PNG "again") ].

Definition SAVED_THREE : Saved :=
  Eval vm_compute in
    match save_results (Sample.env [] []) FOLDER RESULTS_THREE with
    | Ok sv => sv
    | Throw _ => mkSaved [] [] 0 0
    end.

Definition DATA_URL : string := "data:image/png;base64,AAAA".

(** What discovery may hand over: http(s) URLs, twice over, and others. *)
Definition CANDIDATES_HTML : list string :=
  ["https://x.test/a.png"; DATA_URL; "mailto:me@x.test"; "https://x.test/a.png"].

Definition CANDIDATES_CSS : list string :=
  ["https://x.test/f.woff2"; "ftp://x.test/f.ttf"].

(** A network with a redirected image and a missing font. *)
Definition NET_ASSETS : list (string * Response) :=
  [ ("https://x.test/a.png",
     mkResponse 200 "png" (Some "https://cdn.test/a.png") (Some PNG));
    ("https://x.test/f.woff2", mkResponse 404 "" None None) ].

Definition SAVED_FOUR : Saved :=
  Eval vm_compute in
    match save_results (Sample.env NET_ASSETS []) FOLDER
            (download_all (Sample.env NET_ASSETS [])
               (all_asset_urls CANDIDATES_HTML CANDIDATES_CSS)) with
    | Ok sv => sv
    | Throw _ => mkSaved [] [] 0 0
    end.

(** A page with an image inside a [noscript] element, and its parse. *)
Definition NOSCRIPT_PAGE : string :=
  "<body><img src=/a.png><noscript><img src=/b.png srcset='/b2.png 2x'></noscript></body>".

Definition NOSCRIPT_BLOCK : element :=
  mkElement "noscript" [] [Text "<img src=/b.png srcset='/b2.png 2x'>"].

Definition NOSCRIPT_PAGES : list (string * list node) :=
  [ (NOSCRIPT_PAGE,
     [Element "html" []
        [ Element "head" [] [];
          Element "body" []
            [ Element "img" [("src", "/a.png")] [];
              Element "noscript" [] [Text "<img src=/b.png srcset='/b2.png 2x'>"] ] ]]);
    ("<img src=/b.png srcset='/b2.png 2x'>",
     [Element "html" []
        [ Element "head" [] [];
          Element "body" []
            [Element "img" [("src", "/b.png"); ("srcset", "/b2.png 2x")] []] ]]) ].

Definition TWO_URLS : list string :=
  ["https://x.test/a.png"; "https://x.test/f.woff2"].

Definition SHEET_A : string := "https://x.test/a.css".
Definition SHEET_B : string := "https://x.test/b.css".
Definition SHEET_C : string := "https://x.test/c.css".
Definition PAGE_URL : string := "https://x.test/".

(** A sheet that imports itself. *)
Definition NET_SELF : list (string * Response) :=
  [(SHEET_A, Sample.ok_response "@import 'a.css';" "text/css")].

(** Two sheets that import each other. *)
Definition NET_CYCLE : list (string * Response) :=
  [ (SHEET_A, Sample.ok_response "@import 'b.css';" "text/css");
    (SHEET_B, Sample.ok_response "@import 'a.css';" "text/css") ].

(** Two sheets that import the same third one. *)
Definition SHEET_D : string := "https://x.test/d.css".

Definition NET_DIAMOND : list (string * Response) :=
  [ (SHEET_A, Sample.ok_response "@import 'b.css';@import 'c.css';" "text/css");
    (SHEET_B, Sample.ok_response "@import 'd.css';" "text/css");
    (SHEET_C, Sample.ok_response "@import 'd.css';" "text/css");
    (SHEET_D, Sample.ok_response "p{color:red}" "text/css") ].

(** What is collected from a link to the first sheet of a chain of four,
    and from a style block that imports the second. *)
Definition CHAIN_CSS : string :=
  "/* ===== CSS from https://x.test/a.css ===== */" ++ nl ++
  "/* @import inlined from https://x.test/b.css */" ++ nl ++
  "/* @import inlined from https://x.test/c.css */" ++ nl ++
  "@import 'd.css';" ++ nl ++
  "/* end import */" ++ nl ++
  "/* end import */" ++ nl.

Definition INLINE_CHAIN_CSS : string :=
  "/* ===== Inline <style> from https://x.test/ ===== */" ++ nl ++
  "/* @import inlined from https://x.test/b.css */" ++ nl ++
  "@import 'c.css';" ++ nl ++
  "/* end import */" ++ nl.

(** A chain of imports: a, b, c, d. *)
Definition NET_CHAIN : list (string * Response) :=
  [ (SHEET_A, Sample.ok_response "@import 'b.css';" "text/css");
    (SHEET_B, Sample.ok_response "@import 'c.css';" "text/css");
    (SHEET_C, Sample.ok_response "@import 'd.css';" "text/css");
    ("https://x.test/d.css", Sample.ok_response "p{color:red}" "text/css") ].

Definition PRELOAD_LINK : element :=
  mkElement "link" [("rel", "preload"); ("as", "style"); ("href", "/b.css")] [].

(** A page with a stylesheet link, a preload-as-style link and a style
    block in its head, and an image in its body. *)
Definition STYLED_DOCUMENT : list node :=
  [Element "html" []
     [ Element "head" []
         [ Element "link" [("rel", "stylesheet"); ("href", "/a.css")] [];
           Element "link" [("rel", "preload"); ("as", "style"); ("href", "/b.css")] [];
           Element "style" [] [Text "p{color:red}"] ];
       Element "body" [] [Element "img" [("src", "/a.png")] []] ]].

(** A command line with a timeout of zero and a number of workers that
    is no number, and what the first steps of [main] make of it where a
    folder [example] exists. *)
Definition EXAMPLE_ARGV : list string :=
  ["node"; "clone-site.mjs"; "www.example.com"; "--timeout"; "0"; "--concurrency"; "x"].

Definition EXAMPLE_SETUP : Setup :=
  Eval vm_compute in
    match setup (Sample.env [] []) Sample.to_number Sample.url_origin 2 ["example"]
            EXAMPLE_ARGV with
    | Returned (Ok s) => s
    | _ => mkSetup "" None (mkClient [] Num.NaN 0 false) Num.NaN false
    end.

(** A page with a link to a stylesheet that is missing and an image. *)
Definition IMAGE_DOCUMENT : list node :=
  [Element "html" []
     [ Element "head" [] [Element "link" [("rel", "stylesheet"); ("href", "/f.woff2")] []];
       Element "body" []
         [Element "img" [("src", "/a.png"); ("srcset", "/a.png 1x, http:// 2x")] []] ]].

Definition IMAGE_MARKUP : string :=
  "<link rel=stylesheet href=/f.woff2><img src=/a.png srcset='/a.png 1x, http:// 2x'>".

Definition IMAGE_PAGE : Page := mkPage IMAGE_MARKUP PAGE_URL "text/html".

Definition IMAGE_PAGES : list (string * list node) :=
  [(IMAGE_MARKUP, IMAGE_DOCUMENT)].

(* ================================================================== *)
(** * Proof automation *)
(* ================================================================== *)

(** Arithmetic on the lengths of the lists in the goal. *)
Ltac count_elements :=
  repeat match goal with
         | |- context [@Datatypes.length ?A ?l] =>
             let n := fresh "n" in generalize (@Datatypes.length A l); intro n
         end;
  clear; lia.

(* ================================================================== *)
(** * Strings and scanning *)
(* ================================================================== *)

Lemma strip_prefix_exact p s r :
  strip_prefix false p s = Some r <-> s = p ++ r.
Proof.
  revert s; induction p as [|c p IH]; intros s; simpl.
  - split; [intros [= ->]; reflexivity | intros ->; reflexivity].
  - destruct s as [|d s]; [split; discriminate|].
    unfold chr_eq. destruct (Ascii.eqb_spec c d) as [->|Hne].
    + rewrite IH. split; [intros ->; reflexivity | intros [= ->]; reflexivity].
    + split; [discriminate | intros [= <- _]; contradiction].
Qed.

Lemma take_drop n s : take n s ++ drop n s = s.
Proof.
  revert s; induction n as [|n IH]; intros [|c s]; simpl; try reflexivity.
  now rewrite IH.
Qed.

Lemma append_nil_r (s : string) : s ++ "" = s.
Proof. induction s as [|c s IH]; simpl; [reflexivity | now rewrite IH]. Qed.

Lemma append_assoc (a b c : string) : (a ++ b) ++ c = a ++ (b ++ c).
Proof. induction a as [|x a IH]; simpl; [reflexivity | now rewrite IH]. Qed.

(** The segments of a scan cover the text, in order, each code unit once. *)
Lemma scan_from_text ci r s skip :
  text_of (scan_from ci r s skip) = drop skip s.
Proof.
  unfold text_of.
  revert skip; induction s as [|c s IH]; intros skip.
  - cbn [scan_from]. destruct skip; [destruct (exec_at ci r ""%string) as [[? ?]|]|]; reflexivity.
  - cbn [scan_from]. destruct skip as [|k]; [|apply IH].
    destruct (exec_at ci r (String c s)) as [[rest cs]|].
    + destruct (String.length (String c s) - String.length rest) as [|k].
      * cbn [map glue fold_right raw]. rewrite IH. reflexivity.
      * cbn [map glue fold_right raw]. rewrite IH.
        change (drop k s) with (drop (S k) (String c s)). apply take_drop.
    + cbn [map glue fold_right raw]. rewrite IH. reflexivity.
Qed.

Lemma scan_text ci r s : text_of (scan ci r s) = s.
Proof. unfold scan. rewrite scan_from_text. now destruct s. Qed.

Lemma set_has_In x s : set_has x s = true <-> In x s.
Proof.
  unfold set_has. rewrite existsb_exists. split.
  - intros [y [Hy Heq]]. apply String.eqb_eq in Heq. now subst.
  - intros H. exists x. split; [assumption | apply String.eqb_refl].
Qed.

Lemma set_has_false x s : set_has x s = false <-> ~ In x s.
Proof.
  rewrite <- set_has_In. destruct (set_has x s); split; congruence.
Qed.

Lemma In_set_add x y s : In x (set_add y s) <-> x = y \/ In x s.
Proof.
  unfold set_add, push. destruct (set_has y s) eqn:H.
  - apply set_has_In in H. split; [now right | intros [->|]; assumption].
  - rewrite in_app_iff. simpl. intuition congruence.
Qed.

Lemma In_add_all x xs s : In x (add_all xs s) <-> In x xs \/ In x s.
Proof.
  unfold add_all. revert s; induction xs as [|y xs IH]; intros s; simpl.
  - tauto.
  - rewrite IH, In_set_add. intuition congruence.
Qed.

Lemma NoDup_set_add y s : NoDup s -> NoDup (set_add y s).
Proof.
  intros H. unfold set_add, push. destruct (set_has y s) eqn:Hy; [assumption|].
  apply set_has_false in Hy.
  apply NoDup_app; [assumption | repeat constructor; simpl; tauto |].
  intros x Hx [<-|[]]. contradiction.
Qed.

(* ================================================================== *)
(** * C3: rewriting [url(...)] to absolute form *)
(* ================================================================== *)

Section RewriteCss.
Variable E : Env.

Lemma replace_segments_css baseUrl gs collect :
  replace_segments (css_url_to_abs E baseUrl) gs collect =
  (glue (map (css_image E baseUrl) gs),
   add_all (flat_map (css_recorded E baseUrl) gs) collect).
Proof.
  revert collect; induction gs as [|g gs IH]; intros collect.
  - reflexivity.
  - destruct g as [c|m cs]; cbn [replace_segments].
    + rewrite IH. reflexivity.
    + unfold css_url_to_abs at 1. fold (reference cs).
      cbn [map flat_map css_recorded css_image glue fold_right].
      destruct (not_fetchable (reference cs)).
      * rewrite IH. reflexivity.
      * destruct (absolute E (reference cs) baseUrl) as [abs|];
          rewrite IH; reflexivity.
Qed.

End RewriteCss.

(** C3 (as amended). For every CSS text, base URL and asset set: the
    [url(...)] tokens and the code units between them make up the text;
    the result is the text with each token replaced by its image and
    everything else copied, and the asset set grows by the recorded URLs
    in order. The image of a token whose reference starts with [data:],
    [#] or [blob:] is [url(reference)], the reference kept but quotes and
    blanks around it dropped, and nothing is recorded; of a reference that
    resolves against the base, [url(absolute)], and the absolute URL is
    recorded; of a reference that does not resolve, the token itself, and
    nothing is recorded. *)
Theorem rewriteCssUrlsToAbs_by_token (E : Env) (css baseUrl : string)
    (collect : list string) :
  let gs := css_tokens css in
  text_of gs = css /\
  fst (rewriteCssUrlsToAbs E css baseUrl collect)
    = glue (map (css_image E baseUrl) gs) /\
  snd (rewriteCssUrlsToAbs E css baseUrl collect)
    = add_all (flat_map (css_recorded E baseUrl) gs) collect /\
  (forall c, css_image E baseUrl (Chr c) = String c EmptyString
             /\ css_recorded E baseUrl (Chr c) = []) /\
  (forall m cs,
     (not_fetchable (reference cs) = true ->
        css_image E baseUrl (Tok m cs) = "url(" ++ reference cs ++ ")"
        /\ css_recorded E baseUrl (Tok m cs) = []) /\
     (forall abs, not_fetchable (reference cs) = false ->
        absolute E (reference cs) baseUrl = Some abs ->
        css_image E baseUrl (Tok m cs) = "url(" ++ abs ++ ")"
        /\ css_recorded E baseUrl (Tok m cs) = [abs]) /\
     (not_fetchable (reference cs) = false ->
        absolute E (reference cs) baseUrl = None ->
        css_image E baseUrl (Tok m cs) = m
        /\ css_recorded E baseUrl (Tok m cs) = [])).
Proof.
  cbv zeta. unfold rewriteCssUrlsToAbs, replace, css_tokens.
  rewrite replace_segments_css. cbn [fst snd].
  split; [apply scan_text|].
  split; [reflexivity|]. split; [reflexivity|].
  split; [intros c; split; reflexivity|].
  intros m cs. cbn [css_image css_recorded].
  split; [|split].
  - intros ->. split; reflexivity.
  - intros abs -> ->. split; reflexivity.
  - intros -> ->. split; reflexivity.
Qed.

(** C3, as the claim words it, fails on a quoted reference that is not
    fetchable: the first text below is one token whose reference is a
    fragment, and the result is another text (the quotes are gone). It
    fails too on a reference that does not resolve: the second text is one
    token whose reference is none of the three kinds, and it is not
    replaced by an absolute form, nor is anything recorded. *)
Lemma quoted_fragment_token_is_rewritten :
  (exists cs,
     css_tokens "url('#mask')" = [Tok "url('#mask')" cs]
     /\ reference cs = "#mask"
     /\ not_fetchable (reference cs) = true) /\
  rewriteCssUrlsToAbs (Sample.env [] []) "url('#mask')" "https://x.test/a.css" []
    = ("url(#mask)", []) /\
  "url(#mask)" <> "url('#mask')" /\
  (exists cs,
     css_tokens "url(http://)" = [Tok "url(http://)" cs]
     /\ reference cs = "http://"
     /\ not_fetchable (reference cs) = false
     /\ absolute (Sample.env [] []) (reference cs) "https://x.test/a.css" = None) /\
  rewriteCssUrlsToAbs (Sample.env [] []) "url(http://)" "https://x.test/a.css" []
    = ("url(http://)", []).
Proof.
  split; [|split; [|split; [|split]]].
  - eexists. split; [vm_compute; reflexivity|]. split; reflexivity.
  - vm_compute. reflexivity.
  - discriminate.
  - eexists. split; [vm_compute; reflexivity|]. repeat split; reflexivity.
  - vm_compute. reflexivity.
Qed.

Example unresolved_reference_is_kept :
  rewriteCssUrlsToAbs (Sample.env [] []) "a{b:url(http://)}" "https://x.test/a.css" []
  = ("a{b:url(http://)}", []).
Proof. vm_compute. reflexivity. Qed.

Example relative_reference_is_resolved :
  rewriteCssUrlsToAbs (Sample.env [] []) "a{b:url( 'i/b.png' )}" "https://x.test/css/a.css" []
  = ("a{b:url(https://x.test/css/i/b.png)}", ["https://x.test/css/i/b.png"]).
Proof. vm_compute. reflexivity. Qed.

(* ================================================================== *)
(** * The URL-to-local-path map and the files written (C1, C7, C10) *)
(* ================================================================== *)

Lemma map_get_set_same k v m : map_get k (map_set k v m) = Some v.
Proof.
  induction m as [|[k' v'] m IH]; simpl.
  - now rewrite String.eqb_refl.
  - destruct (String.eqb k k') eqn:H; simpl; rewrite ?String.eqb_refl, ?H; auto.
Qed.

Lemma map_get_set_other k k' v m :
  k <> k' -> map_get k (map_set k' v m) = map_get k m.
Proof.
  intros Hne. induction m as [|[k2 v2] m IH]; simpl.
  - apply String.eqb_neq in Hne. now rewrite Hne.
  - destruct (String.eqb k' k2) eqn:H; simpl.
    + apply String.eqb_eq in H. subst k2.
      apply String.eqb_neq in Hne. now rewrite Hne.
    + destruct (String.eqb k k2); auto.
Qed.

Lemma In_map_set k v k' v' m :
  In (k, v) (map_set k' v' m) -> (k = k' /\ v = v') \/ In (k, v) m.
Proof.
  induction m as [|[k2 v2] m IH]; simpl.
  - intros [[= <- <-]|[]]. now left.
  - destruct (String.eqb k' k2); simpl.
    + intros [[= <- <-]|H]; [now left | now right; right].
    + intros [H|H]; [now right; left|]. destruct (IH H); auto.
Qed.

Lemma map_get_In k v m : map_get k m = Some v -> In (k, v) m.
Proof.
  induction m as [|[k' v'] m IH]; simpl; [discriminate|].
  destruct (String.eqb_spec k k') as [->|Hne].
  - intros [= ->]. now left.
  - intros H. right. auto.
Qed.

Lemma map_get_absent k m : (forall v, ~ In (k, v) m) -> map_get k m = None.
Proof.
  intros H. destruct (map_get k m) as [v|] eqn:Hg; [|reflexivity].
  apply map_get_In in Hg. now apply H in Hg.
Qed.

Section SaveResults.
Variable E : Env.
Variable folder : string.

Lemma save_results_snoc rs r :
  save_results E folder (rs ++ [r]) = save_result E folder (save_results E folder rs) r.
Proof. unfold save_results. now rewrite fold_left_app. Qed.

Lemma save_result_ok acc r sv :
  save_result E folder acc r = Ok sv -> exists sv0, acc = Ok sv0.
Proof. destruct acc as [sv0|m]; [eauto | discriminate]. Qed.

(** A turn of the loop on a successful download, call by call. *)
Lemma save_result_downloaded sv0 u f ct b :
  save_result E folder (Ok sv0) (Some (Downloaded u f ct b))
  = bind (localPathForAsset E (saved_under u f) ct) (fun p =>
    bind (fs_call (fs_mkdir E (ok_count sv0) (path_dirname E (path_join E folder p))))
      (fun _ =>
    bind (fs_call (fs_writeFile E (ok_count sv0) (path_join E folder p) b)) (fun _ =>
    Ok (mkSaved (map_set u p (map_set (saved_under u f) p (urlToLocalRel sv0)))
          (push (files sv0) (p, b)) (S (ok_count sv0)) (fail_count sv0))))).
Proof. reflexivity. Qed.

(** The calls that a turn on a successful download has made when it
    returns. *)
Lemma save_result_calls sv0 u f ct b sv :
  save_result E folder (Ok sv0) (Some (Downloaded u f ct b)) = Ok sv ->
  exists p,
    localPathForAsset E (saved_under u f) ct = Ok p
    /\ fs_mkdir E (ok_count sv0) (path_dirname E (path_join E folder p)) = None
    /\ fs_writeFile E (ok_count sv0) (path_join E folder p) b = None
    /\ sv = mkSaved (map_set u p (map_set (saved_under u f) p (urlToLocalRel sv0)))
              (push (files sv0) (p, b)) (S (ok_count sv0)) (fail_count sv0).
Proof.
  rewrite save_result_downloaded.
  destruct (localPathForAsset E (saved_under u f) ct) as [p|m]; cbn [bind]; [|discriminate].
  destruct (fs_mkdir E (ok_count sv0) (path_dirname E (path_join E folder p)))
    as [m|] eqn:Hmk; cbn [fs_call bind]; [discriminate|].
  destruct (fs_writeFile E (ok_count sv0) (path_join E folder p) b)
    as [m|] eqn:Hwr; cbn [fs_call bind]; [discriminate|].
  intros [= <-]. exists p. auto.
Qed.

(** What one turn of the loop does to the map and to the files. *)
Lemma save_result_step sv0 r sv :
  save_result E folder (Ok sv0) r = Ok sv ->
  (exists u f ct b p,
      r = Some (Downloaded u f ct b)
      /\ localPathForAsset E (saved_under u f) ct = Ok p
      /\ urlToLocalRel sv
         = map_set u p (map_set (saved_under u f) p (urlToLocalRel sv0))
      /\ files sv = push (files sv0) (p, b))
  \/ ((r = None \/ exists u e, r = Some (Failed u e))
      /\ urlToLocalRel sv = urlToLocalRel sv0 /\ files sv = files sv0).
Proof.
  destruct r as [[u f ct b|u e]|].
  - intros H. destruct (save_result_calls _ _ _ _ _ _ H) as (p & Hp & _ & _ & ->).
    left. exists u, f, ct, b, p. auto.
  - intros [= <-]. right. split; [right; eauto | auto].
  - intros [= <-]. right. auto.
Qed.

(** Every entry of the map comes from a successful download: its key is
    the requested or the final URL, its value the path assigned to it. *)
Lemma save_results_entries rs sv :
  save_results E folder rs = Ok sv ->
  forall k v, In (k, v) (urlToLocalRel sv) ->
  exists u f ct b,
    In (Some (Downloaded u f ct b)) rs
    /\ (k = u \/ k = saved_under u f)
    /\ localPathForAsset E (saved_under u f) ct = Ok v.
Proof.
  revert sv. induction rs as [|r rs IH] using rev_ind; intros sv.
  - intros [= <-] k v [].
  - rewrite save_results_snoc. intros H.
    destruct (save_result_ok _ _ _ H) as [sv0 H0]. rewrite H0 in H.
    intros k v Hin.
    assert (Hold : In (k, v) (urlToLocalRel sv0) ->
                   exists u f ct b,
                     In (Some (Downloaded u f ct b)) (rs ++ [r])
                     /\ (k = u \/ k = saved_under u f)
                     /\ localPathForAsset E (saved_under u f) ct = Ok v).
    { intros Hin0. destruct (IH sv0 H0 k v Hin0) as (u & f & ct & b & Hr & Hk & Hp).
      exists u, f, ct, b. rewrite in_app_iff. auto. }
    destruct (save_result_step _ _ _ H)
      as [(u & f & ct & b & p & -> & Hp & Hm & _)|(_ & Hm & _)].
    + rewrite Hm in Hin.
      destruct (In_map_set _ _ _ _ _ Hin) as [[-> ->]|Hin1].
      * exists u, f, ct, b. rewrite in_app_iff. simpl. auto.
      * destruct (In_map_set _ _ _ _ _ Hin1) as [[-> ->]|Hin2]; [|auto].
        exists u, f, ct, b. rewrite in_app_iff. simpl. auto.
    + rewrite Hm in Hin. auto.
Qed.

(** The bytes of a successful download are written at the path that
    [localPathForAsset] gives for its final URL and content type. *)
Lemma save_results_files rs sv u f ct b :
  save_results E folder rs = Ok sv ->
  In (Some (Downloaded u f ct b)) rs ->
  exists p, localPathForAsset E (saved_under u f) ct = Ok p /\ In (p, b) (files sv).
Proof.
  revert sv. induction rs as [|r rs IH] using rev_ind; intros sv.
  - intros _ [].
  - rewrite save_results_snoc. intros H.
    destruct (save_result_ok _ _ _ H) as [sv0 H0]. rewrite H0 in H.
    rewrite in_app_iff. intros [Hin|[->|[]]].
    + destruct (IH sv0 H0 Hin) as (p & Hp & Hf). exists p. split; [assumption|].
      destruct (save_result_step _ _ _ H)
        as [(? & ? & ? & ? & ? & _ & _ & _ & ->)|(_ & _ & ->)];
        [unfold push; rewrite in_app_iff; auto | assumption].
    + destruct (save_result_step _ _ _ H)
        as [(u' & f' & ct' & b' & p & [= <- <- <- <-] & Hp & _ & ->)
           |([[=]|(? & ? & [=])] & _)].
      exists p. split; [assumption|]. unfold push. rewrite in_app_iff. simpl. auto.
Qed.

(** A failed download, or a hole of the array, changes neither the map
    nor the files, nor the number of files written so far. *)
Lemma save_result_skipped sv0 r sv :
  is_downloaded r = false ->
  save_result E folder (Ok sv0) r = Ok sv ->
  urlToLocalRel sv = urlToLocalRel sv0 /\ files sv = files sv0
  /\ ok_count sv = ok_count sv0.
Proof.
  destruct r as [[u f ct b|u e]|]; cbn [is_downloaded]; [discriminate| |];
    intros _ [= <-]; auto.
Qed.

Lemma save_results_successes rs sv :
  save_results E folder rs = Ok sv ->
  exists sv', save_results E folder (filter is_downloaded rs) = Ok sv'
              /\ urlToLocalRel sv' = urlToLocalRel sv /\ files sv' = files sv
              /\ ok_count sv' = ok_count sv.
Proof.
  revert sv. induction rs as [|r rs IH] using rev_ind; intros sv.
  - intros [= <-]. eexists. split; [reflexivity | auto].
  - rewrite save_results_snoc. intros H.
    destruct (save_result_ok _ _ _ H) as [sv0 H0]. rewrite H0 in H.
    destruct (IH sv0 H0) as (sv0' & Hs & Hm & Hf & Hc).
    rewrite filter_app. cbn [filter].
    destruct (is_downloaded r) eqn:Hr.
    + destruct r as [[u f ct b|u e]|]; try discriminate.
      destruct (save_result_calls _ _ _ _ _ _ H) as (p & Hp & Hmk & Hwr & ->).
      rewrite save_results_snoc, Hs, save_result_downloaded, Hp. cbn [bind].
      rewrite Hc, Hmk, Hwr. cbn [fs_call bind].
      eexists. split; [reflexivity|]. cbn [urlToLocalRel files ok_count].
      now rewrite Hm, Hf.
    + rewrite app_nil_r. exists sv0'.
      destruct (save_result_skipped _ _ _ Hr H) as (-> & -> & ->). auto.
Qed.

(** The two keys of a successful download hold its path as long as no
    later successful download sets either of them again. *)

Lemma save_results_kept before u f ct b after sv :
  save_results E folder (before ++ Some (Downloaded u f ct b) :: after) = Ok sv ->
  (forall r, In r after -> ~ sets_key u r /\ ~ sets_key (saved_under u f) r) ->
  exists p,
    localPathForAsset E (saved_under u f) ct = Ok p
    /\ map_get u (urlToLocalRel sv) = Some p
    /\ map_get (saved_under u f) (urlToLocalRel sv) = Some p.
Proof.
  revert sv. induction after as [|r after IH] using rev_ind; intros sv.
  - rewrite save_results_snoc. intros H _.
    destruct (save_result_ok _ _ _ H) as [sv0 H0]. rewrite H0 in H.
    destruct (save_result_step _ _ _ H)
      as [(u' & f' & ct' & b' & p & [= <- <- <- <-] & Hp & Hm & _)
         |([[=]|(? & ? & [=])] & _)].
    exists p. split; [assumption|]. rewrite Hm. split.
    + apply map_get_set_same.
    + destruct (String.eqb_spec (saved_under u f) u) as [->|Hne].
      * apply map_get_set_same.
      * rewrite map_get_set_other by assumption. apply map_get_set_same.
  - change (before ++ Some (Downloaded u f ct b) :: after ++ [r])%list
      with (before ++ (Some (Downloaded u f ct b) :: after) ++ [r])%list.
    rewrite app_assoc, save_results_snoc. intros H Hlater.
    destruct (save_result_ok _ _ _ H) as [sv0 H0]. rewrite H0 in H.
    destruct (IH sv0 H0) as (p & Hp & Hu & Hk).
    { intros r' Hr'. apply Hlater. rewrite in_app_iff. auto. }
    exists p. split; [assumption|].
    destruct (Hlater r) as [Hnu Hnk]; [rewrite in_app_iff; simpl; auto|].
    destruct (save_result_step _ _ _ H)
      as [(u' & f' & ct' & b' & p' & -> & _ & -> & _)|(_ & -> & _)];
      [|auto].
    cbn [sets_key] in Hnu, Hnk.
    rewrite !map_get_set_other by tauto. auto.
Qed.

(** The key [k] holds the path of the successful download that set it
    last. *)
Lemma save_results_last before u f ct b after sv k :
  save_results E folder (before ++ Some (Downloaded u f ct b) :: after) = Ok sv ->
  k = u \/ k = saved_under u f ->
  (forall r, In r after -> ~ sets_key k r) ->
  exists p,
    localPathForAsset E (saved_under u f) ct = Ok p
    /\ map_get k (urlToLocalRel sv) = Some p.
Proof.
  intros H Hk. revert sv H. induction after as [|r after IH] using rev_ind; intros sv.
  - rewrite save_results_snoc. intros H _.
    destruct (save_result_ok _ _ _ H) as [sv0 H0]. rewrite H0 in H.
    destruct (save_result_step _ _ _ H)
      as [(u' & f' & ct' & b' & p & [= <- <- <- <-] & Hp & Hm & _)
         |([[=]|(? & ? & [=])] & _)].
    exists p. split; [assumption|]. rewrite Hm.
    destruct Hk as [->| ->].
    + apply map_get_set_same.
    + destruct (String.eqb_spec (saved_under u f) u) as [->|Hne].
      * apply map_get_set_same.
      * rewrite map_get_set_other by assumption. apply map_get_set_same.
  - change (before ++ Some (Downloaded u f ct b) :: after ++ [r])%list
      with (before ++ (Some (Downloaded u f ct b) :: after) ++ [r])%list.
    rewrite app_assoc, save_results_snoc. intros H Hlater.
    destruct (save_result_ok _ _ _ H) as [sv0 H0]. rewrite H0 in H.
    destruct (IH sv0 H0) as (p & Hp & Hg).
    { intros r' Hr'. apply Hlater. rewrite in_app_iff. auto. }
    exists p. split; [assumption|].
    assert (Hn : ~ sets_key k r) by (apply Hlater; rewrite in_app_iff; simpl; auto).
    destruct (save_result_step _ _ _ H)
      as [(u' & f' & ct' & b' & p' & -> & _ & -> & _)|(_ & -> & _)];
      [|auto].
    cbn [sets_key] in Hn.
    rewrite !map_get_set_other by tauto. auto.
Qed.

End SaveResults.

Lemma sets_key_dec k r : {sets_key k r} + {~ sets_key k r}.
Proof.
  destruct r as [[u f ct b|u e]|]; cbn [sets_key]; [|right; tauto|right; tauto].
  destruct (string_dec k u); [left; tauto|].
  destruct (string_dec k (saved_under u f)); [left; tauto | right; tauto].
Qed.

(** Among the results, the last one that sets the key [k], if any does. *)
Lemma last_setter k (rs : list (option Outcome)) :
  (forall r, In r rs -> ~ sets_key k r)
  \/ exists before u f ct b after,
       rs = (before ++ Some (Downloaded u f ct b) :: after)%list
       /\ (k = u \/ k = saved_under u f)
       /\ forall r, In r after -> ~ sets_key k r.
Proof.
  induction rs as [|r rs [IH|(before & u & f & ct & b & after & -> & Hk & Hafter)]].
  - left. intros r [].
  - destruct (sets_key_dec k r) as [Hr|Hr].
    + right. destruct r as [[u f ct b|u e]|]; cbn [sets_key] in Hr; try contradiction.
      exists [], u, f, ct, b, rs. auto.
    + left. intros r' [<-|Hin]; auto.
  - right. exists (r :: before), u, f, ct, b, after. auto.
Qed.

(** C1 (as amended). The map is built from the successful outcomes only:
    dropping the failed ones gives the same map, and every entry has for
    key the requested or the final URL of a successful outcome and for
    value the path assigned to that outcome. The requested URL and the
    final URL of every successful outcome are keys of the map, and a key
    holds the path assigned to the last successful outcome that has it for
    requested or final URL: the two URLs of an outcome map to the same
    path unless a later successful outcome sets one of them again, and
    then that one holds the later outcome's path. *)
Theorem url_map_from_successful_downloads (E : Env) (folder : string)
    (rs : list (option Outcome)) (sv : Saved) :
  save_results E folder rs = Ok sv ->
  (exists sv', save_results E folder (filter is_downloaded rs) = Ok sv'
               /\ urlToLocalRel sv' = urlToLocalRel sv) /\
  (forall k v, In (k, v) (urlToLocalRel sv) ->
     exists u f ct b,
       In (Some (Downloaded u f ct b)) rs
       /\ (k = u \/ k = saved_under u f)
       /\ localPathForAsset E (saved_under u f) ct = Ok v) /\
  (forall before u f ct b after k,
     rs = (before ++ Some (Downloaded u f ct b) :: after)%list ->
     k = u \/ k = saved_under u f ->
     (forall r, In r after -> ~ sets_key k r) ->
     exists p,
       localPathForAsset E (saved_under u f) ct = Ok p
       /\ map_get k (urlToLocalRel sv) = Some p) /\
  (forall r k, In r rs -> sets_key k r ->
     exists before u f ct b after p,
       rs = (before ++ Some (Downloaded u f ct b) :: after)%list
       /\ (k = u \/ k = saved_under u f)
       /\ (forall r', In r' after -> ~ sets_key k r')
       /\ localPathForAsset E (saved_under u f) ct = Ok p
       /\ map_get k (urlToLocalRel sv) = Some p) /\
  (forall before u f ct b after,
     rs = (before ++ Some (Downloaded u f ct b) :: after)%list ->
     (forall r, In r after -> ~ sets_key u r /\ ~ sets_key (saved_under u f) r) ->
     both_keys_agree (urlToLocalRel sv) (Some (Downloaded u f ct b))).
Proof.
  intros H. split; [|split; [|split; [|split]]].
  - destruct (save_results_successes E folder rs sv H) as (sv' & Hs & Hm & _). eauto.
  - apply (save_results_entries E folder). assumption.
  - intros before u f ct b after k -> Hk Hlater.
    exact (save_results_last E folder before u f ct b after sv k H Hk Hlater).
  - intros r k Hin Hsets.
    destruct (last_setter k rs)
      as [Hnone|(before & u & f & ct & b & after & -> & Hk & Hafter)].
    + destruct (Hnone r Hin Hsets).
    + destruct (save_results_last E folder before u f ct b after sv k H Hk Hafter)
        as (p & Hp & Hg).
      exists before, u, f, ct, b, after, p. auto.
  - intros before u f ct b after -> Hlater.
    destruct (save_results_kept E folder before u f ct b after sv H Hlater)
      as (p & _ & Hu & Hf).
    exists p. auto.
Qed.

(** C1 at [RESULTS_ONE]: the redirected download is found under both of
    its URLs, with the path assigned to it. *)
Lemma url_map_of_three_results :
  (exists p,
     localPathForAsset (Sample.env [] []) "https://cdn.test/b.png" PNG = Ok p
     /\ map_get "https://x.test/a" (urlToLocalRel SAVED_ONE) = Some p)
  /\ both_keys_agree (urlToLocalRel SAVED_ONE)
       (Some (Downloaded "https://x.test/a" "https://cdn.test/b.png" PNG "b")).
Proof.
  assert (Hrun : save_results (Sample.env [] []) FOLDER RESULTS_ONE = Ok SAVED_ONE)
    by (vm_compute; reflexivity).
  destruct (url_map_from_successful_downloads (Sample.env [] []) FOLDER
              RESULTS_ONE SAVED_ONE Hrun) as (_ & _ & Hlast & _ & Hboth).
  split.
  - refine (Hlast [] "https://x.test/a" "https://cdn.test/b.png" PNG "b" _
              "https://x.test/a" eq_refl (or_introl eq_refl) _).
    intros r [<-|[<-|[]]]; cbn [sets_key]; try tauto.
    intros [H|H]; vm_compute in H; discriminate.
  - refine (Hboth [] "https://x.test/a" "https://cdn.test/b.png" PNG "b" _ eq_refl _).
    intros r [<-|[<-|[]]]; cbn [sets_key]; split; try tauto;
      intros [H|H]; vm_compute in H; discriminate.
Defined.

(** C1, as the claim words it, fails at [RESULTS_TWO], the results of the
    downloads on [NET_REDIRECTS]: the map is built, and the first outcome
    has one path under its requested URL and another under its final URL. *)
Lemma url_map_keys_can_disagree :
  download_all (Sample.env NET_REDIRECTS [])
    ["https://x.test/a"; "https://cdn.test/b.png"] = RESULTS_TWO
  /\ exists sv,
    save_results (Sample.env NET_REDIRECTS []) FOLDER RESULTS_TWO = Ok sv
    /\ map_get "https://x.test/a" (urlToLocalRel sv) = Some "assets/img/b-7e2fc483.png"
    /\ map_get "https://cdn.test/b.png" (urlToLocalRel sv) = Some "assets/img/c-a2aac06a.png"
    /\ ~ Forall (both_keys_agree (urlToLocalRel sv)) RESULTS_TWO.
Proof.
  split; [vm_compute; reflexivity|].
  eexists. split; [vm_compute; reflexivity|].
  split; [vm_compute; reflexivity|]. split; [vm_compute; reflexivity|].
  intros H. inversion H as [|r l Hr _]. subst.
  destruct Hr as (p & Ha & Hb). vm_compute in Ha, Hb. congruence.
Qed.

(* ================================================================== *)
(** * C7: the local path of an asset *)
(* ================================================================== *)

(** A local path is [assets/<folder>/<name>], the folder one of four. *)
Lemma localPathForAsset_shape (E : Env) (remoteUrl contentType p : string) :
  localPathForAsset E remoteUrl contentType = Ok p ->
  exists folder name,
    classifyByExtOrMime E remoteUrl contentType = Ok folder
    /\ In folder ["js"; "fonts"; "img"; "other"]
    /\ p = "assets/" ++ folder ++ "/" ++ name.
Proof.
  unfold localPathForAsset, ensureExt, classifyByExtOrMime.
  destruct (parsed E remoteUrl) as [u|m]; cbn [bind]; [|discriminate].
  intros [= <-]. eexists. eexists. split; [reflexivity|]. split; [|reflexivity].
  repeat match goal with |- context [if ?c then _ else _] => destruct c end;
    simpl; tauto.
Qed.

(** C7. Whatever the run and wherever in the list of results a successful
    download stands, its bytes are written at the path [localPathForAsset]
    gives for its final URL and content type: two downloads with the same
    final URL and content type, in one run or in two, get the same
    subfolder and the same file name. *)
Theorem local_path_depends_on_url_and_type_only (E : Env) (folder1 folder2 : string)
    (rs1 rs2 : list (option Outcome)) (sv1 sv2 : Saved)
    (u1 f1 b1 u2 f2 b2 ct : string) :
  save_results E folder1 rs1 = Ok sv1 ->
  save_results E folder2 rs2 = Ok sv2 ->
  In (Some (Downloaded u1 f1 ct b1)) rs1 ->
  In (Some (Downloaded u2 f2 ct b2)) rs2 ->
  saved_under u1 f1 = saved_under u2 f2 ->
  exists folder name,
    classifyByExtOrMime E (saved_under u1 f1) ct = Ok folder
    /\ In folder ["js"; "fonts"; "img"; "other"]
    /\ localPathForAsset E (saved_under u1 f1) ct
       = Ok ("assets/" ++ folder ++ "/" ++ name)
    /\ In ("assets/" ++ folder ++ "/" ++ name, b1) (files sv1)
    /\ In ("assets/" ++ folder ++ "/" ++ name, b2) (files sv2).
Proof.
  intros H1 H2 Hin1 Hin2 Hkey.
  destruct (save_results_files E folder1 rs1 sv1 u1 f1 ct b1 H1 Hin1) as (p1 & Hp1 & Hf1).
  destruct (save_results_files E folder2 rs2 sv2 u2 f2 ct b2 H2 Hin2) as (p2 & Hp2 & Hf2).
  rewrite <- Hkey in Hp2. rewrite Hp1 in Hp2. injection Hp2 as <-.
  destruct (localPathForAsset_shape E _ _ _ Hp1) as (folder & name & Hc & Hfolder & ->).
  exists folder, name. auto.
Qed.

(** C7 at [RESULTS_ONE] and [RESULTS_THREE]. *)
Lemma local_path_in_two_runs :
  exists folder name,
    classifyByExtOrMime (Sample.env [] [])
      (saved_under "https://x.test/a" "https://cdn.test/b.png") PNG = Ok folder
    /\ In folder ["js"; "fonts"; "img"; "other"]
    /\ localPathForAsset (Sample.env [] [])
         (saved_under "https://x.test/a" "https://cdn.test/b.png") PNG
       = Ok ("assets/" ++ folder ++ "/" ++ name)
    /\ In ("assets/" ++ folder ++ "/" ++ name, "b") (files SAVED_ONE)
    /\ In ("assets/" ++ folder ++ "/" ++ name, "again") (files SAVED_THREE).
Proof.
  apply (local_path_depends_on_url_and_type_only (Sample.env [] []) FOLDER FOLDER
           RESULTS_ONE RESULTS_THREE SAVED_ONE SAVED_THREE
           "https://x.test/a" "https://cdn.test/b.png" "b"
           "https://cdn.test/b.png" "https://cdn.test/b.png" "again" PNG).
  - vm_compute. reflexivity.
  - vm_compute. reflexivity.
  - simpl. auto.
  - simpl. auto.
  - reflexivity.
Defined.

Example local_path_of_a_png :
  localPathForAsset (Sample.env [] []) "https://x.test/a.png" PNG
  = Ok "assets/img/a-5449d8ba.png".
Proof. vm_compute. reflexivity. Qed.

Example local_path_without_extension :
  localPathForAsset (Sample.env [] []) "https://x.test/fonts/" "font/woff2"
  = Ok "assets/fonts/fonts-ed3bedf1.woff2".
Proof. vm_compute. reflexivity. Qed.

(* ================================================================== *)
(** * C10: only http(s) URLs are downloaded *)
(* ================================================================== *)

Lemma is_http_scheme u :
  is_http false u = true
  <-> exists rest, u = "http://" ++ rest \/ u = "https://" ++ rest.
Proof.
  unfold is_http, starts_with. rewrite orb_true_iff. split.
  - intros [H|H].
    + destruct (strip_prefix false "http://" u) as [rest|] eqn:Hp; [|discriminate].
      apply strip_prefix_exact in Hp. eauto.
    + destruct (strip_prefix false "https://" u) as [rest|] eqn:Hp; [|discriminate].
      apply strip_prefix_exact in Hp. eauto.
  - intros [rest [->| ->]].
    + left. now rewrite (proj2 (strip_prefix_exact "http://" _ rest) eq_refl).
    + right. now rewrite (proj2 (strip_prefix_exact "https://" _ rest) eq_refl).
Qed.

Lemma In_dedupe x l : In x (dedupe l) <-> In x l.
Proof.
  unfold dedupe. change (In x (add_all l []) <-> In x l).
  rewrite In_add_all. simpl. tauto.
Qed.

Lemma In_all_asset_urls u html css :
  In u (all_asset_urls html css)
  <-> (In u html \/ In u css) /\ is_http false u = true.
Proof.
  unfold all_asset_urls. now rewrite In_dedupe, filter_In, in_app_iff.
Qed.

(** The outcome of a download carries the URL asked for, and for final URL
    the one the response reports, if any. *)
Lemma download_final (E : Env) (url u f ct b : string) :
  download E url = Downloaded u f ct b ->
  u = url /\ exists res,
    http_get E ACCEPT_ANY url = Responded res /\ f = final_url res url.
Proof.
  unfold download, fetchBinary, fetchText.
  destruct (http_get E ACCEPT_ANY url) as [m|res]; [discriminate|].
  destruct (not_2xx res); [discriminate|].
  cbn [finalUrl contentType body]. intros [= <- <- _ _]. eauto.
Qed.

(** C10. If the HTTP client reports only http(s) URLs as final URLs (it
    follows redirects over these two schemes only), then: the URLs handed
    to the downloader are exactly the discovered candidates that start
    with [http://] or [https://]; a candidate with any other scheme is not
    among them, and it is no key of the URL-to-local-path map. *)
Theorem only_http_urls_are_downloaded (E : Env)
    (htmlAssetUrls cssAssetUrls : list string) :
  (forall url res f,
     http_get E ACCEPT_ANY url = Responded res ->
     responseUrl res = Some f -> f <> "" -> is_http false f = true) ->
  (forall u,
     In u (all_asset_urls htmlAssetUrls cssAssetUrls)
     <-> (In u htmlAssetUrls \/ In u cssAssetUrls)
         /\ exists rest, u = "http://" ++ rest \/ u = "https://" ++ rest) /\
  (forall folder c sv,
     is_http false c = false ->
     save_results E folder (download_all E (all_asset_urls htmlAssetUrls cssAssetUrls))
     = Ok sv ->
     ~ In c (all_asset_urls htmlAssetUrls cssAssetUrls)
     /\ map_get c (urlToLocalRel sv) = None).
Proof.
  intros Hnet. split.
  - intros u. rewrite In_all_asset_urls, is_http_scheme. tauto.
  - intros folder c sv Hc Hsv. split.
    + rewrite In_all_asset_urls. intros [_ H]. congruence.
    + apply map_get_absent. intros v Hin.
      destruct (save_results_entries E folder _ sv Hsv c v Hin)
        as (u & f & ct & b & Hr & Hk & _).
      unfold download_all in Hr. apply in_map_iff in Hr.
      destruct Hr as (url & Heq & Hurl). injection Heq as Heq.
      apply download_final in Heq. destruct Heq as (Hu & res & Hget & Hf).
      subst u f.
      apply In_all_asset_urls in Hurl. destruct Hurl as [_ Hhttp].
      assert (Hfinal : is_http false (final_url res url) = true).
      { unfold final_url, or_else. destruct (responseUrl res) as [[|a r]|] eqn:Hr;
          cbn [truthy to_string]; try assumption.
        apply (Hnet url res _ Hget Hr). discriminate. }
      assert (Hkey : is_http false (saved_under url (final_url res url)) = true).
      { unfold saved_under, or_else. destruct (final_url res url);
          cbn [truthy to_string]; assumption. }
      destruct Hk as [->| ->]; congruence.
Qed.

(** C10 at a [data:] candidate found in the HTML. *)
Lemma data_url_is_not_downloaded :
  ~ In DATA_URL (all_asset_urls CANDIDATES_HTML CANDIDATES_CSS)
  /\ map_get DATA_URL (urlToLocalRel SAVED_FOUR) = None.
Proof.
  refine (proj2 (only_http_urls_are_downloaded (Sample.env NET_ASSETS [])
                   CANDIDATES_HTML CANDIDATES_CSS _)
            FOLDER DATA_URL SAVED_FOUR eq_refl _).
  - intros url res f. cbn [http_get Sample.env Sample.lookup NET_ASSETS].
    destruct (url =? "https://x.test/a.png").
    + intros [= <-] [= <-] _. reflexivity.
    + destruct (url =? "https://x.test/f.woff2"); [|discriminate].
      intros [= <-]. discriminate.
  - vm_compute. reflexivity.
Defined.

Example the_urls_downloaded :
  all_asset_urls CANDIDATES_HTML CANDIDATES_CSS
  = ["https://x.test/a.png"; "https://x.test/f.woff2"]
  /\ map fst (urlToLocalRel SAVED_FOUR)
     = ["https://cdn.test/a.png"; "https://x.test/a.png"].
Proof. split; vm_compute; reflexivity. Qed.

(* ================================================================== *)
(** * C2: discovery of assets in the HTML *)
(* ================================================================== *)

Section Discovery.
Variable E : Env.

Lemma noscript_assets_thrown baseUrl els m :
  fold_left (noscript_assets E baseUrl) els (Throw m) = Throw m.
Proof. induction els as [|el els IH]; [reflexivity | exact IH]. Qed.

(** The loop over the [noscript] elements ends with the set unchanged when
    all of them are empty, and throws at the first that is not. *)
Lemma parseNoscriptAssets_cases doc baseUrl assets :
  parseNoscriptAssets E doc baseUrl assets =
  if existsb (has_content E) (select SEL_NOSCRIPT doc)
  then Throw "_$$ is not defined"
  else Ok assets.
Proof.
  unfold parseNoscriptAssets.
  induction (select SEL_NOSCRIPT doc) as [|el els IH]; [reflexivity|].
  cbn [fold_left existsb]. unfold noscript_assets at 2, has_content at 1.
  cbn [bind]. destruct (inner_html E el) as [[|c html]|]; cbn [truthy orb].
  - exact IH.
  - unfold unbound. cbn [bind]. apply noscript_assets_thrown.
  - exact IH.
Qed.

(** Without a [noscript] element that has content, discovery returns: no
    candidate, however malformed, makes it throw. *)
Lemma collectHtmlAssetUrls_returns html baseUrl :
  existsb (has_content E) (select SEL_NOSCRIPT (cheerio_load E html)) = false ->
  exists assets, collectHtmlAssetUrls E html baseUrl = Ok (cheerio_load E html, assets).
Proof.
  intros H. unfold collectHtmlAssetUrls. rewrite parseNoscriptAssets_cases, H.
  cbn [bind]. eauto.
Qed.

End Discovery.

(** C2 (the code breaks it). A document with a [noscript] element that is
    not empty makes the discovery pass throw: the [srcset] candidates of
    the block are never read, and no asset of the document is returned. *)
Theorem noscript_content_aborts_discovery (E : Env) (html baseUrl : string)
    (el : element) :
  In el (select SEL_NOSCRIPT (cheerio_load E html)) ->
  truthy (inner_html E el) = true ->
  collectHtmlAssetUrls E html baseUrl = Throw "_$$ is not defined".
Proof.
  intros Hin Hcontent. unfold collectHtmlAssetUrls.
  rewrite parseNoscriptAssets_cases.
  replace (existsb (has_content E) (select SEL_NOSCRIPT (cheerio_load E html)))
    with true; [reflexivity|].
  symmetry. apply existsb_exists. exists el. auto.
Qed.

(** C2 at a page with one image and one [noscript] fallback. *)
Lemma noscript_page_aborts_discovery :
  collectHtmlAssetUrls (Sample.env [] NOSCRIPT_PAGES) NOSCRIPT_PAGE "https://x.test/"
  = Throw "_$$ is not defined".
Proof.
  apply (noscript_content_aborts_discovery (Sample.env [] NOSCRIPT_PAGES)
           NOSCRIPT_PAGE "https://x.test/" NOSCRIPT_BLOCK).
  - vm_compute. auto.
  - reflexivity.
Defined.

(** The same page without the block: a malformed [src] is passed over and
    the other candidates are found. *)
Example discovery_skips_a_malformed_url :
  collectHtmlAssetUrls
    (Sample.env []
       [("<img src='http://'><img src=/a.png srcset='b.png 2x, http:// 3x'>",
         [Element "html" []
            [ Element "head" [] [];
              Element "body" []
                [ Element "img" [("src", "http://")] [];
                  Element "img" [("src", "/a.png"); ("srcset", "b.png 2x, http:// 3x")] []
                ] ]])])
    "<img src='http://'><img src=/a.png srcset='b.png 2x, http:// 3x'>" "https://x.test/p/"
  = Ok ([Element "html" []
           [ Element "head" [] [];
             Element "body" []
               [ Element "img" [("src", "http://")] [];
                 Element "img" [("src", "/a.png"); ("srcset", "b.png 2x, http:// 3x")] []
               ] ]],
        ["https://x.test/a.png"; "https://x.test/p/b.png"]).
Proof. vm_compute. reflexivity. Qed.

(* ================================================================== *)
(** * C6: the worker pool *)
(* ================================================================== *)

Lemma length_write_at {A} i (x : A) l : length (write_at i x l) = length l.
Proof.
  revert i; induction l as [|y l IH]; intros [|i]; simpl; auto.
Qed.

Lemma nth_error_write_at_same {A} i (x : A) l :
  i < length l -> nth_error (write_at i x l) i = Some x.
Proof.
  revert i; induction l as [|y l IH]; intros [|i]; simpl; try lia; auto.
  intros H. apply IH. lia.
Qed.

Lemma nth_error_write_at_other {A} i j (x : A) l :
  i <> j -> nth_error (write_at i x l) j = nth_error l j.
Proof.
  revert i j; induction l as [|y l IH]; intros [|i] [|j]; simpl; try tauto; auto.
Qed.

Lemma waiting_write_at w x ws y :
  nth_error ws w = Some y ->
  waiting (write_at w x ws) + (match y with Some _ => 1 | None => 0 end)
  = waiting ws + (match x with Some _ => 1 | None => 0 end).
Proof.
  unfold waiting. revert w; induction ws as [|z ws IH]; intros [|w]; simpl;
    try discriminate.
  - intros [= ->]. destruct x, y; simpl; lia.
  - intros H. specialize (IH w H). destruct z; simpl; lia.
Qed.

Lemma waiting_zero ws : waiting ws = 0 <-> Forall (fun w => w = None) ws.
Proof.
  unfold waiting. induction ws as [|[i|] ws IH]; simpl.
  - split; auto.
  - split; [discriminate | intros H; inversion H; discriminate].
  - rewrite IH. split; [auto | intros H; now inversion H].
Qed.

Lemma waiting_positive ws :
  waiting ws <> 0 -> exists w idx, nth_error ws w = Some (Some idx).
Proof.
  unfold waiting. induction ws as [|[i|] ws IH]; simpl.
  - tauto.
  - intros _. exists 0, i. reflexivity.
  - intros H. destruct (IH H) as (w & idx & Hw). exists (S w), idx. exact Hw.
Qed.

Section Pool.
Variable E : Env.
Variable urls : list string.

Lemma pool_inv_any w w' p :
  pool_inv E urls w p -> nth_error (workers p) w' = None \/
                  nth_error (workers p) w' = Some None ->
  pool_inv E urls w' p.
Proof.
  intros [H1 H2 H3 H4] Hw'. split; auto.
  intros i Hi. destruct (H4 i Hi) as [Hd|(w2 & _ & Hw2)]; [now left|].
  right. exists w2. split; [|assumption]. intros ->.
  destruct Hw' as [Hn|Hn]; rewrite Hn in Hw2; discriminate.
Qed.

Lemma enter_inv w p :
  w < length (workers p) ->
  pool_inv E urls w p ->
  pool_inv E urls (length (workers p)) (enter (length urls) w p)
  /\ some_worker_waits urls (enter (length urls) w p)
  /\ length (workers (enter (length urls) w p)) = length (workers p).
Proof.
  intros Hw [H1 H2 H3 H4]. unfold enter, some_worker_waits.
  destruct (next p <? length urls)%nat eqn:Hn; cbn [next out workers].
  - apply Nat.ltb_lt in Hn. split; [split|split]; cbn [next out workers].
    + assumption.
    + lia.
    + intros w' idx. destruct (Nat.eq_dec w w') as [<-|Hne].
      * rewrite nth_error_write_at_same by assumption. intros [= <-]. lia.
      * rewrite nth_error_write_at_other by assumption. intros H.
        specialize (H3 _ _ H). lia.
    + intros i Hi. destruct (Nat.eq_dec i (next p)) as [->|Hne].
      * right. exists w. split; [lia|]. now apply nth_error_write_at_same.
      * destruct (H4 i ltac:(lia)) as [Hd|(w' & Hw' & Hi')]; [now left|].
        right. exists w'. split.
        -- intros ->.
           pose proof (nth_error_None (workers p) (length (workers p))) as [_ Hx].
           rewrite Hx in Hi' by lia. discriminate.
        -- now rewrite nth_error_write_at_other by congruence.
    + intros _. exists w, (next p). now apply nth_error_write_at_same.
    + apply length_write_at.
  - apply Nat.ltb_ge in Hn. split; [split|split]; cbn [next out workers].
    + assumption.
    + assumption.
    + intros w' idx. destruct (Nat.eq_dec w w') as [<-|Hne].
      * rewrite nth_error_write_at_same by assumption. discriminate.
      * rewrite nth_error_write_at_other by assumption. apply H3.
    + intros i Hi. destruct (H4 i Hi) as [Hd|(w' & Hw' & Hi')]; [now left|].
      right. exists w'. split.
      * intros ->.
        pose proof (nth_error_None (workers p) (length (workers p))) as [_ Hx].
        rewrite Hx in Hi' by lia. discriminate.
      * now rewrite nth_error_write_at_other by congruence.
    + lia.
    + apply length_write_at.
Qed.

Lemma enter_measure w p y :
  nth_error (workers p) w = Some y ->
  next p <= length urls ->
  measure urls (enter (length urls) w p) + (match y with Some _ => 1 | None => 0 end)
  = measure urls p.
Proof.
  intros Hw Hn. unfold measure, enter.
  destruct (next p <? length urls)%nat eqn:Hlt; cbn [next workers].
  - apply Nat.ltb_lt in Hlt.
    pose proof (waiting_write_at w (Some (next p)) (workers p) y Hw) as H.
    destruct y; cbn beta iota in *; lia.
  - apply Nat.ltb_ge in Hlt.
    pose proof (waiting_write_at w None (workers p) y Hw) as H.
    destruct y; cbn beta iota in *; lia.
Qed.

End Pool.

Section PoolRuns.
Variable E : Env.
Variable urls : list string.

Lemma nth_error_repeat_none (k w idx : nat) :
  nth_error (repeat (@None nat) k) w <> Some (Some idx).
Proof.
  revert w; induction k as [|k IH]; intros [|w]; simpl; try discriminate. apply IH.
Qed.

Lemma waiting_repeat_none k : waiting (repeat None k) = 0.
Proof. apply waiting_zero. apply Forall_forall. intros w Hw. now apply repeat_spec in Hw. Qed.

(** The pool after the first [j] of [k] workers have been started. *)
Lemma start_workers_prefix k j :
  j <= k ->
  let p := fold_left (fun p w => enter (length urls) w p) (seq 0 j)
             (mkPool 0 (repeat None (length urls)) (repeat None k)) in
  pool_inv E urls k p
  /\ length (workers p) = k
  /\ waiting (workers p) = next p
  /\ (forall w, j <= w < k -> nth_error (workers p) w = Some None)
  /\ (1 <= j -> some_worker_waits urls p).
Proof.
  induction j as [|j IH]; intros Hj; cbv zeta.
  - cbn [seq fold_left]. split; [split|]; cbn [next out workers].
    + apply repeat_length.
    + lia.
    + intros w' idx H. now apply nth_error_repeat_none in H.
    + intros i Hi. lia.
    + split; [apply repeat_length|]. split; [apply waiting_repeat_none|].
      split; [|lia]. intros w Hw. rewrite nth_error_repeat by lia. reflexivity.
  - rewrite seq_S, fold_left_app. cbn [fold_left Nat.add].
    destruct (IH ltac:(lia)) as (Hinv & Hlen & Hwait & Hrest & _).
    set (q := fold_left (fun p w => enter (length urls) w p) (seq 0 j)
                (mkPool 0 (repeat None (length urls)) (repeat None k))) in *.
    assert (Hj' : nth_error (workers q) j = Some None) by (apply Hrest; lia).
    destruct (enter_inv E urls j q) as (Hinv' & Hsome & Hlen').
    { lia. }
    { apply (pool_inv_any E urls k); auto. }
    rewrite Hlen in Hinv'. split; [assumption|].
    split; [lia|]. split; [|split].
    + pose proof (inv_next _ _ _ _ Hinv) as Hn.
      unfold enter. destruct (next q <? length urls)%nat; cbn [next workers].
      * pose proof (waiting_write_at j (Some (next q)) (workers q) None Hj') as Hx.
        cbn beta iota in Hx. lia.
      * pose proof (waiting_write_at j None (workers q) None Hj') as Hx.
        cbn beta iota in Hx. lia.
    + intros w Hw. unfold enter.
      destruct (next q <? length urls)%nat; cbn [workers];
        rewrite nth_error_write_at_other by lia; apply Hrest; lia.
    + intros _. assumption.
Qed.

Lemma start_ok limit :
  (1 <= limit)%Z ->
  pool_ok E urls (start urls limit) /\ measure urls (start urls limit) = length urls.
Proof.
  intros Hlimit. unfold start, start_workers.
  set (k := worker_count limit (length urls)).
  assert (Hk : 1 <= k).
  { unfold k, worker_count. destruct (length urls); lia. }
  destruct (start_workers_prefix k k (le_n k)) as (Hinv & Hlen & Hwait & _ & Hsome).
  cbv zeta in *.
  set (p := fold_left (fun p w => enter (length urls) w p) (seq 0 k)
              (mkPool 0 (repeat None (length urls)) (repeat None k))) in *.
  split; [split|].
  - now rewrite Hlen.
  - auto.
  - unfold measure. rewrite Hwait. pose proof (inv_next _ _ _ _ Hinv). lia.
Qed.

Lemma step_ok p q :
  pool_ok E urls p -> step E urls p q -> pool_ok E urls q /\ S (measure urls q) = measure urls p.
Proof.
  intros [Hinv _] Hstep. destruct Hstep as [p w idx Hw].
  destruct Hinv as [H1 H2 H3 H4].
  assert (Hidx : idx < next p) by (eapply H3; eauto).
  assert (Hwlt : w < length (workers p)).
  { apply nth_error_Some. rewrite Hw. discriminate. }
  assert (Hmid : pool_inv E urls w
                   (mkPool (next p)
                      (write_at idx (Some (download E (nth idx urls ""))) (out p))
                      (workers p))).
  { split; cbn [next out workers].
    - now rewrite length_write_at.
    - assumption.
    - assumption.
    - intros i Hi. unfold done_at. cbn [out].
      destruct (Nat.eq_dec i idx) as [->|Hne].
      + left. apply nth_error_write_at_same. lia.
      + destruct (H4 i Hi) as [Hd|(w' & _ & Hw')].
        * left. unfold done_at in Hd.
          now rewrite nth_error_write_at_other by congruence.
        * right. exists w'. split; [|assumption]. intros ->. congruence. }
  destruct (enter_inv E urls w
              (mkPool (next p)
                 (write_at idx (Some (download E (nth idx urls ""))) (out p))
                 (workers p)) Hwlt Hmid) as (Hq & Hsome & Hlen).
  cbn [workers] in Hlen, Hq.
  split.
  - split; [|assumption]. now rewrite Hlen.
  - pose proof (enter_measure urls w
                  (mkPool (next p)
                     (write_at idx (Some (download E (nth idx urls ""))) (out p))
                     (workers p)) (Some idx) Hw H2) as Hm.
    unfold measure in *. cbn [next workers] in *. lia.
Qed.

Lemma steps_ok n p q :
  pool_ok E urls p -> steps E urls n p q -> pool_ok E urls q /\ measure urls q + n = measure urls p.
Proof.
  intros Hp Hsteps. induction Hsteps as [p|n p q r Hstep _ IH].
  - split; [assumption | lia].
  - destruct (step_ok p q Hp Hstep) as [Hq Hm].
    destruct (IH Hq) as [Hr Hm']. split; [assumption | lia].
Qed.

Lemma settled_out p :
  pool_ok E urls p -> settled p -> out p = download_all E urls.
Proof.
  intros [[H1 H2 H3 H4] Hsome] Hsettled.
  assert (Hnone : forall w idx, nth_error (workers p) w <> Some (Some idx)).
  { intros w idx Hw. apply nth_error_In in Hw.
    unfold settled in Hsettled. rewrite Forall_forall in Hsettled.
    specialize (Hsettled _ Hw). discriminate. }
  assert (Hnext : next p = length urls).
  { destruct (Nat.eq_dec (next p) (length urls)) as [|Hne]; [assumption|].
    destruct Hsome as (w & idx & Hw); [lia|]. now apply Hnone in Hw. }
  apply nth_error_ext. intros i. unfold download_all. rewrite nth_error_map.
  destruct (Nat.lt_ge_cases i (length urls)) as [Hi|Hi].
  - destruct (H4 i ltac:(lia)) as [Hd|(w & _ & Hw)]; [|now apply Hnone in Hw].
    unfold done_at in Hd. rewrite Hd.
    rewrite (nth_error_nth' urls "" Hi). reflexivity.
  - pose proof (nth_error_None (out p) i) as [_ Ho].
    pose proof (nth_error_None urls i) as [_ Hu].
    rewrite Ho, Hu by lia. reflexivity.
Qed.

Lemma pool_progress p :
  settled p \/ exists q, step E urls p q.
Proof.
  destruct (Nat.eq_dec (waiting (workers p)) 0) as [H0|Hpos].
  - left. now apply waiting_zero.
  - right. destruct (waiting_positive _ Hpos) as (w & idx & Hw).
    eexists. exact (step_settle E urls p w idx Hw).
Qed.

Lemma pool_runs_to_the_end m p :
  pool_ok E urls p -> measure urls p = m ->
  exists q, steps E urls m p q /\ settled q.
Proof.
  revert p. induction m as [|m IH]; intros p Hp Hm.
  - exists p. split; [constructor|]. apply waiting_zero. unfold measure in Hm. lia.
  - destruct (pool_progress p) as [Hs|[q Hq]].
    + exfalso. destruct Hp as [Hinv Hsome].
      apply waiting_zero in Hs. unfold measure in Hm.
      destruct Hsome as (w & idx & Hw); [lia|].
      apply waiting_zero in Hs. rewrite Forall_forall in Hs.
      apply nth_error_In in Hw. specialize (Hs _ Hw). discriminate.
    + destruct (step_ok p q Hp Hq) as [Hq' Hmq].
      destruct (IH q Hq' ltac:(lia)) as (r & Hr & Hsettled).
      exists r. split; [econstructor; eauto | assumption].
Qed.

End PoolRuns.

(** C6. For every list of URLs and every limit of at least one, which is
    every limit [parseArgs] gives: however the downloads settle, the pool stops after as many steps
    as there are URLs, until then some download can always settle, and
    when all workers have returned the array holds, at the index of each
    URL, the outcome of that URL: the downloaded content if the fetch
    succeeded, the error message if it failed. A run to the end exists. *)
Theorem downloads_land_at_their_index (E : Env) (urls : list string) (limit : Z) :
  (1 <= limit)%Z ->
  (forall n p,
     steps E urls n (start urls limit) p ->
     n <= length urls
     /\ (settled p \/ exists q, step E urls p q)
     /\ (settled p -> n = length urls /\ out p = download_all E urls)) /\
  (exists p, steps E urls (length urls) (start urls limit) p /\ settled p) /\
  (forall i url,
     nth_error urls i = Some url ->
     nth_error (download_all E urls) i = Some (Some (download E url))) /\
  (forall url,
     match fetchBinary E url with
     | Ok f => download E url = Downloaded url (finalUrl f) (contentType f) (body f)
     | Throw message => download E url = Failed url message
     end).
Proof.
  intros Hlimit. destruct (start_ok E urls limit Hlimit) as [Hstart Hmeasure].
  split; [|split; [|split]].
  - intros n p Hsteps.
    destruct (steps_ok E urls n _ p Hstart Hsteps) as [Hp Hm].
    split; [lia|]. split; [apply pool_progress|].
    intros Hs. split; [|now apply settled_out].
    apply waiting_zero in Hs. destruct Hp as [Hinv Hsome].
    unfold measure in Hm, Hmeasure.
    destruct (Nat.eq_dec (next p) (length urls)) as [|Hne]; [lia|].
    destruct Hsome as (w & idx & Hw); [pose proof (inv_next _ _ _ _ Hinv); lia|].
    apply waiting_zero in Hs. rewrite Forall_forall in Hs.
    apply nth_error_In in Hw. specialize (Hs _ Hw). discriminate.
  - apply pool_runs_to_the_end; assumption.
  - intros i url Hi. unfold download_all. rewrite nth_error_map, Hi. reflexivity.
  - intros url. unfold download. destruct (fetchBinary E url); reflexivity.
Qed.

(** C6 at two URLs, the second of which answers 404, and eight workers. *)
Lemma two_downloads_eight_workers :
  (exists p, steps (Sample.env NET_ASSETS []) TWO_URLS 2 (start TWO_URLS 8) p
             /\ settled p)
  /\ nth_error (download_all (Sample.env NET_ASSETS []) TWO_URLS) 1
     = Some (Some (download (Sample.env NET_ASSETS []) "https://x.test/f.woff2")).
Proof.
  pose proof (downloads_land_at_their_index (Sample.env NET_ASSETS []) TWO_URLS 8
                ltac:(lia)) as H.
  split.
  - exact (proj1 (proj2 H)).
  - exact (proj1 (proj2 (proj2 H)) 1 "https://x.test/f.woff2" eq_refl).
Defined.

Example the_failed_download_is_an_outcome :
  download_all (Sample.env NET_ASSETS []) TWO_URLS
  = [ Some (Downloaded "https://x.test/a.png" "https://cdn.test/a.png" PNG "png");
      Some (Failed "https://x.test/f.woff2"
              "Non-OK HTTP 404 for https://x.test/f.woff2") ].
Proof. vm_compute. reflexivity. Qed.

(** With one worker fewer than URLs, the second download may settle first:
    the outcomes land at the same indices. *)
Example second_download_settles_first :
  exists p q r,
    step (Sample.env NET_ASSETS []) (TWO_URLS ++ ["https://x.test/a.png"])
      (start (TWO_URLS ++ ["https://x.test/a.png"]) 2) p
    /\ nth_error (out p) 0 = Some None
    /\ nth_error (out p) 1
       = Some (Some (Failed "https://x.test/f.woff2"
                       "Non-OK HTTP 404 for https://x.test/f.woff2"))
    /\ workers p = [Some 0; Some 2]
    /\ step (Sample.env NET_ASSETS []) (TWO_URLS ++ ["https://x.test/a.png"]) p q
    /\ step (Sample.env NET_ASSETS []) (TWO_URLS ++ ["https://x.test/a.png"]) q r
    /\ settled r
    /\ out r = download_all (Sample.env NET_ASSETS [])
                 (TWO_URLS ++ ["https://x.test/a.png"]).
Proof.
  eexists. eexists. eexists.
  split; [apply (step_settle _ _ _ 1 1); reflexivity|].
  split; [reflexivity|]. split; [vm_compute; reflexivity|].
  split; [reflexivity|].
  split; [apply (step_settle _ _ _ 1 2); reflexivity|].
  split; [apply (step_settle _ _ _ 0 0); reflexivity|].
  split; [repeat constructor | vm_compute; reflexivity].
Qed.

(* ================================================================== *)
(** * C4: imports are fetched once *)
(* ================================================================== *)

Lemma extends_refl st : extends st st.
Proof.
  split; [apply incl_refl|]. exists []. split; [now rewrite app_nil_r | intros u []].
Qed.

Lemma extends_trans st1 st2 st3 : extends st1 st2 -> extends st2 st3 -> extends st1 st3.
Proof.
  intros [Hv1 (n1 & Hr1 & Hn1)] [Hv2 (n2 & Hr2 & Hn2)].
  split; [eapply incl_tran; eauto|].
  exists (n1 ++ n2)%list. split; [now rewrite Hr2, Hr1, app_assoc|].
  intros u Hu. apply in_app_iff in Hu. destruct Hu as [Hu|Hu]; [auto|].
  intros Hin. apply (Hn2 u Hu). auto.
Qed.

(** A loop whose every turn keeps [requests_ok] and extends the state. *)
Lemma fold_left_extends {A B : Type} (turn : B * CssState -> A -> B * CssState) :
  (forall acc x, requests_ok (snd acc) ->
                 requests_ok (snd (turn acc x)) /\ extends (snd acc) (snd (turn acc x))) ->
  forall l acc, requests_ok (snd acc) ->
    requests_ok (snd (fold_left turn l acc))
    /\ extends (snd acc) (snd (fold_left turn l acc)).
Proof.
  intros Hturn l. induction l as [|x l IH]; intros acc Hacc; cbn [fold_left].
  - split; [assumption | apply extends_refl].
  - destruct (Hturn acc x Hacc) as [Hok Hext].
    destruct (IH _ Hok) as [Hok' Hext']. split; [assumption|].
    exact (extends_trans _ _ _ Hext Hext').
Qed.

Section Imports.
Variable E : Env.

(** One rule scanned: a URL is requested only when it is not marked, and
    it is marked as it is requested. *)
Lemma scan_import_extends cssUrl acc g :
  requests_ok (snd acc) ->
  requests_ok (snd (scan_import E cssUrl acc g))
  /\ extends (snd acc) (snd (scan_import E cssUrl acc g)).
Proof.
  destruct acc as [sc st]. cbn [snd]. intros [Hnd Hincl].
  unfold scan_import. destruct g as [c|raw cs].
  - split; [split; assumption | apply extends_refl].
  - destruct (absolute E (group 1 cs) cssUrl) as [abs|].
    + destruct (set_has abs (visited st)) eqn:Hv; cbn [snd].
      * split; [split; assumption | apply extends_refl].
      * apply set_has_false in Hv.
        split; [split|split]; cbn [import_requests visited].
        -- unfold push. apply NoDup_app; [assumption | repeat constructor; simpl; tauto |].
           intros x Hx [<-|[]]. auto.
        -- intros x Hx. unfold push in Hx. apply in_app_iff in Hx.
           apply In_set_add. destruct Hx as [Hx|[<-|[]]]; auto.
        -- intros x Hx. apply In_set_add. auto.
        -- exists [abs]. split; [reflexivity|]. intros u [<-|[]]. assumption.
    + split; [split; assumption | apply extends_refl].
Qed.

Lemma scan_imports_extends css cssUrl st :
  requests_ok st ->
  requests_ok (snd (scan_imports E css cssUrl st))
  /\ extends st (snd (scan_imports E css cssUrl st)).
Proof.
  intros Hst. unfold scan_imports.
  apply (fold_left_extends (scan_import E cssUrl)
           (scan_import_extends cssUrl) _ (mkScan [] [], st) Hst).
Qed.

(** The assets recorded while rewriting do not touch the two lists. *)
Lemma with_assets_ok st assets :
  requests_ok st ->
  requests_ok (mkCssState (visited st) assets (import_requests st))
  /\ extends st (mkCssState (visited st) assets (import_requests st)).
Proof.
  intros Hst. split; [exact Hst|]. split; [apply incl_refl|].
  exists []. split; [cbn; now rewrite app_nil_r | intros u []].
Qed.

(** The loop over the rules: a rule whose target is marked gets the
    comment. *)
Lemma scan_import_fold cssUrl gs :
  forall sc st,
    incl (fallbacks sc) (fallbacks (fst (fold_left (scan_import E cssUrl) gs (sc, st))))
    /\ forall raw cs abs,
         In (Tok raw cs) gs ->
         absolute E (group 1 cs) cssUrl = Some abs ->
         In abs (visited st) ->
         In (raw, "/* @import skipped (visited): " ++ abs ++ " */")
            (fallbacks (fst (fold_left (scan_import E cssUrl) gs (sc, st)))).
Proof.
  induction gs as [|g gs IH]; intros sc st; cbn [fold_left].
  - split; [apply incl_refl | intros raw cs abs []].
  - destruct (scan_import E cssUrl (sc, st) g) as [sc1 st1] eqn:Hg.
    destruct (IH sc1 st1) as [Hincl Hskip].
    assert (Hmono : incl (fallbacks sc) (fallbacks sc1) /\ incl (visited st) (visited st1)).
    { unfold scan_import in Hg. destruct g as [c|raw cs].
      - injection Hg as <- <-. split; apply incl_refl.
      - destruct (absolute E (group 1 cs) cssUrl) as [abs|].
        + destruct (set_has abs (visited st)); injection Hg as <- <-;
            cbn [fallbacks visited]; split;
            try apply incl_refl; try (unfold push; apply incl_appl, incl_refl).
          intros x Hx. apply In_set_add. auto.
        + injection Hg as <- <-. cbn [fallbacks]. split;
            [unfold push; apply incl_appl, incl_refl | apply incl_refl]. }
    destruct Hmono as [Hf Hv]. split; [eapply incl_tran; eauto|].
    intros raw cs abs [->|Hin] Habs Hvisited.
    + apply Hincl. unfold scan_import in Hg. rewrite Habs in Hg.
      apply set_has_In in Hvisited. rewrite Hvisited in Hg.
      injection Hg as <- <-. cbn [fallbacks]. unfold push.
      apply in_app_iff. simpl. auto.
    + apply (Hskip raw cs abs Hin Habs). auto.
Qed.

(** The recursion through the list of sub-tasks, unfolded. *)
Lemma replacement_inlining raw url css ts fb :
  replacement (Inlining raw url css ts fb) =
  match replacements ts with
  | Some done =>
      Some (raw, "/* @import inlined from " ++ url ++ " */" ++ nl
                 ++ apply_replacements (done ++ fb)%list css ++ nl
                 ++ "/* end import */")
  | None => None
  end.
Proof.
  cbn [replacement].
  replace ((fix all (l : list task) : option (list (string * string)) :=
              match l with
              | [] => Some []
              | t' :: l' =>
                  match replacement t', all l' with
                  | Some r, Some rs => Some (r :: rs)
                  | _, _ => None
                  end
              end) ts) with (replacements ts); [reflexivity|].
  induction ts as [|t ts IH]; [reflexivity|]. cbn [replacements]. now rewrite IH.
Qed.

Lemma pending_weight_inlining depth raw url css ts fb :
  pending_weight E depth (Inlining raw url css ts fb) = total_weight E (pred depth) ts.
Proof.
  cbn [pending_weight]. unfold total_weight.
  induction ts as [|t ts IH]; [reflexivity|]. cbn [map list_sum]. now rewrite IH.
Qed.

Lemma total_weight_app depth ts ts' :
  total_weight E depth (ts ++ ts') = total_weight E depth ts + total_weight E depth ts'.
Proof. unfold total_weight. now rewrite map_app, list_sum_app. Qed.

Lemma total_weight_cons depth t ts :
  total_weight E depth (t :: ts) = pending_weight E depth t + total_weight E depth ts.
Proof. reflexivity. Qed.

(** [settle_here], the resumed task and the state it leaves named. *)
Lemma settle_pending depth before raw abs after st t' st' :
  resume E depth raw abs st = (t', st') ->
  settle E depth (before ++ Pending raw abs :: after)%list st
    (before ++ t' :: after)%list st'.
Proof.
  intros H. pose proof (settle_here E depth before raw abs after st) as Hs.
  rewrite H in Hs. exact Hs.
Qed.

(** The invariant of the requests, one answer further. *)
Lemma start_imports_extends depth css cssUrl st :
  requests_ok st ->
  requests_ok (snd (start_imports E depth css cssUrl st))
  /\ extends st (snd (start_imports E depth css cssUrl st)).
Proof.
  intros Hst. destruct depth as [|depth]; cbn [start_imports snd].
  - split; [assumption | apply extends_refl].
  - pose proof (scan_imports_extends css cssUrl st Hst) as H.
    destruct (scan_imports E css cssUrl st) as [sc st1]. exact H.
Qed.

Lemma resume_extends depth raw abs st :
  requests_ok st ->
  requests_ok (snd (resume E depth raw abs st))
  /\ extends st (snd (resume E depth raw abs st)).
Proof.
  intros Hst. unfold resume. destruct (fetchText E abs) as [f|message].
  - destruct (rewriteCssUrlsToAbs E (body f) (finalUrl f) (cssAssets st))
      as [rewritten assets].
    destruct (with_assets_ok st assets Hst) as [Hok Hext].
    pose proof (start_imports_extends depth rewritten (finalUrl f) _ Hok) as [Hok' Hext'].
    destruct (start_imports E depth rewritten (finalUrl f)
                (mkCssState (visited st) assets (import_requests st)))
      as [[ts fb] st'].
    cbn [snd] in *. split; [assumption | exact (extends_trans _ _ _ Hext Hext')].
  - cbn [snd]. split; [assumption | apply extends_refl].
Qed.

Lemma settle_extends depth ts st ts' st' :
  settle E depth ts st ts' st' ->
  requests_ok st -> requests_ok st' /\ extends st st'.
Proof.
  induction 1 as [depth before raw abs after st
                 |depth before raw url css ts fb after st ts' st' _ IH]; intros Hst.
  - now apply resume_extends.
  - now apply IH.
Qed.

Lemma settles_extends depth n ts st ts' st' :
  settles E depth n ts st ts' st' ->
  requests_ok st -> requests_ok st' /\ extends st st'.
Proof.
  induction 1 as [ts st|n ts st ts1 st1 ts2 st2 Hstep _ IH]; intros Hst.
  - split; [assumption | apply extends_refl].
  - destruct (settle_extends _ _ _ _ _ Hstep Hst) as [Hok Hext].
    destruct (IH Hok) as [Hok' Hext']. split; [assumption|].
    exact (extends_trans _ _ _ Hext Hext').
Qed.


(** The text [rewriteCssUrlsToAbs] returns does not depend on the set. *)
Lemma rewritten_text css cssFileUrl collect :
  fst (rewriteCssUrlsToAbs E css cssFileUrl collect)
  = fst (rewriteCssUrlsToAbs E css cssFileUrl []).
Proof. unfold rewriteCssUrlsToAbs, replace. now rewrite !replace_segments_css. Qed.

Lemma scan_import_weight depth cssUrl gs sc st :
  list_sum (map (weight E depth)
              (map snd (tasks (fst (fold_left (scan_import E cssUrl) gs (sc, st))))))
  <= list_sum (map (weight E depth) (map snd (tasks sc)))
     + list_sum (map (weight E depth) (flat_map (target_of E cssUrl) gs)).
Proof.
  revert sc st. induction gs as [|g gs IH]; intros sc st; cbn [fold_left flat_map].
  - cbn. lia.
  - rewrite map_app, list_sum_app.
    destruct g as [c|raw cs]; cbn [scan_import target_of].
    + specialize (IH sc st). cbn [map list_sum]. lia.
    + destruct (absolute E (group 1 cs) cssUrl) as [abs|].
      * destruct (set_has abs (visited st)).
        -- etransitivity; [apply IH|]. cbn [tasks]. lia.
        -- etransitivity; [apply IH|]. cbn [tasks]. unfold push.
           rewrite !map_app, list_sum_app. cbn [map list_sum snd]. lia.
      * etransitivity; [apply IH|]. cbn [tasks map list_sum]. lia.
Qed.

Lemma start_imports_weight depth css cssUrl st :
  total_weight E (pred depth) (fst (fst (start_imports E depth css cssUrl st)))
  <= match depth with
     | O => 0
     | S depth' => list_sum (map (weight E depth') (import_targets E css cssUrl))
     end.
Proof.
  destruct depth as [|depth]; cbn [start_imports fst pred]; [reflexivity|].
  unfold scan_imports.
  pose proof (scan_import_weight depth cssUrl (scan true IMPORT_RE css) (mkScan [] []) st)
    as H.
  destruct (fold_left (scan_import E cssUrl) (scan true IMPORT_RE css) (mkScan [] [], st))
    as [sc st1].
  cbn [fst tasks map list_sum] in *. unfold total_weight. rewrite map_map.
  cbn [pending_weight]. rewrite map_map in H. exact H.
Qed.

Lemma resume_weight depth raw abs st :
  pending_weight E depth (fst (resume E depth raw abs st)) < weight E depth abs.
Proof.
  unfold resume. destruct (fetchText E abs) as [f|message] eqn:Hf.
  - pose proof (rewritten_text (body f) (finalUrl f) (cssAssets st)) as Htext.
    destruct (rewriteCssUrlsToAbs E (body f) (finalUrl f) (cssAssets st))
      as [rewritten assets].
    cbn [fst] in Htext.
    pose proof (start_imports_weight depth rewritten (finalUrl f)
                  (mkCssState (visited st) assets (import_requests st))) as H.
    destruct (start_imports E depth rewritten (finalUrl f)
                (mkCssState (visited st) assets (import_requests st)))
      as [[ts fb] st'].
    cbn [fst] in *. rewrite pending_weight_inlining.
    destruct depth as [|depth]; cbn [weight]; [lia|].
    rewrite Hf, <- Htext. lia.
  - cbn [fst pending_weight]. destruct depth; cbn [weight]; lia.
Qed.

(** Every answer brings the bound down. *)
Lemma settle_decreases depth ts st ts' st' :
  settle E depth ts st ts' st' ->
  total_weight E depth ts' < total_weight E depth ts.
Proof.
  induction 1 as [depth before raw abs after st
                 |depth before raw url css ts fb after st ts' st' _ IH].
  - rewrite !total_weight_app, !total_weight_cons.
    pose proof (resume_weight depth raw abs st). cbn [pending_weight]. lia.
  - rewrite !total_weight_app, !total_weight_cons, !pending_weight_inlining. lia.
Qed.

Lemma settles_bound depth n ts st ts' st' :
  settles E depth n ts st ts' st' ->
  n + total_weight E depth ts' <= total_weight E depth ts.
Proof.
  induction 1 as [ts st|n ts st ts1 st1 ts2 st2 Hstep _ IH]; [lia|].
  apply settle_decreases in Hstep. lia.
Qed.

(** A task that has not returned has a fetch to be answered below it. *)
Lemma replacements_none ts :
  replacements ts = None ->
  exists before t after,
    ts = (before ++ t :: after)%list /\ replacement t = None.
Proof.
  induction ts as [|t ts IH]; [discriminate|]. cbn [replacements].
  destruct (replacement t) as [r|] eqn:Ht.
  - destruct (replacements ts) as [rs|]; [discriminate|]. intros _.
    destruct (IH eq_refl) as (before & t0 & after & -> & Ht0).
    exists (t :: before), t0, after. split; [reflexivity | assumption].
  - intros _. exists [], t, ts. split; [reflexivity | assumption].
Qed.

Lemma task_progress t :
  forall depth st,
    replacement t = None ->
    exists t' st',
      forall before after,
        settle E depth (before ++ t :: after)%list st (before ++ t' :: after)%list st'.
Proof.
  induction t as [raw abs|raw url css ts fb IH|raw rep] using task_induction;
    intros depth st Hnone.
  - eexists. eexists. intros before after. apply settle_here.
  - rewrite replacement_inlining in Hnone.
    destruct (replacements ts) as [done|] eqn:Hts; [discriminate|].
    destruct (replacements_none ts Hts) as (before0 & t0 & after0 & -> & Ht0).
    rewrite Forall_forall in IH.
    destruct (IH t0 ltac:(apply in_elt) (pred depth) st Ht0) as (t' & st' & Hstep).
    exists (Inlining raw url css (before0 ++ t' :: after0) fb), st'.
    intros before after. apply settle_below. apply Hstep.
  - discriminate.
Qed.

Lemma settle_progress depth ts st :
  replacements ts = None -> exists ts' st', settle E depth ts st ts' st'.
Proof.
  intros Hts. destruct (replacements_none ts Hts) as (before & t & after & -> & Ht).
  destruct (task_progress t depth st Ht) as (t' & st' & Hstep).
  eexists. eexists. apply Hstep.
Qed.

(** No fetch is awaited below a task that has returned. *)
Lemma replacements_app ts1 ts2 :
  replacements (ts1 ++ ts2) =
  match replacements ts1, replacements ts2 with
  | Some d1, Some d2 => Some (d1 ++ d2)%list
  | _, _ => None
  end.
Proof.
  induction ts1 as [|t ts1 IH]; cbn [app replacements].
  - now destruct (replacements ts2).
  - rewrite IH. destruct (replacement t); [|reflexivity].
    destruct (replacements ts1); [|reflexivity].
    now destruct (replacements ts2).
Qed.

Lemma settle_unfinished depth ts st ts' st' :
  settle E depth ts st ts' st' -> replacements ts = None.
Proof.
  induction 1 as [depth before raw abs after st
                 |depth before raw url css ts fb after st ts' st' _ IH];
    rewrite replacements_app; cbn [replacements].
  - cbn [replacement]. now destruct (replacements before).
  - rewrite replacement_inlining, IH. now destruct (replacements before).
Qed.


(** Runs put end to end, and runs among other tasks. *)
Lemma settles_trans depth n1 n2 ts1 st1 ts2 st2 ts3 st3 :
  settles E depth n1 ts1 st1 ts2 st2 -> settles E depth n2 ts2 st2 ts3 st3 ->
  settles E depth (n1 + n2) ts1 st1 ts3 st3.
Proof.
  induction 1 as [ts st|n ts st ts1 st1 ts2 st2 Hstep _ IH]; intros Hrest.
  - exact Hrest.
  - cbn [Nat.add]. eapply settles_next; [exact Hstep | apply IH, Hrest].
Qed.

Lemma settle_among depth pre post ts st ts' st' :
  settle E depth ts st ts' st' ->
  settle E depth (pre ++ ts ++ post)%list st (pre ++ ts' ++ post)%list st'.
Proof.
  intros Hstep.
  destruct Hstep as [depth before raw abs after st
                    |depth before raw url css ts fb after st ts' st' Hsub].
  - replace (pre ++ (before ++ Pending raw abs :: after) ++ post)%list
      with ((pre ++ before) ++ Pending raw abs :: (after ++ post))%list
      by (now rewrite <- !app_assoc).
    replace (pre ++ (before ++ fst (resume E depth raw abs st) :: after) ++ post)%list
      with ((pre ++ before) ++ fst (resume E depth raw abs st) :: (after ++ post))%list
      by (now rewrite <- !app_assoc).
    apply settle_here.
  - replace (pre ++ (before ++ Inlining raw url css ts fb :: after) ++ post)%list
      with ((pre ++ before) ++ Inlining raw url css ts fb :: (after ++ post))%list
      by (now rewrite <- !app_assoc).
    replace (pre ++ (before ++ Inlining raw url css ts' fb :: after) ++ post)%list
      with ((pre ++ before) ++ Inlining raw url css ts' fb :: (after ++ post))%list
      by (now rewrite <- !app_assoc).
    apply settle_below, Hsub.
Qed.

Lemma settles_among depth pre post n ts st ts' st' :
  settles E depth n ts st ts' st' ->
  settles E depth n (pre ++ ts ++ post)%list st (pre ++ ts' ++ post)%list st'.
Proof.
  induction 1 as [ts st|n ts st ts1 st1 ts2 st2 Hstep _ IH]; [constructor|].
  eapply settles_next; [apply settle_among, Hstep | exact IH].
Qed.

Lemma settles_below depth raw url css fb n ts st ts' st' :
  settles E (pred depth) n ts st ts' st' ->
  settles E depth n [Inlining raw url css ts fb] st [Inlining raw url css ts' fb] st'.
Proof.
  induction 1 as [ts st|n ts st ts1 st1 ts2 st2 Hstep _ IH]; [constructor|].
  eapply settles_next; [|exact IH].
  apply (settle_below E depth [] raw url css ts fb [] st ts1 st1 Hstep).
Qed.

(** The tasks of a call run one after the other, each to its end, are one
    of the orders: what [inlineCssImports] computes is what some run
    returns. *)
Lemma tasks_in_turn depth inline :
  (forall css cssUrl st,
     inlines E depth css cssUrl st (fst (inline css cssUrl st)) (snd (inline css cssUrl st))) ->
  forall tl done0 s,
  exists n ts' done,
    settles E depth n (map pending tl) s ts'
      (snd (fold_left (import_task E inline) tl (done0, s)))
    /\ replacements ts' = Some done
    /\ fst (fold_left (import_task E inline) tl (done0, s)) = (done0 ++ done)%list.
Proof.
  intros Hinline tl. induction tl as [|[raw abs] tl IH]; intros done0 s.
  - exists 0, [], []. cbn [fold_left map fst snd replacements].
    split; [constructor|]. split; [reflexivity | now rewrite app_nil_r].
  - cbn [fold_left map]. unfold import_task at 2 4. unfold pending at 1. cbn [fst snd].
    pose proof (settle_here E depth [] raw abs (map pending tl) s) as Hfirst.
    unfold resume in Hfirst. cbn [app] in Hfirst.
    destruct (fetchText E abs) as [f|message].
    + destruct (rewriteCssUrlsToAbs E (body f) (finalUrl f) (cssAssets s))
        as [rewritten assets].
      specialize (Hinline rewritten (finalUrl f)
                    (mkCssState (visited s) assets (import_requests s))).
      destruct (inline rewritten (finalUrl f)
                  (mkCssState (visited s) assets (import_requests s))) as [inlined s1].
      cbn [fst snd] in Hinline.
      inversion Hinline as [ts0 fb0 st1 n0 ts0' st' done1 Hstart Hrun Hdone Hout Hst'].
      subst st'. rewrite Hout. rewrite Hstart in Hfirst. cbn [fst snd] in Hfirst.
      destruct (IH (push done0
                      (raw, "/* @import inlined from " ++ finalUrl f ++ " */" ++ nl
                            ++ inlined ++ nl ++ "/* end import */")) s1)
        as (n & ts' & done & Hrest & Hreps & Hfst).
      exists (S (n0 + n)), (Inlining raw (finalUrl f) rewritten ts0' fb0 :: ts'),
        ((raw, "/* @import inlined from " ++ finalUrl f ++ " */" ++ nl
               ++ inlined ++ nl ++ "/* end import */") :: done).
      split; [|split].
      * eapply settles_next; [exact Hfirst|].
        apply settles_trans with (ts2 := Inlining raw (finalUrl f) rewritten ts0' fb0
                                         :: map pending tl) (st2 := s1).
        -- apply (settles_among depth [] (map pending tl) n0
                    [Inlining raw (finalUrl f) rewritten ts0 fb0] st1
                    [Inlining raw (finalUrl f) rewritten ts0' fb0] s1).
           apply settles_below, Hrun.
        -- pose proof (settles_among depth
                         [Inlining raw (finalUrl f) rewritten ts0' fb0] [] n
                         _ _ _ _ Hrest) as H.
           now rewrite !app_nil_r in H.
      * cbn [replacements]. rewrite replacement_inlining, Hdone, Hreps, Hout.
        reflexivity.
      * rewrite Hfst. unfold push. now rewrite <- app_assoc.
    + cbn [fst snd] in Hfirst.
      destruct (IH (push done0
                      (raw, "/* @import failed: " ++ abs ++ " (" ++ message ++ ") */")) s)
        as (n & ts' & done & Hrest & Hreps & Hfst).
      exists (S n),
        (Settled raw ("/* @import failed: " ++ abs ++ " (" ++ message ++ ") */") :: ts'),
        ((raw, "/* @import failed: " ++ abs ++ " (" ++ message ++ ") */") :: done).
      split; [|split].
      * eapply settles_next; [exact Hfirst|].
        pose proof (settles_among depth
                      [Settled raw ("/* @import failed: " ++ abs ++ " (" ++ message ++ ") */")]
                      [] n _ _ _ _ Hrest) as H.
        now rewrite !app_nil_r in H.
      * cbn [replacements replacement]. now rewrite Hreps.
      * rewrite Hfst. unfold push. now rewrite <- app_assoc.
Qed.

Lemma inlineCssImports_is_a_run depth :
  forall css cssUrl st,
    inlines E depth css cssUrl st
      (fst (inlineCssImports E depth css cssUrl st))
      (snd (inlineCssImports E depth css cssUrl st)).
Proof.
  induction depth as [|depth IH]; intros css cssUrl st.
  - cbn [inlineCssImports fst snd].
    apply (inlines_run E 0 css cssUrl st [] [] st 0 [] st []);
      [reflexivity | constructor | reflexivity].
  - cbn [inlineCssImports].
    destruct (scan_imports E css cssUrl st) as [sc st1] eqn:Hscan.
    destruct (tasks_in_turn depth (inlineCssImports E depth) IH (tasks sc) [] st1)
      as (n & ts' & done & Hrun & Hreps & Hfst).
    destruct (fold_left (import_task E (inlineCssImports E depth)) (tasks sc) ([], st1))
      as [done' st2].
    cbn [fst snd app] in *. subst done'.
    apply (inlines_run E (S depth) css cssUrl st (map pending (tasks sc)) (fallbacks sc)
             st1 n ts' st2 done); [|exact Hrun | exact Hreps].
    cbn [start_imports]. now rewrite Hscan.
Qed.


(** A call, however its answers come, keeps the invariant of the requests. *)
Lemma inlines_extends depth css cssUrl st out st' :
  inlines E depth css cssUrl st out st' ->
  requests_ok st -> requests_ok st' /\ extends st st'.
Proof.
  intros Hrun Hst. destruct Hrun as [ts fb st1 n ts' st' done Hstart Hrun _].
  pose proof (start_imports_extends depth css cssUrl st Hst) as [Hok Hext].
  rewrite Hstart in Hok, Hext. cbn [snd] in Hok, Hext.
  destruct (settles_extends _ _ _ _ _ _ Hrun Hok) as [Hok' Hext'].
  split; [assumption | exact (extends_trans _ _ _ Hext Hext')].
Qed.

Lemma collects_stylesheet_extends acc cssUrl acc' :
  collects_stylesheet E acc cssUrl acc' ->
  requests_ok (snd acc) -> requests_ok (snd acc') /\ extends (snd acc) (snd acc').
Proof.
  intros Hturn. destruct Hturn as [parts st cssUrl message _
                                  |parts st cssUrl f _ _
                                  |parts st cssUrl f css' st' _ _ Hrun];
    cbn [snd]; intros Hst.
  - split; [assumption | apply extends_refl].
  - split; [assumption | apply extends_refl].
  - destruct (with_assets_ok st
                (snd (rewriteCssUrlsToAbs E (body f) (finalUrl f) (cssAssets st))) Hst)
      as [Hok Hext].
    destruct (inlines_extends _ _ _ _ _ _ Hrun Hok) as [Hok' Hext'].
    split; [assumption | exact (extends_trans _ _ _ Hext Hext')].
Qed.

Lemma collects_inline_extends acc block acc' :
  collects_inline E acc block acc' ->
  requests_ok (snd acc) -> requests_ok (snd acc') /\ extends (snd acc) (snd acc').
Proof.
  intros Hturn. destruct Hturn as [parts st css baseUrl rew' st' Hrun].
  cbn [snd]; intros Hst.
  destruct (with_assets_ok st
              (snd (rewriteCssUrlsToAbs E css baseUrl (cssAssets st))) Hst)
    as [Hok Hext].
  destruct (inlines_extends _ _ _ _ _ _ Hrun Hok) as [Hok' Hext'].
  split; [assumption | exact (extends_trans _ _ _ Hext Hext')].
Qed.

Lemma each_extends {A B : Type}
    (turn : B * CssState -> A -> B * CssState -> Prop) :
  (forall acc x acc', turn acc x acc' ->
     requests_ok (snd acc) -> requests_ok (snd acc') /\ extends (snd acc) (snd acc')) ->
  forall l acc acc', each turn l acc acc' ->
    requests_ok (snd acc) -> requests_ok (snd acc') /\ extends (snd acc) (snd acc').
Proof.
  intros Hturn l acc acc' Hloop.
  induction Hloop as [acc|x l acc acc1 acc2 Hx _ IH]; intros Hacc.
  - split; [assumption | apply extends_refl].
  - destruct (Hturn _ _ _ Hx Hacc) as [Hok Hext].
    destruct (IH Hok) as [Hok' Hext']. split; [assumption|].
    exact (extends_trans _ _ _ Hext Hext').
Qed.

Lemma collects_requests stylesheetUrls inlineBlocks acc :
  collects E stylesheetUrls inlineBlocks acc -> requests_ok (snd acc).
Proof.
  intros Hrun. destruct Hrun as [acc1 acc2 Hsheets Hblocks].
  apply (each_extends (collects_inline E) collects_inline_extends _ _ _ Hblocks).
  apply (each_extends (collects_stylesheet E) collects_stylesheet_extends _ _ _ Hsheets).
  split; [constructor | intros u []].
Qed.

(** The loops of [collect_css] are the loops of one run. *)
Lemma each_fold_left {A B : Type} (turn : B -> A -> B -> Prop) (f : B -> A -> B) :
  (forall acc x, turn acc x (f acc x)) ->
  forall l acc, each turn l acc (fold_left f l acc).
Proof.
  intros Hf l. induction l as [|x l IH]; intros acc; cbn [fold_left].
  - constructor.
  - econstructor; [apply Hf | apply IH].
Qed.

Lemma collect_stylesheet_collects acc cssUrl :
  collects_stylesheet E acc cssUrl (collect_stylesheet E acc cssUrl).
Proof.
  destruct acc as [parts st]. unfold collect_stylesheet.
  destruct (fetchText E cssUrl) as [f|message] eqn:Hf.
  - destruct (is_css f) eqn:Hcss; cbn [negb].
    + pose proof (inlineCssImports_is_a_run 2
                    (fst (rewriteCssUrlsToAbs E (body f) (finalUrl f) (cssAssets st)))
                    (finalUrl f)
                    (mkCssState (visited st)
                       (snd (rewriteCssUrlsToAbs E (body f) (finalUrl f) (cssAssets st)))
                       (import_requests st))) as Hrun.
      pose proof (fun css' st' =>
                    stylesheet_inlined E parts st cssUrl f css' st' Hf Hcss) as H.
      destruct (rewriteCssUrlsToAbs E (body f) (finalUrl f) (cssAssets st))
        as [css assets].
      cbn [fst snd] in Hrun, H.
      destruct (inlineCssImports E 2 css (finalUrl f)
                  (mkCssState (visited st) assets (import_requests st))) as [css' st'].
      apply H, Hrun.
    + now apply stylesheet_skipped.
  - now apply stylesheet_failed.
Qed.

Lemma collect_inline_collects acc block :
  collects_inline E acc block (collect_inline E acc block).
Proof.
  destruct acc as [parts st], block as [css baseUrl]. unfold collect_inline.
  pose proof (inlineCssImports_is_a_run 1
                (fst (rewriteCssUrlsToAbs E css baseUrl (cssAssets st))) baseUrl
                (mkCssState (visited st)
                   (snd (rewriteCssUrlsToAbs E css baseUrl (cssAssets st)))
                   (import_requests st))) as Hrun.
  pose proof (fun rew' st' => inline_inlined E parts st css baseUrl rew' st') as H.
  destruct (rewriteCssUrlsToAbs E css baseUrl (cssAssets st)) as [rew assets].
  cbn [fst snd] in Hrun, H.
  destruct (inlineCssImports E 1 rew baseUrl
              (mkCssState (visited st) assets (import_requests st))) as [rew' st'].
  apply H, Hrun.
Qed.

Lemma collect_css_collects stylesheetUrls inlineBlocks :
  collects E stylesheetUrls inlineBlocks (collect_css E stylesheetUrls inlineBlocks).
Proof.
  unfold collect_css. econstructor.
  - apply (each_fold_left (collects_stylesheet E) (collect_stylesheet E)
             collect_stylesheet_collects).
  - apply (each_fold_left (collects_inline E) (collect_inline E)
             collect_inline_collects).
Qed.

(** The stylesheets linked from the page are a set. *)
Lemma extractStyles_links html baseUrl : NoDup (fst (extractStyles E html baseUrl)).
Proof.
  unfold extractStyles. cbn [fst].
  generalize (select SEL_STYLE_LINKS (cheerio_load E html)).
  assert (H : NoDup (@nil string)) by constructor. revert H.
  generalize (@nil string). intros links Hlinks els. revert links Hlinks.
  induction els as [|el els IH]; intros links Hlinks; cbn [fold_left]; [assumption|].
  apply IH. destruct (attr "href" el) as [[|c raw]|]; try assumption.
  destruct (absolute E (String c raw) baseUrl); [now apply NoDup_set_add | assumption].
Qed.

(** A rule whose target is marked when the call starts: it gets the comment
    and, however the answers come, its target is not requested. *)
Lemma marked_import_is_skipped depth css cssUrl st raw cs abs out st' :
  In (Tok raw cs) (scan true IMPORT_RE css) ->
  absolute E (group 1 cs) cssUrl = Some abs ->
  In abs (visited st) ->
  requests_ok st ->
  inlines E (S depth) css cssUrl st out st' ->
  exists done fb new,
    out = apply_replacements (done ++ fb)%list css
    /\ In (raw, "/* @import skipped (visited): " ++ abs ++ " */") fb
    /\ import_requests st' = (import_requests st ++ new)%list
    /\ ~ In abs new.
Proof.
  intros Hin Habs Hvisited Hst Hrun.
  destruct (inlines_extends _ _ _ _ _ _ Hrun Hst) as [_ [_ (new & Hnew & Hfresh)]].
  destruct Hrun as [ts fb st1 n ts' st' done Hstart _ _].
  destruct (scan_import_fold cssUrl (scan true IMPORT_RE css) (mkScan [] []) st)
    as [_ Hskip].
  specialize (Hskip raw cs abs Hin Habs Hvisited).
  cbn [start_imports] in Hstart. unfold scan_imports in Hstart.
  destruct (fold_left (scan_import E cssUrl) (scan true IMPORT_RE css)
              (mkScan [] [], st)) as [sc st0].
  injection Hstart as _ <- _. cbn [fst] in Hskip.
  exists done, (fallbacks sc), new. split; [reflexivity|]. split; [assumption|].
  split; [assumption|]. intros Hn. exact (Hfresh abs Hn Hvisited).
Qed.

End Imports.

(** C4 (as amended). A call of [inlineCssImports] is over after finitely
    many answers, in whatever order they come: a run from the start of the
    call has at most as many steps as the bound [total_weight] of its
    tasks, it can go on as long as a task has not returned, and it goes
    from a state where no URL was requested twice and every requested URL
    is marked to such a state, requesting in between only URLs that were
    not marked. So in a whole run no URL is requested twice as an import,
    and none twice as a stylesheet linked from the page. The function
    [inlineCssImports], in which each answer comes before the next task is
    looked at, computes one of these runs. When the depth is not 0, a rule
    whose absolute target is marked when the call starts has for
    replacement the comment [skipped (visited)], and its target is not
    requested by the call; at depth 0 every rule is left as it is. *)
Theorem imports_are_fetched_once (E : Env) :
  (forall depth css cssUrl st ts fb st1 n ts' st',
     start_imports E depth css cssUrl st = (ts, fb, st1) ->
     settles E (pred depth) n ts st1 ts' st' ->
     n <= total_weight E (pred depth) ts
     /\ (replacements ts' = None ->
         exists ts'' st'', settle E (pred depth) ts' st' ts'' st'')
     /\ (requests_ok st -> requests_ok st' /\ extends st st')) /\
  (forall html baseUrl inlineBlocks parts st,
     collects E (fst (extractStyles E html baseUrl)) inlineBlocks (parts, st) ->
     NoDup (import_requests st) /\ NoDup (fst (extractStyles E html baseUrl))) /\
  (forall depth css cssUrl st,
     inlines E depth css cssUrl st
       (fst (inlineCssImports E depth css cssUrl st))
       (snd (inlineCssImports E depth css cssUrl st))) /\
  (forall stylesheetUrls inlineBlocks,
     collects E stylesheetUrls inlineBlocks
       (collect_css E stylesheetUrls inlineBlocks)) /\
  (forall depth css cssUrl st raw cs abs out st',
     In (Tok raw cs) (scan true IMPORT_RE css) ->
     absolute E (group 1 cs) cssUrl = Some abs ->
     In abs (visited st) ->
     requests_ok st ->
     inlines E (S depth) css cssUrl st out st' ->
     exists done fb new,
       out = apply_replacements (done ++ fb)%list css
       /\ In (raw, "/* @import skipped (visited): " ++ abs ++ " */") fb
       /\ import_requests st' = (import_requests st ++ new)%list
       /\ ~ In abs new) /\
  (forall css cssUrl st out st',
     inlines E 0 css cssUrl st out st' -> out = css /\ st' = st).
Proof.
  split; [|split; [|split; [|split; [|split]]]].
  - intros depth css cssUrl st ts fb st1 n ts' st' Hstart Hrun.
    split; [|split].
    + pose proof (settles_bound E _ _ _ _ _ _ Hrun). lia.
    + apply settle_progress.
    + intros Hst.
      pose proof (start_imports_extends E depth css cssUrl st Hst) as [Hok Hext].
      rewrite Hstart in Hok, Hext. cbn [snd] in Hok, Hext.
      destruct (settles_extends E _ _ _ _ _ _ Hrun Hok) as [Hok' Hext'].
      split; [assumption | exact (extends_trans _ _ _ Hext Hext')].
  - intros html baseUrl blocks parts st Hrun.
    split; [|apply extractStyles_links].
    exact (proj1 (collects_requests E _ blocks _ Hrun)).
  - intros depth. apply inlineCssImports_is_a_run.
  - apply collect_css_collects.
  - intros depth css cssUrl st raw cs abs out st'.
    apply marked_import_is_skipped.
  - intros css cssUrl st out st' Hrun.
    destruct Hrun as [ts fb st1 n ts' st' done Hstart Hrun Hdone].
    cbn [start_imports] in Hstart. injection Hstart as <- <- <-.
    cbn [pred] in Hrun. inversion Hrun as [? ? Hn Hts Hst| ? ? ? ? ? ? ? Hstep]; subst.
    + cbn [replacements] in Hdone. injection Hdone as <-. split; reflexivity.
    + apply settle_unfinished in Hstep. discriminate.
Qed.

(** C4, as the claim words it, fails at the stylesheet that imports itself
    when it is linked from the page: its URL is not marked when the page's
    loop fetches it, so the import of itself is not skipped, and the URL
    is fetched a second time in the run. It fails too at two sheets that
    import each other: the import of the second sheet, met at depth 0 in
    the text of the first when that text comes back as an import, is left
    as it is, though its target is marked. *)
Lemma linked_sheet_is_fetched_again :
  fetchText (Sample.env NET_SELF []) SHEET_A
    = Ok (mkFetched "@import 'a.css';" SHEET_A "text/css")
  /\ import_requests (snd (collect_css (Sample.env NET_SELF []) [SHEET_A] []))
     = [SHEET_A]
  /\ ~ NoDup (fetched [SHEET_A]
                (snd (collect_css (Sample.env NET_SELF []) [SHEET_A] [])))
  /\ collect_css (Sample.env NET_CYCLE []) [SHEET_A] []
     = ([ "/* ===== CSS from https://x.test/a.css ===== */" ++ nl ++
          "/* @import inlined from https://x.test/b.css */" ++ nl ++
          "/* @import inlined from https://x.test/a.css */" ++ nl ++
          "@import 'b.css';" ++ nl ++
          "/* end import */" ++ nl ++
          "/* end import */" ++ nl ],
        mkCssState [SHEET_B; SHEET_A] [] [SHEET_B; SHEET_A])
  /\ absolute (Sample.env NET_CYCLE []) "b.css" SHEET_A = Some SHEET_B
  /\ inlineCssImports (Sample.env NET_CYCLE []) 0 "@import 'b.css';" SHEET_A
       (mkCssState [SHEET_B; SHEET_A] [] [SHEET_B; SHEET_A])
     = ("@import 'b.css';", mkCssState [SHEET_B; SHEET_A] [] [SHEET_B; SHEET_A]).
Proof.
  split; [reflexivity|]. split; [vm_compute; reflexivity|].
  split; [|split; [vm_compute; reflexivity | split; reflexivity]].
  intros H. vm_compute in H. inversion H as [|x l Hx _]. apply Hx. simpl. auto.
Qed.

Section Chains.
Variable E : Env.

(** A text without [url(...)] token goes through [rewriteCssUrlsToAbs]
    unchanged. *)
Lemma images_without_tokens cssFileUrl gs :
  forallb is_chr gs = true ->
  glue (map (css_image E cssFileUrl) gs) = text_of gs
  /\ flat_map (css_recorded E cssFileUrl) gs = [].
Proof.
  unfold text_of, glue. induction gs as [|g gs IH]; [split; reflexivity|].
  cbn [forallb]. intros Hno. apply andb_true_iff in Hno. destruct Hno as [Hg Hgs].
  destruct g as [c|m cs]; [|discriminate].
  destruct (IH Hgs) as [IH1 IH2].
  cbn [map fold_right flat_map css_image css_recorded raw app].
  now rewrite IH1, IH2.
Qed.

Lemma rewrite_without_tokens css cssFileUrl collect :
  forallb is_chr (css_tokens css) = true ->
  rewriteCssUrlsToAbs E css cssFileUrl collect = (css, collect).
Proof.
  intros Hno.
  destruct (images_without_tokens cssFileUrl _ Hno) as [Himg Hrec].
  unfold css_tokens in Himg, Hrec.
  unfold rewriteCssUrlsToAbs, replace. rewrite replace_segments_css.
  rewrite Himg, Hrec, scan_text. reflexivity.
Qed.

Lemma find_sub_self s : find_sub false s s = Some (EmptyString, EmptyString).
Proof.
  assert (H : strip_prefix false s s = Some EmptyString).
  { apply strip_prefix_exact. now rewrite append_nil_r. }
  destruct s; cbn [find_sub]; now rewrite H.
Qed.

(** A sheet that is one [@import] rule whose target is fetched for the
    first time: the rule is replaced by the target's text, inlined one
    level lower, between two comments. *)
Lemma inline_single_import depth css cssUrl cs abs f st :
  scan true IMPORT_RE css = [Tok css cs] ->
  absolute E (group 1 cs) cssUrl = Some abs ->
  set_has abs (visited st) = false ->
  fetchText E abs = Ok f ->
  forallb is_chr (css_tokens (body f)) = true ->
  inlineCssImports E (S depth) css cssUrl st =
  let '(inlined, st') :=
    inlineCssImports E depth (body f) (finalUrl f)
      (mkCssState (set_add abs (visited st)) (cssAssets st)
         (push (import_requests st) abs)) in
  (get_substitution css "" ""
     ("/* @import inlined from " ++ finalUrl f ++ " */" ++ nl
      ++ inlined ++ nl ++ "/* end import */"),
   st').
Proof.
  intros Hscan Habs Hfresh Hfetch Hplain.
  cbn [inlineCssImports]. unfold scan_imports. rewrite Hscan.
  cbn [fold_left]. unfold scan_import. rewrite Habs, Hfresh.
  cbn [tasks fallbacks push app fold_left]. unfold import_task at 1.
  rewrite Hfetch. cbn [cssAssets visited import_requests].
  rewrite (rewrite_without_tokens _ _ _ Hplain).
  destruct (inlineCssImports E depth (body f) (finalUrl f) _) as [inlined st'].
  cbn [push app]. unfold apply_replacements. cbn [fold_left fst snd].
  unfold replace_first. rewrite find_sub_self. cbn [String.append].
  now rewrite append_nil_r.
Qed.

End Chains.

(** C4 at the self-importing sheet, one level down: its own URL is marked,
    the rule gets the comment, nothing is requested. *)
Lemma self_import_is_skipped :
  exists done fb new,
    fst (inlineCssImports (Sample.env NET_SELF []) 1 "@import 'a.css';" SHEET_A
           (mkCssState [SHEET_A] [] [SHEET_A]))
      = apply_replacements (done ++ fb)%list "@import 'a.css';"
    /\ In ("@import 'a.css';",
           "/* @import skipped (visited): " ++ SHEET_A ++ " */") fb
    /\ import_requests
         (snd (inlineCssImports (Sample.env NET_SELF []) 1 "@import 'a.css';" SHEET_A
                 (mkCssState [SHEET_A] [] [SHEET_A])))
       = ([SHEET_A] ++ new)%list
    /\ ~ In SHEET_A new.
Proof.
  apply (proj1 (proj2 (proj2 (proj2 (proj2
           (imports_are_fetched_once (Sample.env NET_SELF []))))))
           0 "@import 'a.css';" SHEET_A (mkCssState [SHEET_A] [] [SHEET_A])
           "@import 'a.css';" [(1, "a.css")] SHEET_A).
  - vm_compute. auto.
  - reflexivity.
  - simpl. auto.
  - split; [repeat constructor; simpl; tauto | intros u H; exact H].
  - apply (proj1 (proj2 (proj2 (imports_are_fetched_once (Sample.env NET_SELF []))))).
Defined.

Example self_import_terminates :
  collect_css (Sample.env NET_SELF []) [SHEET_A] []
  = ([ "/* ===== CSS from https://x.test/a.css ===== */" ++ nl ++
       "/* @import inlined from https://x.test/a.css */" ++ nl ++
       "/* @import skipped (visited): https://x.test/a.css */" ++ nl ++
       "/* end import */" ++ nl ],
     mkCssState [SHEET_A] [] [SHEET_A]).
Proof. vm_compute. reflexivity. Qed.

(** Two sheets import a third one: it is requested once, by the call of
    whichever sheet is answered first, so the text depends on the order of
    the answers. Here the second sheet is answered before the first. *)
Example another_order_another_text :
  exists out st,
    inlines (Sample.env NET_DIAMOND []) 2 "@import 'b.css';@import 'c.css';" SHEET_A
      (mkCssState [] [] []) out st
    /\ out = "/* @import inlined from https://x.test/b.css */" ++ nl ++
             "/* @import skipped (visited): https://x.test/d.css */" ++ nl ++
             "/* end import */" ++
             "/* @import inlined from https://x.test/c.css */" ++ nl ++
             "/* @import inlined from https://x.test/d.css */" ++ nl ++
             "p{color:red}" ++ nl ++
             "/* end import */" ++ nl ++
             "/* end import */"
    /\ fst (inlineCssImports (Sample.env NET_DIAMOND []) 2
              "@import 'b.css';@import 'c.css';" SHEET_A (mkCssState [] [] []))
       = "/* @import inlined from https://x.test/b.css */" ++ nl ++
         "/* @import inlined from https://x.test/d.css */" ++ nl ++
         "p{color:red}" ++ nl ++
         "/* end import */" ++ nl ++
         "/* end import */" ++
         "/* @import inlined from https://x.test/c.css */" ++ nl ++
         "/* @import skipped (visited): https://x.test/d.css */" ++ nl ++
         "/* end import */"
    /\ import_requests st = [SHEET_B; SHEET_C; SHEET_D].
Proof.
  eexists. eexists. split; [|split; [|split]].
  - eapply inlines_run.
    + vm_compute. reflexivity.
    + cbn [pred]. eapply settles_next.
      { apply (settle_pending _ 1 [Pending "@import 'b.css';" SHEET_B]
                 "@import 'c.css';" SHEET_C []).
        vm_compute. reflexivity. }
      cbn [app]. eapply settles_next.
      { apply (settle_pending _ 1 [] "@import 'b.css';" SHEET_B [_]).
        vm_compute. reflexivity. }
      cbn [app]. eapply settles_next.
      { apply (settle_below _ 1 [_] "@import 'c.css';" _ _ _ _ []).
        apply (settle_pending _ 0 [] "@import 'd.css';" SHEET_D []).
        vm_compute. reflexivity. }
      cbn [app]. apply settles_refl.
    + vm_compute. reflexivity.
  - vm_compute. reflexivity.
  - vm_compute. reflexivity.
  - reflexivity.
Qed.

(* ================================================================== *)
(** * C5: the depth of inlining *)
(* ================================================================== *)

Section Depth.
Variable E : Env.

Lemma scan_import_targets cssUrl gs :
  forall sc st,
    (forall t, In t (tasks (fst (fold_left (scan_import E cssUrl) gs (sc, st)))) ->
               In t (tasks sc) \/ In (snd t) (flat_map (target_of E cssUrl) gs))
    /\ (forall u, In u (import_requests (snd (fold_left (scan_import E cssUrl) gs (sc, st)))) ->
                  In u (import_requests st) \/ In u (flat_map (target_of E cssUrl) gs)).
Proof.
  induction gs as [|g gs IH]; intros sc st; cbn [fold_left flat_map].
  - cbn [fst snd]. split; auto.
  - destruct (scan_import E cssUrl (sc, st) g) as [sc1 st1] eqn:Hg.
    destruct (IH sc1 st1) as [Ht Hu].
    assert (Hstep : (forall t, In t (tasks sc1) -> In t (tasks sc) \/ In (snd t) (target_of E cssUrl g))
                    /\ (forall u, In u (import_requests st1) ->
                                  In u (import_requests st) \/ In u (target_of E cssUrl g))).
    { unfold scan_import in Hg. destruct g as [c|raw cs]; cbn [target_of].
      - injection Hg as <- <-. auto.
      - destruct (absolute E (group 1 cs) cssUrl) as [abs|].
        + destruct (set_has abs (visited st)); injection Hg as <- <-;
            cbn [tasks import_requests]; [auto|].
          unfold push. split; intros x Hx; apply in_app_iff in Hx;
            (destruct Hx as [Hx|[<-|[]]]; [auto | right; simpl; auto]).
        + injection Hg as <- <-. cbn [tasks]. auto. }
    destruct Hstep as [Ht1 Hu1]. split.
    + intros t Hin. destruct (Ht t Hin) as [H|H]; [|right; apply in_app_iff; auto].
      destruct (Ht1 t H) as [H1|H1]; [auto | right; apply in_app_iff; auto].
    + intros u Hin. destruct (Hu u Hin) as [H|H]; [|right; apply in_app_iff; auto].
      destruct (Hu1 u H) as [H1|H1]; [auto | right; apply in_app_iff; auto].
Qed.

Lemma start_imports_bounded (Good : string -> Prop) depth css cssUrl st :
  (forall u, within E depth css cssUrl u -> Good u) ->
  (forall u, In u (import_requests st) -> Good u) ->
  Forall (bounded E Good (pred depth)) (fst (fst (start_imports E depth css cssUrl st)))
  /\ (forall u, In u (import_requests (snd (start_imports E depth css cssUrl st))) -> Good u).
Proof.
  intros Hwithin Hst. destruct depth as [|depth]; cbn [start_imports fst snd pred].
  - split; [constructor | assumption].
  - unfold scan_imports.
    destruct (scan_import_targets cssUrl (scan true IMPORT_RE css) (mkScan [] []) st)
      as [Ht Hu].
    destruct (fold_left (scan_import E cssUrl) (scan true IMPORT_RE css) (mkScan [] [], st))
      as [sc st1].
    cbn [fst snd tasks] in *. split.
    + apply Forall_forall. intros t Hin. apply in_map_iff in Hin.
      destruct Hin as ([raw abs] & <- & Hin). unfold pending. cbn [fst snd].
      constructor. intros f u Hf Hw. apply Hwithin.
      destruct (Ht _ Hin) as [[]|Htarget]. cbn [snd] in Htarget.
      exact (within_below E depth css cssUrl abs f u Htarget Hf Hw).
    + intros u Hin. destruct (Hu u Hin) as [H|H]; [auto|].
      apply Hwithin. now constructor.
Qed.

Lemma resume_bounded (Good : string -> Prop) depth raw abs st :
  bounded E Good depth (Pending raw abs) ->
  (forall u, In u (import_requests st) -> Good u) ->
  bounded E Good depth (fst (resume E depth raw abs st))
  /\ (forall u, In u (import_requests (snd (resume E depth raw abs st))) -> Good u).
Proof.
  intros Hp Hst. inversion Hp as [d r a Hgood| |]; subst.
  unfold resume. destruct (fetchText E abs) as [f|message] eqn:Hf.
  - pose proof (rewritten_text E (body f) (finalUrl f) (cssAssets st)) as Htext.
    destruct (rewriteCssUrlsToAbs E (body f) (finalUrl f) (cssAssets st))
      as [rewritten assets].
    cbn [fst] in Htext.
    destruct (start_imports_bounded Good depth rewritten (finalUrl f)
                (mkCssState (visited st) assets (import_requests st))) as [Hts Hreq].
    { intros u Hu. apply (Hgood f u eq_refl). unfold sheet_text. now rewrite <- Htext. }
    { exact Hst. }
    destruct (start_imports E depth rewritten (finalUrl f)
                (mkCssState (visited st) assets (import_requests st)))
      as [[ts fb] st'].
    cbn [fst snd] in *. split; [now constructor | assumption].
  - cbn [fst snd]. split; [constructor | assumption].
Qed.

Lemma settle_bounded (Good : string -> Prop) depth ts st ts' st' :
  settle E depth ts st ts' st' ->
  Forall (bounded E Good depth) ts ->
  (forall u, In u (import_requests st) -> Good u) ->
  Forall (bounded E Good depth) ts'
  /\ (forall u, In u (import_requests st') -> Good u).
Proof.
  induction 1 as [depth before raw abs after st
                 |depth before raw url css ts fb after st ts' st' _ IH]; intros Hts Hst.
  - apply Forall_app in Hts. destruct Hts as [Hb Hrest].
    inversion Hrest as [|x l Hp Ha]; subst.
    destruct (resume_bounded Good depth raw abs st Hp Hst) as [Ht Hreq].
    split; [|assumption]. apply Forall_app. split; [assumption | now constructor].
  - apply Forall_app in Hts. destruct Hts as [Hb Hrest].
    inversion Hrest as [|x l Hp Ha]; subst.
    inversion Hp as [|d r u c l f Hsub|]; subst.
    destruct (IH Hsub Hst) as [Hsub' Hreq].
    split; [|assumption]. apply Forall_app. split; [assumption|].
    constructor; [now constructor | assumption].
Qed.

Lemma settles_bounded (Good : string -> Prop) depth n ts st ts' st' :
  settles E depth n ts st ts' st' ->
  Forall (bounded E Good depth) ts ->
  (forall u, In u (import_requests st) -> Good u) ->
  forall u, In u (import_requests st') -> Good u.
Proof.
  induction 1 as [ts st|n ts st ts1 st1 ts2 st2 Hstep _ IH]; intros Hts Hst; [assumption|].
  destruct (settle_bounded Good _ _ _ _ _ Hstep Hts Hst) as [Hts1 Hst1]. now apply IH.
Qed.

Lemma inlines_within depth css cssUrl st out st' :
  inlines E depth css cssUrl st out st' ->
  forall u, In u (import_requests st') ->
            In u (import_requests st) \/ within E depth css cssUrl u.
Proof.
  intros Hrun. destruct Hrun as [ts fb st1 n ts' st' done Hstart Hrun _].
  destruct (start_imports_bounded
              (fun u => In u (import_requests st) \/ within E depth css cssUrl u)
              depth css cssUrl st) as [Hts Hreq]; [auto | auto |].
  rewrite Hstart in Hts, Hreq. cbn [fst snd] in Hts, Hreq.
  exact (settles_bounded _ _ _ _ _ _ _ Hrun Hts Hreq).
Qed.

Lemma within_zero css cssUrl u : ~ within E 0 css cssUrl u.
Proof. intros H. inversion H. Qed.

Lemma inlines_zero css cssUrl st out st' :
  inlines E 0 css cssUrl st out st' -> out = css /\ st' = st.
Proof.
  intros Hrun. inversion Hrun as [ts fb st1 n ts' st2 done Hstart Hsettles Hdone]; subst.
  cbn [start_imports] in Hstart. injection Hstart as <- <- <-.
  inversion Hsettles as [|n0 ts0 s0 ts1 s1 ts2 s2 Hstep _]; subst.
  - cbn [replacements] in Hdone. injection Hdone as <-. split; reflexivity.
  - inversion Hstep as [d before raw abs after s Heq|d before raw url c t f after s t' s' _ Heq];
      destruct before; discriminate.
Qed.


Lemma collects_stylesheet_within parts st cssUrl parts' st' :
  collects_stylesheet E (parts, st) cssUrl (parts', st') ->
  forall u, In u (import_requests st') ->
            In u (import_requests st) \/ below_sheet E cssUrl u.
Proof.
  intros H. inversion H as [? ? ? message Hf|? ? ? f Hf Hcss|? ? ? f css' ? Hf Hcss Hrun];
    subst; auto.
  intros u Hu. destruct (inlines_within _ _ _ _ _ _ Hrun u Hu) as [Hold|Hnew]; [auto|].
  right. exists f. split; [assumption|]. unfold sheet_text.
  now rewrite <- (rewritten_text E (body f) (finalUrl f) (cssAssets st)).
Qed.

Lemma collects_inline_within parts st block parts' st' :
  collects_inline E (parts, st) block (parts', st') ->
  forall u, In u (import_requests st') ->
            In u (import_requests st) \/ below_block E block u.
Proof.
  intros H. inversion H as [? ? css baseUrl rew' ? Hrun]; subst.
  intros u Hu. destruct (inlines_within _ _ _ _ _ _ Hrun u Hu) as [Hold|Hnew]; [auto|].
  right. unfold below_block. cbn [fst snd].
  now rewrite <- (rewritten_text E css baseUrl (cssAssets st)).
Qed.

Lemma each_within {A : Type}
    (turn : list string * CssState -> A -> list string * CssState -> Prop)
    (below : A -> string -> Prop) :
  (forall parts st x parts' st',
     turn (parts, st) x (parts', st') ->
     forall u, In u (import_requests st') -> In u (import_requests st) \/ below x u) ->
  forall l acc acc',
    each turn l acc acc' ->
    forall u, In u (import_requests (snd acc')) ->
              In u (import_requests (snd acc)) \/ exists x, In x l /\ below x u.
Proof.
  intros Hturn l acc acc' Hloop.
  induction Hloop as [acc|x l [parts st] [parts1 st1] acc2 Hx _ IH]; [auto|].
  intros u Hu. destruct (IH u Hu) as [Hin|(y & Hy & Hb)].
  - cbn [snd] in *. destruct (Hturn _ _ _ _ _ Hx u Hin) as [Hold|Hnew]; [auto|].
    right. exists x. simpl. auto.
  - right. exists y. simpl. auto.
Qed.

Lemma collects_within stylesheetUrls inlineBlocks parts st :
  collects E stylesheetUrls inlineBlocks (parts, st) ->
  forall u, In u (import_requests st) ->
            (exists cssUrl, In cssUrl stylesheetUrls /\ below_sheet E cssUrl u)
            \/ (exists block, In block inlineBlocks /\ below_block E block u).
Proof.
  intros H. inversion H as [acc1 acc2 Hsheets Hblocks]; subst.
  intros u Hu.
  destruct (each_within (collects_inline E) (below_block E) collects_inline_within
              _ _ _ Hblocks u Hu) as [Hin|Hb]; [|auto].
  destruct (each_within (collects_stylesheet E) (below_sheet E) collects_stylesheet_within
              _ _ _ Hsheets u Hin) as [[]|Hs]. auto.
Qed.

Lemma scan_without_rules cssUrl gs :
  flat_map (fun g => match g with Tok raw cs => [(raw, cs)] | Chr _ => [] end) gs = [] ->
  forall acc, fold_left (scan_import E cssUrl) gs acc = acc.
Proof.
  induction gs as [|[c|raw cs] gs IH]; cbn [flat_map app fold_left]; intros H acc;
    [reflexivity | | discriminate].
  rewrite (IH H). destruct acc. reflexivity.
Qed.

Lemma scan_single css cssUrl raw abs st :
  imports_only E css cssUrl raw abs ->
  set_has abs (visited st) = false ->
  scan_imports E css cssUrl st
  = (mkScan [(raw, abs)] [],
     mkCssState (set_add abs (visited st)) (cssAssets st) (push (import_requests st) abs)).
Proof.
  intros (cs & Hrules & Habs) Hfresh. unfold scan_imports, import_rules in *.
  revert Hrules. generalize (scan true IMPORT_RE css). intros gs.
  induction gs as [|[c|raw' cs'] gs IH]; cbn [flat_map app fold_left]; intros Hrules.
  - discriminate.
  - exact (IH Hrules).
  - injection Hrules as -> -> Hrest.
    rewrite (scan_without_rules cssUrl gs Hrest).
    unfold scan_import. now rewrite Habs, Hfresh.
Qed.

Lemma settle_none depth st ts' st' : ~ settle E depth [] st ts' st'.
Proof. intros H. inversion H; destruct before; discriminate. Qed.

Lemma one_among {A : Type} (before after : list A) (x y : A) :
  (before ++ x :: after)%list = [y] -> before = [] /\ x = y /\ after = [].
Proof.
  destruct before as [|b [|b' before]]; cbn [app]; intros H.
  - injection H as -> ->. auto.
  - discriminate.
  - discriminate.
Qed.

Lemma settle_one_pending depth raw abs st ts' st' :
  settle E depth [Pending raw abs] st ts' st' ->
  ts' = [fst (resume E depth raw abs st)] /\ st' = snd (resume E depth raw abs st).
Proof.
  intros H. remember [Pending raw abs] as l eqn:Hl.
  destruct H as [d before r a after s|d before r u c t f after s t' s' Hsub];
    apply one_among in Hl; destruct Hl as (-> & Hx & ->);
    [|discriminate].
  injection Hx as -> ->. auto.
Qed.

Lemma settle_one_inlining depth raw url css ts fb st ts' st' :
  settle E depth [Inlining raw url css ts fb] st ts' st' ->
  exists ts1, ts' = [Inlining raw url css ts1 fb] /\ settle E (pred depth) ts st ts1 st'.
Proof.
  intros H. remember [Inlining raw url css ts fb] as l eqn:Hl.
  destruct H as [d before r a after s|d before r u c t f after s t' s' Hsub];
    apply one_among in Hl; destruct Hl as (-> & Hx & ->);
    [discriminate|].
  injection Hx as -> -> -> -> ->. exists t'. split; [reflexivity | exact Hsub].
Qed.

Lemma settles_one_inlining depth n raw url css fb :
  forall ts st ts' st',
    settles E depth n [Inlining raw url css ts fb] st ts' st' ->
    exists ts1, ts' = [Inlining raw url css ts1 fb] /\ settles E (pred depth) n ts st ts1 st'.
Proof.
  induction n as [|n IH]; intros ts st ts' st' H.
  - inversion H; subst. exists ts. split; [reflexivity | constructor].
  - inversion H as [|n0 ts0 s0 ts1 s1 ts2 s2 Hstep Hrest]; subst.
    destruct (settle_one_inlining _ _ _ _ _ _ _ _ _ Hstep) as (tsa & -> & Hsub).
    destruct (IH _ _ _ _ Hrest) as (tsb & -> & Hsubs).
    exists tsb. split; [reflexivity | econstructor; eauto].
Qed.

Lemma replacements_one t :
  replacements [t] = match replacement t with Some r => Some [r] | None => None end.
Proof. cbn [replacements]. destruct (replacement t); reflexivity. Qed.

(** An import at the last level: the text fetched is put in as it is. *)
Lemma settles_leaf raw abs f st n ts' st' done :
  fetchText E abs = Ok f ->
  settles E 0 n [Pending raw abs] st ts' st' ->
  replacements ts' = Some done ->
  done = [(raw, "/* @import inlined from " ++ finalUrl f ++ " */" ++ nl
                ++ sheet_text E f ++ nl ++ "/* end import */")]
  /\ import_requests st' = import_requests st
  /\ visited st' = visited st.
Proof.
  intros Hf Hrun Hdone.
  inversion Hrun as [|n0 ts0 s0 ts1 s1 ts2 s2 Hstep Hrest]; subst; [discriminate|].
  apply settle_one_pending in Hstep. destruct Hstep as [-> ->].
  unfold resume in Hrest. rewrite Hf in Hrest.
  pose proof (rewritten_text E (body f) (finalUrl f) (cssAssets st)) as Htext.
  destruct (rewriteCssUrlsToAbs E (body f) (finalUrl f) (cssAssets st))
    as [rewritten assets].
  cbn [fst snd start_imports] in *.
  apply settles_one_inlining in Hrest. destruct Hrest as (ts1 & -> & Hsub).
  inversion Hsub as [|n1 ta sa tb sb tc sc Hstep _]; subst;
    [|now apply settle_none in Hstep].
  rewrite replacements_one, replacement_inlining in Hdone.
  cbn [replacements app] in Hdone. unfold apply_replacements in Hdone.
  cbn [fold_left] in Hdone. injection Hdone as <-.
  unfold sheet_text. auto.
Qed.


(** An import one level above the last: the text fetched has one rule,
    whose target is put in as it is. *)
Lemma settles_link rawA b fb rawB c fc st n ts' st' done :
  fetchText E b = Ok fb ->
  imports_only E (sheet_text E fb) (finalUrl fb) rawB c ->
  set_has c (visited st) = false ->
  fetchText E c = Ok fc ->
  settles E 1 n [Pending rawA b] st ts' st' ->
  replacements ts' = Some done ->
  done = [(rawA, "/* @import inlined from " ++ finalUrl fb ++ " */" ++ nl
                 ++ apply_replacements
                      [(rawB, "/* @import inlined from " ++ finalUrl fc ++ " */" ++ nl
                              ++ sheet_text E fc ++ nl ++ "/* end import */")]
                      (sheet_text E fb)
                 ++ nl ++ "/* end import */")]
  /\ import_requests st' = push (import_requests st) c.
Proof.
  intros Hfb Hrule Hfresh Hfc Hrun Hdone.
  inversion Hrun as [|n0 ts0 s0 ts1 s1 ts2 s2 Hstep Hrest]; subst; [discriminate|].
  apply settle_one_pending in Hstep. destruct Hstep as [-> ->].
  unfold resume in Hrest. rewrite Hfb in Hrest.
  pose proof (rewritten_text E (body fb) (finalUrl fb) (cssAssets st)) as Htext.
  destruct (rewriteCssUrlsToAbs E (body fb) (finalUrl fb) (cssAssets st))
    as [rewritten assets].
  cbn [fst] in Htext. fold (sheet_text E fb) in Htext. subst rewritten.
  cbn [start_imports] in Hrest.
  rewrite (scan_single (sheet_text E fb) (finalUrl fb) rawB c
             (mkCssState (visited st) assets (import_requests st)) Hrule Hfresh) in Hrest.
  cbn [fst snd tasks fallbacks map pending visited cssAssets import_requests] in Hrest.
  apply settles_one_inlining in Hrest. destruct Hrest as (ts1 & -> & Hsub).
  rewrite replacements_one, replacement_inlining in Hdone.
  destruct (replacements ts1) as [d1|] eqn:Hd1; [|discriminate].
  destruct (settles_leaf _ _ _ _ _ _ _ _ Hfc Hsub Hd1) as (-> & Hreq & _).
  injection Hdone as <-. cbn [import_requests app] in *. auto.
Qed.

(** A chain of imports below a linked stylesheet. *)
Lemma chain_below_a_sheet a fa rawA b fb rawB c fc parts st :
  fetchText E a = Ok fa -> is_css fa = true ->
  imports_only E (sheet_text E fa) (finalUrl fa) rawA b ->
  fetchText E b = Ok fb ->
  imports_only E (sheet_text E fb) (finalUrl fb) rawB c ->
  c <> b ->
  fetchText E c = Ok fc ->
  collects E [a] [] (parts, st) ->
  parts
  = [ "/* ===== CSS from " ++ finalUrl fa ++ " ===== */" ++ nl
      ++ apply_replacements
           [(rawA, "/* @import inlined from " ++ finalUrl fb ++ " */" ++ nl
                   ++ apply_replacements
                        [(rawB, "/* @import inlined from " ++ finalUrl fc ++ " */" ++ nl
                                ++ sheet_text E fc ++ nl ++ "/* end import */")]
                        (sheet_text E fb)
                   ++ nl ++ "/* end import */")]
           (sheet_text E fa)
      ++ nl ]
  /\ import_requests st = [b; c].
Proof.
  intros Hfa Hcss Ha Hfb Hb Hcb Hfc Hrun.
  inversion Hrun as [acc1 acc2 Hsheets Hblocks]; subst.
  inversion Hblocks; subst. clear Hblocks.
  inversion Hsheets as [|x l acc0 acc1 acc2 Hsheet Hrest]; subst.
  inversion Hrest; subst. clear Hrest Hsheets.
  inversion Hsheet as [? ? ? message Hf|? ? ? f Hf Hskip|? ? ? f css' ? Hf _ Hinl]; subst;
    rewrite Hfa in Hf; [discriminate| |]; injection Hf as <-; [congruence|].
  cbn [visited cssAssets import_requests] in Hinl.
  change (fst (rewriteCssUrlsToAbs E (body fa) (finalUrl fa) []))
    with (sheet_text E fa) in Hinl.
  inversion Hinl as [ts fb0 st1 n ts' st2 done Hstart Hsettles Hdone]; subst.
  cbn [start_imports] in Hstart.
  match type of Hstart with
  | context [scan_imports E _ _ ?s] =>
      rewrite (scan_single (sheet_text E fa) (finalUrl fa) rawA b s Ha eq_refl) in Hstart
  end.
  cbn [tasks fallbacks map pending fst snd visited cssAssets import_requests] in Hstart.
  injection Hstart as <- <- <-. cbn [pred] in Hsettles.
  assert (Hfresh : set_has c (set_add b []) = false).
  { apply set_has_false. intros Hin. apply In_set_add in Hin.
    destruct Hin as [Heq|[]]. congruence. }
  unfold pending in Hsettles. cbn [fst snd] in Hsettles.
  match type of Hsettles with
  | settles _ _ _ _ ?s _ _ =>
      destruct (settles_link rawA b fb rawB c fc s n ts' st done
                  Hfb Hb Hfresh Hfc Hsettles Hdone) as (-> & Hreq)
  end.
  cbn [import_requests] in Hreq. unfold push in *. cbn [app] in *.
  split; [reflexivity | exact Hreq].
Qed.

(** A chain of imports below a style block. *)
Lemma chain_below_a_block css baseUrl rawP b fb parts st :
  imports_only E (fst (rewriteCssUrlsToAbs E css baseUrl [])) baseUrl rawP b ->
  fetchText E b = Ok fb ->
  collects E [] [(css, baseUrl)] (parts, st) ->
  parts
  = [ "/* ===== Inline <style> from " ++ baseUrl ++ " ===== */" ++ nl
      ++ apply_replacements
           [(rawP, "/* @import inlined from " ++ finalUrl fb ++ " */" ++ nl
                   ++ sheet_text E fb ++ nl ++ "/* end import */")]
           (fst (rewriteCssUrlsToAbs E css baseUrl []))
      ++ nl ]
  /\ import_requests st = [b].
Proof.
  intros Hp Hfb Hrun.
  inversion Hrun as [acc1 acc2 Hsheets Hblocks]; subst.
  inversion Hsheets; subst. clear Hsheets.
  inversion Hblocks as [|x l acc0 acc1 acc2 Hblock Hrest]; subst.
  inversion Hrest; subst. clear Hrest Hblocks.
  inversion Hblock as [? ? ? ? rew' ? Hinl]; subst.
  cbn [visited cssAssets import_requests] in Hinl.
  inversion Hinl as [ts fb0 st1 n ts' st2 done Hstart Hsettles Hdone]; subst.
  cbn [start_imports] in Hstart.
  match type of Hstart with
  | context [scan_imports E _ _ ?s] =>
      rewrite (scan_single _ baseUrl rawP b s Hp eq_refl) in Hstart
  end.
  cbn [tasks fallbacks map pending fst snd visited cssAssets import_requests] in Hstart.
  injection Hstart as <- <- <-. cbn [pred] in Hsettles.
  unfold pending in Hsettles. cbn [fst snd] in Hsettles.
  destruct (settles_leaf _ _ _ _ _ _ _ _ Hfb Hsettles Hdone) as (-> & Hreq & _).
  cbn [import_requests] in Hreq. unfold push in *. cbn [app] in *.
  split; [reflexivity | exact Hreq].
Qed.

End Depth.

(** C5. At depth 0 the text is returned as it is and nothing is requested;
    a call at depth [n] requests no URL but the targets of imports within
    [n] levels below its text. A linked stylesheet is inlined at depth 2,
    an inline block at depth 1: whatever is requested is imported within
    two levels below a linked stylesheet or within one level below a
    block. So when a linked sheet a has one import rule, for b, b has one,
    for c, and c has one, for d (a chain of three imports over three
    different sheets b, c, d), then however the answers come the text
    collected has the rule of a replaced by b and the rule of b replaced
    by c, the text of c is given for replacement as it was fetched, with
    its rule for d, the one rule left, and exactly b and c are requested,
    never d; below an inline block that has one rule, for b, the text of b
    is given as it was fetched and b alone is requested. *)
Theorem import_depth_is_bounded (E : Env) :
  (forall css cssUrl st,
     inlineCssImports E 0 css cssUrl st = (css, st)
     /\ forall out st', inlines E 0 css cssUrl st out st' -> out = css /\ st' = st) /\
  (forall depth css cssUrl st out st',
     inlines E depth css cssUrl st out st' ->
     forall u, In u (import_requests st') ->
       In u (import_requests st) \/ within E depth css cssUrl u) /\
  (forall stylesheetUrls inlineBlocks parts st,
     collects E stylesheetUrls inlineBlocks (parts, st) ->
     forall u, In u (import_requests st) ->
       (exists cssUrl, In cssUrl stylesheetUrls /\ below_sheet E cssUrl u)
       \/ (exists block, In block inlineBlocks /\ below_block E block u)) /\
  (forall a fa rawA b fb rawB c fc rawC d parts st,
     fetchText E a = Ok fa -> is_css fa = true ->
     imports_only E (sheet_text E fa) (finalUrl fa) rawA b ->
     fetchText E b = Ok fb ->
     imports_only E (sheet_text E fb) (finalUrl fb) rawB c ->
     fetchText E c = Ok fc ->
     imports_only E (sheet_text E fc) (finalUrl fc) rawC d ->
     c <> b -> d <> b -> d <> c ->
     collects E [a] [] (parts, st) ->
     parts
     = [ "/* ===== CSS from " ++ finalUrl fa ++ " ===== */" ++ nl
         ++ apply_replacements
              [(rawA, "/* @import inlined from " ++ finalUrl fb ++ " */" ++ nl
                      ++ apply_replacements
                           [(rawB, "/* @import inlined from " ++ finalUrl fc ++ " */" ++ nl
                                   ++ sheet_text E fc ++ nl ++ "/* end import */")]
                           (sheet_text E fb)
                      ++ nl ++ "/* end import */")]
              (sheet_text E fa)
         ++ nl ]
     /\ import_requests st = [b; c]
     /\ ~ In d (import_requests st)) /\
  (forall css baseUrl rawP b fb rawB c parts st,
     imports_only E (fst (rewriteCssUrlsToAbs E css baseUrl [])) baseUrl rawP b ->
     fetchText E b = Ok fb ->
     imports_only E (sheet_text E fb) (finalUrl fb) rawB c ->
     c <> b ->
     collects E [] [(css, baseUrl)] (parts, st) ->
     parts
     = [ "/* ===== Inline <style> from " ++ baseUrl ++ " ===== */" ++ nl
         ++ apply_replacements
              [(rawP, "/* @import inlined from " ++ finalUrl fb ++ " */" ++ nl
                      ++ sheet_text E fb ++ nl ++ "/* end import */")]
              (fst (rewriteCssUrlsToAbs E css baseUrl []))
         ++ nl ]
     /\ import_requests st = [b]
     /\ ~ In c (import_requests st)).
Proof.
  split; [|split; [|split; [|split]]].
  - intros css cssUrl st. split; [reflexivity | apply inlines_zero].
  - apply inlines_within.
  - apply collects_within.
  - intros a fa rawA b fb rawB c fc rawC d parts st Hfa Hcss Ha Hfb Hb Hfc _ Hcb Hdb Hdc Hrun.
    destruct (chain_below_a_sheet E a fa rawA b fb rawB c fc parts st
                Hfa Hcss Ha Hfb Hb Hcb Hfc Hrun) as [Hparts Hreq].
    split; [exact Hparts|]. split; [exact Hreq|].
    rewrite Hreq. intros [H|[H|[]]]; congruence.
  - intros css baseUrl rawP b fb rawB c parts st Hp Hfb _ Hcb Hrun.
    destruct (chain_below_a_block E css baseUrl rawP b fb parts st Hp Hfb Hrun)
      as [Hparts Hreq].
    split; [exact Hparts|]. split; [exact Hreq|].
    rewrite Hreq. intros [H|[]]. congruence.
Qed.

(** C5 on a network that serves the four sheets of a chain. *)
Lemma chain_of_three_imports :
  fst (collect_css (Sample.env NET_CHAIN []) [SHEET_A] []) = [CHAIN_CSS]
  /\ import_requests (snd (collect_css (Sample.env NET_CHAIN []) [SHEET_A] []))
     = [SHEET_B; SHEET_C]
  /\ ~ In SHEET_D
         (import_requests (snd (collect_css (Sample.env NET_CHAIN []) [SHEET_A] []))).
Proof.
  pose proof (collect_css_collects (Sample.env NET_CHAIN []) [SHEET_A] []) as Hrun.
  destruct (collect_css (Sample.env NET_CHAIN []) [SHEET_A] []) as [parts st].
  cbn [fst snd].
  destruct (proj1 (proj2 (proj2 (proj2 (import_depth_is_bounded (Sample.env NET_CHAIN [])))))
              SHEET_A (mkFetched "@import 'b.css';" SHEET_A "text/css")
              "@import 'b.css';" SHEET_B (mkFetched "@import 'c.css';" SHEET_B "text/css")
              "@import 'c.css';" SHEET_C (mkFetched "@import 'd.css';" SHEET_C "text/css")
              "@import 'd.css';" SHEET_D parts st) as (Hparts & Hreq & Hd).
  - vm_compute. reflexivity.
  - vm_compute. reflexivity.
  - exists [(1, "b.css")]. split; vm_compute; reflexivity.
  - vm_compute. reflexivity.
  - exists [(1, "c.css")]. split; vm_compute; reflexivity.
  - vm_compute. reflexivity.
  - exists [(1, "d.css")]. split; vm_compute; reflexivity.
  - discriminate.
  - discriminate.
  - discriminate.
  - exact Hrun.
  - split; [|split; [exact Hreq | exact Hd]].
    rewrite Hparts. vm_compute. reflexivity.
Defined.

Example chain_below_a_style_block :
  collect_css (Sample.env NET_CHAIN []) [] [("@import 'b.css';", PAGE_URL)]
  = ([INLINE_CHAIN_CSS], mkCssState [SHEET_B] [] [SHEET_B]).
Proof. vm_compute. reflexivity. Qed.

(* ================================================================== *)
(** * C8: the stylesheet references of the rewritten page *)
(* ================================================================== *)

Lemma respects_matches_stylesheet : respects (matches SEL_STYLESHEET).
Proof.
  intros e e' Ht Hr Ha. unfold SEL_STYLESHEET, tag_with, matches.
  cbn [existsb]. unfold compound_matches. cbn [sel_tag sel_tests forallb].
  unfold test_holds. now rewrite Ht, Hr.
Qed.

Lemma respects_matches_style : respects (matches SEL_STYLE).
Proof.
  intros e e' Ht Hr Ha. unfold SEL_STYLE, by_tag, matches.
  cbn [existsb]. unfold compound_matches. cbn [sel_tag sel_tests forallb].
  now rewrite Ht.
Qed.

Lemma respects_matches_head : respects (matches SEL_HEAD).
Proof.
  intros e e' Ht Hr Ha. unfold SEL_HEAD, by_tag, matches.
  cbn [existsb]. unfold compound_matches. cbn [sel_tag sel_tests forallb].
  now rewrite Ht.
Qed.

Lemma respects_preload_only : respects preload_only.
Proof.
  intros e e' Ht Hr Ha. unfold preload_only.
  rewrite (respects_matches_stylesheet e e' Ht Hr Ha). f_equal.
  unfold SEL_PRELOAD_STYLE, tag_with, matches.
  cbn [existsb]. unfold compound_matches. cbn [sel_tag sel_tests forallb].
  unfold test_holds. now rewrite Ht, Hr, Ha.
Qed.

Lemma respects_link_or_style : respects link_or_style.
Proof. intros e e' Ht _ _. unfold link_or_style. now rewrite Ht. Qed.

Lemma gentle_set_attr name value :
  name <> "rel" -> name <> "as" ->
  forall e, el_tag (set_attr name value e) = el_tag e
            /\ attr "rel" (set_attr name value e) = attr "rel" e
            /\ attr "as" (set_attr name value e) = attr "as" e.
Proof.
  intros Hr Ha e. unfold set_attr, attr. cbn [el_tag el_attrs].
  rewrite !map_get_set_other by congruence. auto.
Qed.

Section Gentle.
Variable E : Env.
Variable baseUrl : string.
Variable urlToLocalRel : list (string * string).

Lemma gentle_setLocal name :
  name <> "rel" -> name <> "as" -> gentle (setLocal E baseUrl urlToLocalRel name).
Proof.
  intros Hr Ha e. unfold setLocal.
  destruct (attr name e) as [[|c v]|]; auto.
  destruct (local_of E baseUrl urlToLocalRel (String c v)); auto.
  now apply gentle_set_attr.
Qed.

Lemma gentle_adopt_lazy : gentle (adopt_lazy E baseUrl urlToLocalRel).
Proof.
  intros e. unfold adopt_lazy.
  destruct (local_of E baseUrl urlToLocalRel (to_string (lazy_source e))); auto.
  destruct (truthy (attr "src" e)); auto.
  apply gentle_set_attr; discriminate.
Qed.

Lemma gentle_rewriteSrcset name :
  name <> "rel" -> name <> "as" -> gentle (rewriteSrcset E baseUrl urlToLocalRel name).
Proof.
  intros Hr Ha e. unfold rewriteSrcset.
  destruct (attr name e) as [[|c v]|]; auto. now apply gentle_set_attr.
Qed.

Lemma gentle_rewrite_style : gentle (rewrite_style E baseUrl urlToLocalRel).
Proof. intros e. unfold rewrite_style. apply gentle_set_attr; discriminate. Qed.

End Gentle.

Section Trees.
Variable P : element -> bool.
Hypothesis P_respects : respects P.

Lemma length_pick_cons n d :
  length (pick P (n :: d)) = length (pick_node P n) + length (pick P d).
Proof. unfold pick. cbn [flat_map]. now rewrite length_app. Qed.

Lemma P_ignores_children t a k k' : P (mkElement t a k') = P (mkElement t a k).
Proof. apply P_respects; reflexivity. Qed.

(** Setting other attributes does not change how many elements satisfy [P]. *)
Lemma length_pick_alter Q f :
  gentle f ->
  forall d, length (pick P (map (alter_node Q f) d)) = length (pick P d).
Proof.
  intros Hf.
  assert (Hnode : forall n, length (pick_node P (alter_node Q f n))
                            = length (pick_node P n)).
  { induction n as [s|t a k IH] using node_induction; [reflexivity|].
    cbn [alter_node pick_node]. rewrite !length_app. f_equal.
    - replace (P (mkElement
                    (el_tag (if Q (mkElement t a k) then f (mkElement t a k)
                             else mkElement t a k))
                    (el_attrs (if Q (mkElement t a k) then f (mkElement t a k)
                               else mkElement t a k))
                    (map (alter_node Q f) k)))
        with (P (mkElement t a k));
        [destruct (P (mkElement t a k)); reflexivity|].
      symmetry. destruct (Q (mkElement t a k)).
      + destruct (Hf (mkElement t a k)) as (Ht & Hr & Ha).
        apply P_respects; assumption.
      + apply P_respects; reflexivity.
    - induction IH as [|n k Hn _ IHk]; [reflexivity|].
      cbn [map flat_map]. rewrite !length_app. now rewrite Hn, IHk. }
  induction d as [|n d IH]; [reflexivity|].
  cbn [map]. rewrite !length_pick_cons. now rewrite Hnode, IH.
Qed.

(** Dropping the elements that satisfy [Q], none of which satisfies [P]
    or has an element below it, does not change how many satisfy [P]. *)
Lemma length_pick_drop Q Q0 :
  (forall e, Q e = true -> Q0 e = true) ->
  (forall e, P e = true -> Q e = false) ->
  forall d, forallb (childless Q0) d = true ->
            length (pick P (flat_map (drop_node Q) d)) = length (pick P d).
Proof.
  intros Hsub Hdisjoint.
  assert (Htexts : forall k, forallb is_text k = true -> pick P k = []).
  { induction k as [|[t a k'|s] k IH]; cbn [forallb is_text]; try discriminate; auto. }
  assert (Hnode : forall n, childless Q0 n = true ->
                            length (pick P (drop_node Q n)) = length (pick_node P n)).
  { induction n as [s|t a k IH] using node_induction; [reflexivity|].
    cbn [childless drop_node pick_node]. intros Hc.
    apply andb_true_iff in Hc. destruct Hc as [Hleaf Hkids].
    destruct (Q (mkElement t a k)) eqn:HQ.
    - rewrite (Hsub _ HQ) in Hleaf.
      destruct (P (mkElement t a k)) eqn:HP;
        [apply Hdisjoint in HP; congruence|].
      change (flat_map (pick_node P) k) with (pick P k).
      now rewrite (Htexts k Hleaf).
    - unfold pick. cbn [flat_map pick_node]. rewrite app_nil_r, !length_app.
      rewrite (P_ignores_children t a k). f_equal.
      + destruct (P (mkElement t a k)); reflexivity.
      + clear Hleaf HQ. induction IH as [|n k Hn _ IHk]; [reflexivity|].
        cbn [forallb] in Hkids. apply andb_true_iff in Hkids.
        destruct Hkids as [Hcn Hck].
        cbn [flat_map]. rewrite flat_map_app, !length_app.
        rewrite (IHk Hck). f_equal. exact (Hn Hcn). }
  induction d as [|n d IH]; [reflexivity|].
  cbn [forallb flat_map]. intros Hc. apply andb_true_iff in Hc.
  destruct Hc as [Hn Hd]. unfold pick in *. rewrite flat_map_app, !length_app.
  cbn [flat_map]. rewrite length_app. now rewrite (Hnode n Hn), (IH Hd).
Qed.

(** Dropping the elements that satisfy [P] leaves none. *)
Lemma pick_drop_same d : pick P (flat_map (drop_node P) d) = [].
Proof.
  assert (Hnode : forall n, pick P (drop_node P n) = []).
  { induction n as [s|t a k IH] using node_induction; [reflexivity|].
    cbn [drop_node]. destruct (P (mkElement t a k)) eqn:HP; [reflexivity|].
    unfold pick. cbn [flat_map pick_node]. rewrite app_nil_r.
    rewrite (P_ignores_children t a k), HP. cbn [app]. clear HP.
    induction IH as [|n k Hn _ IHk]; [reflexivity|].
    cbn [flat_map]. rewrite flat_map_app. unfold pick in Hn. now rewrite Hn, IHk. }
  induction d as [|n d IH]; [reflexivity|].
  unfold pick in *. cbn [flat_map]. rewrite flat_map_app. now rewrite Hnode, IH.
Qed.

(** Dropping elements makes no element satisfy [P] that did not. *)
Lemma pick_drop_none Q d : pick P d = [] -> pick P (flat_map (drop_node Q) d) = [].
Proof.
  assert (Hnode : forall n, pick_node P n = [] -> pick P (drop_node Q n) = []).
  { induction n as [s|t a k IH] using node_induction; [reflexivity|].
    cbn [drop_node pick_node]. intros Hnone.
    apply app_eq_nil in Hnone. destruct Hnone as [HP Hk].
    destruct (Q (mkElement t a k)); [reflexivity|].
    unfold pick. cbn [flat_map pick_node]. rewrite app_nil_r.
    rewrite (P_ignores_children t a k).
    destruct (P (mkElement t a k)); [discriminate|]. cbn [app].
    clear HP. induction IH as [|n k Hn _ IHk]; [reflexivity|].
    cbn [flat_map] in Hk. apply app_eq_nil in Hk. destruct Hk as [Hkn Hkk].
    cbn [flat_map]. rewrite flat_map_app. unfold pick in Hn.
    now rewrite (Hn Hkn), (IHk Hkk). }
  induction d as [|n d IH]; [reflexivity|].
  unfold pick in *. cbn [flat_map]. intros Hnone.
  apply app_eq_nil in Hnone. destruct Hnone as [Hn Hd].
  rewrite flat_map_app. now rewrite (Hnode n Hn), (IH Hd).
Qed.

End Trees.

Lemma pick_ext (P P' : element -> bool) :
  (forall e, P e = P' e) -> forall d, pick P d = pick P' d.
Proof.
  intros Hext.
  assert (Hnode : forall n, pick_node P n = pick_node P' n).
  { induction n as [s|t a k IH] using node_induction; [reflexivity|].
    cbn [pick_node]. rewrite Hext. f_equal.
    induction IH as [|n k Hn _ IHk]; [reflexivity|].
    cbn [flat_map]. now rewrite Hn, IHk. }
  induction d as [|n d IH]; [reflexivity|].
  unfold pick in *. cbn [flat_map]. now rewrite Hnode, IH.
Qed.

Lemma is_text_alter Q f k :
  forallb is_text (map (alter_node Q f) k) = forallb is_text k.
Proof.
  induction k as [|[t a k'|s] k IH]; [reflexivity| |]; cbn [map forallb alter_node is_text];
    now rewrite ?IH.
Qed.

Lemma drop_texts Q k : forallb is_text k = true -> flat_map (drop_node Q) k = k.
Proof.
  induction k as [|[t a k'|s] k IH]; cbn [forallb is_text]; try discriminate; auto.
  intros H. cbn [flat_map drop_node app]. now rewrite IH.
Qed.

Section Childless.
Variable Q0 : element -> bool.
Hypothesis Q0_respects : respects Q0.

Lemma childless_alter Q f :
  gentle f ->
  forall d, forallb (childless Q0) (map (alter_node Q f) d) = forallb (childless Q0) d.
Proof.
  intros Hf.
  assert (Hnode : forall n, childless Q0 (alter_node Q f n) = childless Q0 n).
  { induction n as [s|t a k IH] using node_induction; [reflexivity|].
    cbn [alter_node childless]. rewrite is_text_alter.
    replace (Q0 (mkElement
                   (el_tag (if Q (mkElement t a k) then f (mkElement t a k)
                            else mkElement t a k))
                   (el_attrs (if Q (mkElement t a k) then f (mkElement t a k)
                              else mkElement t a k))
                   (map (alter_node Q f) k)))
      with (Q0 (mkElement t a k)).
    - f_equal. induction IH as [|n k Hn _ IHk]; [reflexivity|].
      cbn [map forallb]. now rewrite Hn, IHk.
    - symmetry. destruct (Q (mkElement t a k)).
      + destruct (Hf (mkElement t a k)) as (Ht & Hr & Ha).
        apply Q0_respects; assumption.
      + apply Q0_respects; reflexivity. }
  induction d as [|n d IH]; [reflexivity|].
  cbn [map forallb]. now rewrite Hnode, IH.
Qed.

Lemma childless_drop Q :
  forall d, forallb (childless Q0) d = true ->
            forallb (childless Q0) (flat_map (drop_node Q) d) = true.
Proof.
  assert (Hnode : forall n, childless Q0 n = true ->
                            forallb (childless Q0) (drop_node Q n) = true).
  { induction n as [s|t a k IH] using node_induction; [reflexivity|].
    cbn [childless drop_node]. intros Hc.
    destruct (Q (mkElement t a k)); [reflexivity|].
    apply andb_true_iff in Hc. destruct Hc as [Hleaf Hkids].
    cbn [forallb childless]. rewrite andb_true_r.
    rewrite (Q0_respects (mkElement t a k) (mkElement t a (flat_map (drop_node Q) k)))
      by reflexivity.
    apply andb_true_iff. split.
    - destruct (Q0 (mkElement t a k)); [|reflexivity].
      now rewrite (drop_texts Q k Hleaf).
    - clear Hleaf. induction IH as [|n k Hn _ IHk]; [reflexivity|].
      cbn [forallb] in Hkids. apply andb_true_iff in Hkids.
      destruct Hkids as [Hcn Hck].
      cbn [flat_map]. rewrite forallb_app. now rewrite (Hn Hcn), (IHk Hck). }
  induction d as [|n d IH]; [reflexivity|].
  cbn [forallb flat_map]. intros Hc. apply andb_true_iff in Hc.
  destruct Hc as [Hn Hd]. rewrite forallb_app. now rewrite (Hnode n Hn), (IH Hd).
Qed.

End Childless.

Section Insert.
Variable P : element -> bool.
Hypothesis P_respects : respects P.
Variable at_end : bool.
Variable t0 : string.
Variable new : list node.

(** Every element with the tag receives the new nodes once. *)
Lemma length_pick_insert d :
  length (pick P (map (insert_node at_end t0 new) d))
  = length (pick P d) + length (pick (has_tag t0) d) * length (pick P new).
Proof.
  assert (Hnode : forall n,
            length (pick_node P (insert_node at_end t0 new n))
            = length (pick_node P n)
              + length (pick_node (has_tag t0) n) * length (pick P new)).
  { induction n as [s|t a k IH] using node_induction; [reflexivity|].
    assert (Hkids : length (pick P (map (insert_node at_end t0 new) k))
                    = length (pick P k) + length (pick (has_tag t0) k) * length (pick P new)).
    { induction IH as [|n k Hn _ IHk]; [reflexivity|].
      cbn [map]. rewrite !length_pick_cons, Hn, IHk. count_elements. }
    cbn [insert_node pick_node]. rewrite !length_app.
    rewrite (P_ignores_children P P_respects t a k).
    unfold has_tag at 1. cbn [el_tag].
    change (flat_map (pick_node P) k) with (pick P k).
    change (flat_map (pick_node (has_tag t0)) k) with (pick (has_tag t0) k).
    destruct (t =? t0).
    - change (flat_map (pick_node P) ?l) with (pick P l).
      assert (Hsplit : length (pick P (if at_end
                                       then (map (insert_node at_end t0 new) k ++ new)%list
                                       else (new ++ map (insert_node at_end t0 new) k)%list))
                       = length (pick P (map (insert_node at_end t0 new) k))
                         + length (pick P new)).
      { unfold pick. destruct at_end; rewrite flat_map_app, length_app; count_elements. }
      rewrite Hsplit, Hkids.
      destruct (P (mkElement t a k)); cbn [length]; count_elements.
    - change (flat_map (pick_node P) ?l) with (pick P l).
      rewrite Hkids.
      destruct (P (mkElement t a k)); cbn [length]; count_elements. }
  induction d as [|n d IH]; [reflexivity|].
  cbn [map]. rewrite !length_pick_cons, Hnode, IH. count_elements.
Qed.

(** What satisfies [P] afterwards, when nothing did, is among the new. *)
Lemma pick_insert_new d :
  pick P d = [] ->
  forall x, In x (pick P (map (insert_node at_end t0 new) d)) -> In x (pick P new).
Proof.
  assert (Hnode : forall n, pick_node P n = [] ->
            forall x, In x (pick_node P (insert_node at_end t0 new n)) ->
                      In x (pick P new)).
  { induction n as [s|t a k IH] using node_induction; [intros _ x []|].
    cbn [pick_node insert_node]. intros Hnone.
    apply app_eq_nil in Hnone. destruct Hnone as [HP Hk].
    rewrite (P_ignores_children P P_respects t a k).
    destruct (P (mkElement t a k)); [discriminate|]. cbn [app].
    assert (Hkids : forall x, In x (pick P (map (insert_node at_end t0 new) k)) ->
                              In x (pick P new)).
    { clear HP. induction IH as [|n k Hn _ IHk]; [intros x []|].
      cbn [flat_map] in Hk. apply app_eq_nil in Hk. destruct Hk as [Hkn Hkk].
      intros x. unfold pick. cbn [map flat_map]. rewrite in_app_iff.
      intros [Hx|Hx]; [exact (Hn Hkn x Hx) | exact (IHk Hkk x Hx)]. }
    intros x. change (flat_map (pick_node P) ?l) with (pick P l).
    destruct (t =? t0); [|apply Hkids].
    unfold pick. destruct at_end; rewrite flat_map_app, in_app_iff;
      intros [Hx|Hx]; auto. }
  induction d as [|n d IH]; [intros _ x []|].
  unfold pick in *. cbn [map flat_map]. intros Hnone.
  apply app_eq_nil in Hnone. destruct Hnone as [Hn Hd].
  intros x. rewrite in_app_iff. intros [Hx|Hx]; [exact (Hnode n Hn x Hx) | exact (IH Hd x Hx)].
Qed.

End Insert.

Lemma matches_head e : matches SEL_HEAD e = has_tag "head" e.
Proof.
  unfold SEL_HEAD, by_tag, matches, has_tag. cbn [existsb]. unfold compound_matches.
  cbn [sel_tag sel_tests forallb]. now rewrite andb_true_r, orb_false_r.
Qed.

Lemma matches_style e : matches SEL_STYLE e = (el_tag e =? "style").
Proof.
  unfold SEL_STYLE, by_tag, matches. cbn [existsb]. unfold compound_matches.
  cbn [sel_tag sel_tests forallb]. now rewrite andb_true_r, orb_false_r.
Qed.

Lemma matches_stylesheet_link e : matches SEL_STYLESHEET e = true -> el_tag e = "link".
Proof.
  unfold SEL_STYLESHEET, tag_with, matches. cbn [existsb]. unfold compound_matches.
  cbn [sel_tag sel_tests]. rewrite orb_false_r. intros H.
  apply andb_true_iff in H. destruct H as [H _]. now apply String.eqb_eq.
Qed.

Lemma preload_only_link e : preload_only e = true -> el_tag e = "link".
Proof.
  unfold preload_only, SEL_PRELOAD_STYLE, tag_with, matches. cbn [existsb].
  unfold compound_matches. cbn [sel_tag sel_tests]. rewrite orb_false_r. intros H.
  apply andb_true_iff in H. destruct H as [H _].
  apply andb_true_iff in H. destruct H as [H _]. now apply String.eqb_eq.
Qed.

(** C8 (as amended). For a document as the parser builds one (one head;
    no element inside a link or a style element), after the rewrite pass
    no style element is left, the only link whose rel holds the word
    stylesheet is the one added, [<link rel=stylesheet href=style.css>],
    and the preload-as-style links that are not stylesheet links are all
    still there. *)
Theorem stylesheet_references_are_replaced (E : Env) (doc : list node)
    (baseUrl : string) (urlToLocalRel : list (string * string)) :
  parse_fragment E STYLE_LINK_MARKUP = [STYLE_LINK] ->
  length (select SEL_HEAD doc) = 1 ->
  forallb (childless link_or_style) doc = true ->
  select SEL_STYLE (rewrite_document E doc baseUrl urlToLocalRel) = []
  /\ select SEL_STYLESHEET (rewrite_document E doc baseUrl urlToLocalRel)
     = [STYLE_LINK_ELEMENT]
  /\ length (pick preload_only (rewrite_document E doc baseUrl urlToLocalRel))
     = length (pick preload_only doc).
Proof.
  intros Hlink Hhead Hleaf. unfold rewrite_document. rewrite Hlink.
  set (d7 := update SEL_STYLED _ _).
  assert (Hcount : forall P, respects P -> length (pick P d7) = length (pick P doc)).
  { intros P HP. subst d7. unfold update.
    rewrite !(length_pick_alter P HP)
      by first [ apply gentle_setLocal; discriminate
               | apply gentle_adopt_lazy
               | apply gentle_rewriteSrcset; discriminate
               | apply gentle_rewrite_style ].
    reflexivity. }
  assert (Hleaf7 : forallb (childless link_or_style) d7 = true).
  { subst d7. unfold update.
    rewrite !(childless_alter link_or_style respects_link_or_style)
      by first [ apply gentle_setLocal; discriminate
               | apply gentle_adopt_lazy
               | apply gentle_rewriteSrcset; discriminate
               | apply gentle_rewrite_style ].
    assumption. }
  clearbody d7. unfold remove, select, append.
  set (d8 := flat_map (drop_node (matches SEL_STYLESHEET)) d7).
  set (d9 := flat_map (drop_node (matches SEL_STYLE)) d8).
  assert (Hsheet_sub : forall e, matches SEL_STYLESHEET e = true -> link_or_style e = true).
  { intros e He. unfold link_or_style. now rewrite (matches_stylesheet_link e He). }
  assert (Hstyle_sub : forall e, matches SEL_STYLE e = true -> link_or_style e = true).
  { intros e He. rewrite matches_style in He. unfold link_or_style.
    rewrite He. apply orb_true_r. }
  assert (Hleaf8 : forallb (childless link_or_style) d8 = true).
  { apply childless_drop; [apply respects_link_or_style | assumption]. }
  assert (Hdrops : forall P, respects P ->
            (forall e, P e = true -> matches SEL_STYLESHEET e = false) ->
            (forall e, P e = true -> matches SEL_STYLE e = false) ->
            length (pick P d9) = length (pick P doc)).
  { intros P HP H1 H2. subst d9 d8.
    rewrite (length_pick_drop P HP _ link_or_style Hstyle_sub H2 _ Hleaf8).
    rewrite (length_pick_drop P HP _ link_or_style Hsheet_sub H1 _ Hleaf7).
    now apply Hcount. }
  assert (Hheads : length (pick (has_tag "head") d9) = 1).
  { rewrite <- (pick_ext _ _ matches_head).
    rewrite (Hdrops _ respects_matches_head); [exact Hhead| |].
    - intros e He. rewrite matches_head in He. unfold has_tag in He.
      apply String.eqb_eq in He.
      destruct (matches SEL_STYLESHEET e) eqn:Hs; [|reflexivity].
      apply matches_stylesheet_link in Hs. congruence.
    - intros e He. rewrite matches_head in He. unfold has_tag in He.
      apply String.eqb_eq in He. rewrite matches_style, He. reflexivity. }
  assert (Hno_sheet : pick (matches SEL_STYLESHEET) d9 = []).
  { subst d9. apply (pick_drop_none _ respects_matches_stylesheet).
    subst d8. apply (pick_drop_same _ respects_matches_stylesheet). }
  assert (Hno_style : pick (matches SEL_STYLE) d9 = []).
  { subst d9. apply (pick_drop_same _ respects_matches_style). }
  replace (match pick (matches SEL_HEAD) d9 with
           | [] => prepend "html" (parse_fragment E HEAD_MARKUP) d9
           | _ :: _ => d9
           end) with d9
    by (rewrite (pick_ext _ _ matches_head);
        destruct (pick (has_tag "head") d9); [discriminate | reflexivity]).
  split; [|split].
  - apply length_zero_iff_nil.
    rewrite (length_pick_insert _ respects_matches_style).
    rewrite Hno_style, Hheads. reflexivity.
  - pose proof (length_pick_insert _ respects_matches_stylesheet true "head"
                  [STYLE_LINK] d9) as Hlen.
    rewrite Hno_sheet, Hheads in Hlen.
    pose proof (pick_insert_new _ respects_matches_stylesheet true "head"
                  [STYLE_LINK] d9 Hno_sheet) as Hmem.
    destruct (pick (matches SEL_STYLESHEET) (map (insert_node true "head" [STYLE_LINK]) d9))
      as [|x [|y l]]; try discriminate.
    specialize (Hmem x (or_introl eq_refl)).
    destruct Hmem as [<-|[]]. reflexivity.
  - rewrite (length_pick_insert _ respects_preload_only).
    rewrite (Hdrops _ respects_preload_only).
    + change (pick preload_only [STYLE_LINK]) with (@nil element). cbn [length]. lia.
    + intros e He. unfold preload_only in He. apply andb_true_iff in He.
      destruct He as [_ He]. now apply negb_true_iff in He.
    + intros e He. apply preload_only_link in He. rewrite matches_style, He. reflexivity.
Qed.

(** C8 at [STYLED_DOCUMENT]. *)
Lemma styled_document_rewritten :
  select SEL_STYLE
    (rewrite_document (Sample.env [] []) STYLED_DOCUMENT "https://x.test/" []) = []
  /\ select SEL_STYLESHEET
       (rewrite_document (Sample.env [] []) STYLED_DOCUMENT "https://x.test/" [])
     = [STYLE_LINK_ELEMENT]
  /\ length (pick preload_only
               (rewrite_document (Sample.env [] []) STYLED_DOCUMENT "https://x.test/" []))
     = length (pick preload_only STYLED_DOCUMENT).
Proof.
  apply (stylesheet_references_are_replaced (Sample.env [] []) STYLED_DOCUMENT
           "https://x.test/" []); reflexivity.
Defined.

(** C8, as the claim words it, fails at [STYLED_DOCUMENT]: its preload-as-
    style link is one of the links collected as stylesheets, and it is
    still in the document after the rewrite pass. *)
Lemma preload_link_is_kept :
  select SEL_STYLE_LINKS STYLED_DOCUMENT
    = [ mkElement "link" [("rel", "stylesheet"); ("href", "/a.css")] [];
        PRELOAD_LINK ]
  /\ select SEL_STYLE_LINKS
       (rewrite_document (Sample.env [] []) STYLED_DOCUMENT "https://x.test/" [])
     = [PRELOAD_LINK; STYLE_LINK_ELEMENT]
  /\ rewrite_document (Sample.env [] []) STYLED_DOCUMENT "https://x.test/" []
     = [Element "html" []
          [ Element "head" []
              [ Element "link" [("rel", "preload"); ("as", "style"); ("href", "/b.css")] [];
                Element "link" [("rel", "stylesheet"); ("href", "style.css")] [] ];
            Element "body" [] [Element "img" [("src", "/a.png")] []] ]].
Proof. split; [|split]; vm_compute; reflexivity. Qed.

(* ================================================================== *)
(** * Names: files, folders, the output folder *)
(* ================================================================== *)

Lemma every_append p a b : every p (a ++ b) = every p a && every p b.
Proof.
  induction a as [|c a IH]; cbn [String.append every]; [reflexivity|].
  now rewrite IH, andb_assoc.
Qed.

Lemma every_take p n s : every p s = true -> every p (take n s) = true.
Proof.
  revert s; induction n as [|n IH]; intros [|c s]; cbn [take every]; auto.
  intros H. apply andb_true_iff in H. destruct H as [Hc Hs]. now rewrite Hc, IH.
Qed.

Lemma length_take n s : String.length (take n s) <= n.
Proof.
  revert s; induction n as [|n IH]; intros [|c s]; cbn [take String.length]; try lia.
  specialize (IH s). lia.
Qed.

Lemma take_all n s : String.length s <= n -> take n s = s.
Proof.
  revert s; induction n as [|n IH]; intros [|c s]; cbn [take String.length]; try lia; auto.
  intros H. now rewrite IH by lia.
Qed.

Lemma replace_unsafe_safe s : every safe_char (replace_unsafe s) = true.
Proof.
  induction s as [|c s IH]; cbn [replace_unsafe every]; [reflexivity|].
  rewrite IH, andb_true_r. destruct (safe_char c) eqn:Hc; [assumption | reflexivity].
Qed.

Lemma replace_unsafe_id s : every safe_char s = true -> replace_unsafe s = s.
Proof.
  induction s as [|c s IH]; cbn [replace_unsafe every]; [reflexivity|].
  intros H. apply andb_true_iff in H. destruct H as [Hc Hs]. now rewrite Hc, IH.
Qed.

Lemma length_replace_unsafe s : String.length (replace_unsafe s) = String.length s.
Proof. induction s as [|c s IH]; cbn [replace_unsafe String.length]; auto. Qed.

Lemma sanitize_not_empty s : sanitize s <> "".
Proof. unfold sanitize, or_file. destruct (take 80 (replace_unsafe _)); discriminate. Qed.

Lemma sanitize_length s : String.length (sanitize s) <= 80.
Proof.
  unfold sanitize. pose proof (length_take 80 (replace_unsafe (or_file s))) as H.
  unfold or_file at 1. destruct (take 80 (replace_unsafe (or_file s))); cbn in *; lia.
Qed.

Lemma sanitize_safe s : every safe_char (sanitize s) = true.
Proof.
  unfold sanitize.
  pose proof (every_take safe_char 80 _ (replace_unsafe_safe (or_file s))) as H.
  unfold or_file at 1. destruct (take 80 (replace_unsafe (or_file s))); [reflexivity | exact H].
Qed.

Lemma or_file_sanitize s : or_file (sanitize s) = sanitize s.
Proof.
  pose proof (sanitize_not_empty s) as H. unfold or_file.
  destruct (sanitize s); [contradiction | reflexivity].
Qed.

(** X1. Whatever the text, [sanitize] gives a name that is not empty, has
    at most 80 code units, all of them letters, digits, [.], [_] or [-];
    a name it has given it gives back unchanged. *)
Theorem sanitize_gives_a_safe_name (s : string) :
  sanitize s <> ""
  /\ String.length (sanitize s) <= 80
  /\ every safe_char (sanitize s) = true
  /\ sanitize (sanitize s) = sanitize s.
Proof.
  split; [apply sanitize_not_empty|]. split; [apply sanitize_length|].
  split; [apply sanitize_safe|].
  unfold sanitize at 1.
  rewrite or_file_sanitize, (replace_unsafe_id _ (sanitize_safe s)),
    (take_all _ _ (sanitize_length s)).
  apply or_file_sanitize.
Qed.

Lemma hex_digit_is_hex n : (n < 16)%N -> is_hex (Sha1.hex_digit n) = true.
Proof.
  intros H. unfold Sha1.hex_digit.
  assert (Hc : In n (map N.of_nat (seq 0 16))).
  { apply in_map_iff. exists (N.to_nat n). split; [apply N2Nat.id|].
    apply in_seq. lia. }
  cbn in Hc. repeat (destruct Hc as [<-|Hc]; [reflexivity|]). destruct Hc.
Qed.

Lemma land_15 x : (N.land x 15 < 16)%N.
Proof.
  change 15%N with (N.ones 4). rewrite N.land_ones. apply N.mod_lt. discriminate.
Qed.

Lemma hex_word_digits x :
  exists d1 d2 d3 d4 d5 d6 d7 d8,
    Sha1.hex_word x =
    String d1 (String d2 (String d3 (String d4 (String d5 (String d6 (String d7
      (String d8 EmptyString)))))))
    /\ every is_hex (Sha1.hex_word x) = true.
Proof.
  unfold Sha1.hex_word. cbn [seq rev app fold_right].
  do 8 eexists. split; [reflexivity|].
  cbn [every]. rewrite !hex_digit_is_hex by apply land_15. reflexivity.
Qed.

Lemma sha1Short_digits s :
  String.length (sha1Short s) = 8 /\ every is_hex (sha1Short s) = true.
Proof.
  unfold sha1Short, Sha1.hex.
  destruct (Sha1.blocks _ _ _) as [[[[h0 h1] h2] h3] h4].
  destruct (hex_word_digits h0) as (d1 & d2 & d3 & d4 & d5 & d6 & d7 & d8 & Hw & Hh).
  rewrite Hw in *. cbn [String.append take String.length].
  split; [reflexivity|]. cbn [every] in *.
  rewrite andb_true_r in Hh. cbn [every]. 
  repeat (apply andb_true_iff in Hh; destruct Hh as [?H Hh]).
  repeat (apply andb_true_iff; split); auto.
Qed.

Lemma ensureExt_not_empty E urlStr contentType ext :
  ensureExt E urlStr contentType = Ok ext -> ext <> "".
Proof.
  unfold ensureExt. destruct (parsed E urlStr) as [u|m]; cbn [bind]; [|discriminate].
  destruct (path_extname E (pathname u) =? "") eqn:He; cbn [negb].
  - intros [= <-].
    destruct (mime_extension E contentType) as [[|c m]|]; try discriminate;
      repeat match goal with |- context [if ?c then _ else _] => destruct c end;
      discriminate.
  - intros [= <-]. now apply String.eqb_neq in He.
Qed.

(** X2. A local path is [assets/<folder>/<base>-<tag><ext>]: the folder is
    one of four, the base is a name [sanitize] gives (not empty, at most 80
    code units, each a letter, a digit, [.], [_] or [-]), the tag is eight
    hexadecimal digits, and the extension, what [ensureExt] answers, is
    never empty. *)
Theorem local_path_is_a_safe_name (E : Env) (remoteUrl contentType p : string) :
  localPathForAsset E remoteUrl contentType = Ok p ->
  exists folder base ext,
    p = "assets/" ++ folder ++ "/" ++ base ++ "-" ++ sha1Short remoteUrl ++ ext
    /\ In folder ["js"; "fonts"; "img"; "other"]
    /\ base <> "" /\ String.length base <= 80 /\ every safe_char base = true
    /\ String.length (sha1Short remoteUrl) = 8
    /\ every is_hex (sha1Short remoteUrl) = true
    /\ ensureExt E remoteUrl contentType = Ok ext /\ ext <> "".
Proof.
  intros Hp.
  destruct (localPathForAsset_shape E _ _ _ Hp) as (folder & name & Hfolder & Hin & _).
  unfold localPathForAsset in Hp.
  destruct (parsed E remoteUrl) as [u|m] eqn:Hu; cbn [bind] in Hp; [|discriminate].
  rewrite Hfolder in Hp. cbn [bind] in Hp.
  destruct (ensureExt E remoteUrl contentType) as [ext|m] eqn:Hext; cbn [bind] in Hp;
    [|discriminate].
  injection Hp as <-. rewrite or_file_sanitize.
  destruct (sha1Short_digits remoteUrl) as [H8 Hhex].
  exists folder, (sanitize (strip_extension (path_basename E (pathname u)))), ext.
  split; [reflexivity|]. split; [assumption|].
  split; [apply sanitize_not_empty|]. split; [apply sanitize_length|].
  split; [apply sanitize_safe|]. split; [assumption|]. split; [assumption|].
  split; [reflexivity|]. exact (ensureExt_not_empty _ _ _ _ Hext).
Qed.

Lemma local_path_of_a_redirected_image :
  exists folder base ext,
    "assets/img/b-7e2fc483.png"
    = "assets/" ++ folder ++ "/" ++ base ++ "-" ++ sha1Short "https://cdn.test/b.png" ++ ext
    /\ In folder ["js"; "fonts"; "img"; "other"]
    /\ base <> "" /\ String.length base <= 80 /\ every safe_char base = true
    /\ String.length (sha1Short "https://cdn.test/b.png") = 8
    /\ every is_hex (sha1Short "https://cdn.test/b.png") = true
    /\ ensureExt (Sample.env [] []) "https://cdn.test/b.png" PNG = Ok ext /\ ext <> "".
Proof.
  apply (local_path_is_a_safe_name (Sample.env [] []) "https://cdn.test/b.png" PNG).
  vm_compute. reflexivity.
Defined.

Lemma first_label_no_dot s : every no_dot (hd EmptyString (split_on "." s)) = true.
Proof.
  induction s as [|c s IH]; cbn [split_on hd every]; [reflexivity|].
  destruct (Ascii.eqb c ".") eqn:Hc; [reflexivity|].
  destruct (split_on "." s) as [|h t]; cbn [hd every] in *.
  - unfold no_dot, is_dot. now rewrite Hc.
  - unfold no_dot at 1, is_dot. now rewrite Hc, IH.
Qed.

Lemma first_label_of label rest :
  every no_dot label = true ->
  hd EmptyString (split_on "." (label ++ String "." rest)) = label.
Proof.
  induction label as [|c label IH]; cbn [every String.append split_on].
  - intros _. reflexivity.
  - intros H. apply andb_true_iff in H. destruct H as [Hc Hl].
    unfold no_dot, is_dot in Hc. apply negb_true_iff in Hc. rewrite Hc.
    specialize (IH Hl).
    destruct (split_on "." (label ++ String "." rest)) as [|h t]; cbn [hd] in *.
    + now subst.
    + now subst.
Qed.

(** X3. The folder named after a URL is never empty and holds no dot; for
    a host [www.<label>.<rest>] it is the label, and for a host that is
    empty, or is [www.] alone, it is [site]. *)
Theorem folder_name_is_one_label (E : Env) (urlStr : string) (u : URL) :
  parsed E urlStr = Ok u ->
  exists f,
    folderNameFromUrl E urlStr = Ok f
    /\ f <> "" /\ every no_dot f = true
    /\ (forall label rest,
          label <> "" -> every no_dot label = true ->
          hostname u = "www." ++ label ++ String "." rest -> f = label)
    /\ (hostname u = "" \/ hostname u = "www." -> f = "site").
Proof.
  intros Hu. unfold folderNameFromUrl. rewrite Hu. cbn [bind].
  eexists. split; [reflexivity|].
  set (host := to_string (or_else (Some (hostname u)) (Some "site"))).
  set (root := match strip_prefix true "www." host with Some rest => rest | None => host end).
  pose proof (first_label_no_dot root) as Hlabel.
  split; [|split; [|split]].
  - unfold or_else. destruct (hd EmptyString (split_on "." root)); cbn; discriminate.
  - unfold or_else. destruct (hd EmptyString (split_on "." root)); cbn [truthy to_string];
      [reflexivity | exact Hlabel].
  - intros label rest Hne Hnd Hhost.
    assert (Hr : root = label ++ String "." rest).
    { unfold root, host. rewrite Hhost. reflexivity. }
    rewrite Hr, (first_label_of label rest Hnd).
    destruct label; [contradiction | reflexivity].
  - intros [Hhost|Hhost]; unfold root, host; rewrite Hhost; reflexivity.
Qed.

Lemma folder_name_of_a_www_host :
  exists f,
    folderNameFromUrl (Sample.env [] []) "https://www.example.com/a/b" = Ok f
    /\ f <> "" /\ every no_dot f = true
    /\ (forall label rest,
          label <> "" -> every no_dot label = true ->
          "www.example.com" = "www." ++ label ++ String "." rest -> f = label)
    /\ ("www.example.com" = "" \/ "www.example.com" = "www." -> f = "site").
Proof.
  apply (folder_name_is_one_label (Sample.env [] []) "https://www.example.com/a/b"
           (mkURL "https://www.example.com/a/b" "www.example.com" "/a/b")).
  vm_compute. reflexivity.
Defined.

Example folder_of_example_com :
  folderNameFromUrl (Sample.env [] []) "https://www.example.com/a/b" = Ok "example".
Proof. vm_compute. reflexivity. Qed.

Lemma to_int_not_nil z :
  Z.to_int z <> Decimal.Pos Decimal.Nil /\ Z.to_int z <> Decimal.Neg Decimal.Nil.
Proof.
  split; intros H; pose proof (f_equal Z.of_int H) as H0;
    rewrite DecimalZ.of_to in H0; cbn in H0; subst z; discriminate H.
Qed.

Lemma string_of_Z_inj z z' : string_of_Z z = string_of_Z z' -> z = z'.
Proof.
  unfold string_of_Z. intros H.
  apply (f_equal NilZero.int_of_string) in H.
  destruct (to_int_not_nil z) as [H1 H2], (to_int_not_nil z') as [H1' H2'].
  rewrite !NilZero.isi in H by assumption.
  injection H as H. now apply DecimalZ.to_int_inj.
Qed.

Lemma append_inj_l a b c : a ++ b = a ++ c -> b = c.
Proof. induction a as [|x a IH]; cbn [String.append]; [auto|]. intros [= H]. auto. Qed.

Lemma length_append a b : String.length (a ++ b) = String.length a + String.length b.
Proof. induction a as [|x a IH]; cbn [String.append String.length Nat.add]; auto. Qed.

Lemma candidate_inj base j j' : candidate base j = candidate base j' -> j = j'.
Proof.
  destruct j as [|j], j' as [|j']; cbn [candidate]; intros H.
  - reflexivity.
  - apply (f_equal String.length) in H. rewrite !length_append in H. cbn in H. lia.
  - apply (f_equal String.length) in H. rewrite !length_append in H. cbn in H. lia.
  - apply append_inj_l in H. injection H as H. apply string_of_Z_inj in H. lia.
Qed.

Lemma candidates_fit base fs k :
  (forall j, j < k -> set_has (candidate base j) fs = true) -> k <= length fs.
Proof.
  intros H.
  assert (Hnd : NoDup (map (candidate base) (seq 0 k))).
  { apply Finite.Injective_map_NoDup; [|apply seq_NoDup].
    intros j j'. apply candidate_inj. }
  assert (Hincl : incl (map (candidate base) (seq 0 k)) fs).
  { intros x Hx. apply in_map_iff in Hx. destruct Hx as (j & <- & Hj).
    apply in_seq in Hj. apply set_has_In, H. lia. }
  pose proof (NoDup_incl_length Hnd Hincl) as Hlen.
  now rewrite length_map, length_seq in Hlen.
Qed.

Lemma probe_finds fs base fuel :
  forall k,
    (forall j, j < k -> set_has (candidate base j) fs = true) ->
    length fs < k + fuel ->
    exists k',
      probe fuel fs base (candidate base k) (S k) = Some (candidate base k')
      /\ set_has (candidate base k') fs = false
      /\ (forall j, j < k' -> set_has (candidate base j) fs = true).
Proof.
  induction fuel as [|fuel IH]; intros k Hbelow Hfuel.
  - pose proof (candidates_fit base fs k Hbelow). lia.
  - cbn [probe]. destruct (set_has (candidate base k) fs) eqn:Hk.
    + apply (IH (S k)); [|lia].
      intros j Hj. destruct (Nat.eq_dec j k) as [->|Hne]; [assumption|].
      apply Hbelow. lia.
    + exists k. auto.
Qed.

(** X4. On a file system with finitely many names, [uniqueFolderName]
    returns within one turn more than there are names: the name it returns
    does not exist, it is the base or the base with a suffix [-k], and
    every name tried before it (the base, the suffixes below [k]) exists. *)
Theorem uniqueFolderName_returns_the_first_free_name
    (fs : list string) (base : string) (fuel : nat) :
  length fs < fuel ->
  exists k,
    uniqueFolderName fuel fs base = Some (candidate base k)
    /\ set_has (candidate base k) fs = false
    /\ (forall j, j < k -> set_has (candidate base j) fs = true)
    /\ k <= length fs.
Proof.
  intros Hfuel. unfold uniqueFolderName.
  destruct (probe_finds fs base fuel 0) as (k & Hk & Hfree & Hbelow);
    [intros j Hj; lia | lia |].
  exists k. repeat split; try assumption. now apply (candidates_fit base fs k).
Qed.

Lemma uniqueFolderName_after_two_runs :
  exists k,
    uniqueFolderName 3 ["example"; "example-1"] "example" = Some (candidate "example" k)
    /\ set_has (candidate "example" k) ["example"; "example-1"] = false
    /\ (forall j, j < k -> set_has (candidate "example" j) ["example"; "example-1"] = true)
    /\ k <= 2.
Proof.
  apply (uniqueFolderName_returns_the_first_free_name ["example"; "example-1"] "example" 3).
  simpl. lia.
Defined.

Example third_run_gets_suffix_two :
  uniqueFolderName 3 ["example"; "example-1"] "example" = Some "example-2".
Proof. vm_compute. reflexivity. Qed.

(* ================================================================== *)
(** * The command line and the workers it starts *)
(* ================================================================== *)

Section CommandLineFacts.
Variable to_number : string -> Num.number.

Lemma max_one x : Num.truthy x = true -> at_least_one (Num.max (Num.of_Z 1) x).
Proof.
  unfold at_least_one, Num.max, Num.of_Z. intros Hx.
  destruct x as [|neg|q]; [discriminate| |];
    match goal with
    | |- Num.leb _ (if ?c then _ else _) = true => destruct c eqn:H; [exact H | reflexivity]
    end.
Qed.

Lemma or_else_truthy x : Num.truthy (Num.or_else x (Num.of_Z 8)) = true.
Proof. unfold Num.or_else. destruct (Num.truthy x) eqn:H; [exact H | reflexivity]. Qed.

(** The loop keeps a URL once it has one, and a number of workers that is
    at least 1. *)
Lemma parse_from_keeps n :
  forall args flags flags',
    length args <= n ->
    at_least_one (flag_concurrency flags) ->
    parse_from to_number args flags = Returned flags' ->
    at_least_one (flag_concurrency flags')
    /\ (truthy (flag_url flags) = true -> flag_url flags' = flag_url flags).
Proof.
  induction n as [|n IH]; intros args flags flags' Hlen Hc.
  - destruct args; [|cbn in Hlen; lia]. cbn [parse_from]. intros [= <-]. auto.
  - destruct args as [|a rest]; cbn [parse_from]; [intros [= <-]; auto|].
    cbn [length] in Hlen.
    assert (Hvalue : forall flags1,
              at_least_one (flag_concurrency flags1) ->
              flag_url flags1 = flag_url flags ->
              match rest with
              | _ :: rest' => parse_from to_number rest' flags1
              | [] => Returned flags1
              end = Returned flags' ->
              at_least_one (flag_concurrency flags')
              /\ (truthy (flag_url flags) = true -> flag_url flags' = flag_url flags)).
    { intros flags1 Hc1 Hu1. destruct rest as [|v rest'].
      - intros [= <-]. auto.
      - intros H. cbn [length] in Hlen.
        destruct (IH rest' flags1 flags' ltac:(lia) Hc1 H) as [Hc' Hu'].
        split; [assumption|]. intros Ht. rewrite <- Hu1. apply Hu'. now rewrite Hu1. }
    destruct (negb (starts_with false "--" a) && negb (truthy (flag_url flags))) eqn:Hpos.
    + intros H. apply (IH rest) in H; [|lia | exact Hc]. destruct H as [Hc' _].
      split; [assumption|]. intros Ht. rewrite Ht in Hpos.
      now rewrite andb_false_r in Hpos.
    + destruct (a =? "--outdir"); [apply Hvalue; auto|].
      destruct (a =? "--ua"); [apply Hvalue; auto|].
      destruct (a =? "--timeout"); [apply Hvalue; auto|].
      destruct (a =? "--concurrency").
      { apply Hvalue; cbn [flag_concurrency flag_url]; [|reflexivity].
        apply max_one, or_else_truthy. }
      destruct ((a =? "--verbose") || (a =? "-v")).
      { intros H. apply (IH rest) in H; [exact H | lia | exact Hc]. }
      destruct ((a =? "--help") || (a =? "-h")); [discriminate|].
      intros H. apply (IH rest) in H; [exact H | lia | exact Hc].
Qed.

(** X5. When [parseArgs] returns, the flags hold a URL that is not empty
    and a number of workers that is at least 1, whatever was written
    after [--concurrency] (nothing, a text that is no number, zero, a
    negative number). *)
Theorem parseArgs_gives_a_url_and_a_worker (argv : list string) (flags : Flags) :
  parseArgs to_number argv = Returned flags ->
  truthy (flag_url flags) = true
  /\ Num.leb (Num.of_Z 1) (flag_concurrency flags) = true.
Proof.
  unfold parseArgs.
  destruct (parse_from to_number (skipn 2 argv) DEFAULT_FLAGS) as [flags0|code error] eqn:Hloop;
    [|discriminate].
  destruct (truthy (flag_url flags0)) eqn:Hurl; [|discriminate].
  intros [= <-]. split; [assumption|].
  apply (parse_from_keeps (length (skipn 2 argv)) _ DEFAULT_FLAGS flags0 (le_n _));
    [reflexivity | assumption].
Qed.

(** X6. The first argument that does not start with [--] is the URL,
    whatever follows it; a [-h] or a [-v] in that place is taken for the
    URL, not for the option. *)
Theorem first_plain_argument_is_the_url (node script a : string) (rest : list string)
    (flags : Flags) :
  starts_with false "--" a = false ->
  a <> "" ->
  parseArgs to_number (node :: script :: a :: rest) = Returned flags ->
  flag_url flags = Some a.
Proof.
  intros Hplain Hne. unfold parseArgs. cbn [skipn parse_from].
  rewrite Hplain. cbn [DEFAULT_FLAGS flag_url truthy negb andb].
  destruct (parse_from to_number rest _) as [flags0|code error] eqn:Hloop; [|discriminate].
  destruct (truthy (flag_url flags0)); [|discriminate].
  intros [= <-].
  apply (parse_from_keeps (length rest) _ _ flags0 (le_n _)) in Hloop; [|reflexivity].
  destruct Hloop as [_ Hu]. apply Hu. cbn [flag_url truthy].
  destruct a; [contradiction | reflexivity].
Qed.


(** The array of workers for a limit that is at least 1: [Math.min] and
    the rounding of the length come to a whole limit that is at least 1. *)
Lemma pool_size_whole limit len :
  at_least_one limit ->
  exists z, (1 <= z)%Z /\ pool_size limit len = worker_count z len.
Proof.
  unfold at_least_one, pool_size, worker_count.
  set (n := Z.of_nat (match len with O => 1 | _ => len end)).
  assert (Hn : (1 <= n)%Z) by (unfold n; destruct len; lia).
  destruct limit as [|[|]|q]; cbn [Num.leb Num.of_Z]; try discriminate.
  - intros _. exists (Z.min n 9007199254740991). split; [lia|].
    cbn [Num.min Num.leb Num.of_Z Num.to_length]. rewrite Qround.Qfloor_Z. f_equal. lia.
  - intros H1. apply QArith_base.Qle_bool_iff in H1.
    apply Qround.Qfloor_resp_le in H1. rewrite Qround.Qfloor_Z in H1.
    cbn [Num.min Num.leb Num.of_Z].
    destruct (QArith_base.Qle_bool q (QArith_base.inject_Z n)) eqn:Hq; cbn [Num.to_length].
    + apply QArith_base.Qle_bool_iff in Hq.
      apply Qround.Qfloor_resp_le in Hq. rewrite Qround.Qfloor_Z in Hq.
      exists (Z.min (Qround.Qfloor q) 9007199254740991). split; [lia|]. f_equal. lia.
    + exists (Z.min n 9007199254740991). split; [lia|].
      cbn [Num.of_Z Num.to_length]. rewrite Qround.Qfloor_Z. f_equal. lia.
Qed.

(** X7. Whatever the command line, when [parseArgs] returns, the limit it
    gives starts at least one worker, so that however the downloads settle
    the pool stops after as many steps as there are URLs, and the array
    then holds, at the index of each URL, the outcome of that URL. *)
Theorem command_line_starts_a_worker (E : Env) (argv : list string) (flags : Flags)
    (urls : list string) :
  parseArgs to_number argv = Returned flags ->
  1 <= pool_size (flag_concurrency flags) (length urls)
  /\ (forall n p,
        steps E urls n (start_pool urls (flag_concurrency flags)) p ->
        n <= length urls
        /\ (settled p \/ exists q, step E urls p q)
        /\ (settled p -> n = length urls /\ out p = download_all E urls)).
Proof.
  intros Hargs.
  assert (Hc : at_least_one (flag_concurrency flags)).
  { unfold parseArgs in Hargs.
    destruct (parse_from to_number (skipn 2 argv) DEFAULT_FLAGS) as [flags0|code error]
      eqn:Hloop; [|discriminate].
    destruct (truthy (flag_url flags0)); [|discriminate].
    injection Hargs as <-.
    apply (parse_from_keeps (length (skipn 2 argv)) _ DEFAULT_FLAGS flags0 (le_n _));
      [reflexivity | assumption]. }
  destruct (pool_size_whole (flag_concurrency flags) (length urls) Hc) as (z & Hz & Hsize).
  split.
  - rewrite Hsize. unfold worker_count. destruct (length urls); lia.
  - unfold start_pool. rewrite Hsize. fold (start urls z).
    destruct (start_ok E urls z Hz) as [Hstart Hmeasure].
    intros n p Hsteps.
    destruct (steps_ok E urls n _ p Hstart Hsteps) as [Hp Hm].
    split; [lia|]. split; [apply pool_progress|].
    intros Hs. split; [|now apply settled_out].
    pose proof Hs as Hs0. apply waiting_zero in Hs0. destruct Hp as [Hinv Hsome].
    unfold measure in Hm, Hmeasure.
    destruct (Nat.eq_dec (next p) (length urls)) as [|Hne]; [lia|].
    destruct Hsome as (w & idx & Hw); [pose proof (inv_next _ _ _ _ Hinv); lia|].
    unfold settled in Hs. rewrite Forall_forall in Hs.
    apply nth_error_In in Hw. specialize (Hs _ Hw). discriminate.
Qed.

End CommandLineFacts.

Lemma command_line_with_a_zero_limit :
  truthy (flag_url (mkFlags (Some "x.test") None None None (Num.of_Z 8) false)) = true
  /\ Num.leb (Num.of_Z 1)
       (flag_concurrency (mkFlags (Some "x.test") None None None (Num.of_Z 8) false))
     = true.
Proof.
  apply (parseArgs_gives_a_url_and_a_worker Sample.to_number
           ["node"; "clone-site.mjs"; "x.test"; "--concurrency"; "0"]
           (mkFlags (Some "x.test") None None None (Num.of_Z 8) false)).
  reflexivity.
Defined.

Lemma help_flag_before_the_url_is_the_url :
  parseArgs Sample.to_number ["node"; "clone-site.mjs"; "-h"; "example.com"]
  = Returned (mkFlags (Some "-h") None None None (Num.of_Z 8) false)
  /\ flag_url (mkFlags (Some "-h") None None None (Num.of_Z 8) false) = Some "-h".
Proof.
  split; [reflexivity|].
  apply (first_plain_argument_is_the_url Sample.to_number "node" "clone-site.mjs" "-h"
           ["example.com"] (mkFlags (Some "-h") None None None (Num.of_Z 8) false)).
  - reflexivity.
  - discriminate.
  - reflexivity.
Defined.

Example help_flag_after_the_url_exits :
  parseArgs Sample.to_number ["node"; "clone-site.mjs"; "example.com"; "-h"]
  = Exited 0 None.
Proof. reflexivity. Qed.

Lemma command_line_without_a_limit :
  1 <= pool_size (Num.of_Z 8) 2
  /\ (forall n p,
        steps (Sample.env NET_ASSETS []) TWO_URLS n (start_pool TWO_URLS (Num.of_Z 8)) p ->
        n <= 2
        /\ (settled p \/ exists q, step (Sample.env NET_ASSETS []) TWO_URLS p q)
        /\ (settled p ->
            n = 2 /\ out p = download_all (Sample.env NET_ASSETS []) TWO_URLS)).
Proof.
  apply (command_line_starts_a_worker Sample.to_number (Sample.env NET_ASSETS [])
           ["node"; "clone-site.mjs"; "x.test"]
           (mkFlags (Some "x.test") None None None (Num.of_Z 8) false) TWO_URLS).
  reflexivity.
Defined.

Lemma waiting_awaited ws : waiting ws = length (awaited ws).
Proof.
  unfold waiting, awaited. induction ws as [|[i|] ws IH]; cbn; auto.
Qed.

Lemma waiting_le ws : waiting ws <= length ws.
Proof. unfold waiting. apply filter_length_le. Qed.

Lemma In_awaited_write_at i w x ws :
  In i (awaited (write_at w x ws)) -> x = Some i \/ In i (awaited ws).
Proof.
  revert w; induction ws as [|y ws IH]; intros [|w]; cbn [write_at awaited flat_map];
    try tauto.
  - rewrite in_app_iff. intros [H|H].
    + destruct x as [k|]; [destruct H as [<-|[]]; auto | destruct H].
    + right. apply in_app_iff. auto.
  - rewrite !in_app_iff. intros [H|H]; [auto|].
    destruct (IH w H) as [Hx|Hin]; auto.
Qed.

Lemma NoDup_awaited_write_at w x ws :
  NoDup (awaited ws) ->
  (forall k, x = Some k -> ~ In k (awaited ws)) ->
  NoDup (awaited (write_at w x ws)).
Proof.
  revert w; induction ws as [|y ws IH]; intros [|w] Hnd Hx;
    cbn [write_at awaited flat_map] in *; try assumption.
  - apply NoDup_app_remove_l in Hnd as Hws.
    destruct x as [k|]; cbn [app]; [|assumption].
    constructor; [|assumption]. intros Hin. apply (Hx k eq_refl).
    apply in_app_iff. auto.
  - pose proof (NoDup_app_remove_l _ _ Hnd) as Hws.
    assert (Hrec : NoDup (awaited (write_at w x ws))).
    { apply IH; [assumption|]. intros k Hk Hin. apply (Hx k Hk), in_app_iff. auto. }
    destruct y as [j|]; cbn [app] in *; [|assumption].
    constructor; [|assumption]. intros Hin.
    apply In_awaited_write_at in Hin. destruct Hin as [->|Hin].
    + apply (Hx j eq_refl). simpl. auto.
    + inversion Hnd. contradiction.
Qed.

Section InFlight.
Variable E : Env.
Variable urls : list string.

Lemma enter_in_flight k w p :
  in_flight_ok urls k p -> in_flight_ok urls k (enter (length urls) w p).
Proof.
  unfold in_flight_ok. intros (Hlen & Hnd & Hlt & Hnext). unfold enter.
  destruct (next p <? length urls)%nat eqn:Hn; cbn [next workers out].
  - apply Nat.ltb_lt in Hn. split; [now rewrite length_write_at|].
    split; [|split; [|lia]].
    + apply NoDup_awaited_write_at; [assumption|].
      intros i [= <-] Hin. specialize (Hlt _ Hin). lia.
    + intros i Hi. apply In_awaited_write_at in Hi.
      destruct Hi as [[= <-]|Hi]; [lia|]. specialize (Hlt _ Hi). lia.
  - split; [now rewrite length_write_at|]. split; [|split; [|assumption]].
    + apply NoDup_awaited_write_at; [assumption | discriminate].
    + intros i Hi. apply In_awaited_write_at in Hi.
      destruct Hi as [[=]|Hi]. auto.
Qed.

Lemma start_workers_in_flight k :
  in_flight_ok urls k (start_workers (length urls) k).
Proof.
  unfold start_workers.
  assert (H0 : in_flight_ok urls k (mkPool 0 (repeat None (length urls)) (repeat None k))).
  { split; [apply repeat_length|]. cbn [workers next].
    assert (Hnone : awaited (repeat None k) = []).
    { unfold awaited. induction k; cbn; auto. }
    rewrite Hnone. split; [constructor|]. split; [intros i []|lia]. }
  revert H0. generalize (mkPool 0 (repeat None (length urls)) (repeat None k)).
  generalize (seq 0 k). intros ws. induction ws as [|w ws IH]; intros p Hp; cbn [fold_left].
  - assumption.
  - apply IH. now apply enter_in_flight.
Qed.

Lemma steps_in_flight k n p q :
  in_flight_ok urls k p -> steps E urls n p q -> in_flight_ok urls k q.
Proof.
  intros Hp Hsteps. induction Hsteps as [p|n p q r Hstep _ IH]; [assumption|].
  apply IH. destruct Hstep as [p w idx Hw].
  apply enter_in_flight. exact Hp.
Qed.

End InFlight.

(** X8. At every moment of every run of the pool, the downloads in flight
    are at most [limit] and at most the number of URLs (one, for an empty
    list), no two workers await the same index, and every index awaited is
    one of the list. *)
Theorem at_most_limit_downloads_in_flight (E : Env) (urls : list string) (limit : Z)
    (n : nat) (p : Pool) :
  steps E urls n (start urls limit) p ->
  waiting (workers p) <= Z.to_nat limit
  /\ waiting (workers p) <= Nat.max 1 (length urls)
  /\ NoDup (awaited (workers p))
  /\ (forall i, In i (awaited (workers p)) -> i < length urls).
Proof.
  intros Hsteps.
  pose proof (steps_in_flight E urls _ n _ p
                (start_workers_in_flight urls (worker_count limit (length urls))) Hsteps)
    as (Hlen & Hnd & Hlt & Hnext).
  pose proof (waiting_le (workers p)) as Hw. rewrite Hlen in Hw.
  assert (Hcount : worker_count limit (length urls) <= Z.to_nat limit
                   /\ worker_count limit (length urls) <= Nat.max 1 (length urls)).
  { unfold worker_count. destruct (length urls); lia. }
  split; [lia|]. split; [lia|]. split; [assumption|].
  intros i Hi. specialize (Hlt _ Hi). lia.
Qed.

Lemma two_workers_for_three_urls :
  waiting (workers (start (TWO_URLS ++ ["https://x.test/a.png"]) 2)) <= Z.to_nat 2
  /\ waiting (workers (start (TWO_URLS ++ ["https://x.test/a.png"]) 2)) <= Nat.max 1 3
  /\ NoDup (awaited (workers (start (TWO_URLS ++ ["https://x.test/a.png"]) 2)))
  /\ (forall i,
        In i (awaited (workers (start (TWO_URLS ++ ["https://x.test/a.png"]) 2))) ->
        i < 3).
Proof.
  apply (at_most_limit_downloads_in_flight (Sample.env NET_ASSETS [])
           (TWO_URLS ++ ["https://x.test/a.png"]) 2 0).
  apply steps_refl.
Defined.

(* ================================================================== *)
(** * The first steps of the main function *)
(* ================================================================== *)

Section SetupFacts.
Variable E : Env.
Variable to_number : string -> Num.number.
Variable url_origin : string -> option string.

(** The loop of [parseArgs] ends the process for [--help] and [-h] only. *)
Lemma parse_from_exits n :
  forall args flags code error,
    length args <= n ->
    parse_from to_number args flags = Exited code error ->
    code = 0%Z /\ error = None.
Proof.
  induction n as [|n IH]; intros args flags code error Hlen.
  - destruct args; [discriminate | cbn in Hlen; lia].
  - destruct args as [|a rest]; cbn [parse_from]; [discriminate|].
    cbn [length] in Hlen.
    assert (Hvalue : forall flags1,
              match rest with
              | _ :: rest' => parse_from to_number rest' flags1
              | [] => Returned flags1
              end = Exited code error -> code = 0%Z /\ error = None).
    { intros flags1. destruct rest as [|v rest']; [discriminate|].
      cbn [length] in Hlen. apply IH. lia. }
    destruct (negb (starts_with false "--" a) && negb (truthy (flag_url flags))).
    { apply IH. lia. }
    destruct (a =? "--outdir"); [apply Hvalue|].
    destruct (a =? "--ua"); [apply Hvalue|].
    destruct (a =? "--timeout"); [apply Hvalue|].
    destruct (a =? "--concurrency"); [apply Hvalue|].
    destruct ((a =? "--verbose") || (a =? "-v")); [apply IH; lia|].
    destruct ((a =? "--help") || (a =? "-h")); [|apply IH; lia].
    unfold printHelpAndExit. cbn [truthy]. intros [= <- <-]. auto.
Qed.

Lemma probe_free fuel fs base :
  forall name i found,
    probe fuel fs base name i = Some found -> set_has found fs = false.
Proof.
  induction fuel as [|fuel IH]; intros name i found; cbn [probe]; [discriminate|].
  destruct (set_has name fs) eqn:Hname; [apply IH|]. now intros [= <-].
Qed.

Lemma axiosClient_timeout ua timeoutMs referer client :
  axiosClient url_origin ua timeoutMs referer = Ok client ->
  Num.truthy (timeout client) = true
  /\ (forall t, timeoutMs = Some t -> Num.truthy t = true -> timeout client = t)
  /\ (match timeoutMs with Some t => Num.truthy t = false | None => True end ->
      timeout client = Num.of_Z 20000)
  /\ (forall r, referer = Some r -> r <> "" -> In ("Referer", r) (headers client)).
Proof.
  unfold axiosClient.
  destruct (match referer with
            | Some (String _ _ as r) =>
                match url_origin r with
                | Some o => Ok [("Referer", r); ("Origin", o)]
                | None => Throw "Invalid URL"
                end
            | _ => Ok []
            end) as [from_referer|m] eqn:Href; cbn [bind]; [|discriminate].
  intros [= <-]. cbn [timeout headers]. split; [|split; [|split]].
  - unfold Num.or_else.
    destruct (Num.truthy (match timeoutMs with Some t => t | None => Num.NaN end)) eqn:Ht;
      [exact Ht | reflexivity].
  - intros t -> Ht. unfold Num.or_else. now rewrite Ht.
  - unfold Num.or_else. destruct timeoutMs as [t|]; [intros Ht; now rewrite Ht | reflexivity].
  - intros r -> Hr. destruct r as [|c r]; [contradiction|].
    destruct (url_origin (String c r)); [|discriminate].
    injection Href as <-. simpl. auto.
Qed.

(** X9. [main] ends the process before it fetches anything in three
    cases only: with code 0 and no message when help is asked for, with
    code 1 and [Missing URL] when no URL is given, and with code 1 when
    the URL given does not parse; the message then names the text twice
    over as an invalid URL. *)
Theorem setup_exits_for_help_or_a_bad_url (fuel : nat) (fs argv : list string)
    (code : Z) (error : option string) :
  setup E to_number url_origin fuel fs argv = Exited code error ->
  (code = 0%Z /\ error = None)
  \/ (code = 1%Z /\ error = Some "Missing URL")
  \/ (code = 1%Z
      /\ exists flags,
           parseArgs to_number argv = Returned flags
           /\ is_ok (normalizeUrl E (to_string (flag_url flags))) = false
           /\ error = Some ("Invalid URL: Invalid URL: " ++ to_string (flag_url flags))).
Proof.
  unfold setup. destruct (parseArgs to_number argv) as [flags|c e] eqn:Hargs.
  - destruct (normalizeUrl E (to_string (flag_url flags))) as [url|message] eqn:Hurl;
      [discriminate|].
    intros [= <- <-]. right. right. split; [reflexivity|]. exists flags.
    split; [reflexivity|]. split; [now rewrite Hurl|].
    unfold normalizeUrl in Hurl.
    destruct (newURL E _ None); [discriminate|]. now injection Hurl as <-.
  - intros [= <- <-]. unfold parseArgs in Hargs.
    destruct (parse_from to_number (skipn 2 argv) DEFAULT_FLAGS) as [flags0|c0 e0] eqn:Hloop.
    + destruct (truthy (flag_url flags0)); [discriminate|].
      unfold printHelpAndExit in Hargs. cbn [truthy] in Hargs.
      injection Hargs as <- <-. auto.
    + injection Hargs as <- <-. left.
      exact (parse_from_exits _ _ _ _ _ (le_n _) Hloop).
Qed.

(** X10. When the first steps of [main] return, the URL is the normalised
    form of the one on the command line, at least one worker will be
    started, the client has a timeout that is neither zero nor [NaN] (the
    one given when that is such a number, 20000 otherwise) and sends the
    URL as referer, and the output folder, once found, is a name that does
    not exist yet; it is found within one probe more than there are
    names. *)
Theorem setup_gives_a_usable_configuration (fuel : nat) (fs argv : list string)
    (s : Setup) :
  setup E to_number url_origin fuel fs argv = Returned (Ok s) ->
  exists flags,
    parseArgs to_number argv = Returned flags
    /\ normalizeUrl E (to_string (flag_url flags)) = Ok (setup_url s)
    /\ at_least_one (setup_concurrency s)
    /\ Num.truthy (timeout (setup_client s)) = true
    /\ (forall t, flag_timeout flags = Some t -> Num.truthy t = true ->
                  timeout (setup_client s) = t)
    /\ (match flag_timeout flags with
        | Some t => Num.truthy t = false
        | None => True
        end -> timeout (setup_client s) = Num.of_Z 20000)
    /\ (setup_url s <> "" -> In ("Referer", setup_url s) (headers (setup_client s)))
    /\ (forall name, setup_folder s = Some name -> set_has name fs = false)
    /\ (length fs < fuel -> exists name, setup_folder s = Some name).
Proof.
  unfold setup. destruct (parseArgs to_number argv) as [flags|c e] eqn:Hargs; [|discriminate].
  destruct (normalizeUrl E (to_string (flag_url flags))) as [url|message] eqn:Hurl;
    [|discriminate].
  intros [= Hs]. exists flags. split; [reflexivity|].
  destruct (match flag_outdir flags with
            | Some (String _ _ as o) => Ok o
            | _ => folderNameFromUrl E url
            end) as [base|m]; cbn [bind] in Hs; [|discriminate].
  destruct (axiosClient url_origin (flag_ua flags) (flag_timeout flags) (Some url))
    as [client|m] eqn:Hclient; cbn [bind] in Hs; [|discriminate].
  injection Hs as <-. cbn [setup_url setup_concurrency setup_client setup_folder].
  destruct (axiosClient_timeout _ _ _ _ Hclient) as (Ht & Hgiven & Hdefault & Href).
  split; [exact Hurl|]. split.
  { unfold parseArgs in Hargs.
    destruct (parse_from to_number (skipn 2 argv) DEFAULT_FLAGS) as [flags0|c0 e0] eqn:Hloop;
      [|discriminate].
    destruct (truthy (flag_url flags0)); [|discriminate]. injection Hargs as <-.
    apply (parse_from_keeps to_number (length (skipn 2 argv)) _ DEFAULT_FLAGS flags0
             (le_n _)); [reflexivity | assumption]. }
  split; [assumption|]. split; [assumption|]. split; [assumption|].
  split; [intros Hne; now apply Href|]. split.
  - intros name Hname. unfold uniqueFolderName in Hname. eapply probe_free. exact Hname.
  - intros Hfuel. unfold uniqueFolderName.
    destruct (probe_finds fs base fuel 0) as (k & Hk & _); [intros j Hj; lia | lia |].
    eauto.
Qed.

End SetupFacts.

Lemma setup_of_a_bad_url :
  (1%Z = 0%Z /\ Some "Invalid URL: Invalid URL: http://" = None)
  \/ (1%Z = 1%Z /\ Some "Invalid URL: Invalid URL: http://" = Some "Missing URL")
  \/ (1%Z = 1%Z
      /\ exists flags,
           parseArgs Sample.to_number ["node"; "clone-site.mjs"; "http://"] = Returned flags
           /\ is_ok (normalizeUrl (Sample.env [] []) (to_string (flag_url flags))) = false
           /\ Some "Invalid URL: Invalid URL: http://"
              = Some ("Invalid URL: Invalid URL: " ++ to_string (flag_url flags))).
Proof.
  apply (setup_exits_for_help_or_a_bad_url (Sample.env [] []) Sample.to_number
           Sample.url_origin 1 [] ["node"; "clone-site.mjs"; "http://"]).
  vm_compute. reflexivity.
Defined.

Lemma setup_of_an_example :
  exists flags,
    parseArgs Sample.to_number EXAMPLE_ARGV = Returned flags
    /\ normalizeUrl (Sample.env [] []) (to_string (flag_url flags))
       = Ok (setup_url EXAMPLE_SETUP)
    /\ at_least_one (setup_concurrency EXAMPLE_SETUP)
    /\ Num.truthy (timeout (setup_client EXAMPLE_SETUP)) = true
    /\ (forall t, flag_timeout flags = Some t -> Num.truthy t = true ->
                  timeout (setup_client EXAMPLE_SETUP) = t)
    /\ (match flag_timeout flags with
        | Some t => Num.truthy t = false
        | None => True
        end -> timeout (setup_client EXAMPLE_SETUP) = Num.of_Z 20000)
    /\ (setup_url EXAMPLE_SETUP <> "" ->
        In ("Referer", setup_url EXAMPLE_SETUP) (headers (setup_client EXAMPLE_SETUP)))
    /\ (forall name, setup_folder EXAMPLE_SETUP = Some name ->
                     set_has name ["example"] = false)
    /\ (1 < 2 -> exists name, setup_folder EXAMPLE_SETUP = Some name).
Proof.
  apply (setup_gives_a_usable_configuration (Sample.env [] []) Sample.to_number
           Sample.url_origin 2 ["example"] EXAMPLE_ARGV EXAMPLE_SETUP).
  vm_compute. reflexivity.
Defined.

(* ================================================================== *)
(** * The assets found, downloaded and saved *)
(* ================================================================== *)

Section Growth.
Variable E : Env.
Variable baseUrl : string.

Lemma grows_refl a : grows E baseUrl a a.
Proof. split; [apply incl_refl | split; auto]. Qed.

Lemma grows_trans a b c :
  grows E baseUrl a b -> grows E baseUrl b c -> grows E baseUrl a c.
Proof.
  intros (H1 & H2 & H3) (H4 & H5 & H6). split; [|split].
  - eapply incl_tran; eassumption.
  - auto.
  - intros u Hu. destruct (H6 u Hu) as [Hb|Hr]; [apply H3, Hb | auto].
Qed.

Lemma addAbs_grows u a : grows E baseUrl a (addAbs E baseUrl u a).
Proof.
  unfold addAbs. destruct (absolute E (to_string u) baseUrl) as [abs|] eqn:Habs;
    [|apply grows_refl].
  split; [|split].
  - intros x Hx. apply In_set_add. now right.
  - apply NoDup_set_add.
  - intros x Hx. apply In_set_add in Hx. destruct Hx as [->|Hx]; [right; eauto | now left].
Qed.

Lemma addAbs_adds u a abs :
  absolute E (to_string u) baseUrl = Some abs -> In abs (addAbs E baseUrl u a).
Proof. intros H. unfold addAbs. rewrite H. apply In_set_add. now left. Qed.

Lemma fold_grows {A : Type} (f : list string -> A -> list string) l :
  (forall acc x, grows E baseUrl acc (f acc x)) ->
  forall init, grows E baseUrl init (fold_left f l init).
Proof.
  intros Hf. induction l as [|x l IH]; intros init; cbn [fold_left]; [apply grows_refl|].
  eapply grows_trans; [apply Hf | apply IH].
Qed.

Lemma fold_adds {A : Type} (f : list string -> A -> list string) l x y :
  (forall acc x, grows E baseUrl acc (f acc x)) ->
  In x l -> (forall acc, In y (f acc x)) ->
  forall init, In y (fold_left f l init).
Proof.
  intros Hf Hin Hy. induction l as [|x' l IH]; intros init; [destruct Hin|].
  cbn [fold_left]. destruct Hin as [->|Hin]; [|now apply IH].
  destruct (fold_grows f l Hf (f init x)) as (Hincl & _). apply Hincl, Hy.
Qed.

Lemma srcset_item_grows acc item :
  grows E baseUrl acc match first_word (trim item) with
            | String _ _ as u => addAbs E baseUrl (Some u) acc
            | EmptyString => acc
            end.
Proof. destruct (first_word (trim item)); [apply grows_refl | apply addAbs_grows]. Qed.

Lemma add_srcset_grows s a : grows E baseUrl a (add_srcset E baseUrl s a).
Proof. unfold add_srcset. apply fold_grows. intros acc item. apply srcset_item_grows. Qed.

Lemma add_srcset_adds s a item abs :
  In item (split_on "," s) -> first_word (trim item) <> "" ->
  absolute E (first_word (trim item)) baseUrl = Some abs ->
  In abs (add_srcset E baseUrl s a).
Proof.
  intros Hin Hne Habs. unfold add_srcset.
  apply (fold_adds _ _ item abs); [intros acc x; apply srcset_item_grows | exact Hin |].
  intros acc. destruct (first_word (trim item)) eqn:Hw; [contradiction|].
  now apply addAbs_adds.
Qed.

Lemma replace_segments_grows
    (f : string -> captures -> list string -> string * list string) gs :
  (forall m cs acc, grows E baseUrl acc (snd (f m cs acc))) ->
  forall st, grows E baseUrl st (snd (replace_segments f gs st)).
Proof.
  intros Hf. induction gs as [|[c|m cs] gs IH]; intros st; cbn [replace_segments].
  - apply grows_refl.
  - specialize (IH st). destruct (replace_segments f gs st). exact IH.
  - specialize (Hf m cs st). destruct (f m cs st) as [rep st1]. cbn [snd] in Hf.
    specialize (IH st1). destruct (replace_segments f gs st1). cbn [snd] in *.
    eapply grows_trans; eassumption.
Qed.

Lemma style_urls_grows style a : grows E baseUrl a (style_urls E baseUrl style a).
Proof.
  unfold style_urls, replace. apply replace_segments_grows. intros m cs acc.
  destruct (not_fetchable (trim (group 2 cs))); cbn [snd];
    [apply grows_refl | apply addAbs_grows].
Qed.

End Growth.

(** What [collectHtmlAssetUrls] finds in a page without [noscript]
    content. *)
Lemma collectHtmlAssetUrls_finds (E : Env) (html baseUrl : string)
    (doc : list node) (assets : list string) :
  collectHtmlAssetUrls E html baseUrl = Ok (doc, assets) ->
  doc = cheerio_load E html
  /\ (forall el u,
        In el (select (SEL_MEDIA ++ SEL_SCRIPT ++ SEL_LINK_ASSETS)%list doc) ->
        absolute E (to_string (or_else (attr "src" el) (attr "href" el))) baseUrl = Some u ->
        In u assets)
  /\ (forall el s item u,
        In el (select SEL_SRCSET doc) -> attr "srcset" el = Some s ->
        In item (split_on "," s) -> first_word (trim item) <> "" ->
        absolute E (first_word (trim item)) baseUrl = Some u ->
        In u assets)
  /\ NoDup assets
  /\ (forall u, In u assets -> exists raw, absolute E raw baseUrl = Some u).
Proof.
  unfold collectHtmlAssetUrls. rewrite parseNoscriptAssets_cases.
  destruct (existsb _ _); cbn [bind]; [discriminate|].
  intros [= <- <-]. split; [reflexivity|].
  set (d := cheerio_load E html).
  set (f1 := fun assets el =>
               addAbs E baseUrl (or_else (attr "src" el) (attr "href" el)) assets).
  set (f2 := fun assets el =>
               match attr "srcset" el with
               | Some (String _ _ as s) => add_srcset E baseUrl s assets
               | _ => assets
               end).
  set (f3 := fun assets el =>
               let ds := lazy_source el in
               let assets := if truthy ds then addAbs E baseUrl ds assets else assets in
               match attr "data-srcset" el with
               | Some (String _ _ as dss) => add_srcset E baseUrl dss assets
               | _ => assets
               end).
  set (f4 := fun assets el =>
               style_urls E baseUrl (to_string (or_else (attr "style" el) (Some ""))) assets).
  assert (H1 : forall acc x, grows E baseUrl acc (f1 acc x))
    by (intros; apply addAbs_grows).
  assert (H2 : forall acc x, grows E baseUrl acc (f2 acc x)).
  { intros acc x. unfold f2. destruct (attr "srcset" x) as [[|c s]|];
      try apply grows_refl. apply add_srcset_grows. }
  assert (H3 : forall acc x, grows E baseUrl acc (f3 acc x)).
  { intros acc x. unfold f3. cbn zeta.
    eapply grows_trans.
    - instantiate (1 := if truthy (lazy_source x)
                        then addAbs E baseUrl (lazy_source x) acc else acc).
      destruct (truthy (lazy_source x)); [apply addAbs_grows | apply grows_refl].
    - destruct (attr "data-srcset" x) as [[|c s]|]; try apply grows_refl.
      apply add_srcset_grows. }
  assert (H4 : forall acc x, grows E baseUrl acc (f4 acc x))
    by (intros; apply style_urls_grows).
  set (a1 := fold_left f1 _ []). set (a2 := fold_left f2 _ a1).
  set (a3 := fold_left f3 _ a2). set (a4 := fold_left f4 _ a3).
  pose proof (fold_grows E baseUrl f1
                (select (SEL_MEDIA ++ SEL_SCRIPT ++ SEL_LINK_ASSETS)%list d) H1 []) as G1.
  pose proof (fold_grows E baseUrl f2 (select SEL_SRCSET d) H2 a1) as G2.
  pose proof (fold_grows E baseUrl f3 (select (SEL_LAZY ++ SEL_DATA_SRCSET)%list d) H3 a2)
    as G3.
  pose proof (fold_grows E baseUrl f4 (select SEL_STYLED d) H4 a3) as G4.
  fold a1 in G1. fold a2 in G2. fold a3 in G3. fold a4 in G4.
  pose proof (grows_trans E baseUrl _ _ _ G3 G4) as G34.
  pose proof (grows_trans E baseUrl _ _ _ G2 G34) as G24.
  pose proof (grows_trans E baseUrl _ _ _ G1 G24) as G14.
  split; [|split; [|split]].
  - intros el u Hel Hu. destruct G24 as (Hincl & _). apply Hincl.
    apply (fold_adds E baseUrl f1 _ el u H1 Hel). intros acc. unfold f1.
    now apply addAbs_adds.
  - intros el s item u Hel Hs Hitem Hne Hu. destruct G34 as (Hincl & _). apply Hincl.
    apply (fold_adds E baseUrl f2 _ el u H2 Hel). intros acc. unfold f2. rewrite Hs.
    destruct s as [|c s].
    + cbn in Hitem. destruct Hitem as [<-|[]]. now contradiction Hne.
    + now apply (add_srcset_adds E baseUrl _ _ item).
  - destruct G14 as (_ & Hnd & _). apply Hnd. constructor.
  - intros u Hu. destruct G14 as (_ & _ & Hfrom). destruct (Hfrom u Hu) as [[]|Hr]. exact Hr.
Qed.

(** X11. When discovery returns, the set it returns holds: for every media
    element, script and icon or manifest link, the URL its [src] (its
    [href], when the [src] is missing or empty) resolves to; for every
    element with a [srcset], the URL each candidate resolves to. Each URL
    is in the set once, and each is some text resolved against the base:
    what does not resolve is left out. *)
Theorem discovery_finds_sources_and_candidates (E : Env) (html baseUrl : string)
    (doc : list node) (assets : list string) :
  collectHtmlAssetUrls E html baseUrl = Ok (doc, assets) ->
  doc = cheerio_load E html
  /\ (forall el u,
        In el (select (SEL_MEDIA ++ SEL_SCRIPT ++ SEL_LINK_ASSETS)%list doc) ->
        absolute E (to_string (or_else (attr "src" el) (attr "href" el))) baseUrl = Some u ->
        In u assets)
  /\ (forall el s item u,
        In el (select SEL_SRCSET doc) -> attr "srcset" el = Some s ->
        In item (split_on "," s) -> first_word (trim item) <> "" ->
        absolute E (first_word (trim item)) baseUrl = Some u ->
        In u assets)
  /\ NoDup assets
  /\ (forall u, In u assets -> exists raw, absolute E raw baseUrl = Some u).
Proof. exact (collectHtmlAssetUrls_finds E html baseUrl doc assets). Qed.

Lemma discovery_on_the_image_page :
  IMAGE_DOCUMENT = cheerio_load (Sample.env [] IMAGE_PAGES) IMAGE_MARKUP
  /\ (forall el u,
        In el (select (SEL_MEDIA ++ SEL_SCRIPT ++ SEL_LINK_ASSETS)%list IMAGE_DOCUMENT) ->
        absolute (Sample.env [] IMAGE_PAGES)
          (to_string (or_else (attr "src" el) (attr "href" el))) PAGE_URL = Some u ->
        In u ["https://x.test/a.png"])
  /\ (forall el s item u,
        In el (select SEL_SRCSET IMAGE_DOCUMENT) -> attr "srcset" el = Some s ->
        In item (split_on "," s) -> first_word (trim item) <> "" ->
        absolute (Sample.env [] IMAGE_PAGES) (first_word (trim item)) PAGE_URL = Some u ->
        In u ["https://x.test/a.png"])
  /\ NoDup ["https://x.test/a.png"]
  /\ (forall u, In u ["https://x.test/a.png"] ->
                exists raw, absolute (Sample.env [] IMAGE_PAGES) raw PAGE_URL = Some u).
Proof.
  apply (discovery_finds_sources_and_candidates (Sample.env [] IMAGE_PAGES)
           IMAGE_MARKUP PAGE_URL IMAGE_DOCUMENT ["https://x.test/a.png"]).
  vm_compute. reflexivity.
Defined.

(* ---------- asset list ---------- *)

Lemma NoDup_add_all xs s : NoDup s -> NoDup (add_all xs s).
Proof.
  unfold add_all. revert s; induction xs as [|x xs IH]; intros s Hs; cbn [fold_left];
    [assumption|]. apply IH. now apply NoDup_set_add.
Qed.

(** X12. The list of URLs handed to the pool holds no URL twice: each
    asset, however often the page and the stylesheets refer to it, is
    downloaded once, and its outcome stands at the index of its URL. *)
Theorem no_asset_is_downloaded_twice (E : Env) (htmlAssetUrls cssAssetUrls : list string) :
  NoDup (all_asset_urls htmlAssetUrls cssAssetUrls)
  /\ length (download_all E (all_asset_urls htmlAssetUrls cssAssetUrls))
     = length (all_asset_urls htmlAssetUrls cssAssetUrls)
  /\ (forall i u,
        nth_error (all_asset_urls htmlAssetUrls cssAssetUrls) i = Some u ->
        nth_error (download_all E (all_asset_urls htmlAssetUrls cssAssetUrls)) i
        = Some (Some (download E u))
        /\ forall j, nth_error (all_asset_urls htmlAssetUrls cssAssetUrls) j = Some u ->
                     j = i).
Proof.
  assert (Hnd : NoDup (all_asset_urls htmlAssetUrls cssAssetUrls)).
  { unfold all_asset_urls, dedupe.
    change (NoDup (add_all (filter (is_http false) (htmlAssetUrls ++ cssAssetUrls)) [])).
    apply NoDup_add_all. constructor. }
  split; [assumption|]. split; [unfold download_all; apply length_map|].
  intros i u Hi. split.
  - unfold download_all. now rewrite nth_error_map, Hi.
  - intros j Hj. rewrite NoDup_nth_error in Hnd. symmetry. apply Hnd; [|congruence].
    apply nth_error_Some. rewrite Hi. discriminate.
Qed.

(* ---------- saving ---------- *)

Section Saving.
Variable E : Env.
Variable folder : string.

Lemma localPathForAsset_ok url ct :
  is_ok (localPathForAsset E url ct) = is_ok (parsed E url).
Proof.
  unfold localPathForAsset, classifyByExtOrMime, ensureExt.
  destruct (parsed E url); reflexivity.
Qed.

Lemma save_result_counts sv0 r sv :
  save_result E folder (Ok sv0) r = Ok sv ->
  ok_count sv + fail_count sv = S (ok_count sv0 + fail_count sv0)
  /\ ok_count sv = ok_count sv0 + (if is_downloaded r then 1 else 0)
  /\ length (files sv) = length (files sv0) + (if is_downloaded r then 1 else 0).
Proof.
  destruct r as [[u f ct b|u e]|]; cbn [is_downloaded].
  - intros H. destruct (save_result_calls _ _ _ _ _ _ _ _ H) as (p & _ & _ & _ & ->).
    cbn [ok_count fail_count files]. unfold push. rewrite length_app.
    cbn [length]. lia.
  - intros [= <-]. cbn [ok_count fail_count files]. lia.
  - intros [= <-]. cbn [ok_count fail_count files]. lia.
Qed.

Lemma save_results_counts rs :
  forall sv, save_results E folder rs = Ok sv ->
  ok_count sv + fail_count sv = length rs
  /\ ok_count sv = length (filter is_downloaded rs)
  /\ length (files sv) = ok_count sv.
Proof.
  induction rs as [|r rs IH] using rev_ind; intros sv.
  - intros [= <-]. cbn. auto.
  - rewrite save_results_snoc. intros H.
    destruct (save_result_ok E _ _ _ _ H) as [sv0 H0]. rewrite H0 in H.
    destruct (IH sv0 H0) as (H1 & H2 & H3).
    destruct (save_result_counts _ _ _ H) as (H4 & H5 & H6).
    rewrite filter_app, !length_app. cbn [filter length].
    destruct (is_downloaded r); cbn [length]; lia.
Qed.

Lemma save_from_throw rs m :
  fold_left (save_result E folder) rs (Throw m) = Throw m.
Proof. induction rs as [|r rs IH]; [reflexivity | exact IH]. Qed.

(** The loop from any turn on: it returns exactly when every file from
    there on is saved. *)
Lemma save_from_ok rs :
  forall sv0,
    is_ok (fold_left (save_result E folder) rs (Ok sv0)) = true
    <-> forall i r, nth_error rs i = Some r ->
          file_is_saved E folder
            (ok_count sv0 + length (filter is_downloaded (firstn i rs))) r.
Proof.
  induction rs as [|r rs IH]; intros sv0.
  - split; [intros _ [|i] r; discriminate | reflexivity].
  - cbn [fold_left].
    destruct (save_result E folder (Ok sv0) r) as [sv1|m] eqn:Hstep.
    + destruct (save_result_counts _ _ _ Hstep) as (_ & Hcount & _).
      rewrite IH. split.
      * intros H [|i] r'.
        -- intros [= <-]. cbn [firstn filter length]. rewrite Nat.add_0_r.
           destruct r as [[u f ct b|u e]|]; cbn [file_is_saved]; try exact I.
           destruct (save_result_calls _ _ _ _ _ _ _ _ Hstep) as (p & Hp & Hmk & Hwr & _).
           exists p. auto.
        -- cbn [nth_error firstn filter]. intros Hi. specialize (H i r' Hi).
           rewrite Hcount in H.
           destruct (is_downloaded r); cbn [length];
             [rewrite Nat.add_succ_r, <- Nat.add_1_r, <- Nat.add_assoc,
                (Nat.add_comm _ 1), Nat.add_assoc
             | rewrite Nat.add_0_r in H]; exact H.
      * intros H i r' Hi. specialize (H (S i) r' Hi).
        cbn [firstn filter] in H. rewrite Hcount.
        destruct (is_downloaded r); cbn [length] in H;
          [rewrite Nat.add_succ_r, <- Nat.add_1_r, <- Nat.add_assoc,
             (Nat.add_comm _ 1), Nat.add_assoc in H
          | rewrite Nat.add_0_r]; exact H.
    + rewrite save_from_throw. split; [discriminate|].
      intros H. specialize (H 0 r eq_refl).
      cbn [firstn filter length] in H. rewrite Nat.add_0_r in H.
      destruct r as [[u f ct b|u e]|]; cbn [file_is_saved] in H; try discriminate.
      destruct H as (p & Hp & Hmk & Hwr).
      rewrite save_result_downloaded, Hp in Hstep. cbn [bind] in Hstep.
      rewrite Hmk, Hwr in Hstep. discriminate.
Qed.

End Saving.

(** X13. The loop over the results returns exactly when the file of every
    successful download is saved: the URL it is saved under gives a path
    (it does exactly when the URL parses), and the two calls on the file
    system, for the directory of the file and for the file, resolve, the
    run having written one file for each successful download before it.
    When the loop returns, every result has been counted once, as saved or
    as failed, the saved ones are the successful downloads, and one file
    has been written for each. *)
Theorem every_result_is_counted_once (E : Env) (folder : string)
    (rs : list (option Outcome)) :
  (is_ok (save_results E folder rs) = true
   <-> forall i r,
         nth_error rs i = Some r ->
         file_is_saved E folder (length (filter is_downloaded (firstn i rs))) r)
  /\ (forall url ct, is_ok (localPathForAsset E url ct) = is_ok (parsed E url))
  /\ (forall sv,
        save_results E folder rs = Ok sv ->
        ok_count sv + fail_count sv = length rs
        /\ ok_count sv = length (filter is_downloaded rs)
        /\ length (files sv) = ok_count sv).
Proof.
  split; [|split].
  - exact (save_from_ok E folder rs (mkSaved [] [] 0 0)).
  - apply localPathForAsset_ok.
  - apply save_results_counts.
Qed.

Example a_file_that_cannot_be_written_stops_the_loop :
  save_results (Sample.read_only (Sample.env [] [])) FOLDER RESULTS_ONE
  = Throw "EROFS: read-only file system".
Proof. vm_compute. reflexivity. Qed.

(** X14. Every path the URL-to-local-path map holds is the path of a file
    that has been written, and so is the path that the rewriting of the
    HTML finds for a reference, which is the path the map holds for the URL
    the reference resolves to. *)
Theorem every_mapped_path_is_a_file_written (E : Env) (folder : string)
    (rs : list (option Outcome)) (sv : Saved) :
  save_results E folder rs = Ok sv ->
  (forall k v,
     map_get k (urlToLocalRel sv) = Some v ->
     exists content, In (v, content) (files sv))
  /\ (forall baseUrl reference loc,
        local_of E baseUrl (urlToLocalRel sv) reference = Some loc ->
        (exists abs,
           absolute E reference baseUrl = Some abs
           /\ map_get abs (urlToLocalRel sv) = Some loc)
        /\ exists content, In (loc, content) (files sv)).
Proof.
  intros Hsv.
  assert (Hmap : forall k v,
             map_get k (urlToLocalRel sv) = Some v ->
             exists content, In (v, content) (files sv)).
  { intros k v Hget. apply map_get_In in Hget.
    destruct (save_results_entries E folder rs sv Hsv k v Hget)
      as (u & f & ct & b & Hin & _ & Hp).
    destruct (save_results_files E folder rs sv u f ct b Hsv Hin) as (p & Hp' & Hfile).
    rewrite Hp in Hp'. injection Hp' as <-. eauto. }
  split; [exact Hmap|].
  intros baseUrl reference loc. unfold local_of.
  destruct (absolute E reference baseUrl) as [abs|]; [|discriminate].
  destruct (map_get abs (urlToLocalRel sv)) as [[|c v]|] eqn:Hget; try discriminate.
  intros [= <-]. split; [eauto | exact (Hmap abs _ Hget)].
Qed.

Lemma the_redirected_image_is_a_file :
  (exists content, In ("assets/img/b-7e2fc483.png", content) (files SAVED_ONE))
  /\ local_of (Sample.env [] []) "https://x.test/" (urlToLocalRel SAVED_ONE) "/a"
     = Some "assets/img/b-7e2fc483.png".
Proof.
  assert (Hrun : save_results (Sample.env [] []) FOLDER RESULTS_ONE = Ok SAVED_ONE)
    by (vm_compute; reflexivity).
  destruct (every_mapped_path_is_a_file_written (Sample.env [] []) FOLDER
              RESULTS_ONE SAVED_ONE Hrun) as [Hmap _].
  split; [|vm_compute; reflexivity].
  apply (Hmap "https://x.test/a" "assets/img/b-7e2fc483.png"). vm_compute. reflexivity.
Defined.

(** The pass over the consolidated CSS replaces text, one entry of the
    map after the other, wherever the key stands: here the URL of the
    first download begins the URL of the second, and the reference to the
    second is left with a path of no file. *)
Example css_pass_rewrites_inside_a_longer_url :
  exists sv,
    save_results (Sample.env [] []) FOLDER
      [ Some (Downloaded "https://x.test/a" "https://x.test/a" PNG "a");
        Some (Downloaded "https://x.test/a.png" "https://x.test/a.png" PNG "b") ] = Ok sv
    /\ localize_css (urlToLocalRel sv) "p{background:url(https://x.test/a.png)}"
       = "p{background:url(assets/img/a-26434477.png.png)}"
    /\ forall content, ~ In ("assets/img/a-26434477.png.png", content) (files sv).
Proof.
  eexists. split; [vm_compute; reflexivity|]. split; [vm_compute; reflexivity|].
  intros content [H|[H|[]]]; discriminate.
Qed.

(* ================================================================== *)
(** * The consolidated CSS *)
(* ================================================================== *)

Section Parts.
Variable E : Env.

Lemma collects_stylesheet_part parts st cssUrl parts' st' :
  collects_stylesheet E (parts, st) cssUrl (parts', st') ->
  exists part, parts' = push parts part /\ sheet_part E cssUrl part.
Proof.
  intros H. unfold sheet_part.
  inversion H as [? ? ? message Hf|? ? ? f Hf Hcss|? ? ? f css' ? Hf Hcss Hrun]; subst;
    eexists; (split; [reflexivity|]); rewrite Hf.
  - reflexivity.
  - rewrite Hcss. reflexivity.
  - rewrite Hcss. eexists. reflexivity.
Qed.

Lemma collects_inline_part parts st block parts' st' :
  collects_inline E (parts, st) block (parts', st') ->
  exists part, parts' = push parts part /\ block_part block part.
Proof.
  intros H. inversion H; subst. eexists. split; [reflexivity|].
  unfold block_part. cbn [snd]. eexists. reflexivity.
Qed.

Lemma each_parts {A : Type}
    (turn : list string * CssState -> A -> list string * CssState -> Prop)
    (R : A -> string -> Prop) :
  (forall parts st x parts' st',
     turn (parts, st) x (parts', st') -> exists part, parts' = push parts part /\ R x part) ->
  forall l acc acc',
    each turn l acc acc' ->
    exists added, fst acc' = (fst acc ++ added)%list /\ Forall2 R l added.
Proof.
  intros Hturn l acc acc' Hloop.
  induction Hloop as [acc|x l [parts st] [parts1 st1] acc2 Hx _ IH].
  - exists []. split; [now rewrite app_nil_r | constructor].
  - destruct (Hturn _ _ _ _ _ Hx) as (part & -> & Hpart).
    destruct IH as (added & Hadded & Hall). cbn [fst] in *.
    exists (part :: added). split; [|now constructor].
    rewrite Hadded. unfold push. now rewrite <- app_assoc.
Qed.

End Parts.

Lemma Forall2_In_l {A B : Type} (R : A -> B -> Prop) l l' x :
  Forall2 R l l' -> In x l -> exists y, In y l' /\ R x y.
Proof.
  induction 1 as [|a b l l' Hab _ IH]; intros Hin; [destruct Hin|].
  destruct Hin as [->|Hin]; [exists b; split; [now left | exact Hab]|].
  destruct (IH Hin) as (y & Hy & HR). exists y. split; [now right | exact HR].
Qed.

(** X15. However the imports settle, the consolidated CSS has one part for
    each linked stylesheet, in the order of the links, then one for each
    style block: a stylesheet that cannot be fetched, or is not CSS, leaves
    a comment in its place and stops nothing; a stylesheet answered with a
    status outside 2xx leaves the comment that names the status. *)
Theorem one_part_per_source (E : Env) (stylesheetUrls : list string)
    (inlineBlocks : list (string * string)) (parts : list string) (st : CssState) :
  collects E stylesheetUrls inlineBlocks (parts, st) ->
  (exists from_sheets from_blocks,
     parts = (from_sheets ++ from_blocks)%list
     /\ Forall2 (sheet_part E) stylesheetUrls from_sheets
     /\ Forall2 block_part inlineBlocks from_blocks)
  /\ (forall cssUrl res,
        In cssUrl stylesheetUrls ->
        http_get E ACCEPT_ANY cssUrl = Responded res -> not_2xx res = true ->
        In ("/* Failed CSS " ++ cssUrl ++ ": Non-OK HTTP " ++ string_of_Z (status res)
            ++ " for " ++ cssUrl ++ " */") parts).
Proof.
  intros H. inversion H as [acc1 acc2 Hsheets Hblocks]; subst.
  destruct (each_parts (collects_stylesheet E) (sheet_part E)
              (collects_stylesheet_part E) _ _ _ Hsheets) as (ps & Hps & Hall).
  destruct (each_parts (collects_inline E) block_part
              (collects_inline_part E) _ _ _ Hblocks) as (pb & Hpb & Hallb).
  cbn [fst] in *. split.
  - exists ps, pb. rewrite Hpb, Hps. auto.
  - intros cssUrl res Hin Hget Hbad.
    destruct (Forall2_In_l (sheet_part E) _ _ _ Hall Hin) as (part & Hpart & Hshape).
    unfold sheet_part, fetchText in Hshape. rewrite Hget, Hbad in Hshape. subst part.
    rewrite Hpb, Hps. apply in_or_app. left. cbn [app].
    rewrite !append_assoc in Hpart. exact Hpart.
Qed.

Lemma a_missing_stylesheet_leaves_a_comment :
  In "/* Failed CSS https://x.test/f.woff2: Non-OK HTTP 404 for https://x.test/f.woff2 */"
    (fst (collect_css (Sample.env NET_ASSETS []) ["https://x.test/f.woff2"]
            [("p{}", PAGE_URL)])).
Proof.
  refine (proj2 (one_part_per_source (Sample.env NET_ASSETS []) ["https://x.test/f.woff2"]
                   [("p{}", PAGE_URL)]
                   (fst (collect_css (Sample.env NET_ASSETS []) ["https://x.test/f.woff2"]
                           [("p{}", PAGE_URL)]))
                   (snd (collect_css (Sample.env NET_ASSETS []) ["https://x.test/f.woff2"]
                           [("p{}", PAGE_URL)])) _)
            "https://x.test/f.woff2" (mkResponse 404 "" None None) _ _ _).
  - rewrite <- surjective_pairing. apply collect_css_collects.
  - simpl. auto.
  - reflexivity.
  - reflexivity.
Defined.

Section ImportResults.
Variable E : Env.

Lemma Forall2_middle {A B : Type} (R : A -> B -> Prop) l before y after :
  Forall2 R l (before ++ y :: after)%list ->
  exists l1 x l2,
    l = (l1 ++ x :: l2)%list /\ Forall2 R l1 before /\ R x y /\ Forall2 R l2 after.
Proof.
  intros H. apply Forall2_app_inv_r in H. destruct H as (l1 & l2 & H1 & H2 & ->).
  inversion H2 as [|x y' l2' after' Hxy Hrest]; subst.
  exists l1, x, l2'. auto.
Qed.

Lemma Forall2_put {A B : Type} (R : A -> B -> Prop) l1 x l2 before y after :
  Forall2 R l1 before -> R x y -> Forall2 R l2 after ->
  Forall2 R (l1 ++ x :: l2)%list (before ++ y :: after)%list.
Proof. intros H1 Hxy H2. apply Forall2_app; [exact H1 | now constructor]. Qed.

Lemma resume_task_of depth t raw abs st :
  task_of E t (Pending raw abs) -> task_of E t (fst (resume E depth raw abs st)).
Proof.
  intros [-> ->]. unfold resume.
  destruct (fetchText E (snd t)) as [f|message] eqn:Hf.
  - destruct (rewriteCssUrlsToAbs E (body f) (finalUrl f) (cssAssets st)) as [rew assets].
    destruct (start_imports E depth rew (finalUrl f) _) as [[ts fb] st'].
    cbn [fst task_of]. rewrite Hf. eauto.
  - cbn [fst task_of]. rewrite Hf. eauto.
Qed.

Lemma settle_tasks_of depth ts st ts' st' l :
  settle E depth ts st ts' st' -> Forall2 (task_of E) l ts -> Forall2 (task_of E) l ts'.
Proof.
  intros Hstep Hall.
  inversion Hstep as [d before raw abs after s|d before raw url css sub fb after s sub' s' Hsub];
    subst; apply Forall2_middle in Hall;
    destruct Hall as (l1 & x & l2 & -> & H1 & Hx & H2); apply Forall2_put; auto.
  now apply resume_task_of.
Qed.

Lemma settles_tasks_of depth n ts st ts' st' l :
  settles E depth n ts st ts' st' -> Forall2 (task_of E) l ts -> Forall2 (task_of E) l ts'.
Proof.
  induction 1 as [|n ts st ts1 st1 ts2 st2 Hstep _ IH]; [auto|].
  intros Hall. apply IH. eapply settle_tasks_of; eassumption.
Qed.

Lemma replacement_result t k r :
  task_of E t k -> replacement k = Some r -> import_result E t r.
Proof.
  destruct k as [raw abs|raw url css ts fb|raw rep]; intros Hk Hr.
  - discriminate.
  - rewrite replacement_inlining in Hr.
    destruct (replacements ts) as [done|]; [|discriminate].
    injection Hr as <-. destruct Hk as (-> & f & Hf & ->).
    split; [reflexivity|]. rewrite Hf. cbn [snd]. eexists. reflexivity.
  - injection Hr as <-. destruct Hk as (-> & message & Hf & ->).
    split; [reflexivity|]. rewrite Hf. reflexivity.
Qed.

Lemma replacements_results l ts done :
  Forall2 (task_of E) l ts -> replacements ts = Some done -> Forall2 (import_result E) l done.
Proof.
  intros Hall. revert done. induction Hall as [|t k l ts Hk _ IH]; intros done Hdone.
  - injection Hdone as <-. constructor.
  - cbn [replacements] in Hdone.
    destruct (replacement k) as [r|] eqn:Hr; [|discriminate].
    destruct (replacements ts) as [rs|]; [|discriminate].
    injection Hdone as <-. constructor; [|now apply IH].
    eapply replacement_result; eassumption.
Qed.

Lemma pending_tasks_of l : Forall2 (task_of E) l (map pending l).
Proof.
  induction l as [|t l IH]; constructor; [|exact IH]. split; reflexivity.
Qed.

End ImportResults.

(** X16. In whatever order the imports of a call are answered, the call
    applies one replacement for each import it fetches, in the order of the
    rules, then those of the imports it skips: an import whose fetch fails
    is replaced by a comment that names its URL and the error, and the
    call returns all the same. *)
Theorem imports_are_replaced_in_rule_order (E : Env) (depth : nat) (css cssUrl : string)
    (st : CssState) (out : string) (st' : CssState) :
  inlines E (S depth) css cssUrl st out st' ->
  exists done,
    out = apply_replacements
            (done ++ fallbacks (fst (scan_imports E css cssUrl st)))%list css
    /\ Forall2 (import_result E) (tasks (fst (scan_imports E css cssUrl st))) done.
Proof.
  intros H. inversion H as [ts fb st1 n ts' st2 done Hstart Hrun Hdone]; subst.
  cbn [start_imports] in Hstart.
  destruct (scan_imports E css cssUrl st) as [sc s1]. injection Hstart as <- <- <-.
  cbn [fst]. exists done. split; [reflexivity|].
  eapply replacements_results; [|exact Hdone].
  eapply settles_tasks_of; [exact Hrun | apply pending_tasks_of].
Qed.

Lemma a_missing_import_leaves_a_comment :
  exists done,
    fst (inlineCssImports (Sample.env NET_SELF []) 1 "@import 'b.css';" SHEET_A
           (mkCssState [] [] []))
    = apply_replacements
        (done ++ fallbacks (fst (scan_imports (Sample.env NET_SELF []) "@import 'b.css';"
                                   SHEET_A (mkCssState [] [] []))))%list
        "@import 'b.css';"
    /\ Forall2 (import_result (Sample.env NET_SELF []))
         (tasks (fst (scan_imports (Sample.env NET_SELF []) "@import 'b.css';" SHEET_A
                        (mkCssState [] [] []))))
         done.
Proof.
  apply (imports_are_replaced_in_rule_order (Sample.env NET_SELF []) 0 "@import 'b.css';"
           SHEET_A (mkCssState [] [] [])
           (fst (inlineCssImports (Sample.env NET_SELF []) 1 "@import 'b.css';" SHEET_A
                   (mkCssState [] [] [])))
           (snd (inlineCssImports (Sample.env NET_SELF []) 1 "@import 'b.css';" SHEET_A
                   (mkCssState [] [] [])))).
  apply inlineCssImports_is_a_run.
Defined.

Example the_comment_of_a_missing_import :
  fst (inlineCssImports (Sample.env NET_SELF []) 1 "@import 'b.css';" SHEET_A
         (mkCssState [] [] []))
  = "/* @import failed: https://x.test/b.css (getaddrinfo ENOTFOUND) */".
Proof. vm_compute. reflexivity. Qed.

Lemma includes_tail pat c s :
  includes false pat (String c s) = false ->
  starts_with false pat (String c s) = false /\ includes false pat s = false.
Proof.
  unfold includes, starts_with. cbn [find_sub].
  destruct (strip_prefix false pat (String c s)); [discriminate|].
  destruct (find_sub false pat s) as [[b a]|]; [discriminate|]. auto.
Qed.

Lemma replace_all_absent pat rep s :
  includes false pat s = false -> replace_all_from pat rep s 0 = s.
Proof.
  induction s as [|c s IH]; intros H; [reflexivity|].
  destruct (includes_tail _ _ _ H) as [H1 H2].
  cbn [replace_all_from]. rewrite H1, (IH H2). reflexivity.
Qed.

Lemma split_join_absent rep css e :
  absent_from css e = true -> split_join (fst e) rep css = css.
Proof.
  unfold absent_from. intros H. apply andb_true_iff in H. destruct H as [Hk Ha].
  apply negb_true_iff in Hk, Ha. unfold split_join.
  destruct (fst e); [discriminate|]. now apply replace_all_absent.
Qed.

(** X17. A CSS text in which no key of the URL-to-local-path map occurs is
    written as it is. *)
Theorem css_without_downloaded_urls_is_kept (urlToLocalRel : list (string * string))
    (cssText : string) :
  forallb (absent_from cssText) urlToLocalRel = true ->
  localize_css urlToLocalRel cssText = cssText.
Proof.
  unfold localize_css. induction urlToLocalRel as [|e m IH]; intros H; [reflexivity|].
  cbn [forallb] in H. apply andb_true_iff in H. destruct H as [He Hm].
  cbn [fold_left]. rewrite (split_join_absent _ _ _ He). now apply IH.
Qed.

Lemma css_of_another_site_is_kept :
  localize_css [("https://x.test/a.png", "assets/img/a-0a1b2c3d.png")]
    "p{background:url(https://y.test/a.png)}"
  = "p{background:url(https://y.test/a.png)}".
Proof.
  apply (css_without_downloaded_urls_is_kept
           [("https://x.test/a.png", "assets/img/a-0a1b2c3d.png")]
           "p{background:url(https://y.test/a.png)}").
  reflexivity.
Defined.

Lemma fold_set_add {A : Type} (g : A -> option string) (l : list A) (init : list string) y :
  In y (fold_left (fun acc x => match g x with
                                | Some u => set_add u acc
                                | None => acc
                                end) l init)
  <-> In y init \/ exists x, In x l /\ g x = Some y.
Proof.
  revert init. induction l as [|x l IH]; intros init; cbn [fold_left].
  - split; [auto | intros [H|(x & [] & _)]; exact H].
  - rewrite IH. destruct (g x) as [u|] eqn:Hg.
    + rewrite In_set_add. split.
      * intros [[H|H]|(x' & Hx' & Hy)].
        -- subst. right. exists x. split; [now left | exact Hg].
        -- now left.
        -- right. exists x'. split; [now right | exact Hy].
      * intros [H|(x' & [->|Hx'] & Hy)].
        -- left. now right.
        -- left. left. congruence.
        -- right. eauto.
    + split.
      * intros [H|(x' & Hx' & Hy)]; [now left|].
        right. exists x'. split; [now right | exact Hy].
      * intros [H|(x' & [->|Hx'] & Hy)]; [now left | congruence | eauto].
Qed.

Lemma fold_left_same {A B : Type} (f g : B -> A -> B) (l : list A) (init : B) :
  (forall acc x, f acc x = g acc x) -> fold_left f l init = fold_left g l init.
Proof.
  intros H. revert init. induction l as [|x l IH]; intros init; [reflexivity|].
  cbn [fold_left]. now rewrite H, IH.
Qed.

Lemma fold_push_if {A B : Type} (c : A -> bool) (f : A -> B) (l : list A) (init : list B) :
  fold_left (fun acc x => if c x then push acc (f x) else acc) l init
  = (init ++ map f (filter c l))%list.
Proof.
  revert init. induction l as [|x l IH]; intros init; cbn [fold_left filter map].
  - now rewrite app_nil_r.
  - rewrite IH. destruct (c x); [|reflexivity].
    unfold push. cbn [map]. now rewrite <- app_assoc.
Qed.

(** What [extractStyles] finds in a page. *)
Lemma extractStyles_finds (E : Env) (html baseUrl : string) :
  (forall u,
     In u (fst (extractStyles E html baseUrl))
     <-> exists el raw,
           In el (select SEL_STYLE_LINKS (cheerio_load E html))
           /\ attr "href" el = Some raw /\ raw <> ""
           /\ absolute E raw baseUrl = Some u)
  /\ NoDup (fst (extractStyles E html baseUrl))
  /\ snd (extractStyles E html baseUrl)
     = filter not_blank (map (style_text E) (select SEL_STYLE (cheerio_load E html))).
Proof.
  split; [|split].
  - intros u. unfold extractStyles. cbn [fst].
    set (g := fun el => match attr "href" el with
                        | Some (String _ _ as raw) => absolute E raw baseUrl
                        | _ => None
                        end).
    rewrite (fold_left_same _ (fun acc x => match g x with
                                          | Some u => set_add u acc
                                          | None => acc
                                          end)).
    + rewrite fold_set_add. split.
      * intros [[]|(el & Hel & Hg)]. subst g. cbn beta in Hg.
        destruct (attr "href" el) as [[|c raw]|] eqn:Hattr; try discriminate.
        exists el, (String c raw). repeat split; auto. discriminate.
      * intros (el & raw & Hel & Hattr & Hne & Habs). right. exists el.
        split; [exact Hel|]. subst g. cbn beta. rewrite Hattr.
        destruct raw; [contradiction | exact Habs].
    + intros acc el. subst g. cbn beta.
      destruct (attr "href" el) as [[|c raw]|]; reflexivity.
  - apply extractStyles_links.
  - unfold extractStyles. cbn [snd].
    rewrite (fold_push_if (fun el => not_blank (style_text E el)) (style_text E)).
    cbn [app]. generalize (select SEL_STYLE (cheerio_load E html)). intros l.
    induction l as [|x l IH]; [reflexivity|]. cbn [map filter].
    destruct (not_blank (style_text E x)); cbn [map]; now rewrite IH.
Qed.

(** X18. The stylesheet URLs of a page are the [href] values of its
    stylesheet and preload-as-style links that are not empty and resolve
    against the base, each URL once; a link whose [href] does not resolve
    is passed over. The style blocks are the texts of the [style]
    elements that are not blank, in document order. *)
Theorem extractStyles_finds_links_and_blocks (E : Env) (html baseUrl : string) :
  (forall u,
     In u (fst (extractStyles E html baseUrl))
     <-> exists el raw,
           In el (select SEL_STYLE_LINKS (cheerio_load E html))
           /\ attr "href" el = Some raw /\ raw <> ""
           /\ absolute E raw baseUrl = Some u)
  /\ NoDup (fst (extractStyles E html baseUrl))
  /\ snd (extractStyles E html baseUrl)
     = filter not_blank (map (style_text E) (select SEL_STYLE (cheerio_load E html))).
Proof. exact (extractStyles_finds E html baseUrl). Qed.

(* ================================================================== *)
(** * C9: the entry page *)
(* ================================================================== *)

(** C9 (as amended). Given the response to the request, [fetchHTML] fails
    exactly when the status is outside [200, 300) or the body is empty.
    When it succeeds the page carries the body and the final URL, which is
    the response's URL after redirects when it has one and the requested
    URL otherwise. [main] hands the page to the rest of the run, and the
    rest of the run resolves against the final URL what it resolves in the
    page: the links to stylesheets and the references to assets are each
    some text of the page resolved against it, the style blocks are
    collected with it for base, and the references of the document are
    made local with it for base. No step of the run depends on more of the
    page than its text and its final URL. *)
Theorem fetchHTML_verdict_and_base (E : Env) (url : string) (res : Response) :
  http_get E ACCEPT_HTML url = Responded res ->
  fails_exactly_outside 200 300 E url res /\
  (forall page, fetchHTML E url = Ok page ->
     page_html page = data res /\ page_finalUrl page = final_url res url) /\
  (forall f, responseUrl res = Some f -> f <> "" -> final_url res url = f) /\
  (forall folder raw, normalizeUrl E raw = Ok url ->
     main E folder raw = bind (fetchHTML E url) (clone_page E folder)) /\
  (forall folder page site,
     fetchHTML E url = Ok page ->
     clone_page E folder page = Ok site ->
     exists doc htmlAssetUrls cssText cssAssetUrls sv,
       collectHtmlAssetUrls E (data res) (final_url res url) = Ok (doc, htmlAssetUrls)
       /\ (forall u, In u htmlAssetUrls ->
             exists reference, absolute E reference (final_url res url) = Some u)
       /\ (forall u, In u (fst (extractStyles E (data res) (final_url res url))) ->
             exists reference, absolute E reference (final_url res url) = Some u)
       /\ collectCssAndAssets E (fst (extractStyles E (data res) (final_url res url)))
            (map (fun css => (css, final_url res url))
               (snd (extractStyles E (data res) (final_url res url))))
          = (cssText, cssAssetUrls)
       /\ save_results E folder
            (download_all E (all_asset_urls htmlAssetUrls cssAssetUrls)) = Ok sv
       /\ index_html site
          = rewriteHtmlReferencesToLocal E doc (final_url res url) (urlToLocalRel sv)
       /\ style_css site = localize_css (urlToLocalRel sv) cssText
       /\ asset_files site = files sv) /\
  (forall folder page page',
     page_html page' = page_html page ->
     page_finalUrl page' = page_finalUrl page ->
     clone_page E folder page' = clone_page E folder page).
Proof.
  intros Hget.
  assert (Hcases : fetchHTML E url =
            if not_2xx res
            then Throw ("Non-OK HTTP status " ++ string_of_Z (status res)
                        ++ " for " ++ url)
            else if data res =? ""
                 then Throw ("Empty HTML from " ++ final_url res url)
                 else Ok (mkPage (data res) (final_url res url)
                            (header_content_type res))).
  { unfold fetchHTML. rewrite Hget. reflexivity. }
  assert (Hstatus : not_2xx res = false <-> (200 <= status res < 300)%Z).
  { unfold not_2xx. rewrite orb_false_iff, Z.ltb_ge, Z.geb_leb, Z.leb_gt. lia. }
  assert (Hpage : forall page, fetchHTML E url = Ok page ->
            page_html page = data res /\ page_finalUrl page = final_url res url).
  { intros page. rewrite Hcases.
    destruct (not_2xx res); [discriminate|].
    destruct (data res =? ""); [discriminate|].
    intros [= <-]. split; reflexivity. }
  split; [|split; [|split; [|split; [|split]]]].
  - unfold fails_exactly_outside. rewrite Hcases.
    destruct (not_2xx res) eqn:Hs.
    + split; [|reflexivity]. intros _. left. intros Hin.
      apply Hstatus in Hin. discriminate.
    + destruct (data res =? "") eqn:Hd; cbn [is_ok].
      * split; [|reflexivity]. intros _. right. now apply String.eqb_eq.
      * split; [discriminate|]. intros [Hout|Hempty].
        -- exfalso. apply Hout. now apply Hstatus.
        -- apply String.eqb_neq in Hd. contradiction.
  - exact Hpage.
  - intros f Hf Hne. unfold final_url. rewrite Hf.
    destruct f; [contradiction | reflexivity].
  - intros folder raw Hraw. unfold main. rewrite Hraw. reflexivity.
  - intros folder page site Hfetch. destruct (Hpage page Hfetch) as [Hhtml Hbase].
    unfold clone_page. rewrite Hhtml, Hbase.
    pose proof (extractStyles_finds E (data res) (final_url res url)) as (Hlinks & _ & _).
    destruct (extractStyles E (data res) (final_url res url)) as [sheets blocks].
    cbn [fst snd] in *.
    destruct (collectHtmlAssetUrls E (data res) (final_url res url))
      as [[doc htmlAssetUrls]|message] eqn:Hdoc; cbn [bind]; [|discriminate].
    destruct (collectCssAndAssets E sheets (map (fun css => (css, final_url res url)) blocks))
      as [cssText cssAssetUrls] eqn:Hcss.
    destruct (fs_mkdir E 0 folder); cbn [fs_call bind]; [discriminate|].
    destruct (save_results E folder
                (download_all E (all_asset_urls htmlAssetUrls cssAssetUrls)))
      as [sv|message] eqn:Hsv; cbn [bind]; [|discriminate].
    destruct (fs_writeFile E (ok_count sv) _ _); cbn [fs_call bind]; [discriminate|].
    destruct (fs_writeFile E (S (ok_count sv)) _ _); cbn [fs_call bind]; [discriminate|].
    intros [= <-]. exists doc, htmlAssetUrls, cssText, cssAssetUrls, sv.
    cbn [index_html style_css asset_files].
    split; [reflexivity|]. split; [|split; [|split; [|split; [|repeat split]]]].
    + exact (proj2 (proj2 (proj2 (proj2
               (collectHtmlAssetUrls_finds E _ _ doc htmlAssetUrls Hdoc))))).
    + intros u Hu. apply Hlinks in Hu. destruct Hu as (el & reference & _ & _ & _ & Habs).
      eauto.
    + reflexivity.
    + exact Hsv.
  - intros folder [h f c] [h' f' c']; cbn [page_html page_finalUrl]. intros -> ->.
    reflexivity.
Qed.

(** C9 at a page that answers after a redirect. *)
Lemma fetchHTML_verdict_at_redirect :
  fails_exactly_outside 200 300 (Sample.env NET_MOVED []) "https://x.test/" MOVED
  /\ final_url MOVED "https://x.test/" = "https://www.x.test/home/".
Proof.
  pose proof (fetchHTML_verdict_and_base (Sample.env NET_MOVED [])
                "https://x.test/" MOVED eq_refl) as H.
  split; [exact (proj1 H)|].
  apply (proj1 (proj2 (proj2 H))); [reflexivity | discriminate].
Defined.

(** The run on the page that has moved: the image beside the page is
    found at the URL the page was answered from, not at the one asked
    for. *)
Example references_resolve_against_the_final_url :
  normalizeUrl (Sample.env NET_MOVED [(MOVED_MARKUP, MOVED_DOCUMENT)]) "x.test"
  = Ok "https://x.test/"
  /\ collectHtmlAssetUrls (Sample.env NET_MOVED [(MOVED_MARKUP, MOVED_DOCUMENT)])
       MOVED_MARKUP "https://www.x.test/home/"
     = Ok (MOVED_DOCUMENT, ["https://www.x.test/home/a.png"])
  /\ match main (Sample.env NET_MOVED [(MOVED_MARKUP, MOVED_DOCUMENT)]) FOLDER "x.test" with
     | Ok site =>
         asset_files site = [("assets/img/a-47b4888a.png", "png")]
         /\ index_html site
            = "<html><head><link rel=" ++ quoted "stylesheet" ++ " href="
              ++ quoted "style.css" ++ "></head><body><img src="
              ++ quoted "assets/img/a-47b4888a.png" ++ "></body></html>"
     | Throw _ => False
     end.
Proof. vm_compute. auto. Qed.

(** C9, as the claim words it, fails at status 299: the status is outside
    [200, 299) and the body is not empty, yet [fetchHTML] succeeds. *)
Lemma fetchHTML_accepts_status_299 :
  http_get (Sample.env [("https://x.test/", STATUS_299)] []) ACCEPT_HTML "https://x.test/"
    = Responded STATUS_299
  /\ is_ok (fetchHTML (Sample.env [("https://x.test/", STATUS_299)] []) "https://x.test/")
     = true
  /\ ~ fails_exactly_outside 200 299
         (Sample.env [("https://x.test/", STATUS_299)] []) "https://x.test/" STATUS_299.
Proof.
  split; [reflexivity|]. split; [reflexivity|].
  unfold fails_exactly_outside. intros [_ H].
  assert (Hf : is_ok (fetchHTML (Sample.env [("https://x.test/", STATUS_299)] [])
                        "https://x.test/") = false).
  { apply H. left. cbn [status STATUS_299]. lia. }
  vm_compute in Hf. discriminate.
Qed.

(* ================================================================== *)
(** * The page as a whole *)
(* ================================================================== *)

Section Cloning.
Variable E : Env.

Lemma download_answer url u f ct b :
  download E url = Downloaded u f ct b ->
  exists res,
    http_get E ACCEPT_ANY url = Responded res /\ not_2xx res = false
    /\ u = url /\ f = final_url res url.
Proof.
  unfold download, fetchBinary, fetchText.
  destruct (http_get E ACCEPT_ANY url) as [m|res]; [discriminate|].
  destruct (not_2xx res) eqn:Hs; [discriminate|].
  cbn [finalUrl contentType body]. intros [= <- <- _ _]. eauto.
Qed.

Variable folder : string.

(** Every file written comes from a successful download and lies where
    [localPathForAsset] puts it. *)
Lemma save_results_written rs :
  forall sv, save_results E folder rs = Ok sv ->
  forall p b, In (p, b) (files sv) ->
  exists u f ct,
    In (Some (Downloaded u f ct b)) rs
    /\ localPathForAsset E (saved_under u f) ct = Ok p.
Proof.
  induction rs as [|r rs IH] using rev_ind; intros sv.
  - intros [= <-] p b [].
  - rewrite save_results_snoc. intros H.
    destruct (save_result_ok _ _ _ _ _ H) as [sv0 H0]. rewrite H0 in H.
    intros p b Hin.
    destruct (save_result_step _ _ _ _ _ H)
      as [(u & f & ct & b' & p' & -> & Hp & _ & Hf)|(_ & _ & Hf)]; rewrite Hf in Hin.
    + unfold push in Hin. apply in_app_iff in Hin. destruct Hin as [Hin|[[= <- <-]|[]]].
      * destruct (IH sv0 H0 p b Hin) as (u0 & f0 & ct0 & Hr & Hp0).
        exists u0, f0, ct0. rewrite in_app_iff. auto.
      * exists u, f, ct. rewrite in_app_iff. simpl. auto.
    + destruct (IH sv0 H0 p b Hin) as (u0 & f0 & ct0 & Hr & Hp0).
      exists u0, f0, ct0. rewrite in_app_iff. auto.
Qed.

(** On a file system that accepts every call, the loop over the results
    of the downloads returns when the URLs of the answers parse. *)
Lemma downloads_are_saved urls :
  fs_accepts E ->
  (forall url res,
     http_get E ACCEPT_ANY url = Responded res -> not_2xx res = false ->
     is_ok (parsed E (saved_under url (final_url res url))) = true) ->
  is_ok (save_results E folder (download_all E urls)) = true.
Proof.
  intros [Hmkdir Hwrite] Hnet.
  apply (save_from_ok E folder (download_all E urls) (mkSaved [] [] 0 0)).
  intros i r Hi. apply nth_error_In in Hi.
  unfold download_all in Hi. apply in_map_iff in Hi. destruct Hi as (url & <- & _).
  destruct (download E url) as [u f ct b|u e] eqn:Hd; cbn [file_is_saved]; [|exact I].
  destruct (download_answer _ _ _ _ _ Hd) as (res & Hget & Hs & -> & ->).
  specialize (Hnet url res Hget Hs). rewrite <- (localPathForAsset_ok E _ ct) in Hnet.
  destruct (localPathForAsset E (saved_under url (final_url res url)) ct) as [p|m];
    [|discriminate].
  exists p. auto.
Qed.

End Cloning.

(** X19. On a file system that accepts every call of the run, and if the
    URLs the client reports for its successful answers parse, the one
    thing in a page that stops the run is a [noscript] element with
    content: a stylesheet or an asset that is missing, fails or has a
    malformed URL does not. Every file then written for an asset lies in
    one of the four folders below [assets/]. *)
Theorem a_page_is_cloned_whatever_its_assets_answer (E : Env) (folder : string)
    (page : Page) :
  fs_accepts E ->
  (forall url res,
     http_get E ACCEPT_ANY url = Responded res -> not_2xx res = false ->
     is_ok (parsed E (saved_under url (final_url res url))) = true) ->
  (is_ok (clone_page E folder page) = true
   <-> existsb (has_content E)
         (select SEL_NOSCRIPT (cheerio_load E (page_html page))) = false)
  /\ (forall site path content,
        clone_page E folder page = Ok site -> In (path, content) (asset_files site) ->
        exists kind name,
          path = "assets/" ++ kind ++ "/" ++ name
          /\ In kind ["js"; "fonts"; "img"; "other"]).
Proof.
  intros Hfs Hnet. unfold clone_page.
  destruct (extractStyles E (page_html page) (page_finalUrl page)) as [sheets blocks].
  unfold collectHtmlAssetUrls. rewrite parseNoscriptAssets_cases.
  destruct (existsb (has_content E) (select SEL_NOSCRIPT (cheerio_load E (page_html page)))).
  { cbn [bind is_ok]. split; [split; discriminate | discriminate]. }
  cbn [bind]. set (html_assets := fold_left _ (select SEL_STYLED _) _).
  destruct (collectCssAndAssets E sheets _) as [cssText cssAssetUrls].
  set (urls := all_asset_urls html_assets cssAssetUrls).
  pose proof (downloads_are_saved E folder urls Hfs Hnet) as Hsave.
  destruct Hfs as [Hmkdir Hwrite].
  rewrite Hmkdir. cbn [fs_call bind].
  destruct (save_results E folder (download_all E urls)) as [sv|m] eqn:Hsv; [|discriminate].
  cbn [bind]. rewrite !Hwrite. cbn [fs_call bind is_ok].
  split; [split; reflexivity|].
  intros site path content [= <-] Hin. cbn [asset_files] in Hin.
  destruct (save_results_written E folder _ sv Hsv path content Hin)
    as (u & f & ct & _ & Hp).
  destruct (localPathForAsset_shape E _ _ _ Hp) as (kind & name & _ & Hkind & ->).
  eauto.
Qed.

Lemma page_with_a_missing_stylesheet_is_cloned :
  (is_ok (clone_page (Sample.env NET_ASSETS IMAGE_PAGES) FOLDER IMAGE_PAGE) = true
   <-> existsb (has_content (Sample.env NET_ASSETS IMAGE_PAGES))
         (select SEL_NOSCRIPT
            (cheerio_load (Sample.env NET_ASSETS IMAGE_PAGES) (page_html IMAGE_PAGE)))
       = false)
  /\ (forall site path content,
        clone_page (Sample.env NET_ASSETS IMAGE_PAGES) FOLDER IMAGE_PAGE = Ok site ->
        In (path, content) (asset_files site) ->
        exists kind name,
          path = "assets/" ++ kind ++ "/" ++ name
          /\ In kind ["js"; "fonts"; "img"; "other"]).
Proof.
  apply (a_page_is_cloned_whatever_its_assets_answer (Sample.env NET_ASSETS IMAGE_PAGES)
           FOLDER IMAGE_PAGE).
  - split; reflexivity.
  - intros url res. cbn [http_get Sample.env Sample.lookup NET_ASSETS].
    destruct (url =? "https://x.test/a.png").
    + intros [= <-] _. reflexivity.
    + destruct (url =? "https://x.test/f.woff2"); [|discriminate].
      intros [= <-]. discriminate.
Defined.

Example the_page_cloned :
  match clone_page (Sample.env NET_ASSETS IMAGE_PAGES) FOLDER IMAGE_PAGE with
  | Ok site =>
      style_css site
      = "/* Failed CSS https://x.test/f.woff2: Non-OK HTTP 404 for https://x.test/f.woff2 */"
      /\ asset_files site = [("assets/img/a-8346d2b2.png", "png")]
      /\ index_html site
         = "<html><head><link rel=" ++ quoted "stylesheet" ++ " href=" ++ quoted "style.css"
           ++ "></head><body><img src=" ++ quoted "assets/img/a-8346d2b2.png"
           ++ " srcset=" ++ quoted "assets/img/a-8346d2b2.png 1x, http:// 2x"
           ++ "></body></html>"
  | Throw _ => False
  end.
Proof. vm_compute. auto. Qed.

Example a_folder_that_cannot_be_made_stops_the_run :
  clone_page (Sample.read_only (Sample.env NET_ASSETS IMAGE_PAGES)) FOLDER IMAGE_PAGE
  = Throw "EROFS: read-only file system".
Proof. vm_compute. reflexivity. Qed.

Lemma respects_has_tag t : respects (has_tag t).
Proof. intros e e' Ht _ _. unfold has_tag. now rewrite Ht. Qed.

Lemma has_tag_no_stylesheet t e :
  t <> "link" -> has_tag t e = true -> matches SEL_STYLESHEET e = false.
Proof.
  intros Ht He. unfold has_tag in He. apply String.eqb_eq in He.
  destruct (matches SEL_STYLESHEET e) eqn:Hm; [|reflexivity].
  apply matches_stylesheet_link in Hm. congruence.
Qed.

Lemma has_tag_no_style t e :
  t <> "style" -> has_tag t e = true -> matches SEL_STYLE e = false.
Proof.
  intros Ht He. unfold has_tag in He. apply String.eqb_eq in He.
  rewrite matches_style. apply String.eqb_neq. congruence.
Qed.

(** The passes that set attributes keep the elements of every tag. *)
Lemma updates_keep_the_tag (E : Env) (baseUrl : string)
    (urlToLocalRel : list (string * string)) (t : string) (doc : list node) :
  length (pick (has_tag t)
            (update SEL_STYLED (rewrite_style E baseUrl urlToLocalRel)
            (update SEL_DATA_SRCSET (rewriteSrcset E baseUrl urlToLocalRel "data-srcset")
            (update SEL_SRCSET (rewriteSrcset E baseUrl urlToLocalRel "srcset")
            (update SEL_LAZY (adopt_lazy E baseUrl urlToLocalRel)
            (update SEL_LINK_ASSETS (setLocal E baseUrl urlToLocalRel "href")
            (update SEL_SCRIPT (setLocal E baseUrl urlToLocalRel "src")
            (update SEL_MEDIA (setLocal E baseUrl urlToLocalRel "src") doc))))))))
  = length (pick (has_tag t) doc).
Proof.
  unfold update.
  rewrite !(length_pick_alter (has_tag t) (respects_has_tag t))
    by first [ apply gentle_setLocal; discriminate
             | apply gentle_adopt_lazy
             | apply gentle_rewriteSrcset; discriminate
             | apply gentle_rewrite_style ].
  reflexivity.
Qed.

(** Without its stylesheet links and its style elements, a document has
    as many elements of every other tag. *)
Lemma removals_keep_the_tag (t : string) (d : list node) :
  forallb (childless link_or_style) d = true ->
  t <> "link" -> t <> "style" ->
  length (pick (has_tag t)
            (flat_map (drop_node (matches SEL_STYLE))
               (flat_map (drop_node (matches SEL_STYLESHEET)) d)))
  = length (pick (has_tag t) d).
Proof.
  intros Hleaf Hl Hs.
  assert (Hsheet_sub : forall e, matches SEL_STYLESHEET e = true -> link_or_style e = true).
  { intros e He. unfold link_or_style. now rewrite (matches_stylesheet_link e He). }
  assert (Hstyle_sub : forall e, matches SEL_STYLE e = true -> link_or_style e = true).
  { intros e He. rewrite matches_style in He. unfold link_or_style.
    rewrite He. apply orb_true_r. }
  rewrite (length_pick_drop _ (respects_has_tag t) _ link_or_style Hstyle_sub
             (fun e => has_tag_no_style t e Hs)).
  - apply (length_pick_drop _ (respects_has_tag t) _ link_or_style Hsheet_sub
             (fun e => has_tag_no_stylesheet t e Hl) _ Hleaf).
  - apply childless_drop; [apply respects_link_or_style | assumption].
Qed.

(** A document with a head still has one when the attributes have been
    set and the stylesheet links and style elements removed. *)
Lemma the_head_stays (E : Env) (baseUrl : string)
    (urlToLocalRel : list (string * string)) (doc : list node) :
  select SEL_HEAD doc <> [] ->
  forallb (childless link_or_style) doc = true ->
  select SEL_HEAD
    (remove SEL_STYLE (remove SEL_STYLESHEET
      (update SEL_STYLED (rewrite_style E baseUrl urlToLocalRel)
      (update SEL_DATA_SRCSET (rewriteSrcset E baseUrl urlToLocalRel "data-srcset")
      (update SEL_SRCSET (rewriteSrcset E baseUrl urlToLocalRel "srcset")
      (update SEL_LAZY (adopt_lazy E baseUrl urlToLocalRel)
      (update SEL_LINK_ASSETS (setLocal E baseUrl urlToLocalRel "href")
      (update SEL_SCRIPT (setLocal E baseUrl urlToLocalRel "src")
      (update SEL_MEDIA (setLocal E baseUrl urlToLocalRel "src") doc)))))))))
  <> [].
Proof.
  intros Hhead Hleaf Hnone. apply Hhead.
  unfold select in *. rewrite (pick_ext _ _ matches_head) in *.
  apply length_zero_iff_nil.
  rewrite <- (updates_keep_the_tag E baseUrl urlToLocalRel "head" doc).
  unfold remove in Hnone.
  rewrite <- removals_keep_the_tag; [now rewrite Hnone| |discriminate|discriminate].
  unfold update.
  rewrite !(childless_alter link_or_style respects_link_or_style)
    by first [ apply gentle_setLocal; discriminate
             | apply gentle_adopt_lazy
             | apply gentle_rewriteSrcset; discriminate
             | apply gentle_rewrite_style ].
  assumption.
Qed.

(** With a head in the document, no head is put in. *)
Lemma rewrite_document_with_a_head (E : Env) (baseUrl : string)
    (urlToLocalRel : list (string * string)) (doc : list node) :
  select SEL_HEAD doc <> [] ->
  forallb (childless link_or_style) doc = true ->
  rewrite_document E doc baseUrl urlToLocalRel
  = append "head" (parse_fragment E STYLE_LINK_MARKUP)
      (remove SEL_STYLE (remove SEL_STYLESHEET
        (update SEL_STYLED (rewrite_style E baseUrl urlToLocalRel)
        (update SEL_DATA_SRCSET (rewriteSrcset E baseUrl urlToLocalRel "data-srcset")
        (update SEL_SRCSET (rewriteSrcset E baseUrl urlToLocalRel "srcset")
        (update SEL_LAZY (adopt_lazy E baseUrl urlToLocalRel)
        (update SEL_LINK_ASSETS (setLocal E baseUrl urlToLocalRel "href")
        (update SEL_SCRIPT (setLocal E baseUrl urlToLocalRel "src")
        (update SEL_MEDIA (setLocal E baseUrl urlToLocalRel "src") doc))))))))).
Proof.
  intros Hhead Hleaf.
  pose proof (the_head_stays E baseUrl urlToLocalRel doc Hhead Hleaf) as Hstays.
  unfold rewrite_document. cbn zeta.
  match goal with
  | |- context [match ?heads with [] => _ | _ :: _ => _ end] =>
      destruct heads eqn:Hheads
  end; [exfalso; apply Hstays; reflexivity | reflexivity].
Qed.

(** X20. For a document as the parser builds one (a head; no element
    inside a link or a style element), the rewrite pass removes no element
    but stylesheet links and style elements and adds none but a link: for
    every other tag, the rewritten document has as many elements as the
    original. *)
Theorem rewriting_keeps_the_other_elements (E : Env) (doc : list node)
    (baseUrl : string) (urlToLocalRel : list (string * string)) (t : string) :
  parse_fragment E STYLE_LINK_MARKUP = [STYLE_LINK] ->
  select SEL_HEAD doc <> [] ->
  forallb (childless link_or_style) doc = true ->
  t <> "link" -> t <> "style" ->
  length (pick (has_tag t) (rewrite_document E doc baseUrl urlToLocalRel))
  = length (pick (has_tag t) doc).
Proof.
  intros Hlink Hhead Hleaf Hl Hs.
  rewrite (rewrite_document_with_a_head E baseUrl urlToLocalRel doc Hhead Hleaf), Hlink.
  assert (Hnew_link : pick (has_tag t) [STYLE_LINK] = []).
  { unfold pick, STYLE_LINK. cbn [flat_map pick_node app has_tag el_tag].
    unfold has_tag. cbn [el_tag].
    destruct ("link" =? t) eqn:He; [apply String.eqb_eq in He; congruence | reflexivity]. }
  unfold append. rewrite (length_pick_insert _ (respects_has_tag t)), Hnew_link.
  cbn [length]. rewrite Nat.mul_0_r, Nat.add_0_r.
  unfold remove. rewrite removals_keep_the_tag.
  - apply updates_keep_the_tag.
  - unfold update.
    rewrite !(childless_alter link_or_style respects_link_or_style)
      by first [ apply gentle_setLocal; discriminate
               | apply gentle_adopt_lazy
               | apply gentle_rewriteSrcset; discriminate
               | apply gentle_rewrite_style ].
    assumption.
  - assumption.
  - assumption.
Qed.

Lemma images_of_the_styled_document :
  length (pick (has_tag "img")
            (rewrite_document (Sample.env [] []) STYLED_DOCUMENT "https://x.test/" []))
  = length (pick (has_tag "img") STYLED_DOCUMENT).
Proof.
  apply (rewriting_keeps_the_other_elements (Sample.env [] []) STYLED_DOCUMENT
           "https://x.test/" [] "img").
  - reflexivity.
  - vm_compute. discriminate.
  - reflexivity.
  - discriminate.
  - discriminate.
Defined.

Section ShallowTrees.
Variable P : element -> bool.
Hypothesis P_respects : respects P.

Lemma shallow_pick_app d d' :
  map shallow (pick P (d ++ d')) = (map shallow (pick P d) ++ map shallow (pick P d'))%list.
Proof. unfold pick. now rewrite flat_map_app, map_app. Qed.

Lemma shallow_pick_alter Q f :
  gentle f -> looks_at_attributes Q f ->
  forall d, map shallow (pick P (map (alter_node Q f) d))
            = map (pass Q f) (map shallow (pick P d)).
Proof.
  intros Hf Hlook.
  assert (Hnode : forall n, map shallow (pick_node P (alter_node Q f n))
                            = map (pass Q f) (map shallow (pick_node P n))).
  { induction n as [s|t a k IH] using node_induction; [reflexivity|].
    cbn [alter_node pick_node]. rewrite !map_app. f_equal.
    - set (e := mkElement t a k). set (e' := if Q e then f e else e).
      assert (HP : P (mkElement (el_tag e') (el_attrs e') (map (alter_node Q f) k)) = P e).
      { subst e'. destruct (Q e).
        - destruct (Hf e) as (Ht & Hr & Ha). apply P_respects; assumption.
        - apply P_respects; reflexivity. }
      rewrite HP. destruct (P e); [|reflexivity]. cbn [map].
      f_equal. rewrite <- (Hlook e). reflexivity.
    - induction IH as [|n k Hn _ IHk]; [reflexivity|].
      cbn [map flat_map]. rewrite !map_app. now rewrite Hn, IHk. }
  induction d as [|n d IH]; [reflexivity|].
  cbn [map]. unfold pick in *. cbn [flat_map]. rewrite !map_app. now rewrite Hnode, IH.
Qed.

Lemma shallow_pick_drop Q Q0 :
  (forall e, Q e = true -> Q0 e = true) ->
  (forall e, P e = true -> Q e = false) ->
  forall d, forallb (childless Q0) d = true ->
            map shallow (pick P (flat_map (drop_node Q) d)) = map shallow (pick P d).
Proof.
  intros Hsub Hdisjoint.
  assert (Htexts : forall k, forallb is_text k = true -> pick P k = []).
  { induction k as [|[t a k'|s] k IH]; cbn [forallb is_text]; try discriminate; auto. }
  assert (Hnode : forall n, childless Q0 n = true ->
                            map shallow (pick P (drop_node Q n))
                            = map shallow (pick_node P n)).
  { induction n as [s|t a k IH] using node_induction; [reflexivity|].
    cbn [childless drop_node pick_node]. intros Hc.
    apply andb_true_iff in Hc. destruct Hc as [Hleaf Hkids].
    destruct (Q (mkElement t a k)) eqn:HQ.
    - rewrite (Hsub _ HQ) in Hleaf.
      destruct (P (mkElement t a k)) eqn:HP;
        [apply Hdisjoint in HP; congruence|].
      change (flat_map (pick_node P) k) with (pick P k).
      now rewrite (Htexts k Hleaf).
    - unfold pick. cbn [flat_map pick_node]. rewrite app_nil_r, !map_app.
      rewrite (P_ignores_children P P_respects t a k). f_equal.
      + destruct (P (mkElement t a k)); reflexivity.
      + clear Hleaf HQ. induction IH as [|n k Hn _ IHk]; [reflexivity|].
        cbn [forallb] in Hkids. apply andb_true_iff in Hkids.
        destruct Hkids as [Hcn Hck].
        cbn [flat_map]. rewrite flat_map_app, !map_app.
        rewrite (IHk Hck). f_equal. exact (Hn Hcn). }
  induction d as [|n d IH]; [reflexivity|].
  cbn [forallb flat_map]. intros Hc. apply andb_true_iff in Hc.
  destruct Hc as [Hn Hd]. rewrite shallow_pick_app.
  change (pick P (n :: d)) with (pick_node P n ++ pick P d)%list.
  now rewrite map_app, (Hnode n Hn), (IH Hd).
Qed.

Lemma shallow_pick_insert at_end t0 new :
  pick P new = [] ->
  forall d, map shallow (pick P (map (insert_node at_end t0 new) d))
            = map shallow (pick P d).
Proof.
  intros Hnew.
  assert (Hnode : forall n, map shallow (pick_node P (insert_node at_end t0 new n))
                            = map shallow (pick_node P n)).
  { induction n as [s|t a k IH] using node_induction; [reflexivity|].
    assert (Hkids : map shallow (pick P (map (insert_node at_end t0 new) k))
                    = map shallow (pick P k)).
    { induction IH as [|n k Hn _ IHk]; [reflexivity|].
      cbn [map]. unfold pick in *. cbn [flat_map]. rewrite !map_app. now rewrite Hn, IHk. }
    cbn [insert_node pick_node]. rewrite !map_app.
    rewrite (P_ignores_children P P_respects t a k). f_equal.
    + destruct (P (mkElement t a k)); reflexivity.
    + change (flat_map (pick_node P) ?l) with (pick P l).
      destruct (t =? t0); [|exact Hkids].
      destruct at_end; rewrite shallow_pick_app, Hnew; cbn [map app];
        [rewrite app_nil_r|]; exact Hkids. }
  induction d as [|n d IH]; [reflexivity|].
  cbn [map]. unfold pick in *. cbn [flat_map]. rewrite !map_app. now rewrite Hnode, IH.
Qed.

End ShallowTrees.

Lemma test_holds_children c t a k k' :
  test_holds c (mkElement t a k) = test_holds c (mkElement t a k').
Proof. destruct c; reflexivity. Qed.

Lemma matches_children sel t a k k' :
  matches sel (mkElement t a k) = matches sel (mkElement t a k').
Proof.
  unfold matches. induction sel as [|c sel IH]; [reflexivity|].
  cbn [existsb]. rewrite IH. unfold compound_matches. cbn [el_tag].
  assert (Htests : forall l, forallb (fun x => test_holds x (mkElement t a k)) l
                             = forallb (fun x => test_holds x (mkElement t a k')) l).
  { induction l as [|x l IHl]; [reflexivity|].
    cbn [forallb]. now rewrite IHl, (test_holds_children x t a k k'). }
  now rewrite Htests.
Qed.

Section Passes.
Variable E : Env.
Variable baseUrl : string.
Variable urlToLocalRel : list (string * string).

Lemma looks_setLocal sel name :
  looks_at_attributes (matches sel) (setLocal E baseUrl urlToLocalRel name).
Proof.
  intros [t a k]. unfold pass, bare, shallow. cbn [fst snd el_tag el_attrs].
  rewrite (matches_children sel t a k []). destruct (matches sel _); [|reflexivity].
  unfold setLocal, attr. cbn [el_attrs].
  destruct (map_get name a) as [[|c v]|]; try reflexivity.
  destruct (local_of E baseUrl urlToLocalRel (String c v)); reflexivity.
Qed.

Lemma looks_adopt_lazy sel :
  looks_at_attributes (matches sel) (adopt_lazy E baseUrl urlToLocalRel).
Proof.
  intros [t a k]. unfold pass, bare, shallow. cbn [fst snd el_tag el_attrs].
  rewrite (matches_children sel t a k []). destruct (matches sel _); [|reflexivity].
  unfold adopt_lazy, lazy_source, attr. cbn [el_attrs].
  destruct (local_of E baseUrl urlToLocalRel _); [|reflexivity].
  destruct (truthy (map_get "src" a)); reflexivity.
Qed.

Lemma looks_rewriteSrcset sel name :
  looks_at_attributes (matches sel) (rewriteSrcset E baseUrl urlToLocalRel name).
Proof.
  intros [t a k]. unfold pass, bare, shallow. cbn [fst snd el_tag el_attrs].
  rewrite (matches_children sel t a k []). destruct (matches sel _); [|reflexivity].
  unfold rewriteSrcset, attr. cbn [el_attrs].
  destruct (map_get name a) as [[|c v]|]; reflexivity.
Qed.

Lemma looks_rewrite_style sel :
  looks_at_attributes (matches sel) (rewrite_style E baseUrl urlToLocalRel).
Proof.
  intros [t a k]. unfold pass, bare, shallow. cbn [fst snd el_tag el_attrs].
  rewrite (matches_children sel t a k []). destruct (matches sel _); reflexivity.
Qed.

Lemma sets_only_setLocal name : sets_only name (setLocal E baseUrl urlToLocalRel name).
Proof.
  intros e. unfold setLocal. destruct (attr name e) as [[|c v]|]; auto.
  destruct (local_of E baseUrl urlToLocalRel (String c v)); eauto.
Qed.

Lemma sets_only_adopt_lazy : sets_only "src" (adopt_lazy E baseUrl urlToLocalRel).
Proof.
  intros e. unfold adopt_lazy.
  destruct (local_of E baseUrl urlToLocalRel _); auto.
  destruct (truthy (attr "src" e)); eauto.
Qed.

Lemma sets_only_rewriteSrcset name :
  sets_only name (rewriteSrcset E baseUrl urlToLocalRel name).
Proof. intros e. unfold rewriteSrcset. destruct (attr name e) as [[|c v]|]; eauto. Qed.

Lemma sets_only_rewrite_style : sets_only "style" (rewrite_style E baseUrl urlToLocalRel).
Proof. intros e. unfold rewrite_style. eauto. Qed.

End Passes.

Lemma pass_sets_only n Q f v :
  sets_only n f ->
  fst (pass Q f v) = fst v
  /\ forall n', n' <> n -> map_get n' (snd (pass Q f v)) = map_get n' (snd v).
Proof.
  intros Hf. unfold pass. destruct (Q (bare v)); [|split; reflexivity].
  destruct (Hf (bare v)) as [->|[x ->]]; [split; reflexivity|].
  split; [reflexivity|]. intros n' Hn. unfold shallow, set_attr, bare.
  cbn [snd el_attrs]. now apply map_get_set_other.
Qed.

Lemma matches_media v :
  In (fst v) MEDIA_TAGS ->
  matches SEL_MEDIA (bare v) = is_some (map_get "src" (snd v))
  /\ matches SEL_SCRIPT (bare v) = false.
Proof.
  destruct v as [t a]. cbn [fst snd]. unfold bare, MEDIA_TAGS. cbn [fst snd].
  intros [<-|[<-|[<-|[<-|[]]]]]; split; try reflexivity;
    unfold matches, SEL_MEDIA, tag_with, compound_matches, test_holds, attr;
    cbn; destruct (map_get "src" a); reflexivity.
Qed.

Lemma matches_script v :
  fst v = "script" ->
  matches SEL_MEDIA (bare v) = false
  /\ matches SEL_SCRIPT (bare v) = is_some (map_get "src" (snd v)).
Proof.
  destruct v as [t a]. cbn [fst snd]. unfold bare. cbn [fst snd].
  intros ->; split; try reflexivity;
    unfold matches, SEL_SCRIPT, tag_with, compound_matches, test_holds, attr;
    cbn; destruct (map_get "src" a); reflexivity.
Qed.

Lemma matches_link_assets v :
  In (fst v) SOURCE_TAGS -> matches SEL_LINK_ASSETS (bare v) = false.
Proof.
  destruct v as [t a]. cbn [fst snd]. unfold bare, SOURCE_TAGS. cbn [fst snd].
  intros [<-|[<-|[<-|[<-|[<-|[]]]]]]; reflexivity.
Qed.

Lemma matches_lazy e :
  matches SEL_LAZY e
  = is_some (attr "data-src" e) || is_some (attr "data-original" e)
    || is_some (attr "data-lazy" e).
Proof.
  unfold matches, SEL_LAZY, any_with, compound_matches, test_holds. cbn.
  destruct (attr "data-src" e), (attr "data-original" e), (attr "data-lazy" e); reflexivity.
Qed.

Section Sources.
Variable E : Env.
Variable baseUrl : string.
Variable urlToLocalRel : list (string * string).

Lemma local_of_truthy v loc :
  local_of E baseUrl urlToLocalRel v = Some loc -> truthy (Some loc) = true.
Proof.
  unfold local_of. destruct (absolute E v baseUrl) as [abs|]; [|discriminate].
  destruct (map_get abs urlToLocalRel) as [[|c l]|]; try discriminate.
  now intros [= <-].
Qed.

Lemma truthy_localized v :
  truthy (localized E baseUrl urlToLocalRel v) = truthy v.
Proof.
  destruct v as [[|c raw]|]; try reflexivity. cbn [localized].
  destruct (local_of E baseUrl urlToLocalRel (String c raw)) as [loc|] eqn:Hloc;
    [|reflexivity].
  now rewrite (local_of_truthy _ _ Hloc).
Qed.

Lemma localized_falsy v :
  truthy v = false -> localized E baseUrl urlToLocalRel v = v.
Proof. destruct v as [[|c raw]|]; [reflexivity | discriminate | reflexivity]. Qed.

(** A pass of [setLocal] on the [src] of the elements that have one. *)
Lemma pass_setLocal_src Q v :
  Q (bare v) = is_some (map_get "src" (snd v)) ->
  fst (pass Q (setLocal E baseUrl urlToLocalRel "src") v) = fst v
  /\ map_get "src" (snd (pass Q (setLocal E baseUrl urlToLocalRel "src") v))
     = localized E baseUrl urlToLocalRel (map_get "src" (snd v))
  /\ forall n, n <> "src" ->
       map_get n (snd (pass Q (setLocal E baseUrl urlToLocalRel "src") v))
       = map_get n (snd v).
Proof.
  intros HQ.
  destruct (pass_sets_only "src" Q _ v (sets_only_setLocal E baseUrl urlToLocalRel "src"))
    as [Htag Hother].
  split; [exact Htag|]. split; [|exact Hother].
  unfold pass. rewrite HQ. destruct v as [t a]. unfold bare. cbn [fst snd].
  unfold setLocal, attr, shallow. cbn [el_attrs].
  destruct (map_get "src" a) as [[|c raw]|] eqn:Hsrc; cbn [is_some localized snd el_attrs].
  - exact Hsrc.
  - destruct (local_of E baseUrl urlToLocalRel (String c raw)).
    + unfold set_attr. cbn [snd el_attrs]. apply map_get_set_same.
    + exact Hsrc.
  - exact Hsrc.
Qed.

Lemma pass_skipped Q f v : Q (bare v) = false -> pass Q f v = v.
Proof. intros HQ. unfold pass. rewrite HQ. now destruct v. Qed.

Lemma passes_src e :
  In (el_tag e) SOURCE_TAGS ->
  fst (passes E baseUrl urlToLocalRel (shallow e)) = el_tag e
  /\ map_get "src" (snd (passes E baseUrl urlToLocalRel (shallow e)))
     = saved_src E baseUrl urlToLocalRel e.
Proof.
  intros Htag. unfold passes.
  set (v0 := shallow e).
  set (v1 := pass (matches SEL_MEDIA) _ v0). set (v2 := pass (matches SEL_SCRIPT) _ v1).
  set (v3 := pass (matches SEL_LINK_ASSETS) _ v2). set (v4 := pass (matches SEL_LAZY) _ v3).
  set (v5 := pass (matches SEL_SRCSET) _ v4). set (v6 := pass (matches SEL_DATA_SRCSET) _ v5).
  set (v7 := pass (matches SEL_STYLED) _ v6).
  assert (H2 : fst v2 = el_tag e
               /\ map_get "src" (snd v2)
                  = localized E baseUrl urlToLocalRel (attr "src" e)
               /\ forall n, n <> "src" -> map_get n (snd v2) = attr n e).
  { assert (Hcase : In (fst v0) MEDIA_TAGS \/ fst v0 = "script").
    { unfold SOURCE_TAGS in Htag. unfold MEDIA_TAGS. subst v0. unfold shallow.
      cbn [fst In] in *. intuition auto. }
    destruct Hcase as [Hmedia|Hscript].
    - destruct (matches_media v0 Hmedia) as [Hm _].
      destruct (pass_setLocal_src _ v0 Hm) as (Ht1 & Hs1 & Ho1). fold v1 in Ht1, Hs1, Ho1.
      assert (Hm1 : In (fst v1) MEDIA_TAGS) by now rewrite Ht1.
      destruct (matches_media v1 Hm1) as [_ Hno].
      unfold v2. rewrite (pass_skipped _ _ v1 Hno). auto.
    - destruct (matches_script v0 Hscript) as [Hno Hs].
      assert (Hv1 : v1 = v0) by (unfold v1; now rewrite (pass_skipped _ _ v0 Hno)).
      unfold v2. rewrite Hv1. exact (pass_setLocal_src _ v0 Hs). }
  destruct H2 as (Ht2 & Hs2 & Ho2).
  assert (Hv3 : v3 = v2).
  { unfold v3. apply pass_skipped, matches_link_assets. now rewrite Ht2. }
  destruct (pass_sets_only "src" (matches SEL_LAZY) _ v3
              (sets_only_adopt_lazy E baseUrl urlToLocalRel)) as [Ht4 Ho4].
  fold v4 in Ht4, Ho4.
  destruct (pass_sets_only "srcset" (matches SEL_SRCSET) _ v4
              (sets_only_rewriteSrcset E baseUrl urlToLocalRel "srcset")) as [Ht5 Ho5].
  fold v5 in Ht5, Ho5.
  destruct (pass_sets_only "data-srcset" (matches SEL_DATA_SRCSET) _ v5
              (sets_only_rewriteSrcset E baseUrl urlToLocalRel "data-srcset")) as [Ht6 Ho6].
  fold v6 in Ht6, Ho6.
  destruct (pass_sets_only "style" (matches SEL_STYLED) _ v6
              (sets_only_rewrite_style E baseUrl urlToLocalRel)) as [Ht7 Ho7].
  fold v7 in Ht7, Ho7.
  split; [now rewrite Ht7, Ht6, Ht5, Ht4, Hv3|].
  rewrite Ho7, Ho6, Ho5 by discriminate.
  (* the pass that adopts a lazy source *)
  assert (Hlazy : matches SEL_LAZY (bare v3) = matches SEL_LAZY e).
  { rewrite !matches_lazy. unfold attr at 1 2 3. unfold bare. cbn [el_attrs snd].
    rewrite Hv3, !Ho2 by discriminate. reflexivity. }
  assert (Hsource : lazy_source (bare v3) = lazy_source e).
  { unfold lazy_source. unfold attr at 1 2 3. unfold bare. cbn [el_attrs snd].
    rewrite Hv3, !Ho2 by discriminate. reflexivity. }
  assert (Hsrc3 : attr "src" (bare v3) = localized E baseUrl urlToLocalRel (attr "src" e)).
  { unfold attr at 1. unfold bare. cbn [el_attrs snd]. now rewrite Hv3. }
  unfold v4, pass, saved_src. rewrite Hlazy.
  destruct (matches SEL_LAZY e); cbn [andb].
  - unfold adopt_lazy. rewrite Hsource, Hsrc3, truthy_localized.
    destruct (local_of E baseUrl urlToLocalRel (to_string (lazy_source e))) as [loc|].
    + destruct (truthy (attr "src" e)) eqn:Htruthy; cbn [negb].
      * exact Hsrc3.
      * unfold set_attr, shallow. cbn [snd el_attrs]. apply map_get_set_same.
    + destruct (truthy (attr "src" e)) eqn:Htruthy; cbn [negb]; [exact Hsrc3|].
      rewrite <- (localized_falsy _ Htruthy). exact Hsrc3.
  - exact Hsrc3.
Qed.

End Sources.

Lemma pick_satisfies P d e : In e (pick P d) -> P e = true.
Proof.
  assert (Hnode : forall n, In e (pick_node P n) -> P e = true).
  { induction n as [s|t a k IH] using node_induction; [intros []|].
    cbn [pick_node]. rewrite in_app_iff. intros [He|He].
    - destruct (P (mkElement t a k)) eqn:HP; [|destruct He].
      destruct He as [<-|[]]. exact HP.
    - induction IH as [|n k Hn _ IHk]; [destruct He|].
      cbn [flat_map] in He. apply in_app_iff in He. destruct He as [He|He]; auto. }
  unfold pick. rewrite in_flat_map. intros (n & _ & He). eauto.
Qed.

Lemma Forall2_of_maps {A B C : Type} (g : B -> C) (h : A -> C) l l' :
  map g l' = map h l -> Forall2 (fun x y => g y = h x) l l'.
Proof.
  revert l'. induction l as [|x l IH]; intros [|y l'] H; try discriminate; constructor.
  - now injection H.
  - apply IH. now injection H.
Qed.

Lemma Forall2_among {A B : Type} (R R' : A -> B -> Prop) l l' :
  Forall2 R l l' -> (forall x y, In x l -> R x y -> R' x y) -> Forall2 R' l l'.
Proof.
  induction 1 as [|x y l l' Hxy _ IH]; intros Himp; constructor.
  - apply Himp; [now left | exact Hxy].
  - apply IH. intros x' y' Hin. apply Himp. now right.
Qed.

(** X21. For a document as the parser builds one (a head; no element
    inside a link or a style element), the images, videos,
    audios, sources and scripts of the rewritten page are those of the
    original, in the same order, and the [src] of each is the local path
    of the file saved for the URL its [src] resolves to, when there is
    one, and its [src] as it was otherwise; an element with a lazy source
    ([data-src], [data-original], [data-lazy]) and no [src] gets for
    [src] the local path of the file saved for that source, when there
    is one. *)
Theorem sources_point_to_the_saved_files (E : Env) (doc : list node)
    (baseUrl : string) (urlToLocalRel : list (string * string)) (t : string) :
  parse_fragment E STYLE_LINK_MARKUP = [STYLE_LINK] ->
  select SEL_HEAD doc <> [] ->
  forallb (childless link_or_style) doc = true ->
  In t SOURCE_TAGS ->
  Forall2 (fun e e' => el_tag e' = t /\ attr "src" e' = saved_src E baseUrl urlToLocalRel e)
    (pick (has_tag t) doc)
    (pick (has_tag t) (rewrite_document E doc baseUrl urlToLocalRel)).
Proof.
  intros Hlink Hhead Hleaf Ht.
  assert (Hl : t <> "link" /\ t <> "style").
  { unfold SOURCE_TAGS in Ht. cbn [In] in Ht.
    repeat split; intros ->; intuition discriminate. }
  destruct Hl as (Hl & Hs).
  pose proof (respects_has_tag t) as HP.
  assert (Hmaps : map shallow (pick (has_tag t) (rewrite_document E doc baseUrl urlToLocalRel))
                  = map (fun e => passes E baseUrl urlToLocalRel (shallow e))
                      (pick (has_tag t) doc)).
  { rewrite (rewrite_document_with_a_head E baseUrl urlToLocalRel doc Hhead Hleaf), Hlink.
    set (d7 := update SEL_STYLED _ _).
    assert (H7 : map shallow (pick (has_tag t) d7)
                 = map (passes E baseUrl urlToLocalRel) (map shallow (pick (has_tag t) doc))).
    { subst d7. unfold update, passes.
      rewrite (shallow_pick_alter _ HP _ _ (gentle_rewrite_style E baseUrl urlToLocalRel)
                 (looks_rewrite_style E baseUrl urlToLocalRel _)).
      rewrite (shallow_pick_alter _ HP _ _
                 (gentle_rewriteSrcset E baseUrl urlToLocalRel "data-srcset"
                    ltac:(discriminate) ltac:(discriminate))
                 (looks_rewriteSrcset E baseUrl urlToLocalRel _ _)).
      rewrite (shallow_pick_alter _ HP _ _
                 (gentle_rewriteSrcset E baseUrl urlToLocalRel "srcset"
                    ltac:(discriminate) ltac:(discriminate))
                 (looks_rewriteSrcset E baseUrl urlToLocalRel _ _)).
      rewrite (shallow_pick_alter _ HP _ _ (gentle_adopt_lazy E baseUrl urlToLocalRel)
                 (looks_adopt_lazy E baseUrl urlToLocalRel _)).
      rewrite (shallow_pick_alter _ HP _ _
                 (gentle_setLocal E baseUrl urlToLocalRel "href"
                    ltac:(discriminate) ltac:(discriminate))
                 (looks_setLocal E baseUrl urlToLocalRel _ _)).
      rewrite (shallow_pick_alter _ HP _ _
                 (gentle_setLocal E baseUrl urlToLocalRel "src"
                    ltac:(discriminate) ltac:(discriminate))
                 (looks_setLocal E baseUrl urlToLocalRel _ _)).
      rewrite (shallow_pick_alter _ HP _ _
                 (gentle_setLocal E baseUrl urlToLocalRel "src"
                    ltac:(discriminate) ltac:(discriminate))
                 (looks_setLocal E baseUrl urlToLocalRel _ _)).
      rewrite !map_map. reflexivity. }
    assert (Hleaf7 : forallb (childless link_or_style) d7 = true).
    { subst d7. unfold update.
      rewrite !(childless_alter link_or_style respects_link_or_style)
        by first [ apply gentle_setLocal; discriminate
                 | apply gentle_adopt_lazy
                 | apply gentle_rewriteSrcset; discriminate
                 | apply gentle_rewrite_style ].
      assumption. }
    clearbody d7. unfold remove, append.
    set (d8 := flat_map (drop_node (matches SEL_STYLESHEET)) d7).
    set (d9 := flat_map (drop_node (matches SEL_STYLE)) d8).
    assert (Hsheet_sub : forall e, matches SEL_STYLESHEET e = true -> link_or_style e = true).
    { intros e He. unfold link_or_style. now rewrite (matches_stylesheet_link e He). }
    assert (Hstyle_sub : forall e, matches SEL_STYLE e = true -> link_or_style e = true).
    { intros e He. rewrite matches_style in He. unfold link_or_style.
      rewrite He. apply orb_true_r. }
    assert (Hleaf8 : forallb (childless link_or_style) d8 = true).
    { apply childless_drop; [apply respects_link_or_style | assumption]. }
    assert (Hnot_sheet : forall e, has_tag t e = true -> matches SEL_STYLESHEET e = false).
    { intros e He. unfold has_tag in He. apply String.eqb_eq in He.
      destruct (matches SEL_STYLESHEET e) eqn:Hm; [|reflexivity].
      apply matches_stylesheet_link in Hm. congruence. }
    assert (Hnot_style : forall e, has_tag t e = true -> matches SEL_STYLE e = false).
    { intros e He. unfold has_tag in He. apply String.eqb_eq in He.
      rewrite matches_style. apply String.eqb_neq. congruence. }
    assert (H9 : map shallow (pick (has_tag t) d9) = map shallow (pick (has_tag t) d7)).
    { subst d9 d8.
      rewrite (shallow_pick_drop _ HP _ link_or_style Hstyle_sub Hnot_style _ Hleaf8).
      apply (shallow_pick_drop _ HP _ link_or_style Hsheet_sub Hnot_sheet _ Hleaf7). }
    assert (Hnew_link : pick (has_tag t) [STYLE_LINK] = []).
    { unfold pick, STYLE_LINK. cbn [flat_map pick_node app].
      unfold has_tag. cbn [el_tag].
      destruct ("link" =? t) eqn:He; [apply String.eqb_eq in He; congruence | reflexivity]. }
    rewrite (shallow_pick_insert _ HP _ _ _ Hnew_link).
    rewrite H9, H7. now rewrite map_map. }
  apply Forall2_of_maps in Hmaps.
  apply (Forall2_among _ _ _ _ Hmaps). intros e e' Hin Hview.
  apply pick_satisfies in Hin. unfold has_tag in Hin. apply String.eqb_eq in Hin.
  destruct (passes_src E baseUrl urlToLocalRel e) as [Htag Hsrc]; [now rewrite Hin|].
  rewrite <- Hview in Htag, Hsrc. unfold shallow in Htag, Hsrc. cbn [fst snd] in Htag, Hsrc.
  split; [congruence | exact Hsrc].
Qed.

Lemma image_of_the_image_page :
  Forall2 (fun e e' =>
             el_tag e' = "img"
             /\ attr "src" e'
                = saved_src (Sample.env [] []) PAGE_URL
                    [("https://x.test/a.png", "assets/img/a-8346d2b2.png")] e)
    (pick (has_tag "img") IMAGE_DOCUMENT)
    (pick (has_tag "img")
       (rewrite_document (Sample.env [] []) IMAGE_DOCUMENT PAGE_URL
          [("https://x.test/a.png", "assets/img/a-8346d2b2.png")])).
Proof.
  apply (sources_point_to_the_saved_files (Sample.env [] []) IMAGE_DOCUMENT PAGE_URL
           [("https://x.test/a.png", "assets/img/a-8346d2b2.png")] "img").
  - reflexivity.
  - vm_compute. discriminate.
  - reflexivity.
  - simpl. auto.
Defined.

Example the_image_points_to_its_file :
  map (attr "src")
    (pick (has_tag "img")
       (rewrite_document (Sample.env [] []) IMAGE_DOCUMENT PAGE_URL
          [("https://x.test/a.png", "assets/img/a-8346d2b2.png")]))
  = [Some "assets/img/a-8346d2b2.png"].
Proof. vm_compute. reflexivity. Qed.
